(** * A fixed-bucket hash map over sentinel-led circular lists

    Shallow embedding of [Bucket.h], [Reference.h], [IteratorHelper.h] and
    [HashMap.h].  Nodes live in a heap addressed by 64-bit pointers; every
    member function is a computation in a state-and-failure monad over
    that heap and the bucket array.  Failure ([None]) stands for undefined
    behaviour (a load or store through a pointer that is not allocated) or
    for a loop that never leaves.

    Locks are not modelled: every function is run to completion by a
    single thread. *)

From stdpp Require Import gmap list.

Local Open Scope Z_scope.

(** ** Machine integers and pointers *)

(** [std::size_t] is taken to be 64 bits wide. *)
Definition SIZE_MAX1 : Z := 2 ^ 64.

Definition size_add (a b : Z) : Z := (a + b) mod SIZE_MAX1.
Definition size_sub (a b : Z) : Z := (a - b) mod SIZE_MAX1.

(** A [Node<ValueT>*]; [nullptr] is address 0. *)
Abbreviation ptr := Z (only parsing).
Definition nullptr : ptr := 0.

Definition valid_address (p : ptr) : Prop := 0 < p < SIZE_MAX1.

Global Instance valid_address_dec p : Decision (valid_address p).
Proof. unfold valid_address. apply _. Defined.

Section HashMapModel.

(** Template parameters of [HashMap<KeyT, MappedT, BUCKET_COUNT, HashT,
    KeyEqualT>], with the values [KeyT()] and [MappedT()] that the default
    constructor of [Pair] needs. *)
Context {KeyT MappedT : Type}.
Variable m_hasher : KeyT → Z.
Variable m_key_equal : KeyT → KeyT → bool.
Variable default_key : KeyT.
Variable default_mapped : MappedT.
Variable BUCKET_COUNT : Z.

(** ** Bucket.h: data *)

Record Pair : Type := make_pair { first : KeyT; second : MappedT }.

Record Node : Type := mkNode { m_prev : ptr; m_next : ptr; m_value : Pair }.

(** A [Bucket] object without its mutex and its (stateless) comparator. *)
Record Bucket : Type := mkBucket { m_size : Z; m_end : ptr }.

(** What a read of the bucket array at an index outside
    [0, BUCKET_COUNT) yields: the bytes that happen to follow the array. *)
Variable past_the_end : Bucket.

(** The memory a map works on: the node heap and the array [m_buckets].
    [oob_reads] is a ghost log of the indices at which the array was read
    outside its bounds, most recent first. *)
Record State : Type := mkState {
  heap : gmap Z Node;
  m_buckets : list Bucket;
  oob_reads : list Z
}.

Definition with_heap (h : gmap Z Node) (s : State) : State :=
  mkState h (m_buckets s) (oob_reads s).
Definition with_buckets (bs : list Bucket) (s : State) : State :=
  mkState (heap s) bs (oob_reads s).
Definition with_oob (l : list Z) (s : State) : State :=
  mkState (heap s) (m_buckets s) l.

(** ** The monad *)

Definition M (A : Type) : Type := State → option (A * State).

Definition ret {A} (a : A) : M A := λ s, Some (a, s).
Definition fail {A} : M A := λ _, None.
Definition bind {A B} (m : M A) (f : A → M B) : M B :=
  λ s, match m s with
       | Some (a, s') => f a s'
       | None => None
       end.

Notation "'do' x ← m 'in' k" := (bind m (λ x, k))
  (at level 10, x pattern, m at level 100, k at level 200,
   format "'[v' 'do'  x  ←  m  'in' '/' k ']'").
Notation "'exe' m 'in' k" := (bind m (λ _, k))
  (at level 10, m at level 100, k at level 200,
   format "'[v' 'exe'  m  'in' '/' k ']'").

(** Result and final state of a computation. *)
Definition eval {A} (m : M A) (s : State) : option A := fst <$> m s.
Definition exec {A} (m : M A) (s : State) : option State := snd <$> m s.

(** ** Memory primitives *)

Definition load_node (p : ptr) : M Node :=
  λ s, match heap s !! p with
       | Some n => Some (n, s)
       | None => None
       end.

Definition store_node (p : ptr) (n : Node) : M unit :=
  λ s, match heap s !! p with
       | Some _ => Some (tt, with_heap (<[p := n]> (heap s)) s)
       | None => None
       end.

(** [p->m_next], [p->m_prev], [p->m_value.load()]. *)
Definition load_next (p : ptr) : M ptr := do n ← load_node p in ret (m_next n).
Definition load_prev (p : ptr) : M ptr := do n ← load_node p in ret (m_prev n).
Definition load_value (p : ptr) : M Pair := do n ← load_node p in ret (m_value n).

(** [p->m_next = q], [p->m_prev = q], [p->m_value.store(v)]. *)
Definition store_next (p q : ptr) : M unit :=
  do n ← load_node p in store_node p (mkNode (m_prev n) q (m_value n)).
Definition store_prev (p q : ptr) : M unit :=
  do n ← load_node p in store_node p (mkNode q (m_next n) (m_value n)).
Definition store_value (p : ptr) (v : Pair) : M unit :=
  do n ← load_node p in store_node p (mkNode (m_prev n) (m_next n) v).

(** [new Node<ValueT>()].  The allocator's choice of address is an input;
    it has to be a non-null 64-bit address that is not in use. *)
Definition new_Node (p : ptr) : M ptr :=
  λ s, if decide (valid_address p ∧ heap s !! p = None)
       then Some (p, with_heap
                       (<[p := mkNode nullptr nullptr
                                  (make_pair default_key default_mapped)]> (heap s)) s)
       else None.

(** [delete p]. *)
Definition delete_Node (p : ptr) : M unit :=
  λ s, match heap s !! p with
       | Some _ => Some (tt, with_heap (delete p (heap s)) s)
       | None => None
       end.

(** [m_buckets[i]] as an rvalue.  An index outside the array is logged
    and yields [past_the_end]. *)
Definition bucket_at (bs : list Bucket) (i : Z) : option Bucket :=
  if decide (0 ≤ i) then bs !! Z.to_nat i else None.

Definition read_bucket (i : Z) : M Bucket :=
  λ s, match bucket_at (m_buckets s) i with
       | Some b => Some (b, s)
       | None => Some (past_the_end, with_oob (i :: oob_reads s) s)
       end.

(** Assignment to a member of [m_buckets[i]]; only ever reached with an
    index inside the array. *)
Definition write_bucket (i : Z) (b : Bucket) : M unit :=
  λ s, match bucket_at (m_buckets s) i with
       | Some _ => Some (tt, with_buckets (<[Z.to_nat i := b]> (m_buckets s)) s)
       | None => None
       end.

(** ** Bucket.h: member functions

    [this] is named by its index in the array. *)

Definition Bucket_end (this : Z) : M ptr :=
  do b ← read_bucket this in ret (m_end b).

Definition Bucket_begin (this : Z) : M ptr :=
  do e ← Bucket_end this in load_next e.

Definition Bucket_size (this : Z) : M Z :=
  do b ← read_bucket this in ret (m_size b).

Definition Bucket_empty (this : Z) : M bool :=
  do b ← Bucket_begin this in
  do e ← Bucket_end this in
  ret (b =? e).

(** The loop of [find]: [while (node != end()) { ... node = node->m_next; }]. *)
Fixpoint Bucket_find_loop (fuel : nat) (this : Z) (key : KeyT) (node : ptr) : M ptr :=
  match fuel with
  | O => fail
  | S fuel' =>
      do e ← Bucket_end this in
      if node =? e then ret node
      else
        do v ← load_value node in
        if m_key_equal (first v) key then ret node
        else
          do nx ← load_next node in
          Bucket_find_loop fuel' this key nx
  end.

(** A walk that has made more steps than there are nodes is in a cycle
    that misses the sentinel, so the heap's size is fuel enough. *)
Definition Bucket_find (this : Z) (key : KeyT) : M ptr :=
  do node ← Bucket_begin this in
  λ s, Bucket_find_loop (S (size (heap s))) this key node s.

(** [++m_size] and [--m_size]. *)
Definition Bucket_incr_size (this : Z) : M unit :=
  do b ← read_bucket this in
  write_bucket this (mkBucket (size_add (m_size b) 1) (m_end b)).
Definition Bucket_decr_size (this : Z) : M unit :=
  do b ← read_bucket this in
  write_bucket this (mkBucket (size_sub (m_size b) 1) (m_end b)).

(** The four link assignments shared by [insert] and [insert_or_assign]. *)
Definition Bucket_link_back (this : Z) (result : ptr) : M unit :=
  do e ← Bucket_end this in
  exe store_next result e in
  do e' ← Bucket_end this in
  do last ← load_prev e' in
  exe store_prev result last in
  do nx ← load_next result in
  exe store_prev nx result in
  do pv ← load_prev result in
  exe store_next pv result in
  Bucket_incr_size this.

Definition Bucket_insert (this : Z) (value : Pair) (fresh : ptr) : M (ptr * bool) :=
  do result ← Bucket_find this (first value) in
  do e ← Bucket_end this in
  if negb (result =? e) then ret (result, false)
  else
    do result ← new_Node fresh in
    exe Bucket_link_back this result in
    exe store_value result value in
    ret (result, true).

Definition Bucket_insert_or_assign (this : Z) (value : Pair) (fresh : ptr) : M ptr :=
  do result ← Bucket_find this (first value) in
  do e ← Bucket_end this in
  do result ← (if result =? e
               then do result ← new_Node fresh in
                    exe Bucket_link_back this result in
                    ret result
               else ret result) in
  exe store_value result value in
  ret result.

(** [erase(Node<ValueT>* node)]. *)
Definition Bucket_erase_node (this : Z) (node : ptr) : M unit :=
  do e ← Bucket_end this in
  if node =? e then ret tt
  else
    do nx ← load_next node in
    do pv ← load_prev node in
    exe store_prev nx pv in
    do pv' ← load_prev node in
    do nx' ← load_next node in
    exe store_next pv' nx' in
    exe delete_Node node in
    Bucket_decr_size this.

(** [erase(const KeyT& key)]. *)
Definition Bucket_erase (this : Z) (key : KeyT) : M unit :=
  do node ← Bucket_find this key in
  Bucket_erase_node this node.

(** [clear]: [while ((node = begin()) != end()) erase(node);]. *)
Fixpoint Bucket_clear_loop (fuel : nat) (this : Z) : M unit :=
  match fuel with
  | O => fail
  | S fuel' =>
      do node ← Bucket_begin this in
      do e ← Bucket_end this in
      if node =? e then ret tt
      else
        exe Bucket_erase_node this node in
        Bucket_clear_loop fuel' this
  end.

(** Every round frees a node, so the heap's size is fuel enough. *)
Definition Bucket_clear (this : Z) : M unit :=
  λ s, Bucket_clear_loop (S (size (heap s))) this s.

(** ** Reference.h *)

Record Reference : Type := mkReference { m_node : ptr }.

Definition Reference_set (r : Reference) (value : MappedT) : M unit :=
  do v ← load_value (m_node r) in
  let key := first v in
  store_value (m_node r) (make_pair key value).

Definition Reference_set_pair (r : Reference) (value : Pair) : M unit :=
  store_value (m_node r) value.

Definition Reference_get (r : Reference) : M MappedT :=
  do v ← load_value (m_node r) in ret (second v).

Definition Reference_get_pair (r : Reference) : M Pair :=
  load_value (m_node r).

(** ** IteratorHelper.h

    The member [m_buckets] of an iterator always points at the array of
    the one map of the model and is left out. *)

Record IteratorHelper : Type := mkIterator { m_index : Z; m_ref : Reference }.

(** The constructor reads [m_buckets[m_index].end()] whatever the index. *)
Definition IteratorHelper_ctor (index : Z) (node : ptr) : M IteratorHelper :=
  do e ← Bucket_end index in
  ret (mkIterator (if e =? node then BUCKET_COUNT else index) (mkReference node)).

(** [operator*]. *)
Definition IteratorHelper_deref (it : IteratorHelper) : Reference := m_ref it.

(** [do { ++m_index; } while (m_index != BUCKET_COUNT && m_buckets[m_index].empty());] *)
Fixpoint IteratorHelper_skip (fuel : nat) (index : Z) : M Z :=
  match fuel with
  | O => fail
  | S fuel' =>
      let index := size_add index 1 in
      if negb (index =? BUCKET_COUNT)
      then do emp ← Bucket_empty index in
           if emp then IteratorHelper_skip fuel' index else ret index
      else ret index
  end.

(** [operator++]. *)
Definition IteratorHelper_incr (it : IteratorHelper) : M IteratorHelper :=
  do nx ← load_next (m_node (m_ref it)) in
  let ref := mkReference nx in
  do e ← Bucket_end (m_index it) in
  if m_node ref =? e
  then
    do index ← IteratorHelper_skip (S (Z.to_nat BUCKET_COUNT)) (m_index it) in
    if negb (index =? BUCKET_COUNT)
    then do b ← Bucket_begin index in ret (mkIterator index (mkReference b))
    else ret (mkIterator index ref)
  else ret (mkIterator (m_index it) ref).

(** [operator==]. *)
Definition IteratorHelper_eq (this that : IteratorHelper) : bool :=
  if (m_index this =? BUCKET_COUNT) && (m_index that =? BUCKET_COUNT) then true
  else if m_node (m_ref this) =? m_node (m_ref that) then true
  else false.

(** ** HashMap.h *)

(** [new Bucket[BUCKET_COUNT]]: each [Bucket()] allocates its sentinel and
    closes it on itself. *)
Definition Bucket_ctor (fresh : ptr) : M Bucket :=
  do e ← new_Node fresh in
  exe store_next e e in
  exe store_prev e e in
  ret (mkBucket 0 e).

Fixpoint new_Bucket_array (sentinels : list ptr) : M (list Bucket) :=
  match sentinels with
  | [] => ret []
  | p :: ps =>
      do b ← Bucket_ctor p in
      do bs ← new_Bucket_array ps in
      ret (b :: bs)
  end.

(** The default constructor, run on an empty heap; [sentinels] are the
    addresses the allocator hands out, one for each bucket. *)
Definition HashMap_ctor (sentinels : list ptr) : option State :=
  if decide (Z.of_nat (length sentinels) = BUCKET_COUNT)
  then match new_Bucket_array sentinels (mkState ∅ [] []) with
       | Some (bs, s) => Some (with_buckets bs s)
       | None => None
       end
  else None.

Definition bucket_index_of (key : KeyT) : Z := m_hasher key mod BUCKET_COUNT.

Definition HashMap_insert_pair (value : Pair) (fresh : ptr) : M (IteratorHelper * bool) :=
  let bucket_index := bucket_index_of (first value) in
  do result ← Bucket_insert bucket_index value fresh in
  do it ← IteratorHelper_ctor bucket_index (fst result) in
  ret (it, snd result).

Definition HashMap_insert (key : KeyT) (value : MappedT) (fresh : ptr)
  : M (IteratorHelper * bool) :=
  HashMap_insert_pair (make_pair key value) fresh.

Definition HashMap_insert_or_assign_pair (value : Pair) (fresh : ptr) : M IteratorHelper :=
  let bucket_index := bucket_index_of (first value) in
  do result ← Bucket_insert_or_assign bucket_index value fresh in
  IteratorHelper_ctor bucket_index result.

Definition HashMap_insert_or_assign (key : KeyT) (value : MappedT) (fresh : ptr)
  : M IteratorHelper :=
  HashMap_insert_or_assign_pair (make_pair key value) fresh.

Definition HashMap_erase (key : KeyT) : M unit :=
  let bucket_index := bucket_index_of key in
  Bucket_erase bucket_index key.

Definition HashMap_find (key : KeyT) : M IteratorHelper :=
  let bucket_index := bucket_index_of key in
  do result ← Bucket_find bucket_index key in
  IteratorHelper_ctor bucket_index result.

Definition HashMap_end : M IteratorHelper :=
  IteratorHelper_ctor BUCKET_COUNT nullptr.

(** [erase(iterator position)]. *)
Definition HashMap_erase_at (position : IteratorHelper) : M IteratorHelper :=
  do next ← IteratorHelper_incr position in
  do pr ← Reference_get_pair (m_ref position) in
  let key := first pr in
  exe HashMap_erase key in
  ret next.

(** [operator[]]; the address is used only when the key is missing. *)
Definition HashMap_subscript (key : KeyT) (fresh : ptr) : M Reference :=
  do iter ← HashMap_find key in
  do e ← HashMap_end in
  do iter ← (if IteratorHelper_eq iter e
             then do r ← HashMap_insert key default_mapped fresh in ret (fst r)
             else ret iter) in
  ret (IteratorHelper_deref iter).

(** The [for (i = 0; i < BUCKET_COUNT; ++i)] loops, by their trip count. *)
Fixpoint HashMap_clear_loop (trips : nat) (i : Z) : M unit :=
  match trips with
  | O => ret tt
  | S trips' => exe Bucket_clear i in HashMap_clear_loop trips' (size_add i 1)
  end.

(** [m_buckets] is never null here: a moved-from map is not modelled. *)
Definition HashMap_clear : M unit :=
  HashMap_clear_loop (Z.to_nat BUCKET_COUNT) 0.

Fixpoint HashMap_size_loop (trips : nat) (i : Z) (s : Z) : M Z :=
  match trips with
  | O => ret s
  | S trips' =>
      do c ← Bucket_size i in
      HashMap_size_loop trips' (size_add i 1) (size_add s c)
  end.

Definition HashMap_size : M Z :=
  HashMap_size_loop (Z.to_nat BUCKET_COUNT) 0 0.

Fixpoint HashMap_empty_loop (trips : nat) (i : Z) : M bool :=
  match trips with
  | O => ret true
  | S trips' =>
      do emp ← Bucket_empty i in
      if negb emp then ret false
      else HashMap_empty_loop trips' (size_add i 1)
  end.

Definition HashMap_empty : M bool :=
  HashMap_empty_loop (Z.to_nat BUCKET_COUNT) 0.

(** [while (bucket_index < BUCKET_COUNT && m_buckets[bucket_index].empty())
    ++bucket_index;] *)
Fixpoint HashMap_begin_loop (fuel : nat) (bucket_index : Z) : M Z :=
  match fuel with
  | O => fail
  | S fuel' =>
      if bucket_index <? BUCKET_COUNT
      then do emp ← Bucket_empty bucket_index in
           if emp then HashMap_begin_loop fuel' (size_add bucket_index 1)
           else ret bucket_index
      else ret bucket_index
  end.

Definition HashMap_begin : M IteratorHelper :=
  do bucket_index ← HashMap_begin_loop (S (Z.to_nat BUCKET_COUNT)) 0 in
  if bucket_index =? BUCKET_COUNT
  then IteratorHelper_ctor BUCKET_COUNT nullptr
  else do b ← Bucket_begin bucket_index in
       IteratorHelper_ctor bucket_index b.

(** ** A client loop: [for (auto elem : map)], collecting [elem.get_pair()] *)

Fixpoint traverse_loop (fuel : nat) (it e : IteratorHelper) : M (list Pair) :=
  match fuel with
  | O => fail
  | S fuel' =>
      if IteratorHelper_eq it e then ret []
      else
        do v ← Reference_get_pair (IteratorHelper_deref it) in
        do it' ← IteratorHelper_incr it in
        do rest ← traverse_loop fuel' it' e in
        ret (v :: rest)
  end.

Definition traverse : M (list Pair) :=
  do b ← HashMap_begin in
  do e ← HashMap_end in
  λ s, traverse_loop (S (size (heap s))) b e s.

(** ** HashMap.h: the constructors from a range and from a list

    [HashMap(InputIt first, InputIt last, hash)] and
    [HashMap(const std::initializer_list<value_type>&, hash)] run the same
    loop, [insert(thread_safe::make_pair(it->first, it->second))] for
    every element in turn.  Each element comes with the address the
    allocator would hand out for it. *)

Fixpoint HashMap_insert_range (items : list (Pair * ptr)) : M unit :=
  match items with
  | [] => ret tt
  | (v, fresh) :: items' =>
      exe HashMap_insert_pair (make_pair (first v) (second v)) fresh in
      HashMap_insert_range items'
  end.

Definition HashMap_ctor_range (sentinels : list ptr) (items : list (Pair * ptr))
  : option State :=
  match HashMap_ctor sentinels with
  | Some s => exec (HashMap_insert_range items) s
  | None => None
  end.

(** ** Bucket.h and HashMap.h: copies

    The source of a copy is another map, whose nodes live in the same
    heap; its bucket array [that] is only read.  The two maps have the
    same hasher.  [fresh] are the addresses the allocator hands out, in
    this order; the loops return the addresses they have not used. *)

(** The body of the loop of [Bucket::operator=(const Bucket& that)]: a
    new node at [p] takes the pair of [node] and is linked in before the
    sentinel of [this]; the result is [node->m_next]. *)
Definition Bucket_copy_node (this : Z) (node p : ptr) : M ptr :=
  do new_node ← new_Node p in
  do v ← load_value node in
  exe store_value new_node v in
  do e ← Bucket_end this in
  exe store_next new_node e in
  do e' ← Bucket_end this in
  do last ← load_prev e' in
  exe store_prev new_node last in
  do nx ← load_next new_node in
  exe store_prev nx new_node in
  do pv ← load_prev new_node in
  exe store_next pv new_node in
  load_next node.

(** The loop: [while (node != that.end()) { ... node = node->m_next; }]. *)
Fixpoint Bucket_copy_loop (fuel : nat) (this : Z) (that : Bucket) (node : ptr)
    (fresh : list ptr) : M (list ptr) :=
  match fuel with
  | O => fail
  | S fuel' =>
      if node =? m_end that then ret fresh
      else
        match fresh with
        | [] => fail
        | p :: fresh' =>
            do node' ← Bucket_copy_node this node p in
            Bucket_copy_loop fuel' this that node' fresh'
        end
  end.

(** [Bucket::operator=(const Bucket& that)] for a bucket [that] of
    another map, so that [&that != this] holds.  The walk is over the
    list of [that], which no step changes, so the size of the heap at
    the start is fuel enough. *)
Definition Bucket_copy_assign (this : Z) (that : Bucket) (fresh : list ptr)
  : M (list ptr) :=
  exe Bucket_clear this in
  do node ← load_next (m_end that) in
  do rest ← (λ s, Bucket_copy_loop (S (size (heap s))) this that node fresh s) in
  do b ← read_bucket this in
  exe write_bucket this (mkBucket (m_size that) (m_end b)) in
  ret rest.

(** [std::copy(that.m_buckets, that.m_buckets + BUCKET_COUNT, m_buckets)],
    by its trip count. *)
Fixpoint HashMap_copy_buckets (trips : nat) (i : Z) (that : list Bucket)
    (fresh : list ptr) : M (list ptr) :=
  match trips with
  | O => ret fresh
  | S trips' =>
      match bucket_at that i with
      | Some b =>
          do fresh' ← Bucket_copy_assign i b fresh in
          HashMap_copy_buckets trips' (size_add i 1) that fresh'
      | None => fail
      end
  end.

(** [HashMap(const HashMap& that)]: the new map takes the place of
    [m_buckets] in the state; the nodes of [that] stay in the heap. *)
Definition HashMap_copy_ctor (that : list Bucket) (sentinels fresh : list ptr)
  : M (list ptr) :=
  if decide (Z.of_nat (length sentinels) = BUCKET_COUNT)
  then
    do bs ← new_Bucket_array sentinels in
    exe (λ s, Some (tt, with_buckets bs s)) in
    HashMap_copy_buckets (Z.to_nat BUCKET_COUNT) 0 that fresh
  else fail.

(** [operator=(const HashMap& that)] with [&that != this]. *)
Definition HashMap_copy_assign (that : list Bucket) (fresh : list ptr) : M (list ptr) :=
  exe HashMap_clear in
  HashMap_copy_buckets (Z.to_nat BUCKET_COUNT) 0 that fresh.

(** ** Bucket.h and HashMap.h: destructors *)

(** [~Bucket()]. *)
Definition Bucket_dtor (this : Z) : M unit := Bucket_clear this.

(** [delete[] m_buckets]: the destructors of the elements run from the
    last to the first, then the array is gone. *)
Fixpoint delete_Bucket_array (n : nat) : M unit :=
  match n with
  | O => λ s, Some (tt, with_buckets [] s)
  | S n' => exe Bucket_dtor (Z.of_nat n') in delete_Bucket_array n'
  end.

(** [~HashMap()]. *)
Definition HashMap_dtor : M unit :=
  exe HashMap_clear in
  delete_Bucket_array (Z.to_nat BUCKET_COUNT).

(** ** A client loop: [for (it = begin(); it != end(); ) it = erase(it);] *)

(** [operator!=]. *)
Definition IteratorHelper_ne (this that : IteratorHelper) : bool :=
  negb (IteratorHelper_eq this that).

Fixpoint erase_all_loop (fuel : nat) (it : IteratorHelper) : M unit :=
  match fuel with
  | O => fail
  | S fuel' =>
      do e ← HashMap_end in
      if IteratorHelper_ne it e
      then do it' ← HashMap_erase_at it in erase_all_loop fuel' it'
      else ret tt
  end.

(** Every round frees a node, so the heap's size is fuel enough. *)
Definition erase_all : M unit :=
  do it ← HashMap_begin in
  λ s, erase_all_loop (S (size (heap s))) it s.

(** * Specification *)

(** ** The abstract contents of a state

    One list for each bucket, in list order: the address of every data
    node with the pair it holds. *)

Definition next_of (h : gmap Z Node) (p : ptr) : option ptr := m_next <$> h !! p.
Definition prev_of (h : gmap Z Node) (p : ptr) : option ptr := m_prev <$> h !! p.
Definition value_of (h : gmap Z Node) (p : ptr) : option Pair := m_value <$> h !! p.

(** Neighbours in [l] point at each other. *)
Fixpoint links (h : gmap Z Node) (l : list ptr) : Prop :=
  match l with
  | a :: (b :: _) as t => next_of h a = Some b ∧ prev_of h b = Some a ∧ links h t
  | _ => True
  end.

Definition cells (b : Bucket) (l : list (ptr * Pair)) : list ptr := m_end b :: l.*1.

(** The sentinel and the data nodes form a ring, the nodes hold the pairs
    of [l], and [m_size] counts them. *)
Definition bucket_repr (h : gmap Z Node) (b : Bucket) (l : list (ptr * Pair)) : Prop :=
  links h (cells b l ++ [m_end b]) ∧
  Forall (λ c, value_of h c.1 = Some c.2) l ∧
  m_size b = Z.of_nat (length l).

(** No key of the list matches a later one. *)
Fixpoint uniq_keys (l : list (ptr * Pair)) : Prop :=
  match l with
  | [] => True
  | c :: t => Forall (λ d, m_key_equal (first c.2) (first d.2) = false) t ∧ uniq_keys t
  end.

Definition all_cells (bs : list Bucket) (css : list (list (ptr * Pair))) : list (list ptr) :=
  zip_with cells bs css.

(** The representation invariant. *)
Record Inv (s : State) (css : list (list (ptr * Pair))) : Prop := mkInv {
  inv_count : Z.of_nat (length (m_buckets s)) = BUCKET_COUNT;
  inv_repr : Forall2 (bucket_repr (heap s)) (m_buckets s) css;
  inv_nodup : NoDup (concat (all_cells (m_buckets s) css));
  inv_valid : Forall valid_address (concat (all_cells (m_buckets s) css));
  inv_place : ∀ i l, css !! i = Some l →
              Forall (λ c, bucket_index_of (first c.2) = Z.of_nat i) l;
  inv_uniq : Forall uniq_keys css
}.

(** The first cell of a bucket whose key matches, as [find] sees it. *)
Fixpoint find_cell (key : KeyT) (l : list (ptr * Pair)) : option (ptr * Pair) :=
  match l with
  | [] => None
  | c :: t => if m_key_equal (first c.2) key then Some c else find_cell key t
  end.

(** The bucket a key is routed to. *)
Definition bucket_of (css : list (list (ptr * Pair))) (key : KeyT) : list (ptr * Pair) :=
  default [] (css !! Z.to_nat (bucket_index_of key)).

(** The value the contents hold for a key. *)
Definition model_lookup (css : list (list (ptr * Pair))) (key : KeyT) : option MappedT :=
  (λ c, second c.2) <$> find_cell key (bucket_of css key).

(** What a program can observe of the value stored for a key:
    [find], the comparison with [end()], and [get()]. *)
Definition stored_value (key : KeyT) : M (option MappedT) :=
  do it ← HashMap_find key in
  do e ← HashMap_end in
  if IteratorHelper_eq it e then ret None
  else do v ← Reference_get (IteratorHelper_deref it) in ret (Some v).

(** ** Notions the statements and proofs use *)

Definition allocated (h : gmap Z Node) (p : ptr) : Prop := is_Some (h !! p).

Definition set_next (p q : ptr) (h : gmap Z Node) : gmap Z Node :=
  alter (λ n, mkNode (m_prev n) q (m_value n)) p h.

Definition set_prev (p q : ptr) (h : gmap Z Node) : gmap Z Node :=
  alter (λ n, mkNode q (m_next n) (m_value n)) p h.

Definition set_value (p : ptr) (v : Pair) (h : gmap Z Node) : gmap Z Node :=
  alter (λ n, mkNode (m_prev n) (m_next n) v) p h.

Definition fresh_node : Node :=
  mkNode nullptr nullptr (make_pair default_key default_mapped).

Definition first_of (e : ptr) (l : list (ptr * Pair)) : ptr :=
  match l with [] => e | c :: _ => c.1 end.

Definition last_of (e : ptr) (l : list (ptr * Pair)) : ptr :=
  match last l with Some c => c.1 | None => e end.

Definition found (e : ptr) (key : KeyT) (l : list (ptr * Pair)) : ptr :=
  from_option fst e (find_cell key l).

Definition linked_back (i : Z) (b : Bucket) (p t : ptr) (s : State) : State :=
  with_buckets (<[Z.to_nat i := mkBucket (size_add (m_size b) 1) (m_end b)]> (m_buckets s))
    (with_heap
       (set_next t p (set_prev (m_end b) p (set_prev p t (set_next p (m_end b) (heap s))))) s).

Definition unlinked (i : Z) (b : Bucket) (a x y : ptr) (s : State) : State :=
  with_buckets (<[Z.to_nat i := mkBucket (size_sub (m_size b) 1) (m_end b)]> (m_buckets s))
    (with_heap (delete a (set_next x y (set_prev y x (heap s)))) s).

Record bucket_view (s : State) (css : list (list (ptr * Pair))) (i : Z)
    (b : Bucket) (l : list (ptr * Pair)) : Prop := mkView {
  view_at : bucket_at (m_buckets s) i = Some b;
  view_bucket : m_buckets s !! Z.to_nat i = Some b;
  view_cells : css !! Z.to_nat i = Some l;
  view_all : all_cells (m_buckets s) css !! Z.to_nat i = Some (cells b l);
  view_repr : bucket_repr (heap s) b l;
  view_nodup : NoDup (cells b l);
  view_valid : Forall valid_address (cells b l);
  view_place : Forall (λ c, bucket_index_of (first c.2) = i) l;
  view_uniq : uniq_keys l
}.

Definition pushed_back (i : Z) (b : Bucket) (l : list (ptr * Pair))
    (p : ptr) (value : Pair) (s : State) : State :=
  let s1 := linked_back i b p (last_of (m_end b) l)
              (with_heap (<[p := fresh_node]> (heap s)) s) in
  with_heap (set_value p value (heap s1)) s1.

(** The cursor [find] returns: on the first match, or past the end with
    the bucket's sentinel as node. *)
Definition find_cursor (i : Z) (b : Bucket) (l : list (ptr * Pair)) (key : KeyT)
  : IteratorHelper :=
  match find_cell key l with
  | Some c => mkIterator i (mkReference c.1)
  | None => mkIterator BUCKET_COUNT (mkReference (m_end b))
  end.

(** [position css it rest]: the cursor [it] stands in front of the cells
    [rest], which are all that a traversal has still to visit. *)
Inductive position (css : list (list (ptr * Pair))) : IteratorHelper → list (ptr * Pair) → Prop :=
| position_end it :
    m_index it = BUCKET_COUNT → position css it []
| position_on it i l1 c l2 :
    m_index it = Z.of_nat i → css !! i = Some (l1 ++ c :: l2) →
    m_node (m_ref it) = c.1 →
    position css it (c :: l2 ++ concat (drop (S i) css)).

Definition same_memory (s s' : State) : Prop :=
  heap s' = heap s ∧ m_buckets s' = m_buckets s.

Definition end_cursor : IteratorHelper := mkIterator BUCKET_COUNT (mkReference nullptr).

Definition sentinel_node (p : ptr) : Node :=
  mkNode p p (make_pair default_key default_mapped).

(** The first pair of a list whose key matches. *)
Fixpoint find_pair (key : KeyT) (l : list Pair) : option Pair :=
  match l with
  | [] => None
  | v :: t => if m_key_equal (first v) key then Some v else find_pair key t
  end.

(** No key of the list matches a later one. *)
Fixpoint distinct_keys (l : list Pair) : Prop :=
  match l with
  | [] => True
  | v :: t => Forall (λ w, m_key_equal (first v) (first w) = false) t ∧ distinct_keys t
  end.

(** Every number of the list is at most the later ones. *)
Fixpoint ascending (l : list Z) : Prop :=
  match l with
  | [] => True
  | x :: t => Forall (λ y, x ≤ y) t ∧ ascending t
  end.

Definition cell_index (c : ptr * Pair) : Z := bucket_index_of (first c.2).

(** Buckets [o], [o+1], ... hold the cells of [css], in this order. *)
Definition placed_from (o : nat) (css : list (list (ptr * Pair))) : Prop :=
  ∀ i l, css !! i = Some l → Forall (λ c, cell_index c = Z.of_nat (o + i)) l.

Inductive Op : Type :=
| OpInsert (key : KeyT) (value : MappedT) (fresh : ptr)
| OpInsertOrAssign (key : KeyT) (value : MappedT) (fresh : ptr)
| OpErase (key : KeyT)
| OpEraseFound (key : KeyT)
| OpSubscript (key : KeyT) (fresh : ptr)
| OpClear.

(** [OpEraseFound k] is the client code
    [it = find(k); if (!(it == end())) erase(it);]. *)
Definition apply_op (op : Op) : M unit :=
  match op with
  | OpInsert key value fresh =>
      exe HashMap_insert key value fresh in ret tt
  | OpInsertOrAssign key value fresh =>
      exe HashMap_insert_or_assign key value fresh in ret tt
  | OpErase key => HashMap_erase key
  | OpEraseFound key =>
      do it ← HashMap_find key in
      do e ← HashMap_end in
      if IteratorHelper_eq it e then ret tt
      else exe HashMap_erase_at it in ret tt
  | OpSubscript key fresh =>
      exe HashMap_subscript key fresh in ret tt
  | OpClear => HashMap_clear
  end.

Fixpoint run_ops (ops : list Op) : M unit :=
  match ops with
  | [] => ret tt
  | op :: ops' => exe apply_op op in run_ops ops'
  end.

(** The address an operation may hand to [new]. *)
Definition op_fresh (op : Op) : option ptr :=
  match op with
  | OpInsert _ _ fresh | OpInsertOrAssign _ _ fresh | OpSubscript _ fresh => Some fresh
  | _ => None
  end.

Definition usable (s : State) (p : ptr) : Prop := valid_address p ∧ heap s !! p = None.

(** ** Changes of the contents, step by step *)

(** One step by which a member function changes the contents: none
    (the ghost log apart), a node pushed to the back of a bucket, a pair
    stored in a node under an equal key, a node unlinked and freed. *)
Inductive change :
    State → list (list (ptr * Pair)) → State → list (list (ptr * Pair)) → Prop :=
| change_none s css s' :
    same_memory s s' → change s css s' css
| change_push s css i b l p value :
    bucket_view s css i b l → valid_address p → heap s !! p = None →
    bucket_index_of (first value) = i → find_cell (first value) l = None →
    change s css (pushed_back i b l p value s) (<[Z.to_nat i := l ++ [(p, value)]]> css)
| change_assign s css i b l1 c l2 value :
    bucket_view s css i b (l1 ++ c :: l2) →
    m_key_equal (first c.2) (first value) = true →
    bucket_index_of (first value) = i →
    change s css (with_heap (set_value c.1 value (heap s)) s)
           (<[Z.to_nat i := l1 ++ (c.1, value) :: l2]> css)
| change_unlink s css i b l1 c l2 :
    bucket_view s css i b (l1 ++ c :: l2) →
    change s css (unlinked i b c.1 (last_of (m_end b) l1) (first_of (m_end b) l2) s)
           (<[Z.to_nat i := l1 ++ l2]> css).

Inductive changes :
    State → list (list (ptr * Pair)) → State → list (list (ptr * Pair)) → Prop :=
| changes_nil s css : changes s css s css
| changes_cons s css s1 css1 s2 css2 :
    change s css s1 css1 → changes s1 css1 s2 css2 → changes s css s2 css2.

(** The nodes of the map: sentinels and data nodes. *)
Definition nodes (s : State) (css : list (list (ptr * Pair))) : list ptr :=
  concat (all_cells (m_buckets s) css).

(** The heap holds no node but those of the map. *)
Definition tight (s : State) (css : list (list (ptr * Pair))) : Prop :=
  ∀ x, allocated (heap s) x → x ∈ nodes s css.

(** Every sentinel holds the pair [Node()] gave it. *)
Definition sentinels_default (s : State) : Prop :=
  Forall (λ b, value_of (heap s) (m_end b) = Some (make_pair default_key default_mapped))
         (m_buckets s).

(** A second map in the same heap, with the bucket array [that] and the
    contents [tss], that shares no node with the map of the state. *)
Record apart (s : State) (css : list (list (ptr * Pair)))
    (that : list Bucket) (tss : list (list (ptr * Pair))) : Prop := mkApart {
  apart_inv : Inv (with_buckets that s) tss;
  apart_nodes : ∀ x, x ∈ nodes s css → x ∉ concat (all_cells that tss)
}.

(** The pairs of a list whose key no earlier pair of the list has. *)
Fixpoint first_of_each_key (l : list Pair) : list Pair :=
  match l with
  | [] => []
  | v :: t =>
      v :: filter (λ w, m_key_equal (first v) (first w) = false) (first_of_each_key t)
  end.

(** The pairs, bucket by bucket, without the addresses. *)
Definition pairs_of (css : list (list (ptr * Pair))) : list (list Pair) :=
  (λ l : list (ptr * Pair), l.*2) <$> css.

(** A ring of nodes around the sentinel [e] that holds the pairs of [l];
    the size field of the bucket is left out. *)
Definition ring_repr (h : gmap Z Node) (e : ptr) (l : list (ptr * Pair)) : Prop :=
  links h (e :: l.*1 ++ [e]) ∧ Forall (λ c, value_of h c.1 = Some c.2) l.

(** The heap after one round of the loop of [Bucket::operator=]: the new
    node [p] holds [v] and is linked in between [t] and the sentinel. *)
Definition copied_node (e t p : ptr) (v : Pair) (h : gmap Z Node) : gmap Z Node :=
  set_next t p (set_prev e p (set_prev p t (set_next p e
    (set_value p v (<[p := fresh_node]> h))))).

(** A hasher that sends the keys equal to [key] where [m_hasher] sends
    [to], and agrees with [m_hasher] on every other key. *)
Definition rerouted (key to : KeyT) : KeyT → Z :=
  λ k, if m_key_equal k key then m_hasher to else m_hasher k.

(** ** Assumptions on the template arguments *)

Hypothesis BUCKET_COUNT_range : 0 < BUCKET_COUNT < SIZE_MAX1.
Hypothesis key_equal_refl : ∀ k, m_key_equal k k = true.
Hypothesis key_equal_sym : ∀ a b, m_key_equal a b = true → m_key_equal b a = true.
Hypothesis key_equal_trans :
  ∀ a b c, m_key_equal a b = true → m_key_equal b c = true → m_key_equal a c = true.
Hypothesis hasher_key_equal : ∀ a b, m_key_equal a b = true → m_hasher a = m_hasher b.

(** * Proofs *)

(** ** The monad *)

Lemma bind_eq {A B} (m : M A) (f : A → M B) s a s' :
  m s = Some (a, s') → bind m f s = f a s'.
Proof. unfold bind. by intros ->. Qed.

(** ** Lists *)

Lemma concat_insert_middle {A} (ls : list (list A)) i a a' :
  ls !! i = Some a →
  ∃ pre post, concat ls = pre ++ a ++ post ∧ concat (<[i := a']> ls) = pre ++ a' ++ post.
Proof.
  intros Hi.
  exists (concat (take i ls)), (concat (drop (S i) ls)).
  assert (Hlen : (i < length ls)%nat) by (by eapply lookup_lt_Some).
  split.
  - rewrite <- (take_drop_middle ls i a Hi) at 1.
    by rewrite concat_app, concat_cons.
  - rewrite insert_take_drop by done.
    by rewrite concat_app, concat_cons.
Qed.

Lemma NoDup_concat_insert {A} (ls : list (list A)) i a a' :
  ls !! i = Some a → NoDup (concat ls) → NoDup a' →
  (∀ x, x ∈ a' → x ∈ a ∨ x ∉ concat ls) →
  NoDup (concat (<[i := a']> ls)).
Proof.
  intros Hi Hnd Ha' Hsub.
  destruct (concat_insert_middle ls i a a' Hi) as (pre & post & E1 & E2).
  rewrite E2. rewrite E1 in Hnd, Hsub.
  rewrite !NoDup_app in Hnd. destruct Hnd as (Hpre & Hd1 & Ha & Hd2 & Hpost).
  rewrite !NoDup_app. repeat split; try done.
  - intros x Hx [Hx'|Hx']%elem_of_app.
    + destruct (Hsub x Hx') as [?|Hn].
      * eapply Hd1; [done|]. apply elem_of_app; auto.
      * apply Hn. apply elem_of_app; auto.
    + eapply Hd1; [done|]. apply elem_of_app; auto.
  - intros x Hx Hx'. destruct (Hsub x Hx) as [?|Hn].
    + by eapply Hd2.
    + apply Hn. rewrite !elem_of_app; auto.
Qed.

Lemma Forall_concat_insert {A} (P : A → Prop) (ls : list (list A)) i a' :
  Forall P (concat ls) → Forall P a' → Forall P (concat (<[i := a']> ls)).
Proof.
  intros H Ha'. destruct (ls !! i) as [a|] eqn:Hi.
  - destruct (concat_insert_middle ls i a a' Hi) as (pre & post & E1 & E2).
    rewrite E2. rewrite E1 in H. rewrite !Forall_app in H. rewrite !Forall_app.
    naive_solver.
  - rewrite list_insert_ge; [done|]. by apply lookup_ge_None.
Qed.

Lemma elem_of_concat_lookup {A} (ls : list (list A)) i a x :
  ls !! i = Some a → x ∈ a → x ∈ concat ls.
Proof.
  intros Hi Hx.
  destruct (concat_insert_middle ls i a a Hi) as (pre & post & E1 & _).
  rewrite E1, !elem_of_app. auto.
Qed.

Lemma NoDup_concat_lookup {A} (ls : list (list A)) i a :
  NoDup (concat ls) → ls !! i = Some a → NoDup a.
Proof.
  intros Hnd Hi.
  destruct (concat_insert_middle ls i a a Hi) as (pre & post & E1 & _).
  rewrite E1, !NoDup_app in Hnd. naive_solver.
Qed.

Lemma NoDup_concat_disjoint {A} (ls : list (list A)) i j a b x :
  NoDup (concat ls) → ls !! i = Some a → ls !! j = Some b → i ≠ j →
  x ∈ a → x ∈ b → False.
Proof.
  intros Hnd Hi Hj Hij Ha Hb.
  destruct (concat_insert_middle ls i a [] Hi) as (pre & post & E1 & E2).
  assert (Hj' : <[i := []]> ls !! j = Some b) by (by rewrite list_lookup_insert_ne).
  pose proof (elem_of_concat_lookup _ _ _ _ Hj' Hb) as Hin.
  rewrite E2 in Hin. simpl in Hin.
  rewrite E1, !NoDup_app in Hnd. destruct Hnd as (_ & Hd1 & _ & Hd2 & _).
  apply elem_of_app in Hin as [Hin|Hin].
  - eapply Hd1; [done|]. apply elem_of_app; auto.
  - by eapply Hd2.
Qed.

(** Distinct 64-bit addresses: there are fewer than [2^64] of them. *)
Lemma valid_addresses_count (l : list ptr) :
  NoDup l → Forall valid_address l → Z.of_nat (length l) < SIZE_MAX1.
Proof.
  intros Hnd Hv.
  assert (Hsub : l ⊆+ seqZ 1 (SIZE_MAX1 - 1)).
  { apply NoDup_submseteq; [done|]. intros x Hx.
    rewrite Forall_forall in Hv. specialize (Hv x Hx). unfold valid_address in Hv.
    apply elem_of_seqZ. lia. }
  apply submseteq_length in Hsub. rewrite length_seqZ in Hsub.
  unfold SIZE_MAX1 in *. lia.
Qed.

(** ** The heap, field by field *)

Lemma insert_alter_node (h : gmap Z Node) p n (f : Node → Node) :
  h !! p = Some n → <[p := f n]> h = alter f p h.
Proof.
  intros Hp. apply map_eq. intros x. rewrite lookup_insert, lookup_alter.
  case_decide; [by subst; rewrite Hp|done].
Qed.

Lemma allocated_set_next h p q x : allocated (set_next p q h) x ↔ allocated h x.
Proof.
  unfold allocated, set_next. rewrite lookup_alter. case_decide; [subst|done].
  by rewrite fmap_is_Some.
Qed.
Lemma allocated_set_prev h p q x : allocated (set_prev p q h) x ↔ allocated h x.
Proof.
  unfold allocated, set_prev. rewrite lookup_alter. case_decide; [subst|done].
  by rewrite fmap_is_Some.
Qed.
Lemma allocated_set_value h p v x : allocated (set_value p v h) x ↔ allocated h x.
Proof.
  unfold allocated, set_value. rewrite lookup_alter. case_decide; [subst|done].
  by rewrite fmap_is_Some.
Qed.
Lemma allocated_insert h p n x : allocated (<[p := n]> h) x ↔ x = p ∨ allocated h x.
Proof.
  unfold allocated. rewrite lookup_insert. case_decide; subst.
  - split; [auto|by eexists].
  - naive_solver.
Qed.
Lemma allocated_delete h p x : allocated (delete p h) x ↔ x ≠ p ∧ allocated h x.
Proof.
  unfold allocated. rewrite lookup_delete. case_decide; subst.
  - split; [by intros []|naive_solver].
  - naive_solver.
Qed.

Lemma allocated_next h p : allocated h p ↔ is_Some (next_of h p).
Proof. unfold allocated, next_of. by rewrite fmap_is_Some. Qed.
Lemma allocated_prev h p : allocated h p ↔ is_Some (prev_of h p).
Proof. unfold allocated, prev_of. by rewrite fmap_is_Some. Qed.
Lemma allocated_value h p : allocated h p ↔ is_Some (value_of h p).
Proof. unfold allocated, value_of. by rewrite fmap_is_Some. Qed.

Lemma next_set_next_eq h p q : allocated h p → next_of (set_next p q h) p = Some q.
Proof. intros [n Hn]. unfold next_of, set_next. by rewrite lookup_alter_eq, Hn. Qed.
Lemma next_set_next_ne h p q x : x ≠ p → next_of (set_next p q h) x = next_of h x.
Proof. intros. unfold next_of, set_next. by rewrite lookup_alter_ne. Qed.
Lemma prev_set_next h p q x : prev_of (set_next p q h) x = prev_of h x.
Proof.
  unfold prev_of, set_next. rewrite lookup_alter. case_decide; [subst|done].
  by destruct (h !! x).
Qed.
Lemma value_set_next h p q x : value_of (set_next p q h) x = value_of h x.
Proof.
  unfold value_of, set_next. rewrite lookup_alter. case_decide; [subst|done].
  by destruct (h !! x).
Qed.

Lemma prev_set_prev_eq h p q : allocated h p → prev_of (set_prev p q h) p = Some q.
Proof. intros [n Hn]. unfold prev_of, set_prev. by rewrite lookup_alter_eq, Hn. Qed.
Lemma prev_set_prev_ne h p q x : x ≠ p → prev_of (set_prev p q h) x = prev_of h x.
Proof. intros. unfold prev_of, set_prev. by rewrite lookup_alter_ne. Qed.
Lemma next_set_prev h p q x : next_of (set_prev p q h) x = next_of h x.
Proof.
  unfold next_of, set_prev. rewrite lookup_alter. case_decide; [subst|done].
  by destruct (h !! x).
Qed.
Lemma value_set_prev h p q x : value_of (set_prev p q h) x = value_of h x.
Proof.
  unfold value_of, set_prev. rewrite lookup_alter. case_decide; [subst|done].
  by destruct (h !! x).
Qed.

Lemma value_set_value_eq h p v : allocated h p → value_of (set_value p v h) p = Some v.
Proof. intros [n Hn]. unfold value_of, set_value. by rewrite lookup_alter_eq, Hn. Qed.
Lemma value_set_value_ne h p v x : x ≠ p → value_of (set_value p v h) x = value_of h x.
Proof. intros. unfold value_of, set_value. by rewrite lookup_alter_ne. Qed.
Lemma next_set_value h p v x : next_of (set_value p v h) x = next_of h x.
Proof.
  unfold next_of, set_value. rewrite lookup_alter. case_decide; [subst|done].
  by destruct (h !! x).
Qed.
Lemma prev_set_value h p v x : prev_of (set_value p v h) x = prev_of h x.
Proof.
  unfold prev_of, set_value. rewrite lookup_alter. case_decide; [subst|done].
  by destruct (h !! x).
Qed.

Lemma next_insert_ne h p n x : x ≠ p → next_of (<[p := n]> h) x = next_of h x.
Proof. intros. unfold next_of. by rewrite lookup_insert_ne. Qed.
Lemma prev_insert_ne h p n x : x ≠ p → prev_of (<[p := n]> h) x = prev_of h x.
Proof. intros. unfold prev_of. by rewrite lookup_insert_ne. Qed.
Lemma value_insert_ne h p n x : x ≠ p → value_of (<[p := n]> h) x = value_of h x.
Proof. intros. unfold value_of. by rewrite lookup_insert_ne. Qed.
Lemma value_insert_eq h p n : value_of (<[p := n]> h) p = Some (m_value n).
Proof. unfold value_of. by rewrite lookup_insert_eq. Qed.

Lemma next_delete_ne h p x : x ≠ p → next_of (delete p h) x = next_of h x.
Proof. intros. unfold next_of. by rewrite lookup_delete_ne. Qed.
Lemma prev_delete_ne h p x : x ≠ p → prev_of (delete p h) x = prev_of h x.
Proof. intros. unfold prev_of. by rewrite lookup_delete_ne. Qed.
Lemma value_delete_ne h p x : x ≠ p → value_of (delete p h) x = value_of h x.
Proof. intros. unfold value_of. by rewrite lookup_delete_ne. Qed.

(** ** The memory primitives as equations *)

Lemma load_next_eq s p q : next_of (heap s) p = Some q → load_next p s = Some (q, s).
Proof.
  unfold next_of, load_next, load_node, bind, ret.
  destruct (heap s !! p); simpl; congruence.
Qed.
Lemma load_prev_eq s p q : prev_of (heap s) p = Some q → load_prev p s = Some (q, s).
Proof.
  unfold prev_of, load_prev, load_node, bind, ret.
  destruct (heap s !! p); simpl; congruence.
Qed.
Lemma load_value_eq s p v : value_of (heap s) p = Some v → load_value p s = Some (v, s).
Proof.
  unfold value_of, load_value, load_node, bind, ret.
  destruct (heap s !! p); simpl; congruence.
Qed.

Lemma store_next_eq s p q :
  allocated (heap s) p → store_next p q s = Some (tt, with_heap (set_next p q (heap s)) s).
Proof.
  intros [n Hn]. unfold store_next, load_node, store_node, bind. rewrite Hn. simpl. rewrite Hn.
  unfold set_next. by rewrite <- (insert_alter_node _ _ _ (λ n, mkNode (m_prev n) q (m_value n)) Hn).
Qed.
Lemma store_prev_eq s p q :
  allocated (heap s) p → store_prev p q s = Some (tt, with_heap (set_prev p q (heap s)) s).
Proof.
  intros [n Hn]. unfold store_prev, load_node, store_node, bind. rewrite Hn. simpl. rewrite Hn.
  unfold set_prev. by rewrite <- (insert_alter_node _ _ _ (λ n, mkNode q (m_next n) (m_value n)) Hn).
Qed.
Lemma store_value_eq s p v :
  allocated (heap s) p → store_value p v s = Some (tt, with_heap (set_value p v (heap s)) s).
Proof.
  intros [n Hn]. unfold store_value, load_node, store_node, bind. rewrite Hn. simpl. rewrite Hn.
  unfold set_value. by rewrite <- (insert_alter_node _ _ _ (λ n, mkNode (m_prev n) (m_next n) v) Hn).
Qed.

Lemma new_Node_eq s p :
  valid_address p → heap s !! p = None →
  new_Node p s = Some (p, with_heap (<[p := fresh_node]> (heap s)) s).
Proof. intros. unfold new_Node. by rewrite decide_True. Qed.

Lemma delete_Node_eq s p :
  allocated (heap s) p → delete_Node p s = Some (tt, with_heap (delete p (heap s)) s).
Proof. intros [n Hn]. unfold delete_Node. by rewrite Hn. Qed.

Lemma read_bucket_eq s i b :
  bucket_at (m_buckets s) i = Some b → read_bucket i s = Some (b, s).
Proof. unfold read_bucket. by intros ->. Qed.

Lemma Bucket_end_eq s i b :
  bucket_at (m_buckets s) i = Some b → Bucket_end i s = Some (m_end b, s).
Proof. intros H. unfold Bucket_end. by rewrite (bind_eq _ _ _ _ _ (read_bucket_eq _ _ _ H)). Qed.

Lemma Bucket_size_eq s i b :
  bucket_at (m_buckets s) i = Some b → Bucket_size i s = Some (m_size b, s).
Proof. intros H. unfold Bucket_size. by rewrite (bind_eq _ _ _ _ _ (read_bucket_eq _ _ _ H)). Qed.

Lemma write_bucket_eq s i b b' :
  bucket_at (m_buckets s) i = Some b →
  write_bucket i b' s = Some (tt, with_buckets (<[Z.to_nat i := b']> (m_buckets s)) s).
Proof. unfold write_bucket. by intros ->. Qed.

(** ** Rings of nodes *)

Lemma links_join h (L1 L2 : list ptr) x y :
  last L1 = Some x → head L2 = Some y →
  links h (L1 ++ L2) ↔
  links h L1 ∧ (next_of h x = Some y ∧ prev_of h y = Some x) ∧ links h L2.
Proof.
  intros Hl Hh. destruct L2 as [|y' L2]; [done|]. simpl in Hh. simplify_eq.
  induction L1 as [|a [|b L1] IH]; [done| |].
  - simpl in Hl. simplify_eq. simpl. destruct L2; naive_solver.
  - specialize (IH Hl). simpl in IH |- *. rewrite IH. naive_solver.
Qed.

Lemma links_frame h h' (L : list ptr) :
  NoDup L → links h L →
  (∀ x, x ∈ L → last L ≠ Some x → next_of h' x = next_of h x) →
  (∀ x, x ∈ L → head L ≠ Some x → prev_of h' x = prev_of h x) →
  links h' L.
Proof.
  induction L as [|a [|b L] IH]; [done..|].
  intros Hnd (Hn & Hp & Hl) Hnx Hpv.
  apply NoDup_cons in Hnd as [Ha Hnd].
  assert (Hlast : ∀ x, last (a :: b :: L) = Some x → x ∈ b :: L).
  { intros x Hx. change (last (b :: L) = Some x) in Hx.
    apply last_Some in Hx as [l' ->]. apply elem_of_app. right. by left. }
  simpl. split_and!.
  - rewrite Hnx; [done|by left|]. intros Hx. by apply Hlast in Hx.
  - rewrite Hpv; [done|right; by left|]. simpl. intros [= <-]. apply Ha. by left.
  - apply IH; [done..| |].
    + intros x Hx Hx'. apply Hnx; [by right|done].
    + intros x Hx Hx'. apply Hpv; [by right|]. simpl. intros [= <-]. done.
Qed.

Lemma links_allocated h (L : list ptr) x :
  links h L → (2 ≤ length L)%nat → x ∈ L → allocated h x.
Proof.
  induction L as [|a [|b L] IH]; simpl; [lia..|].
  intros (Hn & Hp & Hl) _ Hx.
  apply elem_of_cons in Hx as [->|Hx].
  - apply allocated_next. by eexists.
  - destruct L as [|c L].
    + apply list_elem_of_singleton in Hx as ->. apply allocated_prev. by eexists.
    + apply IH; [done|simpl; lia|done].
Qed.

(** Walking the ring. *)

Lemma ring_first h e ks y :
  links h (e :: ks ++ [e]) → head (ks ++ [e]) = Some y → next_of h e = Some y.
Proof.
  intros Hl Hy. change (links h ([e] ++ (ks ++ [e]))) in Hl.
  by apply (links_join h [e] _ e y) in Hl as (_ & [? _] & _).
Qed.

Lemma ring_last h e ks t :
  links h (e :: ks ++ [e]) → last (e :: ks) = Some t → prev_of h e = Some t.
Proof.
  intros Hl Ht. change (links h ((e :: ks) ++ [e])) in Hl.
  by apply (links_join h _ [e] t e) in Hl as (_ & [_ ?] & _).
Qed.

Lemma ring_succ h e k1 a k2 y :
  links h (e :: (k1 ++ a :: k2) ++ [e]) → head (k2 ++ [e]) = Some y →
  next_of h a = Some y.
Proof.
  intros Hl Hy.
  replace (e :: (k1 ++ a :: k2) ++ [e]) with ((e :: k1 ++ [a]) ++ (k2 ++ [e])) in Hl
    by (simpl; by rewrite <- !app_assoc).
  apply (links_join h _ _ a y) in Hl as (_ & [? _] & _); [done| |done].
  change (last ((e :: k1) ++ [a]) = Some a). apply last_snoc.
Qed.

Lemma ring_pred h e k1 a k2 x :
  links h (e :: (k1 ++ a :: k2) ++ [e]) → last (e :: k1) = Some x →
  prev_of h a = Some x.
Proof.
  intros Hl Hx.
  replace (e :: (k1 ++ a :: k2) ++ [e]) with ((e :: k1) ++ (a :: k2 ++ [e])) in Hl
    by (simpl; by rewrite <- !app_assoc).
  by apply (links_join h _ _ x a) in Hl as (_ & [_ ?] & _).
Qed.

(** A node linked in before the sentinel. *)
Lemma ring_push_back h h' e ks p t :
  links h (e :: ks ++ [e]) → NoDup (e :: ks) → p ∉ e :: ks →
  last (e :: ks) = Some t →
  (∀ x, x ≠ t → x ≠ p → next_of h' x = next_of h x) →
  next_of h' t = Some p → next_of h' p = Some e →
  (∀ x, x ≠ e → x ≠ p → prev_of h' x = prev_of h x) →
  prev_of h' e = Some p → prev_of h' p = Some t →
  links h' (e :: (ks ++ [p]) ++ [e]).
Proof.
  intros Hl Hnd Hp Ht Hn Hnt Hnp Hv Hve Hvp.
  change (links h ((e :: ks) ++ [e])) in Hl.
  apply (links_join h _ _ t e) in Hl as (Hl & _ & _); [|done..].
  replace (e :: (ks ++ [p]) ++ [e]) with ((e :: ks) ++ [p; e])
    by (simpl; by rewrite <- !app_assoc).
  apply (links_join h' _ _ t p); [done..|]. split_and!; [|done..|simpl; done].
  apply (links_frame h); [done..| |].
  - intros x Hx Hx'. apply Hn; [congruence|]. intros ->. done.
  - intros x Hx Hx'. apply Hv; [|by intros ->]. simpl in Hx'. congruence.
Qed.

(** A node taken out. *)
Lemma ring_unlink h h' e k1 a k2 x y :
  links h (e :: (k1 ++ a :: k2) ++ [e]) → NoDup (e :: k1 ++ a :: k2) →
  last (e :: k1) = Some x → head (k2 ++ [e]) = Some y →
  (∀ z, z ≠ x → z ≠ a → next_of h' z = next_of h z) → next_of h' x = Some y →
  (∀ z, z ≠ y → z ≠ a → prev_of h' z = prev_of h z) → prev_of h' y = Some x →
  links h' (e :: (k1 ++ k2) ++ [e]).
Proof.
  intros Hl Hnd Hx Hy Hn Hnx Hv Hvy.
  apply NoDup_cons in Hnd as [He Hnd].
  apply NoDup_app in Hnd as (Hk1 & Hd & Hak2).
  apply NoDup_cons in Hak2 as [Ha Hk2].
  rewrite elem_of_app, elem_of_cons in He.
  replace (e :: (k1 ++ a :: k2) ++ [e]) with ((e :: k1) ++ ([a] ++ (k2 ++ [e]))) in Hl
    by (simpl; by rewrite <- !app_assoc).
  apply (links_join h _ _ x a) in Hl as (Hl1 & _ & Hl2); [|done..].
  apply (links_join h [a] _ a y) in Hl2 as (_ & _ & Hl2); [|done..].
  replace (e :: (k1 ++ k2) ++ [e]) with ((e :: k1) ++ (k2 ++ [e]))
    by (simpl; by rewrite <- !app_assoc).
  assert (Hxin : x ∈ e :: k1).
  { apply last_Some in Hx as [l' E]. rewrite E. apply elem_of_app. right. by left. }
  assert (Hyin : y ∈ k2 ++ [e]).
  { destruct (k2 ++ [e]); simplify_eq/=. by left. }
  apply (links_join h' _ _ x y); [done..|]. split_and!; [|done..|].
  - apply (links_frame h); [| done | |].
    + apply NoDup_cons. split; [|done]. naive_solver.
    + intros z Hz Hz'. apply Hn; [congruence|].
      intros ->. apply elem_of_cons in Hz as [->|Hz]; [naive_solver|].
      apply (Hd a); [done|by left].
    + intros z Hz Hz'. simpl in Hz'.
      apply elem_of_cons in Hz as [->|Hz]; [done|].
      apply Hv.
      * intros ->. apply elem_of_app in Hyin as [Hy'|Hy'].
        -- apply (Hd y); [done|by right].
        -- apply list_elem_of_singleton in Hy' as ->. naive_solver.
      * intros ->. apply (Hd a); [done|by left].
  - apply (links_frame h); [| done | |].
    + apply NoDup_app. split_and!; [done| |apply NoDup_singleton].
      intros z Hz ->%list_elem_of_singleton. naive_solver.
    + intros z Hz Hz'. rewrite last_snoc in Hz'.
      apply elem_of_app in Hz as [Hz|Hz]; [|apply list_elem_of_singleton in Hz; congruence].
      apply Hn; [|by intros ->].
      intros ->. apply elem_of_cons in Hxin as [->|Hxin]; [naive_solver|].
      apply (Hd x); [done|by right].
    + intros z Hz Hz'. apply Hv; [congruence|].
      intros ->. apply elem_of_app in Hz as [Hz|Hz]; [done|].
      apply list_elem_of_singleton in Hz as ->. naive_solver.
Qed.

(** ** Bucket member functions on a represented bucket *)

Lemma head_cells e (l : list (ptr * Pair)) : head (l.*1 ++ [e]) = Some (first_of e l).
Proof. by destruct l. Qed.

Lemma last_cells e (l : list (ptr * Pair)) : last (e :: l.*1) = Some (last_of e l).
Proof.
  unfold last_of. destruct l as [|c l] using rev_ind; [done|].
  rewrite fmap_app. simpl. rewrite app_comm_cons, !last_snoc. done.
Qed.

Lemma heap_size_cells h (L : list ptr) :
  NoDup L → (∀ x, x ∈ L → allocated h x) → (length L ≤ size h)%nat.
Proof.
  intros Hnd Hal.
  rewrite <- (size_list_to_set (C:=gset Z) L Hnd), <- size_dom.
  apply subseteq_size. intros x Hx. apply elem_of_list_to_set in Hx.
  apply elem_of_dom. by apply Hal.
Qed.

Lemma bucket_repr_allocated h b l x :
  bucket_repr h b l → x ∈ cells b l → allocated h x.
Proof.
  intros (Hl & _ & _) Hx. eapply links_allocated; [done| |].
  - rewrite length_app. simpl. lia.
  - apply elem_of_app. by left.
Qed.

Lemma Bucket_begin_eq s i b l :
  bucket_at (m_buckets s) i = Some b → bucket_repr (heap s) b l →
  Bucket_begin i s = Some (first_of (m_end b) l, s).
Proof.
  intros Hb (Hl & _ & _). unfold Bucket_begin.
  rewrite (bind_eq _ _ _ _ _ (Bucket_end_eq _ _ _ Hb)).
  apply load_next_eq. eapply ring_first; [exact Hl|]. apply head_cells.
Qed.

Lemma Bucket_empty_eq s i b l :
  bucket_at (m_buckets s) i = Some b → bucket_repr (heap s) b l → NoDup (cells b l) →
  Bucket_empty i s = Some (bool_decide (l = []), s).
Proof.
  intros Hb Hr Hnd. unfold Bucket_empty.
  rewrite (bind_eq _ _ _ _ _ (Bucket_begin_eq _ _ _ _ Hb Hr)).
  rewrite (bind_eq _ _ _ _ _ (Bucket_end_eq _ _ _ Hb)).
  unfold ret. do 2 f_equal. destruct l as [|c l]; simpl.
  - by rewrite Z.eqb_refl.
  - apply Z.eqb_neq. intros E. unfold cells in Hnd. simpl in Hnd.
    apply NoDup_cons in Hnd as [Hnd _]. apply Hnd. rewrite E. by left.
Qed.

Lemma Bucket_find_loop_eq s i b key :
  bucket_at (m_buckets s) i = Some b →
  ∀ l x0 fuel,
    links (heap s) (x0 :: l.*1 ++ [m_end b]) →
    Forall (λ c, value_of (heap s) c.1 = Some c.2) l →
    m_end b ∉ (l.*1) → (length l < fuel)%nat →
    Bucket_find_loop fuel i key (first_of (m_end b) l) s = Some (found (m_end b) key l, s).
Proof.
  intros Hb. induction l as [|c l IH]; intros x0 fuel Hl Hv He Hf.
  - destruct fuel; [lia|]. simpl.
    rewrite (bind_eq _ _ _ _ _ (Bucket_end_eq _ _ _ Hb)).
    by rewrite Z.eqb_refl.
  - destruct fuel; [simpl in Hf; lia|]. simpl in *.
    rewrite (bind_eq _ _ _ _ _ (Bucket_end_eq _ _ _ Hb)).
    apply not_elem_of_cons in He as [Hne He].
    apply Forall_cons in Hv as [Hc Hv].
    destruct Hl as (_ & _ & Hl).
    assert ((c.1 =? m_end b) = false) as -> by (apply Z.eqb_neq; congruence).
    rewrite (bind_eq _ _ _ _ _ (load_value_eq _ _ _ Hc)).
    unfold found. simpl. destruct (m_key_equal (first c.2) key); [done|].
    assert (Hn : next_of (heap s) c.1 = Some (first_of (m_end b) l)).
    { destruct l; simpl in *; tauto. }
    rewrite (bind_eq _ _ _ _ _ (load_next_eq _ _ _ Hn)).
    apply (IH c.1); [done..|lia].
Qed.

Lemma Bucket_find_eq s i b l key :
  bucket_at (m_buckets s) i = Some b → bucket_repr (heap s) b l → NoDup (cells b l) →
  Bucket_find i key s = Some (found (m_end b) key l, s).
Proof.
  intros Hb Hr Hnd. unfold Bucket_find.
  rewrite (bind_eq _ _ _ _ _ (Bucket_begin_eq _ _ _ _ Hb Hr)).
  pose proof Hr as (Hl & Hv & _).
  apply (Bucket_find_loop_eq s i b key Hb l (m_end b)); [done..| |].
  - by apply NoDup_cons in Hnd as [? _].
  - pose proof (heap_size_cells (heap s) _ Hnd) as Hsz.
    unfold cells in Hsz at 2. simpl in Hsz. rewrite length_fmap in Hsz.
    assert (S (length l) ≤ size (heap s))%nat; [|lia].
    apply Hsz. intros x Hx. by eapply bucket_repr_allocated.
Qed.

Lemma find_cell_Some key l c :
  find_cell key l = Some c →
  ∃ l1 l2, l = l1 ++ c :: l2 ∧ m_key_equal (first c.2) key = true ∧
           Forall (λ d, m_key_equal (first d.2) key = false) l1.
Proof.
  induction l as [|d l IH]; [done|]. simpl.
  destruct (m_key_equal (first d.2) key) eqn:E.
  - intros [= ->]. by exists [], l.
  - intros (l1 & l2 & -> & ? & ?)%IH. exists (d :: l1), l2. split_and!; [done..|].
    by constructor.
Qed.

Lemma find_cell_None key l :
  find_cell key l = None ↔ Forall (λ d, m_key_equal (first d.2) key = false) l.
Proof.
  induction l as [|d l IH]; simpl; [by split|].
  rewrite Forall_cons. destruct (m_key_equal (first d.2) key); naive_solver.
Qed.

Lemma find_cell_middle key l1 c l2 :
  Forall (λ d, m_key_equal (first d.2) key = false) l1 →
  m_key_equal (first c.2) key = true →
  find_cell key (l1 ++ c :: l2) = Some c.
Proof.
  induction 1 as [|d l1 Hd _ IH]; simpl; intros Hc.
  - by rewrite Hc.
  - rewrite Hd. auto.
Qed.

Lemma find_cell_skip key l1 l2 :
  Forall (λ d, m_key_equal (first d.2) key = false) l1 →
  find_cell key (l1 ++ l2) = find_cell key l2.
Proof. induction 1 as [|d l1 Hd _ IH]; simpl; [done|]. by rewrite Hd. Qed.

(** The states the structural member functions end in. *)

Lemma Bucket_link_back_eq s i b p t :
  bucket_at (m_buckets s) i = Some b →
  allocated (heap s) p → allocated (heap s) (m_end b) → allocated (heap s) t →
  prev_of (heap s) (m_end b) = Some t → p ≠ m_end b →
  Bucket_link_back i p s = Some (tt, linked_back i b p t s).
Proof.
  intros Hb Hp He Ht Hv Hne. unfold Bucket_link_back.
  rewrite (bind_eq _ _ _ _ _ (Bucket_end_eq _ _ _ Hb)).
  rewrite (bind_eq _ _ _ _ _ (store_next_eq _ _ _ Hp)).
  erewrite bind_eq by (by apply Bucket_end_eq).
  erewrite bind_eq by (apply load_prev_eq; simpl; by rewrite prev_set_next).
  erewrite bind_eq by (apply store_prev_eq; simpl; by apply allocated_set_next).
  erewrite bind_eq
    by (apply load_next_eq; simpl; rewrite next_set_prev;
        by apply next_set_next_eq).
  erewrite bind_eq
    by (apply store_prev_eq; simpl; by apply allocated_set_prev, allocated_set_next).
  erewrite bind_eq
    by (apply load_prev_eq; simpl; rewrite prev_set_prev_ne by done;
        by apply prev_set_prev_eq, allocated_set_next).
  erewrite bind_eq
    by (apply store_next_eq; simpl;
        by apply allocated_set_prev, allocated_set_prev, allocated_set_next).
  unfold Bucket_incr_size.
  erewrite bind_eq by (by apply read_bucket_eq).
  erewrite write_bucket_eq by done. done.
Qed.

Lemma Bucket_erase_node_eq s i b a x y :
  bucket_at (m_buckets s) i = Some b →
  a ≠ m_end b → a ≠ y →
  next_of (heap s) a = Some y → prev_of (heap s) a = Some x →
  allocated (heap s) x → allocated (heap s) y →
  Bucket_erase_node i a s = Some (tt, unlinked i b a x y s).
Proof.
  intros Hb Hae Hay Hn Hp Hx Hy. unfold Bucket_erase_node.
  rewrite (bind_eq _ _ _ _ _ (Bucket_end_eq _ _ _ Hb)).
  assert ((a =? m_end b) = false) as -> by (by apply Z.eqb_neq).
  rewrite (bind_eq _ _ _ _ _ (load_next_eq _ _ _ Hn)).
  rewrite (bind_eq _ _ _ _ _ (load_prev_eq _ _ _ Hp)).
  rewrite (bind_eq _ _ _ _ _ (store_prev_eq _ _ _ Hy)).
  erewrite bind_eq by (apply load_prev_eq; simpl; by rewrite prev_set_prev_ne).
  erewrite bind_eq by (apply load_next_eq; simpl; by rewrite next_set_prev).
  erewrite bind_eq by (apply store_next_eq; simpl; by apply allocated_set_prev).
  erewrite bind_eq
    by (apply delete_Node_eq; simpl; apply allocated_set_next, allocated_set_prev;
        apply allocated_next; by eexists).
  unfold Bucket_decr_size.
  erewrite bind_eq by (by apply read_bucket_eq).
  erewrite write_bucket_eq by done. done.
Qed.

Lemma Bucket_erase_node_end s i b :
  bucket_at (m_buckets s) i = Some b →
  Bucket_erase_node i (m_end b) s = Some (tt, s).
Proof.
  intros Hb. unfold Bucket_erase_node.
  rewrite (bind_eq _ _ _ _ _ (Bucket_end_eq _ _ _ Hb)).
  by rewrite Z.eqb_refl.
Qed.

(** ** The invariant, bucket by bucket *)

Ltac st_simpl :=
  cbn [heap m_buckets oob_reads with_heap with_buckets with_oob m_end m_size
       fst snd].
Tactic Notation "st_simpl" "in" hyp(H) :=
  cbn [heap m_buckets oob_reads with_heap with_buckets with_oob m_end m_size
       fst snd] in H.

Ltac alloc_solve :=
  repeat first
    [ rewrite allocated_set_next | rewrite allocated_set_prev
    | rewrite allocated_set_value | rewrite allocated_insert
    | rewrite allocated_delete ];
  eauto.

Ltac heap_simpl :=
  repeat first
    [ rewrite next_set_value | rewrite prev_set_value
    | rewrite next_set_prev | rewrite prev_set_next
    | rewrite value_set_next | rewrite value_set_prev
    | rewrite next_set_next_ne by congruence
    | rewrite prev_set_prev_ne by congruence
    | rewrite value_set_value_ne by congruence
    | rewrite next_insert_ne by congruence
    | rewrite prev_insert_ne by congruence
    | rewrite value_insert_ne by congruence
    | rewrite next_delete_ne by congruence
    | rewrite prev_delete_ne by congruence
    | rewrite value_delete_ne by congruence
    | rewrite next_set_next_eq by alloc_solve
    | rewrite prev_set_prev_eq by alloc_solve
    | rewrite value_set_value_eq by alloc_solve ].

Lemma links_ext h h' (L : list ptr) :
  (∀ x, x ∈ L → next_of h' x = next_of h x ∧ prev_of h' x = prev_of h x) →
  links h L → links h' L.
Proof.
  induction L as [|a [|b L] IH]; [done..|].
  intros He (Hn & Hp & Hl). simpl. split_and!.
  - destruct (He a) as [-> _]; [by left|done].
  - destruct (He b) as [_ ->]; [right; by left|done].
  - apply IH; [|done]. intros x Hx. apply He. by right.
Qed.

Lemma bucket_repr_ext h h' b l :
  (∀ x, x ∈ cells b l →
        next_of h' x = next_of h x ∧ prev_of h' x = prev_of h x ∧
        value_of h' x = value_of h x) →
  bucket_repr h b l → bucket_repr h' b l.
Proof.
  intros He (Hl & Hv & Hs). split_and!; [| |done].
  - eapply links_ext; [|done]. intros x Hx.
    assert (x ∈ cells b l) as Hx'.
    { apply elem_of_app in Hx as [?|Hx]; [done|].
      apply list_elem_of_singleton in Hx as ->. by left. }
    destruct (He x Hx') as (? & ? & ?). done.
  - rewrite Forall_forall in Hv |- *. intros c Hc.
    destruct (He c.1) as (_ & _ & ->); [|by apply Hv].
    right. apply list_elem_of_fmap. by exists c.
Qed.

Lemma bucket_index_range key : 0 ≤ bucket_index_of key < BUCKET_COUNT.
Proof. unfold bucket_index_of. apply Z.mod_pos_bound. lia. Qed.

Lemma bucket_at_lookup (bs : list Bucket) i b :
  bucket_at bs i = Some b ↔ 0 ≤ i ∧ bs !! Z.to_nat i = Some b.
Proof. unfold bucket_at. case_decide; naive_solver. Qed.

Lemma Inv_view s css i :
  Inv s css → 0 ≤ i < BUCKET_COUNT → ∃ b l, bucket_view s css i b l.
Proof.
  intros [Hc Hr Hnd Hv Hp Hu] Hi.
  destruct (lookup_lt_is_Some_2 (m_buckets s) (Z.to_nat i)) as [b Hb]; [lia|].
  destruct (Forall2_lookup_l _ _ _ _ _ Hr Hb) as (l & Hl & Hbl).
  assert (Hall : all_cells (m_buckets s) css !! Z.to_nat i = Some (cells b l)).
  { unfold all_cells. rewrite lookup_zip_with, Hb. simpl. by rewrite Hl. }
  exists b, l. split; try done.
  - apply bucket_at_lookup. split; [lia|done].
  - by eapply NoDup_concat_lookup.
  - rewrite Forall_concat, Forall_lookup in Hv. by eapply Hv.
  - specialize (Hp _ _ Hl). eapply Forall_impl; [done|]. simpl. intros c ->. lia.
  - rewrite Forall_lookup in Hu. by eapply Hu.
Qed.

Lemma Inv_allocated s css x :
  Inv s css → x ∈ concat (all_cells (m_buckets s) css) → allocated (heap s) x.
Proof.
  intros [Hc Hr Hnd Hv Hp Hu] Hx.
  apply list_elem_of_In, in_concat in Hx as (L & HL & Hx).
  apply list_elem_of_In in HL, Hx.
  unfold all_cells in HL. apply elem_of_lookup_zip_with in HL as (j & b & l & -> & Hb & Hl).
  eapply bucket_repr_allocated; [|done]. by eapply Forall2_lookup_lr.
Qed.

(** One bucket is replaced and the others are left as they were. *)
Lemma Inv_update s css i b l s' b' l' :
  Inv s css → bucket_view s css i b l →
  m_buckets s' = <[Z.to_nat i := b']> (m_buckets s) →
  bucket_repr (heap s') b' l' →
  NoDup (cells b' l') → Forall valid_address (cells b' l') →
  (∀ x, x ∈ cells b' l' → x ∈ cells b l ∨ ¬ allocated (heap s) x) →
  (∀ x, allocated (heap s) x → x ∉ cells b l →
        next_of (heap s') x = next_of (heap s) x ∧
        prev_of (heap s') x = prev_of (heap s) x ∧
        value_of (heap s') x = value_of (heap s) x) →
  Forall (λ c, bucket_index_of (first c.2) = i) l' → uniq_keys l' →
  Inv s' (<[Z.to_nat i := l']> css).
Proof.
  intros HI [Hat Hb Hl Hall Hr Hnd Hv Hp Hu] Hbs Hr' Hnd' Hv' Hsub Hframe Hp' Hu'.
  pose proof HI as [Ic Ir Ind Iv Ip Iu].
  assert (Hcells : all_cells (m_buckets s') (<[Z.to_nat i := l']> css)
                   = <[Z.to_nat i := cells b' l']> (all_cells (m_buckets s) css)).
  { unfold all_cells. by rewrite Hbs, insert_zip_with. }
  split.
  - by rewrite Hbs, length_insert.
  - rewrite Hbs. apply Forall2_lookup. intros j.
    destruct (decide (j = Z.to_nat i)) as [->|Hj].
    + rewrite !list_lookup_insert_eq; [by constructor|..].
      * by eapply lookup_lt_Some.
      * by eapply lookup_lt_Some.
    + rewrite !list_lookup_insert_ne by done.
      rewrite Forall2_lookup in Ir. specialize (Ir j).
      destruct (m_buckets s !! j) as [bj|] eqn:Ebj;
        destruct (css !! j) as [lj|] eqn:Elj;
        inversion Ir as [? ? Hbj|]; subst; constructor.
      eapply bucket_repr_ext; [|done]. intros x Hx.
      assert (Hallj : all_cells (m_buckets s) css !! j = Some (cells bj lj)).
      { unfold all_cells. rewrite lookup_zip_with, Ebj. simpl. by rewrite Elj. }
      apply Hframe.
      * eapply Inv_allocated; [done|]. by eapply elem_of_concat_lookup.
      * intros Hx'. by eapply (NoDup_concat_disjoint _ j (Z.to_nat i)).
  - rewrite Hcells. eapply NoDup_concat_insert; [done..|].
    intros x Hx. destruct (Hsub x Hx) as [?|Hn]; [by left|right].
    intros Hx'. apply Hn. by eapply Inv_allocated.
  - rewrite Hcells. by apply Forall_concat_insert.
  - intros j lj Hj. destruct (decide (j = Z.to_nat i)) as [->|Hne].
    + rewrite list_lookup_insert_eq in Hj by (by eapply lookup_lt_Some).
      simplify_eq. eapply Forall_impl; [done|]. simpl. intros c <-.
      pose proof (bucket_index_range (first c.2)). lia.
    + rewrite list_lookup_insert_ne in Hj by done. by eapply Ip.
  - by apply Forall_insert.
Qed.

Lemma Inv_with_oob s css log : Inv s css → Inv (with_oob log s) css.
Proof. by intros []. Qed.

(** ** Key sets *)

Lemma uniq_keys_app l1 l2 :
  uniq_keys (l1 ++ l2) ↔
  uniq_keys l1 ∧ uniq_keys l2 ∧
  Forall (λ c, Forall (λ d, m_key_equal (first c.2) (first d.2) = false) l2) l1.
Proof.
  induction l1 as [|c l1 IH]; simpl.
  - split; [intros; split_and!; auto|tauto].
  - rewrite Forall_app, IH, Forall_cons. tauto.
Qed.

Lemma key_equal_false_l a b k :
  m_key_equal a k = true → m_key_equal b k = false → m_key_equal b a = false.
Proof.
  intros Ha Hb. destruct (m_key_equal b a) eqn:E; [|done].
  rewrite (key_equal_trans _ _ _ E Ha) in Hb. done.
Qed.

Lemma key_equal_false_r a b k :
  m_key_equal a k = true → m_key_equal a b = false → m_key_equal k b = false.
Proof.
  intros Ha Hb. destruct (m_key_equal k b) eqn:E; [|done].
  rewrite (key_equal_trans _ _ _ Ha E) in Hb. done.
Qed.

(** A key that matches a cell of a duplicate-free list matches no other. *)
Lemma uniq_keys_others l1 c l2 key :
  uniq_keys (l1 ++ c :: l2) → m_key_equal (first c.2) key = true →
  Forall (λ d, m_key_equal (first d.2) key = false) (l1 ++ l2).
Proof.
  intros Hu Hc. apply uniq_keys_app in Hu as (_ & [H2 _] & H1).
  apply Forall_app. split.
  - eapply Forall_impl; [exact H1|]. simpl. intros d Hd.
    apply Forall_cons in Hd as [Hd _].
    destruct (m_key_equal (first d.2) key) eqn:E; [|done].
    rewrite (key_equal_trans _ _ _ E (key_equal_sym _ _ Hc)) in Hd. done.
  - eapply Forall_impl; [exact H2|]. simpl. intros d Hd.
    destruct (m_key_equal (first d.2) key) eqn:E; [|done].
    rewrite (key_equal_trans _ _ _ Hc (key_equal_sym _ _ E)) in Hd. done.
Qed.

Lemma uniq_keys_replace l1 c l2 c' :
  uniq_keys (l1 ++ c :: l2) → m_key_equal (first c.2) (first c'.2) = true →
  uniq_keys (l1 ++ c' :: l2).
Proof.
  intros Hu Hc. apply uniq_keys_app in Hu as (Hu1 & [H2 Hu2] & H1).
  apply uniq_keys_app. split_and!; [done| |].
  - split; [|done]. eapply Forall_impl; [exact H2|]. simpl. intros d Hd.
    by eapply key_equal_false_r.
  - eapply Forall_impl; [exact H1|]. simpl. intros d Hd.
    apply Forall_cons in Hd as [Hd Hd']. apply Forall_cons. split; [|done].
    destruct (m_key_equal (first d.2) (first c'.2)) eqn:E; [|done].
    rewrite (key_equal_trans _ _ _ E (key_equal_sym _ _ Hc)) in Hd. done.
Qed.

(** ** The structural changes keep the invariant *)

Lemma cells_bound b (l : list (ptr * Pair)) :
  NoDup (cells b l) → Forall valid_address (cells b l) →
  Z.of_nat (length l) + 1 < SIZE_MAX1.
Proof.
  intros Hnd Hv. pose proof (valid_addresses_count _ Hnd Hv) as H.
  unfold cells in H. simpl in H. rewrite length_fmap in H. lia.
Qed.

Lemma pushed_back_Inv s css i b l p value :
  Inv s css → bucket_view s css i b l →
  valid_address p → heap s !! p = None →
  bucket_index_of (first value) = i → find_cell (first value) l = None →
  Inv (pushed_back i b l p value s) (<[Z.to_nat i := l ++ [(p, value)]]> css).
Proof.
  intros HI Hview Hp Hfresh Hidx Hfind. destruct b as [n e].
  pose proof Hview as [Hat Hb Hl Hall Hr Hnd Hv Hpl Hu].
  unfold pushed_back, linked_back.
  st_simpl.
  assert (Hlast : last (e :: l.*1) = Some (last_of e l)) by apply last_cells.
  remember (last_of e l) as t eqn:Et. clear Et.
  destruct Hr as (Hlk & Hvals & Hsz).
  unfold cells in Hlk, Hnd, Hv. cbn [m_end m_size] in Hlk, Hnd, Hv, Hsz.
  assert (Hnp : ¬ allocated (heap s) p) by (unfold allocated; rewrite Hfresh; by intros []).
  assert (Hal : ∀ x, x ∈ e :: l.*1 → allocated (heap s) x).
  { intros x Hx. eapply links_allocated; [exact Hlk| |].
    - rewrite length_app. simpl. lia.
    - apply elem_of_app. by left. }
  assert (Hpc : p ∉ e :: l.*1) by (intros Hx; by apply Hnp, Hal).
  assert (Htin : t ∈ e :: l.*1).
  { apply last_Some in Hlast as [l' E]. rewrite E.
    apply elem_of_app. right. by left. }
  assert (Hein : e ∈ e :: l.*1) by (by left).
  assert (Hpt : p ≠ t) by (intros ->; done).
  assert (Hpe : p ≠ e) by (intros ->; done).
  pose proof (Hal _ Htin) as Hta. pose proof (Hal _ Hein) as Hea.
  assert (Hnd' : NoDup (cells (mkBucket (size_add n 1) e) (l ++ [(p, value)]))).
  { unfold cells. cbn [m_end]. rewrite fmap_app. cbn [fmap list_fmap fst].
    rewrite app_comm_cons.
    apply NoDup_app. split_and!; [done| |apply NoDup_singleton].
    intros x Hx ->%list_elem_of_singleton. done. }
  assert (Hv' : Forall valid_address
                  (cells (mkBucket (size_add n 1) e) (l ++ [(p, value)]))).
  { unfold cells. cbn [m_end]. rewrite fmap_app. cbn [fmap list_fmap fst].
    rewrite app_comm_cons.
    apply Forall_app. split; [done|]. by apply Forall_singleton. }
  eapply (Inv_update s css i (mkBucket n e) l _ (mkBucket (size_add n 1) e)
            (l ++ [(p, value)]));
    [exact HI|exact Hview|reflexivity| |exact Hnd'|exact Hv'| | | |].
  - split_and!.
    + unfold cells. st_simpl. rewrite fmap_app. cbn [fmap list_fmap fst].
      apply (ring_push_back (heap s) _ e (l.*1) p t);
        [exact Hlk|exact Hnd|exact Hpc|exact Hlast|..].
      * intros x ? ?. by heap_simpl.
      * by heap_simpl.
      * by heap_simpl.
      * intros x ? ?. by heap_simpl.
      * by heap_simpl.
      * by heap_simpl.
    + apply Forall_app. split.
      * rewrite Forall_forall in Hvals |- *. intros c Hc. st_simpl.
        assert (c.1 ≠ p).
        { intros E. apply Hpc. right. apply list_elem_of_fmap. by exists c. }
        heap_simpl. by apply Hvals.
      * apply Forall_singleton. st_simpl. by heap_simpl.
    + st_simpl. rewrite length_app. unfold size_add. rewrite Hsz.
      pose proof (cells_bound _ _ Hnd' Hv') as Hbd.
      rewrite length_app in Hbd. simpl length in *.
      rewrite Z.mod_small; lia.
  - intros x Hx. unfold cells in Hx |- *. cbn [m_end] in Hx |- *.
    rewrite fmap_app in Hx. cbn [fmap list_fmap fst] in Hx.
    rewrite app_comm_cons in Hx. apply elem_of_app in Hx as [Hx|Hx]; [by left|].
    apply list_elem_of_singleton in Hx as ->. by right.
  - intros x Hx Hxc. st_simpl. unfold cells in Hxc. cbn [m_end] in Hxc.
    assert (x ≠ p) by (by intros ->). assert (x ≠ t) by (by intros ->).
    assert (x ≠ e) by (by intros ->).
    by heap_simpl.
  - apply Forall_app. split; [done|]. by apply Forall_singleton.
  - apply uniq_keys_app. split_and!; [done|simpl; auto|].
    apply find_cell_None in Hfind. eapply Forall_impl; [exact Hfind|].
    simpl. intros d Hd. by apply Forall_singleton.
Qed.

Lemma assigned_Inv s css i b l1 c l2 value :
  Inv s css → bucket_view s css i b (l1 ++ c :: l2) →
  m_key_equal (first c.2) (first value) = true →
  bucket_index_of (first value) = i →
  Inv (with_heap (set_value c.1 value (heap s)) s)
      (<[Z.to_nat i := l1 ++ (c.1, value) :: l2]> css).
Proof.
  intros HI Hview Hkey Hidx.
  pose proof Hview as [Hat Hb Hl Hall Hr Hnd Hv Hpl Hu].
  assert (Hcells : cells b (l1 ++ (c.1, value) :: l2) = cells b (l1 ++ c :: l2)).
  { unfold cells. by rewrite !fmap_app. }
  assert (Ha : allocated (heap s) c.1).
  { eapply bucket_repr_allocated; [done|]. right. rewrite fmap_app.
    apply elem_of_app. right. by left. }
  assert (Hother : ∀ d, d ∈ l1 ++ l2 → d.1 ≠ c.1).
  { intros d Hd E. unfold cells in Hnd. apply NoDup_cons in Hnd as [_ Hnd].
    rewrite fmap_app in Hnd. simpl in Hnd.
    apply NoDup_app in Hnd as (_ & Hd1 & [Hd2 _]%NoDup_cons).
    apply elem_of_app in Hd as [Hd|Hd].
    - apply (Hd1 d.1); [apply list_elem_of_fmap; by exists d|]. rewrite E. by left.
    - apply Hd2. rewrite <- E. apply list_elem_of_fmap. by exists d. }
  eapply (Inv_update s css i b _ _ b (l1 ++ (c.1, value) :: l2));
    [exact HI|exact Hview| | | | | | | |].
  - st_simpl. by rewrite list_insert_id.
  - destruct Hr as (Hlk & Hvals & Hsz). split_and!.
    + rewrite Hcells. eapply links_ext; [|exact Hlk]. intros x _. st_simpl.
      by heap_simpl.
    + apply Forall_app in Hvals as [Hv1 [_ Hv2]%Forall_cons].
      apply Forall_app. split; [|apply Forall_cons; split].
      * rewrite Forall_forall in Hv1 |- *. intros d Hd. st_simpl.
        assert (d.1 ≠ c.1) by (apply Hother, elem_of_app; auto).
        heap_simpl. by apply Hv1.
      * st_simpl. by heap_simpl.
      * rewrite Forall_forall in Hv2 |- *. intros d Hd. st_simpl.
        assert (d.1 ≠ c.1) by (apply Hother, elem_of_app; auto).
        heap_simpl. by apply Hv2.
    + rewrite Hsz, !length_app. done.
  - by rewrite Hcells.
  - by rewrite Hcells.
  - intros x Hx. left. by rewrite <- Hcells.
  - intros x Hx Hxc. st_simpl.
    assert (x ≠ c.1).
    { intros ->. apply Hxc. right. rewrite fmap_app. apply elem_of_app. right. by left. }
    by heap_simpl.
  - apply Forall_app in Hpl as [Hp1 [_ Hp2]%Forall_cons].
    apply Forall_app. split; [done|]. by apply Forall_cons.
  - by apply (uniq_keys_replace l1 c l2 (c.1, value)).
Qed.

Lemma unlinked_Inv s css i b l1 c l2 :
  Inv s css → bucket_view s css i b (l1 ++ c :: l2) →
  Inv (unlinked i b c.1 (last_of (m_end b) l1) (first_of (m_end b) l2) s)
      (<[Z.to_nat i := l1 ++ l2]> css).
Proof.
  intros HI Hview. destruct b as [n e].
  pose proof Hview as [Hat Hb Hl Hall Hr Hnd Hv Hpl Hu].
  unfold unlinked. st_simpl.
  assert (Hx : last (e :: l1.*1) = Some (last_of e l1)) by apply last_cells.
  assert (Hy : head (l2.*1 ++ [e]) = Some (first_of e l2)) by apply head_cells.
  remember (last_of e l1) as x eqn:Ex. clear Ex.
  remember (first_of e l2) as y eqn:Ey. clear Ey.
  destruct Hr as (Hlk & Hvals & Hsz).
  unfold cells in Hlk, Hnd, Hv. st_simpl in Hlk. st_simpl in Hnd. st_simpl in Hv.
  st_simpl in Hsz.
  rewrite fmap_app in Hlk, Hnd, Hv. cbn [fmap list_fmap] in Hlk, Hnd, Hv.
  assert (Hal : ∀ z, z ∈ e :: l1.*1 ++ c.1 :: l2.*1 → allocated (heap s) z).
  { intros z Hz. eapply links_allocated; [exact Hlk| |].
    - rewrite length_app. simpl. lia.
    - apply elem_of_app. by left. }
  assert (Hxin : x ∈ e :: l1.*1).
  { apply last_Some in Hx as [l' E]. rewrite E. apply elem_of_app. right. by left. }
  assert (Hyin : y ∈ l2.*1 ++ [e]).
  { destruct (l2.*1 ++ [e]); simplify_eq/=. by left. }
  pose proof Hnd as Hnd0.
  apply NoDup_cons in Hnd as [He Hnd].
  apply NoDup_app in Hnd as (Hk1 & Hd & Hak2).
  apply NoDup_cons in Hak2 as [Ha Hk2].
  rewrite elem_of_app, elem_of_cons in He.
  assert (Hae : c.1 ≠ e) by naive_solver.
  assert (Hax : c.1 ≠ x).
  { intros E. apply elem_of_cons in Hxin as [->|Hxin]; [done|].
    apply (Hd x); [done|]. rewrite <- E. by left. }
  assert (Hay : c.1 ≠ y).
  { intros E. apply elem_of_app in Hyin as [Hyin|Hyin].
    - apply Ha. by rewrite E.
    - apply list_elem_of_singleton in Hyin. congruence. }
  assert (Hxa : allocated (heap s) x).
  { apply Hal. rewrite app_comm_cons. apply elem_of_app. by left. }
  assert (Hya : allocated (heap s) y).
  { apply elem_of_app in Hyin as [Hyin|Hyin].
    - apply Hal. right. apply elem_of_app. right. by right.
    - apply list_elem_of_singleton in Hyin as ->. apply Hal. by left. }
  assert (Hnd' : NoDup (cells (mkBucket (size_sub n 1) e) (l1 ++ l2))).
  { unfold cells. st_simpl. rewrite fmap_app. apply NoDup_cons. split.
    - rewrite elem_of_app. naive_solver.
    - apply NoDup_app. split_and!; [done| |done].
      intros z Hz1 Hz2. apply (Hd z); [done|by right]. }
  assert (Hsub : ∀ z, z ∈ cells (mkBucket (size_sub n 1) e) (l1 ++ l2) →
                      z ∈ e :: l1.*1 ++ c.1 :: l2.*1).
  { intros z. unfold cells. st_simpl. rewrite fmap_app.
    rewrite !elem_of_cons, !elem_of_app, elem_of_cons. tauto. }
  eapply (Inv_update s css i (mkBucket n e) _ _ (mkBucket (size_sub n 1) e) (l1 ++ l2));
    [exact HI|exact Hview|reflexivity| |exact Hnd'| | | | |].
  - split_and!.
    + unfold cells. st_simpl. rewrite fmap_app.
      apply (ring_unlink (heap s) _ e (l1.*1) c.1 (l2.*1) x y);
        [exact Hlk|exact Hnd0|exact Hx|exact Hy|..].
      * intros z ? ?. by heap_simpl.
      * by heap_simpl.
      * intros z ? ?. by heap_simpl.
      * by heap_simpl.
    + apply Forall_app in Hvals as [Hv1 [_ Hv2]%Forall_cons].
      apply Forall_app. split.
      * rewrite Forall_forall in Hv1 |- *. intros d Hd'. st_simpl.
        assert (d.1 ≠ c.1).
        { intros E. apply (Hd d.1); [apply list_elem_of_fmap; by exists d|].
          rewrite E. by left. }
        heap_simpl. by apply Hv1.
      * rewrite Forall_forall in Hv2 |- *. intros d Hd'. st_simpl.
        assert (d.1 ≠ c.1).
        { intros E. apply Ha. rewrite <- E. apply list_elem_of_fmap. by exists d. }
        heap_simpl. by apply Hv2.
    + st_simpl. unfold size_sub. rewrite Hsz.
      pose proof (valid_addresses_count _ Hnd0 Hv) as Hbd.
      simpl in Hbd. rewrite !length_app in *. simpl in *.
      rewrite !length_fmap in Hbd. rewrite Z.mod_small; lia.
  - rewrite Forall_forall in Hv |- *. intros z Hz. by apply Hv, Hsub.
  - intros z Hz. left. unfold cells. st_simpl. rewrite fmap_app. by apply Hsub.
  - intros z Hz Hzc. st_simpl. unfold cells in Hzc. st_simpl in Hzc.
    rewrite fmap_app in Hzc. cbn [fmap list_fmap] in Hzc.
    assert (z ≠ c.1).
    { intros ->. apply Hzc. right. apply elem_of_app. right. by left. }
    assert (z ≠ x).
    { intros ->. apply Hzc. rewrite app_comm_cons. apply elem_of_app. by left. }
    assert (z ≠ y).
    { intros ->. apply Hzc. apply elem_of_app in Hyin as [Hyin|Hyin].
      - right. apply elem_of_app. right. by right.
      - apply list_elem_of_singleton in Hyin as ->. by left. }
    by heap_simpl.
  - apply Forall_app in Hpl as [Hp1 [_ Hp2]%Forall_cons].
    apply Forall_app. by split.
  - apply uniq_keys_app in Hu as (Hu1 & [_ Hu2] & H12).
    apply uniq_keys_app. split_and!; [done..|].
    eapply Forall_impl; [exact H12|]. simpl. by intros d [_ ?]%Forall_cons.
Qed.

(** ** Member functions of the map as equations *)

Lemma IteratorHelper_ctor_eq s i b node :
  bucket_at (m_buckets s) i = Some b →
  IteratorHelper_ctor i node s =
  Some (mkIterator (if m_end b =? node then BUCKET_COUNT else i) (mkReference node), s).
Proof.
  intros Hb. unfold IteratorHelper_ctor.
  by rewrite (bind_eq _ _ _ _ _ (Bucket_end_eq _ _ _ Hb)).
Qed.

Lemma bucket_at_past (bs : list Bucket) :
  Z.of_nat (length bs) = BUCKET_COUNT → bucket_at bs BUCKET_COUNT = None.
Proof.
  intros H. unfold bucket_at. case_decide; [|done].
  apply lookup_ge_None. lia.
Qed.

Lemma HashMap_end_eq s :
  Z.of_nat (length (m_buckets s)) = BUCKET_COUNT →
  HashMap_end s = Some (mkIterator BUCKET_COUNT (mkReference nullptr),
                        with_oob (BUCKET_COUNT :: oob_reads s) s).
Proof.
  intros H. unfold HashMap_end, IteratorHelper_ctor, Bucket_end, read_bucket, bind, ret.
  rewrite (bucket_at_past _ H). by destruct (m_end past_the_end =? nullptr).
Qed.

Lemma cell_not_end b (l : list (ptr * Pair)) c :
  NoDup (cells b l) → c ∈ l → (m_end b =? c.1) = false.
Proof.
  intros Hnd Hc. apply Z.eqb_neq. intros E.
  apply NoDup_cons in Hnd as [Hnd _]. apply Hnd. rewrite E.
  apply list_elem_of_fmap. by exists c.
Qed.

Lemma find_cell_elem key l c : find_cell key l = Some c → c ∈ l.
Proof.
  intros (l1 & l2 & -> & _)%find_cell_Some. apply elem_of_app. right. by left.
Qed.

Lemma HashMap_find_eq s css key b l :
  bucket_view s css (bucket_index_of key) b l →
  HashMap_find key s = Some (find_cursor (bucket_index_of key) b l key, s).
Proof.
  intros [Hat Hb Hl Hall Hr Hnd Hv Hpl Hu]. unfold HashMap_find.
  rewrite (bind_eq _ _ _ _ _ (Bucket_find_eq _ _ _ _ key Hat Hr Hnd)).
  rewrite (IteratorHelper_ctor_eq _ _ _ _ Hat).
  unfold find_cursor, found. destruct (find_cell key l) as [c|] eqn:E; simpl.
  - by rewrite (cell_not_end b l c Hnd (find_cell_elem _ _ _ E)).
  - by rewrite Z.eqb_refl.
Qed.

Lemma pushed_back_bucket s i b l p value :
  bucket_at (m_buckets s) i = Some b →
  bucket_at (m_buckets (pushed_back i b l p value s)) i
  = Some (mkBucket (size_add (m_size b) 1) (m_end b)).
Proof.
  intros [Hi Hb]%bucket_at_lookup. apply bucket_at_lookup. split; [done|].
  unfold pushed_back, linked_back. st_simpl.
  apply list_lookup_insert_eq. by eapply lookup_lt_Some.
Qed.

Lemma Bucket_push_back_eq s css i b l p value :
  bucket_view s css i b l → valid_address p → heap s !! p = None →
  (do result ← new_Node p in
   exe Bucket_link_back i result in
   exe store_value result value in
   ret result) s = Some (p, pushed_back i b l p value s).
Proof.
  intros [Hat Hb Hl Hall Hr Hnd Hv Hpl Hu] Hp Hfresh.
  assert (Hal : ∀ x, x ∈ cells b l → allocated (heap s) x)
    by (intros; by eapply bucket_repr_allocated).
  assert (Hpc : p ∉ cells b l).
  { intros Hx. apply Hal in Hx as [? Hx]. congruence. }
  assert (Hlast : last (m_end b :: l.*1) = Some (last_of (m_end b) l)) by apply last_cells.
  assert (Htin : last_of (m_end b) l ∈ cells b l).
  { apply last_Some in Hlast as [l' E]. unfold cells. rewrite E.
    apply elem_of_app. right. by left. }
  assert (Hpe : p ≠ m_end b) by (intros ->; apply Hpc; by left).
  rewrite (bind_eq _ _ _ _ _ (new_Node_eq _ _ Hp Hfresh)).
  erewrite bind_eq; cycle 1.
  { apply (Bucket_link_back_eq _ i b p (last_of (m_end b) l)); st_simpl; [done|..|done].
    - apply allocated_insert. by left.
    - apply allocated_insert. right. apply Hal. by left.
    - apply allocated_insert. right. by apply Hal.
    - rewrite prev_insert_ne by done. destruct Hr as (Hlk & _ & _).
      eapply ring_last; [exact Hlk|done]. }
  erewrite bind_eq; cycle 1.
  { apply store_value_eq. unfold linked_back. st_simpl. alloc_solve. }
  done.
Qed.

Lemma Bucket_insert_new s css i b l p value :
  bucket_view s css i b l → valid_address p → heap s !! p = None →
  find_cell (first value) l = None →
  Bucket_insert i value p s = Some ((p, true), pushed_back i b l p value s).
Proof.
  intros Hview Hp Hfresh Hfind.
  pose proof Hview as [Hat Hb Hl Hall Hr Hnd Hv Hpl Hu]. unfold Bucket_insert.
  rewrite (bind_eq _ _ _ _ _ (Bucket_find_eq _ _ _ _ (first value) Hat Hr Hnd)).
  rewrite (bind_eq _ _ _ _ _ (Bucket_end_eq _ _ _ Hat)).
  unfold found. rewrite Hfind. simpl. rewrite Z.eqb_refl. simpl.
  pose proof (Bucket_push_back_eq s css i b l p value Hview Hp Hfresh) as Hpush.
  unfold bind in Hpush |- *.
  destruct (new_Node p s) as [[r s1]|]; [|done].
  destruct (Bucket_link_back i r s1) as [[[] s2]|]; [|done].
  destruct (store_value r value s2) as [[[] s3]|]; [|done].
  unfold ret in *. by simplify_eq.
Qed.

Lemma Bucket_insert_old s css i b l p value c :
  bucket_view s css i b l → find_cell (first value) l = Some c →
  Bucket_insert i value p s = Some ((c.1, false), s).
Proof.
  intros [Hat Hb Hl Hall Hr Hnd Hv Hpl Hu] Hfind. unfold Bucket_insert.
  rewrite (bind_eq _ _ _ _ _ (Bucket_find_eq _ _ _ _ (first value) Hat Hr Hnd)).
  rewrite (bind_eq _ _ _ _ _ (Bucket_end_eq _ _ _ Hat)).
  unfold found. rewrite Hfind. simpl.
  rewrite Z.eqb_sym, (cell_not_end b l c Hnd (find_cell_elem _ _ _ Hfind)). done.
Qed.

Lemma Bucket_insert_or_assign_new s css i b l p value :
  bucket_view s css i b l → valid_address p → heap s !! p = None →
  find_cell (first value) l = None →
  Bucket_insert_or_assign i value p s = Some (p, pushed_back i b l p value s).
Proof.
  intros Hview Hp Hfresh Hfind.
  pose proof Hview as [Hat Hb Hl Hall Hr Hnd Hv Hpl Hu]. unfold Bucket_insert_or_assign.
  rewrite (bind_eq _ _ _ _ _ (Bucket_find_eq _ _ _ _ (first value) Hat Hr Hnd)).
  rewrite (bind_eq _ _ _ _ _ (Bucket_end_eq _ _ _ Hat)).
  unfold found. rewrite Hfind. simpl. rewrite Z.eqb_refl.
  pose proof (Bucket_push_back_eq s css i b l p value Hview Hp Hfresh) as Hpush.
  unfold bind in Hpush |- *.
  destruct (new_Node p s) as [[r s1]|]; [|done].
  destruct (Bucket_link_back i r s1) as [[[] s2]|]; [|done]. unfold ret at 1.
  destruct (store_value r value s2) as [[[] s3]|]; [|done].
  unfold ret in *. by simplify_eq.
Qed.

Lemma Bucket_insert_or_assign_old s css i b l p value c :
  bucket_view s css i b l → find_cell (first value) l = Some c →
  Bucket_insert_or_assign i value p s
  = Some (c.1, with_heap (set_value c.1 value (heap s)) s).
Proof.
  intros [Hat Hb Hl Hall Hr Hnd Hv Hpl Hu] Hfind. unfold Bucket_insert_or_assign.
  rewrite (bind_eq _ _ _ _ _ (Bucket_find_eq _ _ _ _ (first value) Hat Hr Hnd)).
  rewrite (bind_eq _ _ _ _ _ (Bucket_end_eq _ _ _ Hat)).
  unfold found. rewrite Hfind. simpl.
  pose proof (find_cell_elem _ _ _ Hfind) as Hc.
  rewrite Z.eqb_sym, (cell_not_end b l c Hnd Hc).
  unfold bind at 1. unfold ret at 1.
  erewrite bind_eq; [done|]. apply store_value_eq.
  eapply bucket_repr_allocated; [done|]. right. apply list_elem_of_fmap. by exists c.
Qed.

Lemma Bucket_erase_node_cell s css i b l1 c l2 :
  bucket_view s css i b (l1 ++ c :: l2) →
  Bucket_erase_node i c.1 s
  = Some (tt, unlinked i b c.1 (last_of (m_end b) l1) (first_of (m_end b) l2) s).
Proof.
  intros [Hat Hb Hl Hall Hr Hnd Hv Hpl Hu].
  assert (Hx : last (m_end b :: l1.*1) = Some (last_of (m_end b) l1)) by apply last_cells.
  assert (Hy : head (l2.*1 ++ [m_end b]) = Some (first_of (m_end b) l2)) by apply head_cells.
  pose proof Hr as (Hlk & _ & _).
  unfold cells in Hlk, Hnd. rewrite fmap_app in Hlk, Hnd. cbn [fmap list_fmap] in Hlk, Hnd.
  assert (Hal : ∀ z, z ∈ m_end b :: l1.*1 ++ c.1 :: l2.*1 → allocated (heap s) z).
  { intros z Hz. eapply links_allocated; [exact Hlk| |].
    - rewrite length_app. simpl. lia.
    - apply elem_of_app. by left. }
  assert (Hxin : last_of (m_end b) l1 ∈ m_end b :: l1.*1).
  { apply last_Some in Hx as [l' E]. rewrite E. apply elem_of_app. right. by left. }
  assert (Hyin : first_of (m_end b) l2 ∈ l2.*1 ++ [m_end b]).
  { destruct (l2.*1 ++ [m_end b]); simplify_eq/=. by left. }
  pose proof Hnd as Hnd0.
  apply NoDup_cons in Hnd as [He Hnd].
  apply NoDup_app in Hnd as (Hk1 & Hd & Hak2).
  apply NoDup_cons in Hak2 as [Ha Hk2].
  rewrite elem_of_app, elem_of_cons in He.
  assert (Hce : c.1 ≠ m_end b) by (intros E; apply He; right; left; done).
  apply Bucket_erase_node_eq; [done|done| | | | |].
  - intros E. apply elem_of_app in Hyin as [Hyin|Hyin].
    + apply Ha. by rewrite E.
    + apply list_elem_of_singleton in Hyin. congruence.
  - eapply ring_succ; [exact Hlk|done].
  - eapply ring_pred; [exact Hlk|done].
  - apply Hal. rewrite app_comm_cons. apply elem_of_app. by left.
  - apply elem_of_app in Hyin as [Hyin|Hyin].
    + apply Hal. right. apply elem_of_app. right. by right.
    + apply list_elem_of_singleton in Hyin as ->. apply Hal. by left.
Qed.

Lemma Bucket_erase_old s css i b l1 c l2 key :
  bucket_view s css i b (l1 ++ c :: l2) →
  find_cell key (l1 ++ c :: l2) = Some c →
  Bucket_erase i key s
  = Some (tt, unlinked i b c.1 (last_of (m_end b) l1) (first_of (m_end b) l2) s).
Proof.
  intros Hview Hfind. pose proof Hview as [Hat Hb Hl Hall Hr Hnd Hv Hpl Hu].
  unfold Bucket_erase.
  rewrite (bind_eq _ _ _ _ _ (Bucket_find_eq _ _ _ _ key Hat Hr Hnd)).
  unfold found. rewrite Hfind. simpl. by eapply Bucket_erase_node_cell.
Qed.

Lemma Bucket_erase_none s css i b l key :
  bucket_view s css i b l → find_cell key l = None →
  Bucket_erase i key s = Some (tt, s).
Proof.
  intros [Hat Hb Hl Hall Hr Hnd Hv Hpl Hu] Hfind. unfold Bucket_erase.
  rewrite (bind_eq _ _ _ _ _ (Bucket_find_eq _ _ _ _ key Hat Hr Hnd)).
  unfold found. rewrite Hfind. simpl. by apply Bucket_erase_node_end.
Qed.

Lemma HashMap_insert_pair_new s css b l p value :
  bucket_view s css (bucket_index_of (first value)) b l →
  valid_address p → heap s !! p = None → find_cell (first value) l = None →
  HashMap_insert_pair value p s
  = Some ((mkIterator (bucket_index_of (first value)) (mkReference p), true),
          pushed_back (bucket_index_of (first value)) b l p value s).
Proof.
  intros Hview Hp Hfresh Hfind. unfold HashMap_insert_pair.
  rewrite (bind_eq _ _ _ _ _ (Bucket_insert_new _ _ _ _ _ _ _ Hview Hp Hfresh Hfind)).
  pose proof Hview as [Hat Hb Hl Hall Hr Hnd Hv Hpl Hu].
  erewrite bind_eq by (apply IteratorHelper_ctor_eq; by apply pushed_back_bucket).
  st_simpl.
  assert ((m_end b =? p) = false) as ->; [|done].
  apply Z.eqb_neq. intros E.
  assert (allocated (heap s) p) as [? Hx]; [|congruence].
  eapply bucket_repr_allocated; [done|]. rewrite <- E. by left.
Qed.

Lemma HashMap_insert_pair_old s css b l p value c :
  bucket_view s css (bucket_index_of (first value)) b l →
  find_cell (first value) l = Some c →
  HashMap_insert_pair value p s
  = Some ((mkIterator (bucket_index_of (first value)) (mkReference c.1), false), s).
Proof.
  intros Hview Hfind. unfold HashMap_insert_pair.
  rewrite (bind_eq _ _ _ _ _ (Bucket_insert_old _ _ _ _ _ p _ _ Hview Hfind)).
  pose proof Hview as [Hat Hb Hl Hall Hr Hnd Hv Hpl Hu].
  rewrite (bind_eq _ _ _ _ _ (IteratorHelper_ctor_eq _ _ _ _ Hat)). st_simpl.
  by rewrite (cell_not_end b l c Hnd (find_cell_elem _ _ _ Hfind)).
Qed.

Lemma HashMap_insert_or_assign_pair_new s css b l p value :
  bucket_view s css (bucket_index_of (first value)) b l →
  valid_address p → heap s !! p = None → find_cell (first value) l = None →
  HashMap_insert_or_assign_pair value p s
  = Some (mkIterator (bucket_index_of (first value)) (mkReference p),
          pushed_back (bucket_index_of (first value)) b l p value s).
Proof.
  intros Hview Hp Hfresh Hfind. unfold HashMap_insert_or_assign_pair.
  rewrite (bind_eq _ _ _ _ _
             (Bucket_insert_or_assign_new _ _ _ _ _ _ _ Hview Hp Hfresh Hfind)).
  pose proof Hview as [Hat Hb Hl Hall Hr Hnd Hv Hpl Hu].
  erewrite IteratorHelper_ctor_eq by (by apply pushed_back_bucket).
  st_simpl.
  assert ((m_end b =? p) = false) as ->; [|done].
  apply Z.eqb_neq. intros E.
  assert (allocated (heap s) p) as [? Hx]; [|congruence].
  eapply bucket_repr_allocated; [done|]. rewrite <- E. by left.
Qed.

Lemma HashMap_insert_or_assign_pair_old s css b l p value c :
  bucket_view s css (bucket_index_of (first value)) b l →
  find_cell (first value) l = Some c →
  HashMap_insert_or_assign_pair value p s
  = Some (mkIterator (bucket_index_of (first value)) (mkReference c.1),
          with_heap (set_value c.1 value (heap s)) s).
Proof.
  intros Hview Hfind. unfold HashMap_insert_or_assign_pair.
  rewrite (bind_eq _ _ _ _ _
             (Bucket_insert_or_assign_old _ _ _ _ _ p _ _ Hview Hfind)).
  pose proof Hview as [Hat Hb Hl Hall Hr Hnd Hv Hpl Hu].
  erewrite IteratorHelper_ctor_eq by (st_simpl; done).
  by rewrite (cell_not_end b l c Hnd (find_cell_elem _ _ _ Hfind)).
Qed.

(** ** Counting *)

Lemma all_cells_length (h : gmap Z Node) (bs : list Bucket) css :
  Forall2 (bucket_repr h) bs css →
  length (concat (all_cells bs css)) = (length css + length (concat css))%nat.
Proof.
  unfold all_cells. induction 1 as [|b l bs css _ _ IH]; [done|].
  simpl. rewrite !length_app, IH, length_fmap. lia.
Qed.

Lemma Inv_total s css :
  Inv s css → Z.of_nat (length css) = BUCKET_COUNT ∧
              BUCKET_COUNT + Z.of_nat (length (concat css)) < SIZE_MAX1.
Proof.
  intros [Hc Hr Hnd Hv Hp Hu].
  pose proof (valid_addresses_count _ Hnd Hv) as H.
  rewrite (all_cells_length _ _ _ Hr) in H.
  apply Forall2_length in Hr. lia.
Qed.

Lemma concat_take_le {A} (ls : list (list A)) i :
  (length (concat (take i ls)) ≤ length (concat ls))%nat.
Proof.
  rewrite <- (take_drop i ls) at 2. rewrite concat_app, length_app. lia.
Qed.

Lemma size_add_1 i : 0 ≤ i → i + 1 < SIZE_MAX1 → size_add i 1 = i + 1.
Proof. intros. unfold size_add. apply Z.mod_small. lia. Qed.

Lemma Inv_view_nat s css i :
  Inv s css → (i < length css)%nat → ∃ b l, bucket_view s css (Z.of_nat i) b l.
Proof.
  intros HI Hi. apply Inv_view; [done|]. pose proof (Inv_total _ _ HI). lia.
Qed.

Lemma view_cells_nat s css i b l :
  bucket_view s css (Z.of_nat i) b l → css !! i = Some l.
Proof. intros [_ _ Hl _ _ _ _ _ _]. by rewrite Nat2Z.id in Hl. Qed.

Lemma HashMap_size_loop_eq s css :
  Inv s css →
  ∀ trips i,
    (i + trips ≤ length css)%nat →
    HashMap_size_loop trips (Z.of_nat i) (Z.of_nat (length (concat (take i css)))) s
    = Some (Z.of_nat (length (concat (take (i + trips) css))), s).
Proof.
  intros HI. pose proof (Inv_total _ _ HI) as [Hlen Htot].
  induction trips as [|trips IH]; intros i Hi; simpl.
  - by rewrite Nat.add_0_r.
  - destruct (Inv_view_nat s css i HI) as (b & l & Hview); [lia|].
    pose proof (view_cells_nat _ _ _ _ _ Hview) as Hl.
    pose proof Hview as [Hat _ _ _ (_ & _ & Hsz) _ _ _ _].
    rewrite (bind_eq _ _ _ _ _ (Bucket_size_eq _ _ _ Hat)).
    rewrite size_add_1 by lia.
    replace (Z.of_nat i + 1) with (Z.of_nat (S i)) by lia.
    assert (Hacc : size_add (Z.of_nat (length (concat (take i css)))) (m_size b)
                   = Z.of_nat (length (concat (take (S i) css)))).
    { pose proof (concat_take_le css (S i)) as Hle.
      rewrite (take_S_r _ _ _ Hl), concat_app, length_app in Hle |- *.
      simpl in Hle |- *. rewrite app_nil_r in Hle |- *.
      unfold size_add. rewrite Hsz, Z.mod_small; [lia|split; lia]. }
    rewrite Hacc, IH by lia.
    by replace (i + S trips)%nat with (S i + trips)%nat by lia.
Qed.

Lemma HashMap_size_eq s css :
  Inv s css → HashMap_size s = Some (Z.of_nat (length (concat css)), s).
Proof.
  intros HI. pose proof (Inv_total _ _ HI) as [Hlen Htot]. unfold HashMap_size.
  etrans; [exact (HashMap_size_loop_eq s css HI (Z.to_nat BUCKET_COUNT) 0%nat ltac:(lia))|].
  rewrite Nat.add_0_l, take_ge by lia. done.
Qed.

Lemma HashMap_empty_loop_eq s css :
  Inv s css →
  ∀ trips i,
    (i + trips ≤ length css)%nat →
    HashMap_empty_loop trips (Z.of_nat i) s
    = Some (bool_decide (concat (take trips (drop i css)) = []), s).
Proof.
  intros HI. pose proof (Inv_total _ _ HI) as [Hlen Htot].
  induction trips as [|trips IH]; intros i Hi; simpl.
  - done.
  - destruct (Inv_view_nat s css i HI) as (b & l & Hview); [lia|].
    pose proof (view_cells_nat _ _ _ _ _ Hview) as Hl.
    pose proof Hview as [Hat _ _ _ Hr Hnd _ _ _].
    rewrite (bind_eq _ _ _ _ _ (Bucket_empty_eq _ _ _ _ Hat Hr Hnd)).
    rewrite (drop_S _ _ _ Hl). simpl.
    destruct l as [|c l]; simpl.
    + rewrite size_add_1 by lia.
      replace (Z.of_nat i + 1) with (Z.of_nat (S i)) by lia.
      rewrite IH by lia. done.
    + done.
Qed.

Lemma HashMap_empty_eq s css :
  Inv s css → HashMap_empty s = Some (bool_decide (concat css = []), s).
Proof.
  intros HI. pose proof (Inv_total _ _ HI) as [Hlen Htot]. unfold HashMap_empty.
  etrans; [exact (HashMap_empty_loop_eq s css HI (Z.to_nat BUCKET_COUNT) 0%nat ltac:(lia))|].
  rewrite drop_0, take_ge by lia. done.
Qed.

(** ** Cursors *)

Lemma same_memory_refl s : same_memory s s.
Proof. done. Qed.

Lemma same_memory_oob s log : same_memory s (with_oob log s).
Proof. done. Qed.

Lemma Inv_same_memory s s' css : same_memory s s' → Inv s css → Inv s' css.
Proof. intros [Hh Hb] [Hc Hr Hnd Hv Hp Hu]. split; rewrite ?Hh, ?Hb; done. Qed.

Lemma position_first css j c l :
  css !! j = Some (c :: l) →
  position css (mkIterator (Z.of_nat j) (mkReference c.1)) (concat (drop j css)).
Proof.
  intros Hj. rewrite (drop_S _ _ _ Hj). simpl.
  by apply (position_on css _ j [] c l).
Qed.

Lemma Bucket_begin_first s css j b c l :
  bucket_view s css (Z.of_nat j) b (c :: l) →
  (do b ← Bucket_begin (Z.of_nat j) in IteratorHelper_ctor (Z.of_nat j) b) s
  = Some (mkIterator (Z.of_nat j) (mkReference c.1), s).
Proof.
  intros [Hat Hb Hl Hall Hr Hnd Hv Hpl Hu].
  rewrite (bind_eq _ _ _ _ _ (Bucket_begin_eq _ _ _ _ Hat Hr)).
  rewrite (IteratorHelper_ctor_eq _ _ _ _ Hat). simpl.
  by rewrite (cell_not_end b (c :: l) c Hnd) by (by left).
Qed.

Lemma IteratorHelper_skip_eq s css :
  Inv s css →
  ∀ n i fuel,
    (i + n = length css)%nat → (1 ≤ n)%nat → (n ≤ fuel)%nat →
    ∃ j, IteratorHelper_skip fuel (Z.of_nat i) s = Some (Z.of_nat j, s) ∧
         (S i ≤ j ≤ length css)%nat ∧
         concat (drop (S i) css) = concat (drop j css) ∧
         (j = length css ∨ ∃ c l, css !! j = Some (c :: l)).
Proof.
  intros HI. pose proof (Inv_total _ _ HI) as [Hlen Htot].
  induction n as [|n IH]; intros i fuel Hi Hn Hf; [lia|].
  destruct fuel as [|fuel]; [lia|]. simpl.
  rewrite size_add_1 by lia.
  replace (Z.of_nat i + 1) with (Z.of_nat (S i)) by lia.
  destruct (decide (n = 0)%nat) as [->|Hn0].
  - assert ((Z.of_nat (S i) =? BUCKET_COUNT) = true) as -> by (apply Z.eqb_eq; lia).
    simpl. exists (S i). split_and!; [done|lia..|done|left; lia].
  - assert ((Z.of_nat (S i) =? BUCKET_COUNT) = false) as -> by (apply Z.eqb_neq; lia).
    simpl.
    destruct (Inv_view_nat s css (S i) HI) as (b & l & Hview); [lia|].
    pose proof (view_cells_nat _ _ _ _ _ Hview) as Hl.
    pose proof Hview as [Hat _ _ _ Hr Hnd _ _ _].
    rewrite (bind_eq _ _ _ _ _ (Bucket_empty_eq _ _ _ _ Hat Hr Hnd)).
    destruct l as [|c l]; simpl.
    + destruct (IH (S i) fuel) as (j & Hj & Hr1 & Hr2 & Hr3); [lia..|].
      exists j. split_and!; [done|lia..| |done].
      by rewrite (drop_S _ _ _ Hl).
    + exists (S i). split_and!; [done|lia..|done|right; eauto].
Qed.

Lemma HashMap_begin_loop_eq s css :
  Inv s css →
  ∀ n i fuel,
    (i + n = length css)%nat → (n < fuel)%nat →
    ∃ j, HashMap_begin_loop fuel (Z.of_nat i) s = Some (Z.of_nat j, s) ∧
         (i ≤ j ≤ length css)%nat ∧
         concat (drop i css) = concat (drop j css) ∧
         (j = length css ∨ ∃ c l, css !! j = Some (c :: l)).
Proof.
  intros HI. pose proof (Inv_total _ _ HI) as [Hlen Htot].
  induction n as [|n IH]; intros i fuel Hi Hf;
    (destruct fuel as [|fuel]; [lia|]); simpl.
  - assert ((Z.of_nat i <? BUCKET_COUNT) = false) as -> by (apply Z.ltb_ge; lia).
    exists i. split_and!; [done|lia..|done|left; lia].
  - assert ((Z.of_nat i <? BUCKET_COUNT) = true) as -> by (apply Z.ltb_lt; lia).
    destruct (Inv_view_nat s css i HI) as (b & l & Hview); [lia|].
    pose proof (view_cells_nat _ _ _ _ _ Hview) as Hl.
    pose proof Hview as [Hat _ _ _ Hr Hnd _ _ _].
    rewrite (bind_eq _ _ _ _ _ (Bucket_empty_eq _ _ _ _ Hat Hr Hnd)).
    destruct l as [|c l]; simpl.
    + rewrite size_add_1 by lia.
      replace (Z.of_nat i + 1) with (Z.of_nat (S i)) by lia.
      destruct (IH (S i) fuel) as (j & Hj & Hr1 & Hr2 & Hr3); [lia..|].
      exists j. split_and!; [done|lia..| |done].
      by rewrite (drop_S _ _ _ Hl).
    + exists i. split_and!; [done|lia..|done|right; eauto].
Qed.

Lemma HashMap_begin_eq s css :
  Inv s css →
  ∃ it s', HashMap_begin s = Some (it, s') ∧ same_memory s s' ∧
           position css it (concat css).
Proof.
  intros HI. pose proof (Inv_total _ _ HI) as [Hlen Htot]. unfold HashMap_begin.
  destruct (HashMap_begin_loop_eq s css HI (length css) 0 (S (Z.to_nat BUCKET_COUNT)))
    as (j & Hj & Hr1 & Hr2 & Hr3); [lia..|].
  change (Z.of_nat 0) with 0 in Hj. rewrite (bind_eq _ _ _ _ _ Hj).
  rewrite drop_0 in Hr2. rewrite Hr2.
  destruct Hr3 as [->|(c & l & Hl)].
  - assert ((Z.of_nat (length css) =? BUCKET_COUNT) = true) as ->
      by (apply Z.eqb_eq; lia).
    pose proof (HashMap_end_eq s (inv_count _ _ HI)) as He. unfold HashMap_end in He.
    rewrite He. eexists _, _. split_and!; [done|apply same_memory_oob|].
    rewrite drop_all. by apply position_end.
  - assert (j < length css)%nat by (by eapply lookup_lt_Some).
    assert ((Z.of_nat j =? BUCKET_COUNT) = false) as -> by (apply Z.eqb_neq; lia).
    destruct (Inv_view_nat s css j HI) as (b & l' & Hview); [lia|].
    pose proof (view_cells_nat _ _ _ _ _ Hview) as Hl'. simplify_eq.
    rewrite (Bucket_begin_first _ _ _ _ _ _ Hview).
    eexists _, _. split_and!; [done|done|]. by apply (position_first css j c l).
Qed.

(** The cursor [operator++] yields stays in place when the cells before it
    in its bucket change: it is stated for every [css2] that agrees with
    [css] from the cell after the cursor on. *)
Lemma IteratorHelper_incr_on s css it i l1 c l2 :
  Inv s css → m_index it = Z.of_nat i → css !! i = Some (l1 ++ c :: l2) →
  m_node (m_ref it) = c.1 →
  ∃ it', IteratorHelper_incr it s = Some (it', s) ∧
         ∀ css2 l1x,
           css2 !! i = Some (l1x ++ l2) → drop (S i) css2 = drop (S i) css →
           position css2 it' (l2 ++ concat (drop (S i) css)).
Proof.
  intros HI Hidx Hl Hnode. pose proof (Inv_total _ _ HI) as [Hlen Htot].
  assert (Hi : (i < length css)%nat) by (by eapply lookup_lt_Some).
  destruct (Inv_view_nat s css i HI) as (b & l & Hview); [lia|].
  pose proof (view_cells_nat _ _ _ _ _ Hview) as Hl'. simplify_eq.
  pose proof Hview as [Hat _ _ _ Hr Hnd _ _ _].
  pose proof Hr as (Hlk & _ & _).
  unfold cells in Hlk, Hnd. rewrite fmap_app in Hlk, Hnd. cbn [fmap list_fmap] in Hlk, Hnd.
  assert (Hnx : next_of (heap s) c.1 = Some (first_of (m_end b) l2)).
  { eapply ring_succ; [exact Hlk|]. apply head_cells. }
  unfold IteratorHelper_incr. rewrite Hnode, Hidx.
  rewrite (bind_eq _ _ _ _ _ (load_next_eq _ _ _ Hnx)).
  rewrite (bind_eq _ _ _ _ _ (Bucket_end_eq _ _ _ Hat)). cbn [m_node].
  destruct l2 as [|c2 l2]; cbn [first_of].
  - rewrite Z.eqb_refl.
    destruct (IteratorHelper_skip_eq s css HI (length css - i) i
                (S (Z.to_nat BUCKET_COUNT)))
      as (j & Hj & Hr1 & Hr2 & Hr3); [lia..|].
    rewrite (bind_eq _ _ _ _ _ Hj). simpl. rewrite Hr2.
    destruct Hr3 as [->|(c3 & l3 & Hl3)].
    + assert ((Z.of_nat (length css) =? BUCKET_COUNT) = true) as ->
        by (apply Z.eqb_eq; lia).
      simpl. eexists. split; [done|]. intros css2 l1x _ _.
      rewrite drop_all. by apply position_end.
    + assert (j < length css)%nat by (by eapply lookup_lt_Some).
      assert ((Z.of_nat j =? BUCKET_COUNT) = false) as -> by (apply Z.eqb_neq; lia).
      simpl.
      destruct (Inv_view_nat s css j HI) as (b3 & l3' & Hview3); [lia|].
      pose proof (view_cells_nat _ _ _ _ _ Hview3) as Hl3'. simplify_eq.
      pose proof Hview3 as [Hat3 _ _ _ Hr3 _ _ _ _].
      rewrite (bind_eq _ _ _ _ _ (Bucket_begin_eq _ _ _ _ Hat3 Hr3)).
      eexists. split; [done|]. intros css2 l1x _ Hdrop.
      assert (Hdj : drop j css2 = drop j css).
      { replace j with (S i + (j - S i))%nat by lia.
        by rewrite <- !drop_drop, Hdrop. }
      rewrite <- Hdj. apply (position_first css2 j c3 l3).
      rewrite <- (Nat.add_0_r j), <- lookup_drop, Hdj, lookup_drop, Nat.add_0_r. done.
  - assert ((c2.1 =? m_end b) = false) as ->.
    { apply Z.eqb_neq. intros E. apply NoDup_cons in Hnd as [Hnd _]. apply Hnd.
      rewrite <- E. apply elem_of_app. right. right. by left. }
    eexists. split; [done|]. intros css2 l1x Hl2 Hdrop.
    rewrite <- Hdrop, <- app_comm_cons.
    by apply (position_on css2 _ i l1x c2 l2).
Qed.

Lemma IteratorHelper_incr_eq s css it c rest :
  Inv s css → position css it (c :: rest) →
  ∃ it', IteratorHelper_incr it s = Some (it', s) ∧ position css it' rest.
Proof.
  intros HI Hpos.
  inversion Hpos as [|? i l1 c' l2 Hidx Hl Hnode]; subst.
  destruct (IteratorHelper_incr_on s css it i l1 c l2 HI Hidx Hl Hnode) as (it' & Hit & Hp).
  exists it'. split; [done|]. apply (Hp css (l1 ++ [c])); [|done].
  by rewrite <- app_assoc.
Qed.

Lemma Inv_cell_valid s css i l c :
  Inv s css → css !! i = Some l → c ∈ l → valid_address c.1.
Proof.
  intros HI Hl Hc.
  assert (Hi : (i < length css)%nat) by (by eapply lookup_lt_Some).
  destruct (Inv_view_nat s css i HI) as (b & l' & Hview); [lia|].
  pose proof (view_cells_nat _ _ _ _ _ Hview) as Hl'. simplify_eq.
  pose proof Hview as [_ _ _ _ _ _ Hv _ _].
  rewrite Forall_forall in Hv. apply Hv. right. apply list_elem_of_fmap. by exists c.
Qed.

Lemma IteratorHelper_eq_end s css it rest :
  Inv s css → position css it rest →
  IteratorHelper_eq it end_cursor = bool_decide (rest = []).
Proof.
  intros HI Hpos. pose proof (Inv_total _ _ HI) as [Hlen Htot].
  unfold IteratorHelper_eq, end_cursor.
  inversion Hpos as [? Hidx|? i l1 c l2 Hidx Hl Hnode]; subst; simpl.
  - by rewrite Hidx, Z.eqb_refl.
  - assert (Hi : (i < length css)%nat) by (by eapply lookup_lt_Some).
    assert ((m_index it =? BUCKET_COUNT) = false) as -> by (apply Z.eqb_neq; lia).
    simpl. rewrite Hnode.
    assert (valid_address c.1) as [? ?].
    { eapply Inv_cell_valid; [done..|]. apply elem_of_app. right. by left. }
    assert ((c.1 =? nullptr) = false) as -> by (apply Z.eqb_neq; unfold nullptr; lia).
    done.
Qed.

Lemma position_value s css it c rest :
  Inv s css → position css it (c :: rest) →
  value_of (heap s) (m_node (m_ref it)) = Some c.2.
Proof.
  intros HI Hpos.
  inversion Hpos as [|? i l1 c' l2 Hidx Hl Hnode]; subst.
  assert (Hi : (i < length css)%nat) by (by eapply lookup_lt_Some).
  destruct (Inv_view_nat s css i HI) as (b & l & Hview); [lia|].
  pose proof (view_cells_nat _ _ _ _ _ Hview) as Hl'. simplify_eq.
  pose proof Hview as [_ _ _ _ (_ & Hvals & _) _ _ _ _].
  rewrite Forall_forall in Hvals. rewrite Hnode. apply Hvals.
  apply elem_of_app. right. by left.
Qed.

Lemma traverse_loop_eq s css :
  Inv s css →
  ∀ rest it fuel,
    position css it rest → (length rest < fuel)%nat →
    traverse_loop fuel it end_cursor s = Some (rest.*2, s).
Proof.
  intros HI. induction rest as [|c rest IH]; intros it fuel Hpos Hf;
    (destruct fuel as [|fuel]; [simpl in Hf; lia|]); simpl.
  - by rewrite (IteratorHelper_eq_end _ _ _ _ HI Hpos).
  - rewrite (IteratorHelper_eq_end _ _ _ _ HI Hpos). simpl.
    unfold Reference_get_pair, IteratorHelper_deref.
    rewrite (bind_eq _ _ _ _ _ (load_value_eq _ _ _ (position_value _ _ _ _ _ HI Hpos))).
    destruct (IteratorHelper_incr_eq s css it c rest HI Hpos) as (it' & Hit & Hpos').
    rewrite (bind_eq _ _ _ _ _ Hit).
    rewrite (bind_eq _ _ _ _ _ (IH it' fuel Hpos' ltac:(simpl in Hf; lia))).
    done.
Qed.

Lemma Inv_heap_size s css : Inv s css → (length (concat css) < size (heap s))%nat.
Proof.
  intros HI. pose proof HI as [Hc Hr Hnd Hv Hp Hu].
  pose proof (heap_size_cells (heap s) _ Hnd) as Hsz.
  rewrite (all_cells_length _ _ _ Hr) in Hsz.
  pose proof (Inv_total _ _ HI).
  assert (length css + length (concat css) ≤ size (heap s))%nat; [|lia].
  apply Hsz. intros x Hx. by eapply Inv_allocated.
Qed.

Lemma traverse_eq s css :
  Inv s css →
  ∃ s', traverse s = Some ((concat css).*2, s') ∧ same_memory s s'.
Proof.
  intros HI. unfold traverse.
  destruct (HashMap_begin_eq s css HI) as (b & s1 & Hb & Hm1 & Hpos).
  rewrite (bind_eq _ _ _ _ _ Hb).
  pose proof (Inv_same_memory _ _ _ Hm1 HI) as HI1.
  rewrite (bind_eq _ _ _ _ _ (HashMap_end_eq s1 (inv_count _ _ HI1))).
  fold end_cursor.
  pose proof (Inv_same_memory _ _ _ (same_memory_oob s1 (BUCKET_COUNT :: oob_reads s1)) HI1)
    as HI2.
  rewrite (traverse_loop_eq _ css HI2 (concat css) b); [|done|].
  - eexists. split; [done|]. destruct Hm1 as [? ?]. split; st_simpl; done.
  - pose proof (Inv_heap_size _ _ HI2). lia.
Qed.

(** ** [clear] *)

Lemma view_unique s css i b l l' :
  bucket_view s css i b l → css !! Z.to_nat i = Some l' → l = l'.
Proof. intros [_ _ Hl _ _ _ _ _ _] Hl'. congruence. Qed.

Lemma unlinked_oob i b a x y s : oob_reads (unlinked i b a x y s) = oob_reads s.
Proof. done. Qed.

Lemma pushed_back_oob i b l p value s : oob_reads (pushed_back i b l p value s) = oob_reads s.
Proof. done. Qed.

Lemma Bucket_clear_loop_Inv i :
  0 ≤ i < BUCKET_COUNT →
  ∀ l s css b fuel,
    Inv s css → bucket_view s css i b l → (length l < fuel)%nat →
    ∃ s', Bucket_clear_loop fuel i s = Some (tt, s') ∧
          Inv s' (<[Z.to_nat i := []]> css) ∧ oob_reads s' = oob_reads s.
Proof.
  intros Hi. induction l as [|c l IH]; intros s css b fuel HI Hview Hf;
    (destruct fuel as [|fuel]; [simpl in Hf; lia|]); simpl;
    pose proof Hview as [Hat Hb Hl Hall Hr Hnd Hv Hpl Hu];
    rewrite (bind_eq _ _ _ _ _ (Bucket_begin_eq _ _ _ _ Hat Hr));
    rewrite (bind_eq _ _ _ _ _ (Bucket_end_eq _ _ _ Hat)); cbn [first_of].
  - rewrite Z.eqb_refl. exists s. split_and!; [done| |done].
    by rewrite list_insert_id.
  - rewrite Z.eqb_sym, (cell_not_end b (c :: l) c Hnd) by (by left).
    rewrite (bind_eq _ _ _ _ _ (Bucket_erase_node_cell s css i b [] c l Hview)).
    pose proof (unlinked_Inv s css i b [] c l HI Hview) as HI1.
    cbn [app] in HI1.
    set (s1 := unlinked i b c.1 (last_of (m_end b) []) (first_of (m_end b) l) s) in *.
    destruct (Inv_view s1 _ i HI1 Hi) as (b1 & l1 & Hview1).
    assert (l1 = l) as ->.
    { eapply view_unique; [done|]. apply list_lookup_insert_eq. by eapply lookup_lt_Some. }
    destruct (IH s1 _ b1 fuel HI1 Hview1) as (s' & Hs' & HI' & Hoob); [simpl in Hf; lia|].
    exists s'. split_and!; [done| |by rewrite Hoob].
    by rewrite list_insert_insert_eq in HI'.
Qed.

Lemma Bucket_clear_Inv s css i :
  Inv s css → 0 ≤ i < BUCKET_COUNT →
  ∃ s', Bucket_clear i s = Some (tt, s') ∧
        Inv s' (<[Z.to_nat i := []]> css) ∧ oob_reads s' = oob_reads s.
Proof.
  intros HI Hi. destruct (Inv_view s css i HI Hi) as (b & l & Hview).
  unfold Bucket_clear. eapply Bucket_clear_loop_Inv; [done..|].
  pose proof (Inv_heap_size _ _ HI) as Hsz.
  pose proof Hview as [_ _ Hl _ _ _ _ _ _].
  destruct (concat_insert_middle css _ l l Hl) as (pre & post & E & _).
  rewrite E, !length_app in Hsz. lia.
Qed.

Lemma HashMap_clear_loop_Inv :
  ∀ trips i s css,
    Inv s css → (i + trips = length css)%nat →
    ∃ s', HashMap_clear_loop trips (Z.of_nat i) s = Some (tt, s') ∧
          Inv s' (take i css ++ replicate trips []) ∧ oob_reads s' = oob_reads s.
Proof.
  induction trips as [|trips IH]; intros i s css HI Hi; simpl.
  - exists s. split_and!; [done| |done].
    rewrite app_nil_r, take_ge by lia. done.
  - pose proof (Inv_total _ _ HI) as [Hlen Htot].
    destruct (Bucket_clear_Inv s css (Z.of_nat i) HI) as (s1 & Hs1 & HI1 & Ho1); [lia|].
    rewrite (bind_eq _ _ _ _ _ Hs1). rewrite size_add_1 by lia.
    replace (Z.of_nat i + 1) with (Z.of_nat (S i)) by lia.
    rewrite Nat2Z.id in HI1.
    destruct (IH (S i) s1 _ HI1) as (s' & Hs' & HI' & Ho'); [rewrite length_insert; lia|].
    exists s'. split_and!; [done| |congruence].
    assert (E : take (S i) (<[i := []]> css) ++ replicate trips []
                = take i css ++ replicate (S trips) []).
    { assert (Hlt : (i < length css)%nat) by lia.
      destruct (lookup_lt_is_Some_2 css i Hlt) as [l Hl].
      rewrite (take_S_r (<[i := []]> css) i []).
      - rewrite take_insert_ge by lia. by rewrite <- app_assoc.
      - by apply list_lookup_insert_eq. }
    by rewrite E in HI'.
Qed.

Lemma HashMap_clear_Inv s css :
  Inv s css →
  ∃ s', HashMap_clear s = Some (tt, s') ∧
        Inv s' (replicate (length css) []) ∧ oob_reads s' = oob_reads s.
Proof.
  intros HI. pose proof (Inv_total _ _ HI) as [Hlen Htot].
  destruct (HashMap_clear_loop_Inv (Z.to_nat BUCKET_COUNT) 0 s css HI)
    as (s' & Hs' & HI' & Ho'); [lia|].
  exists s'. split_and!; [done| |done].
  simpl in HI'. by replace (length css) with (Z.to_nat BUCKET_COUNT) by lia.
Qed.

(** ** The constructor *)

Lemma Bucket_ctor_inv p s b s' :
  Bucket_ctor p s = Some (b, s') →
  valid_address p ∧ heap s !! p = None ∧ b = mkBucket 0 p ∧
  s' = with_heap (<[p := sentinel_node p]> (heap s)) s.
Proof.
  unfold Bucket_ctor, bind at 1, new_Node.
  case_decide as Hd; [|done]. destruct Hd as [Hv Hf]. intros H.
  erewrite bind_eq in H by (apply store_next_eq; st_simpl; apply allocated_insert; by left).
  erewrite bind_eq in H
    by (apply store_prev_eq; st_simpl; apply allocated_set_next, allocated_insert; by left).
  unfold ret in H. simplify_eq. split_and!; [done..|].
  unfold with_heap. st_simpl. f_equal.
  apply map_eq. intros x. unfold set_prev, set_next.
  rewrite !lookup_alter, !lookup_insert. repeat case_decide; by simplify_eq.
Qed.

Lemma new_Bucket_array_inv ps :
  ∀ s bs s',
    new_Bucket_array ps s = Some (bs, s') →
    bs = mkBucket 0 <$> ps ∧ NoDup ps ∧ Forall valid_address ps ∧
    Forall (λ p, heap s !! p = None) ps ∧
    Forall (λ p, heap s' !! p = Some (sentinel_node p)) ps ∧
    (∀ x, x ∉ ps → heap s' !! x = heap s !! x) ∧
    m_buckets s' = m_buckets s ∧ oob_reads s' = oob_reads s.
Proof.
  induction ps as [|p ps IH]; intros s bs s' H; simpl in H.
  - unfold ret in H. simplify_eq. split_and!; try done. constructor.
  - unfold bind at 1 in H.
    destruct (Bucket_ctor p s) as [[b s1]|] eqn:Hb; [|done].
    apply Bucket_ctor_inv in Hb as (Hv & Hf & -> & ->).
    unfold bind at 1 in H.
    destruct (new_Bucket_array ps _) as [[bs' s2]|] eqn:Hps; [|done].
    unfold ret in H. simplify_eq.
    apply IH in Hps as (-> & Hnd & Hvs & Hfs & Hss & Hfr & Hbk & Hoob).
    st_simpl in Hfs. st_simpl in Hbk. st_simpl in Hoob. st_simpl in Hfr.
    assert (Hp : p ∉ ps).
    { intros Hp. rewrite Forall_forall in Hfs. specialize (Hfs p Hp).
      by rewrite lookup_insert_eq in Hfs. }
    split_and!; [done|by constructor|by constructor| | | |done|done].
    + constructor; [done|]. eapply Forall_impl; [exact Hfs|]. simpl. intros x Hx.
      rewrite lookup_insert in Hx. by case_decide.
    + constructor; [|done]. rewrite Hfr by done. by rewrite lookup_insert_eq.
    + intros x [Hx1 Hx2]%not_elem_of_cons. rewrite Hfr by done.
      by rewrite lookup_insert_ne.
Qed.

Lemma HashMap_ctor_Inv sentinels s :
  HashMap_ctor sentinels = Some s →
  Inv s (replicate (length sentinels) []) ∧ oob_reads s = [].
Proof.
  unfold HashMap_ctor. case_decide as Hlen; [|done].
  destruct (new_Bucket_array sentinels _) as [[bs s1]|] eqn:H; [|done].
  intros [= <-].
  apply new_Bucket_array_inv in H as (-> & Hnd & Hvs & _ & Hss & _ & _ & Hoob).
  split; [|done]. st_simpl.
  assert (Hcells : ∀ ps : list ptr,
             concat (all_cells (mkBucket 0 <$> ps) (replicate (length ps) [])) = ps).
  { induction ps as [|p ps IHp]; [done|]. simpl. f_equal. exact IHp. }
  split; st_simpl.
  - by rewrite length_fmap.
  - clear -Hss. induction Hss as [|p ps Hp _ IHs]; simpl; constructor; [|done].
    split_and!; [|done..]. unfold cells, links, next_of, prev_of. simpl.
    by rewrite Hp.
  - by rewrite Hcells.
  - by rewrite Hcells.
  - intros i l [-> _]%lookup_replicate. constructor.
  - apply Forall_replicate. done.
Qed.

(** ** The value stored for a key *)

Lemma Reference_get_eq s r v :
  value_of (heap s) (m_node r) = Some v → Reference_get r s = Some (second v, s).
Proof.
  intros H. unfold Reference_get. by rewrite (bind_eq _ _ _ _ _ (load_value_eq _ _ _ H)).
Qed.

Lemma Reference_get_pair_eq s r v :
  value_of (heap s) (m_node r) = Some v → Reference_get_pair r s = Some (v, s).
Proof. apply load_value_eq. Qed.

Lemma bucket_of_view s css key b l :
  bucket_view s css (bucket_index_of key) b l → bucket_of css key = l.
Proof. intros [_ _ Hl _ _ _ _ _ _]. unfold bucket_of. by rewrite Hl. Qed.

Lemma find_cursor_position s css key b l c :
  Inv s css → bucket_view s css (bucket_index_of key) b l →
  find_cell key l = Some c →
  ∃ rest, position css (mkIterator (bucket_index_of key) (mkReference c.1)) (c :: rest).
Proof.
  intros HI Hview Hfind.
  apply find_cell_Some in Hfind as (l1 & l2 & -> & _ & _).
  pose proof Hview as [_ _ Hl _ _ _ _ _ _].
  pose proof (bucket_index_range key).
  eexists. apply (position_on css _ (Z.to_nat (bucket_index_of key)) l1 c l2); simpl;
    [lia|done|done].
Qed.

Lemma stored_value_eq s css key :
  Inv s css →
  stored_value key s
  = Some (model_lookup css key, with_oob (BUCKET_COUNT :: oob_reads s) s).
Proof.
  intros HI.
  destruct (Inv_view s css _ HI (bucket_index_range key)) as (b & l & Hview).
  unfold stored_value, model_lookup.
  rewrite (bind_eq _ _ _ _ _ (HashMap_find_eq _ _ _ _ _ Hview)).
  rewrite (bind_eq _ _ _ _ _ (HashMap_end_eq s (inv_count _ _ HI))).
  rewrite (bucket_of_view _ _ _ _ _ Hview). fold end_cursor.
  unfold find_cursor. destruct (find_cell key l) as [c|] eqn:Hfind; simpl.
  - destruct (find_cursor_position _ _ _ _ _ _ HI Hview Hfind) as (rest & Hpos).
    rewrite (IteratorHelper_eq_end _ _ _ _ HI Hpos). simpl.
    unfold IteratorHelper_deref. simpl.
    pose proof (position_value _ _ _ _ _ HI Hpos) as Hval. simpl in Hval.
    erewrite bind_eq by (apply Reference_get_eq; st_simpl; exact Hval). done.
  - unfold IteratorHelper_eq, end_cursor. simpl. by rewrite Z.eqb_refl.
Qed.

(** ** Contents after a change to one bucket *)

Lemma eval_eq {A} (m : M A) s a s' : m s = Some (a, s') → eval m s = Some a.
Proof. unfold eval. by intros ->. Qed.

Lemma exec_eq {A} (m : M A) s a s' : m s = Some (a, s') → exec m s = Some s'.
Proof. unfold exec. by intros ->. Qed.

Lemma model_lookup_None css key :
  model_lookup css key = None ↔ find_cell key (bucket_of css key) = None.
Proof. unfold model_lookup. by destruct (find_cell _ _). Qed.

Lemma model_lookup_Some css key v :
  model_lookup css key = Some v ↔
  ∃ c, find_cell key (bucket_of css key) = Some c ∧ second c.2 = v.
Proof.
  unfold model_lookup. destruct (find_cell _ _) as [c|]; simpl; [|naive_solver].
  split; [intros [= <-]; eauto|intros (? & [= <-] & <-); done].
Qed.

Lemma bucket_of_insert css key l :
  (Z.to_nat (bucket_index_of key) < length css)%nat →
  bucket_of (<[Z.to_nat (bucket_index_of key) := l]> css) key = l.
Proof. intros H. unfold bucket_of. by rewrite list_lookup_insert_eq. Qed.

Lemma bucket_index_lt s css key :
  Inv s css → (Z.to_nat (bucket_index_of key) < length css)%nat.
Proof.
  intros HI. pose proof (Inv_total _ _ HI). pose proof (bucket_index_range key). lia.
Qed.

Lemma concat_insert_length {A} (ls : list (list A)) i a a' :
  ls !! i = Some a →
  (length (concat (<[i := a']> ls)) + length a = length (concat ls) + length a')%nat.
Proof.
  intros Hi. destruct (concat_insert_middle ls i a a' Hi) as (pre & post & -> & ->).
  rewrite !length_app. lia.
Qed.

Lemma size_after s css n s' css' :
  Inv s css → Inv s' css' → eval HashMap_size s = Some n →
  ∀ d, Z.of_nat (length (concat css')) = Z.of_nat (length (concat css)) + d →
       eval HashMap_size s' = Some (n + d).
Proof.
  intros HI HI' Hn d Hd.
  rewrite (eval_eq _ _ _ _ (HashMap_size_eq _ _ HI)) in Hn.
  rewrite (eval_eq _ _ _ _ (HashMap_size_eq _ _ HI')). simplify_eq. by rewrite Hd.
Qed.

Lemma stored_value_model s css key o :
  Inv s css → eval (stored_value key) s = Some o → model_lookup css key = o.
Proof.
  intros HI H. rewrite (eval_eq _ _ _ _ (stored_value_eq _ _ key HI)) in H. congruence.
Qed.

Lemma view_value s css i b l c :
  bucket_view s css i b l → c ∈ l → value_of (heap s) c.1 = Some c.2.
Proof.
  intros [_ _ _ _ (_ & Hv & _) _ _ _ _] Hc. rewrite Forall_forall in Hv. by apply Hv.
Qed.

Lemma find_cell_snoc_new key l c :
  find_cell key l = None → m_key_equal (first c.2) key = true →
  find_cell key (l ++ [c]) = Some c.
Proof.
  intros Hn Hc. apply find_cell_None in Hn. rewrite find_cell_skip by done.
  simpl. by rewrite Hc.
Qed.

(** The state and contents after an insertion of a missing key. *)
Lemma insert_new_facts s css b l p value :
  Inv s css → bucket_view s css (bucket_index_of (first value)) b l →
  valid_address p → heap s !! p = None → find_cell (first value) l = None →
  let i := bucket_index_of (first value) in
  let s' := pushed_back i b l p value s in
  let css' := <[Z.to_nat i := l ++ [(p, value)]]> css in
  Inv s' css' ∧
  position css' (mkIterator i (mkReference p)) ((p, value) :: concat (drop (S (Z.to_nat i)) css')) ∧
  value_of (heap s') p = Some value ∧
  model_lookup css' (first value) = Some (second value) ∧
  length (concat css') = S (length (concat css)).
Proof.
  intros HI Hview Hp Hf Hfind i s' css'.
  pose proof (pushed_back_Inv s css i b l p value HI Hview Hp Hf eq_refl Hfind) as HI'.
  pose proof Hview as [_ _ Hl _ _ _ _ _ _].
  pose proof (bucket_index_lt s css (first value) HI) as Hlt.
  pose proof (bucket_index_range (first value)) as Hr.
  assert (Hl' : css' !! Z.to_nat i = Some (l ++ [(p, value)]))
    by (by apply list_lookup_insert_eq).
  assert (Hpos : position css' (mkIterator i (mkReference p))
                   ((p, value) :: concat (drop (S (Z.to_nat i)) css'))).
  { apply (position_on css' _ (Z.to_nat i) l (p, value) []); [simpl; lia|done|done]. }
  split_and!; [done|done| | |].
  - apply (position_value _ _ _ _ _ HI' Hpos).
  - apply model_lookup_Some. exists (p, value). split; [|done].
    unfold css', i. rewrite bucket_of_insert by done.
    by apply find_cell_snoc_new.
  - pose proof (concat_insert_length css _ l (l ++ [(p, value)]) Hl) as H.
    rewrite length_app in H. simpl in H. unfold css', i. lia.
Qed.

Lemma concat_lookup_middle {A} (ls : list (list A)) i a :
  ls !! i = Some a → concat ls = concat (take i ls) ++ a ++ concat (drop (S i) ls).
Proof.
  intros Hi. rewrite <- (take_drop_middle ls i a Hi) at 1.
  by rewrite concat_app, concat_cons.
Qed.

Lemma concat_insert_explicit {A} (ls : list (list A)) i a' :
  (i < length ls)%nat →
  concat (<[i := a']> ls) = concat (take i ls) ++ a' ++ concat (drop (S i) ls).
Proof.
  intros Hi. rewrite (concat_lookup_middle (<[i := a']> ls) i a')
    by (by apply list_lookup_insert_eq).
  by rewrite take_insert_ge, drop_insert_lt by lia.
Qed.

(** The state and contents after the erasure of a key that is there. *)
Lemma erase_old_facts s css b l1 c l2 key :
  Inv s css → bucket_view s css (bucket_index_of key) b (l1 ++ c :: l2) →
  find_cell key (l1 ++ c :: l2) = Some c →
  let i := bucket_index_of key in
  let s' := unlinked i b c.1 (last_of (m_end b) l1) (first_of (m_end b) l2) s in
  let css' := <[Z.to_nat i := l1 ++ l2]> css in
  HashMap_erase key s = Some (tt, s') ∧
  Inv s' css' ∧ model_lookup css' key = None ∧
  m_key_equal (first c.2) key = true ∧
  S (length (concat css')) = length (concat css).
Proof.
  intros HI Hview Hfind i s' css'.
  pose proof (unlinked_Inv s css i b l1 c l2 HI Hview) as HI'.
  pose proof Hview as [_ _ Hl _ _ _ _ _ Hu].
  pose proof (bucket_index_lt s css key HI) as Hlt.
  assert (Hkey : m_key_equal (first c.2) key = true).
  { apply find_cell_Some in Hfind as (l1' & l2' & E & Hc & Hno).
    assert (c ∈ l1' ++ c :: l2') by (apply elem_of_app; right; by left).
    done. }
  split_and!; [|done| |done|].
  - unfold HashMap_erase. by apply (Bucket_erase_old s css i b l1 c l2).
  - apply model_lookup_None. unfold css', i. rewrite bucket_of_insert by done.
    apply find_cell_None. by apply (uniq_keys_others l1 c l2).
  - pose proof (concat_insert_length css _ _ (l1 ++ l2) Hl) as H.
    rewrite !length_app in H. simpl in H. unfold css', i. lia.
Qed.

(** The state and contents after an assignment to a key that is there. *)
Lemma assign_old_facts s css b l1 c l2 value :
  Inv s css → bucket_view s css (bucket_index_of (first value)) b (l1 ++ c :: l2) →
  find_cell (first value) (l1 ++ c :: l2) = Some c →
  Forall (λ d, m_key_equal (first d.2) (first value) = false) l1 →
  let i := bucket_index_of (first value) in
  let s' := with_heap (set_value c.1 value (heap s)) s in
  let css' := <[Z.to_nat i := l1 ++ (c.1, value) :: l2]> css in
  Inv s' css' ∧ model_lookup css' (first value) = Some (second value) ∧
  value_of (heap s') c.1 = Some value ∧
  length (concat css') = length (concat css).
Proof.
  intros HI Hview Hfind Hno i s' css'.
  pose proof Hview as [_ _ Hl _ _ _ _ _ Hu].
  pose proof (bucket_index_lt s css (first value) HI) as Hlt.
  assert (Hkey : m_key_equal (first c.2) (first value) = true).
  { apply find_cell_Some in Hfind as (l1' & l2' & E & Hc & _). done. }
  pose proof (assigned_Inv s css i b l1 c l2 value HI Hview Hkey eq_refl) as HI'.
  split_and!; [done| | |].
  - apply model_lookup_Some. exists (c.1, value). split; [|done].
    unfold css', i. rewrite bucket_of_insert by done.
    apply find_cell_middle; [done|]. simpl. apply key_equal_refl.
  - unfold s'. st_simpl. apply value_set_value_eq.
    eapply bucket_repr_allocated; [by destruct Hview|].
    right. rewrite fmap_app. apply elem_of_app. right. by left.
  - pose proof (concat_insert_length css _ _ (l1 ++ (c.1, value) :: l2) Hl) as H.
    rewrite !length_app in H. simpl in H. unfold css', i. lia.
Qed.

Lemma HashMap_subscript_start s css key b l (k : IteratorHelper → IteratorHelper → M Reference) :
  Inv s css → bucket_view s css (bucket_index_of key) b l →
  (do iter ← HashMap_find key in do e ← HashMap_end in k iter e) s
  = k (find_cursor (bucket_index_of key) b l key) end_cursor
      (with_oob (BUCKET_COUNT :: oob_reads s) s).
Proof.
  intros HI Hview. rewrite (bind_eq _ _ _ _ _ (HashMap_find_eq _ _ _ _ _ Hview)).
  by rewrite (bind_eq _ _ _ _ _ (HashMap_end_eq s (inv_count _ _ HI))).
Qed.

Lemma HashMap_subscript_old s css key fresh b l c :
  Inv s css → bucket_view s css (bucket_index_of key) b l →
  find_cell key l = Some c →
  HashMap_subscript key fresh s
  = Some (mkReference c.1, with_oob (BUCKET_COUNT :: oob_reads s) s).
Proof.
  intros HI Hview Hfind.
  destruct (find_cursor_position _ _ _ _ _ _ HI Hview Hfind) as (rest & Hpos).
  unfold HashMap_subscript.
  rewrite (HashMap_subscript_start s css key b l
             (λ iter e,
                do iter ← (if IteratorHelper_eq iter e
                           then do r ← HashMap_insert key default_mapped fresh in
                                ret r.1
                           else ret iter) in
                ret (IteratorHelper_deref iter)) HI Hview).
  unfold find_cursor. rewrite Hfind.
  by rewrite (IteratorHelper_eq_end _ _ _ _ HI Hpos).
Qed.

Lemma HashMap_subscript_new s css key fresh b l :
  Inv s css → bucket_view s css (bucket_index_of key) b l →
  find_cell key l = None →
  HashMap_subscript key fresh s
  = (do r ← HashMap_insert key default_mapped fresh in ret (m_ref r.1))
      (with_oob (BUCKET_COUNT :: oob_reads s) s).
Proof.
  intros HI Hview Hfind. unfold HashMap_subscript.
  rewrite (HashMap_subscript_start s css key b l
             (λ iter e,
                do iter ← (if IteratorHelper_eq iter e
                           then do r ← HashMap_insert key default_mapped fresh in
                                ret r.1
                           else ret iter) in
                ret (IteratorHelper_deref iter)) HI Hview).
  unfold find_cursor. rewrite Hfind.
  assert (IteratorHelper_eq (mkIterator BUCKET_COUNT (mkReference (m_end b)))
            end_cursor = true) as ->.
  { unfold IteratorHelper_eq. simpl. by rewrite Z.eqb_refl. }
  unfold bind, ret, IteratorHelper_deref.
  by destruct (HashMap_insert key default_mapped fresh _) as [[[? ?] ?]|].
Qed.

Lemma view_with_oob s css i b l log :
  bucket_view s css i b l → bucket_view (with_oob log s) css i b l.
Proof. by intros []. Qed.

Lemma find_cell_self l1 c l2 :
  uniq_keys (l1 ++ c :: l2) → find_cell (first c.2) (l1 ++ c :: l2) = Some c.
Proof.
  intros Hu. apply find_cell_middle; [|apply key_equal_refl].
  apply uniq_keys_app in Hu as (_ & _ & H1).
  eapply Forall_impl; [exact H1|]. simpl. by intros d [? _]%Forall_cons.
Qed.

(** [erase(iterator)] on a cursor that stands on a cell. *)
Lemma HashMap_erase_at_eq s css c cell rest :
  Inv s css → position css c (cell :: rest) →
  ∃ next s' css' front,
    IteratorHelper_incr c s = Some (next, s) ∧
    Reference_get_pair (m_ref c) s = Some (cell.2, s) ∧
    HashMap_erase (first cell.2) s = Some (tt, s') ∧
    HashMap_erase_at c s = Some (next, s') ∧
    Inv s' css' ∧
    concat css = front ++ cell :: rest ∧ concat css' = front ++ rest ∧
    position css next rest ∧ position css' next rest ∧
    traverse_loop (S (size (heap s'))) next end_cursor s' = Some (rest.*2, s').
Proof.
  intros HI Hpos. pose proof (Inv_total _ _ HI) as [Hlen Htot].
  pose proof (position_value _ _ _ _ _ HI Hpos) as Hval.
  inversion Hpos as [|? i l1 c' l2 Hidx Hl Hnode]; subst.
  assert (Hi : (i < length css)%nat) by (by eapply lookup_lt_Some).
  destruct (IteratorHelper_incr_on s css c i l1 cell l2 HI Hidx Hl Hnode)
    as (next & Hnext & Hp).
  destruct (Inv_view_nat s css i HI) as (b & l & Hview); [lia|].
  pose proof (view_cells_nat _ _ _ _ _ Hview) as Hl'. simplify_eq.
  assert (Hplace : bucket_index_of (first cell.2) = Z.of_nat i).
  { pose proof Hview as [_ _ _ _ _ _ _ Hpl _]. rewrite Forall_forall in Hpl.
    apply Hpl. apply elem_of_app. right. by left. }
  rewrite <- Hplace in Hview.
  assert (Hfind : find_cell (first cell.2) (l1 ++ cell :: l2) = Some cell).
  { apply find_cell_self. by destruct Hview. }
  destruct (erase_old_facts s css b l1 cell l2 (first cell.2) HI Hview Hfind)
    as (Her & HI' & _ & _ & _).
  set (s' := unlinked (bucket_index_of (first cell.2)) b cell.1
               (last_of (m_end b) l1) (first_of (m_end b) l2) s) in *.
  rewrite Hplace, Nat2Z.id in HI'.
  assert (Hpos' : position (<[i := l1 ++ l2]> css) next (l2 ++ concat (drop (S i) css))).
  { apply (Hp _ l1).
    - by apply list_lookup_insert_eq.
    - apply drop_insert_lt. lia. }
  assert (Hcat' : concat (<[i := l1 ++ l2]> css)
                  = (concat (take i css) ++ l1) ++ l2 ++ concat (drop (S i) css)).
  { rewrite concat_insert_explicit by done. by rewrite <- !app_assoc. }
  exists next, s', (<[i := l1 ++ l2]> css), (concat (take i css) ++ l1).
  split_and!.
  - exact Hnext.
  - by apply Reference_get_pair_eq.
  - exact Her.
  - unfold HashMap_erase_at. rewrite (bind_eq _ _ _ _ _ Hnext).
    rewrite (bind_eq _ _ _ _ _ (Reference_get_pair_eq _ _ _ Hval)).
    by rewrite (bind_eq _ _ _ _ _ Her).
  - exact HI'.
  - rewrite (concat_lookup_middle css i _ Hl). by rewrite <- !app_assoc.
  - exact Hcat'.
  - apply (Hp css (l1 ++ [cell])); [|done]. by rewrite <- app_assoc.
  - exact Hpos'.
  - apply (traverse_loop_eq s' _ HI' _ next); [exact Hpos'|].
    pose proof (Inv_heap_size _ _ HI') as Hsz.
    rewrite Hcat', length_app in Hsz. lia.
Qed.

(** ** What a traversal sees *)

Lemma find_pair_cells key (l : list (ptr * Pair)) :
  find_pair key l.*2 = snd <$> find_cell key l.
Proof.
  induction l as [|c l IH]; [done|]. simpl.
  by destruct (m_key_equal (first c.2) key).
Qed.

Lemma distinct_keys_cells (l : list (ptr * Pair)) : uniq_keys l → distinct_keys l.*2.
Proof.
  induction l as [|c l IH]; [done|]. simpl. intros [H1 H2]. split; [|auto].
  apply Forall_fmap. eapply Forall_impl; [exact H1|]. done.
Qed.

Lemma find_cell_app key l1 l2 :
  find_cell key (l1 ++ l2)
  = match find_cell key l1 with Some c => Some c | None => find_cell key l2 end.
Proof.
  induction l1 as [|c l1 IH]; [done|]. simpl.
  by destruct (m_key_equal (first c.2) key).
Qed.

Lemma ascending_app l1 l2 :
  ascending (l1 ++ l2) ↔
  ascending l1 ∧ ascending l2 ∧ Forall (λ x, Forall (λ y, x ≤ y) l2) l1.
Proof.
  induction l1 as [|x l1 IH]; simpl.
  - split; [intros; split_and!; auto|tauto].
  - rewrite Forall_app, IH, Forall_cons. tauto.
Qed.

Lemma key_equal_bucket a b :
  m_key_equal a b = true → bucket_index_of a = bucket_index_of b.
Proof. intros H. unfold bucket_index_of. by rewrite (hasher_key_equal _ _ H). Qed.

Lemma placed_from_cons o l css :
  placed_from o (l :: css) →
  Forall (λ c, cell_index c = Z.of_nat o) l ∧ placed_from (S o) css.
Proof.
  intros H. split.
  - specialize (H 0%nat l eq_refl). by rewrite Nat.add_0_r in H.
  - intros i l' Hl'. specialize (H (S i) l' Hl').
    by replace (S o + i)%nat with (o + S i)%nat by lia.
Qed.

Lemma placed_from_lower o css :
  placed_from o css → Forall (λ c, Z.of_nat o ≤ cell_index c) (concat css).
Proof.
  revert o. induction css as [|l css IH]; intros o H; simpl; [constructor|].
  apply placed_from_cons in H as [Hl H]. apply Forall_app. split.
  - eapply Forall_impl; [exact Hl|]. simpl. lia.
  - eapply Forall_impl; [exact (IH _ H)|]. simpl. lia.
Qed.

Lemma placed_from_ascending o css :
  placed_from o css → ascending (cell_index <$> concat css).
Proof.
  revert o. induction css as [|l css IH]; intros o H; simpl; [done|].
  apply placed_from_cons in H as [Hl H]. rewrite fmap_app.
  apply ascending_app. split_and!.
  - clear -Hl. induction Hl as [|c l Hc Hl IHl]; simpl; [done|]. split; [|done].
    apply Forall_fmap. eapply Forall_impl; [exact Hl|]. simpl. lia.
  - by eapply IH.
  - apply Forall_fmap. eapply Forall_impl; [exact Hl|]. simpl. intros c Hc.
    apply Forall_fmap. eapply Forall_impl; [exact (placed_from_lower _ _ H)|].
    simpl. lia.
Qed.

Lemma placed_from_uniq o css :
  placed_from o css → Forall uniq_keys css → uniq_keys (concat css).
Proof.
  revert o. induction css as [|l css IH]; intros o H Hu; simpl; [done|].
  apply placed_from_cons in H as [Hl H]. apply Forall_cons in Hu as [Hul Hu].
  apply uniq_keys_app. split_and!; [done|by eapply IH|].
  eapply Forall_impl; [exact Hl|]. simpl. intros c Hc.
  eapply Forall_impl; [exact (placed_from_lower _ _ H)|]. simpl. intros d Hd.
  destruct (m_key_equal (first c.2) (first d.2)) eqn:E; [|done].
  apply key_equal_bucket in E. unfold cell_index in *. lia.
Qed.

Lemma Inv_placed s css : Inv s css → placed_from 0 css.
Proof. intros HI i l Hl. by apply (inv_place _ _ HI). Qed.

Lemma placed_from_take o css n : placed_from o css → placed_from o (take n css).
Proof.
  intros H i l Hl. apply lookup_take_Some in Hl as [Hl _]. by apply H.
Qed.

Lemma placed_from_drop o css n : placed_from o css → placed_from (o + n) (drop n css).
Proof.
  intros H i l Hl. rewrite lookup_drop in Hl.
  replace (o + n + i)%nat with (o + (n + i))%nat by lia. by apply H.
Qed.

Lemma placed_from_upper o css :
  placed_from o css → Forall (λ c, cell_index c < Z.of_nat (o + length css)) (concat css).
Proof.
  revert o. induction css as [|l css IH]; intros o H; simpl; [constructor|].
  apply placed_from_cons in H as [Hl H]. apply Forall_app. split.
  - eapply Forall_impl; [exact Hl|]. simpl. lia.
  - eapply Forall_impl; [exact (IH _ H)|]. simpl. lia.
Qed.

(** The cells before and after a bucket. *)
Lemma Inv_before s css i :
  Inv s css → (i < length css)%nat →
  Forall (λ c, cell_index c < Z.of_nat i) (concat (take i css)).
Proof.
  intros HI Hi.
  pose proof (placed_from_upper 0 _ (placed_from_take 0 css i (Inv_placed _ _ HI))) as H.
  rewrite length_take in H. simpl in H.
  eapply Forall_impl; [exact H|]. simpl. lia.
Qed.

Lemma Inv_after s css i :
  Inv s css → Forall (λ c, Z.of_nat i < cell_index c) (concat (drop (S i) css)).
Proof.
  intros HI.
  pose proof (placed_from_lower _ _ (placed_from_drop 0 css (S i) (Inv_placed _ _ HI))) as H.
  eapply Forall_impl; [exact H|]. simpl. lia.
Qed.

Lemma no_match_elsewhere key (l : list (ptr * Pair)) :
  Forall (λ c, cell_index c ≠ bucket_index_of key) l →
  Forall (λ c, m_key_equal (first c.2) key = false) l.
Proof.
  intros H. eapply Forall_impl; [exact H|]. simpl. intros c Hc.
  destruct (m_key_equal (first c.2) key) eqn:E; [|done].
  by apply key_equal_bucket in E.
Qed.

Lemma find_cell_concat s css key :
  Inv s css → find_cell key (concat css) = find_cell key (bucket_of css key).
Proof.
  intros HI.
  destruct (Inv_view s css _ HI (bucket_index_range key)) as (b & l & Hview).
  pose proof Hview as [_ _ Hl _ _ _ _ _ _].
  pose proof (bucket_index_lt s css key HI) as Hlt.
  pose proof (bucket_index_range key) as Hr.
  rewrite (bucket_of_view _ _ _ _ _ Hview), (concat_lookup_middle css _ _ Hl).
  rewrite find_cell_skip.
  - rewrite find_cell_app. destruct (find_cell key l); [done|].
    apply find_cell_None, no_match_elsewhere.
    eapply Forall_impl; [exact (Inv_after s css _ HI)|]. simpl. lia.
  - apply no_match_elsewhere.
    eapply Forall_impl; [exact (Inv_before s css _ HI Hlt)|]. simpl. lia.
Qed.

(** ** Sequences of operations *)

(** What an operation does, case by case. *)

Lemma HashMap_insert_pair_fail s css b l value p :
  bucket_view s css (bucket_index_of (first value)) b l →
  find_cell (first value) l = None → ¬ usable s p →
  HashMap_insert_pair value p s = None.
Proof.
  intros Hview Hfind Hn. pose proof Hview as [Hat _ _ _ Hr Hnd _ _ _].
  unfold HashMap_insert_pair, Bucket_insert.
  unfold bind at 1. unfold bind at 1.
  rewrite (Bucket_find_eq _ _ _ _ (first value) Hat Hr Hnd).
  rewrite (bind_eq _ _ _ _ _ (Bucket_end_eq _ _ _ Hat)).
  unfold found. rewrite Hfind. simpl. rewrite Z.eqb_refl. simpl.
  unfold bind at 1, new_Node. by rewrite decide_False.
Qed.

Lemma HashMap_insert_pair_cases s css value p :
  Inv s css →
  (∃ r, HashMap_insert_pair value p s = Some (r, s)) ∨
  (usable s p ∧ ∃ r s' css', HashMap_insert_pair value p s = Some (r, s') ∧ Inv s' css' ∧
                             oob_reads s' = oob_reads s) ∨
  (¬ usable s p ∧ HashMap_insert_pair value p s = None).
Proof.
  intros HI.
  destruct (Inv_view s css _ HI (bucket_index_range (first value))) as (b & l & Hview).
  destruct (find_cell (first value) l) as [c|] eqn:Hfind.
  - left. eexists. by apply (HashMap_insert_pair_old s css b l).
  - right. destruct (decide (usable s p)) as [[Hv Hf]|Hn].
    + left. split; [done|]. eexists _, _, _. split_and!.
      * by apply (HashMap_insert_pair_new s css b l).
      * by apply pushed_back_Inv.
      * done.
    + right. split; [done|]. by apply (HashMap_insert_pair_fail s css b l).
Qed.

(** Insertion of a missing key, on the contents. *)
Lemma HashMap_insert_model s css key value p r s' :
  Inv s css → find_cell key (bucket_of css key) = None →
  HashMap_insert key value p s = Some (r, s') →
  Inv s' (<[Z.to_nat (bucket_index_of key) :=
             bucket_of css key ++ [(p, make_pair key value)]]> css).
Proof.
  intros HI Hfind H.
  destruct (Inv_view s css _ HI (bucket_index_range key)) as (b & l & Hview).
  rewrite (bucket_of_view _ _ _ _ _ Hview) in Hfind |- *.
  unfold HashMap_insert in H.
  destruct (decide (usable s p)) as [[Hv Hf]|Hn].
  - rewrite (HashMap_insert_pair_new s css b l p (make_pair key value) Hview Hv Hf Hfind)
      in H.
    simplify_eq. by apply (pushed_back_Inv s css _ b l p (make_pair key value)).
  - by rewrite (HashMap_insert_pair_fail s css b l (make_pair key value) p Hview Hfind Hn)
      in H.
Qed.

Lemma HashMap_insert_or_assign_pair_cases s css value p :
  Inv s css →
  (∃ r s' css', HashMap_insert_or_assign_pair value p s = Some (r, s') ∧ Inv s' css' ∧
                oob_reads s' = oob_reads s) ∨
  (¬ usable s p ∧ HashMap_insert_or_assign_pair value p s = None).
Proof.
  intros HI.
  destruct (Inv_view s css _ HI (bucket_index_range (first value))) as (b & l & Hview).
  destruct (find_cell (first value) l) as [c|] eqn:Hfind.
  - left. destruct (find_cell_Some _ _ _ Hfind) as (l1 & l2 & -> & Hkey & Hno).
    eexists _, _, _. split_and!.
    + by apply (HashMap_insert_or_assign_pair_old s css b (l1 ++ c :: l2) p value c).
    + by apply (assigned_Inv s css (bucket_index_of (first value)) b l1 c l2 value).
    + done.
  - destruct (decide (usable s p)) as [[Hv Hf]|Hn].
    + left. eexists _, _, _. split_and!.
      * by apply (HashMap_insert_or_assign_pair_new s css b l).
      * by apply pushed_back_Inv.
      * done.
    + right. split; [done|].
      pose proof Hview as [Hat _ _ _ Hr Hnd _ _ _].
      unfold HashMap_insert_or_assign_pair, Bucket_insert_or_assign.
      unfold bind at 1. unfold bind at 1.
      rewrite (Bucket_find_eq _ _ _ _ (first value) Hat Hr Hnd).
      rewrite (bind_eq _ _ _ _ _ (Bucket_end_eq _ _ _ Hat)).
      unfold found. rewrite Hfind. simpl. rewrite Z.eqb_refl.
      unfold bind at 1. unfold bind at 1. unfold new_Node. by rewrite decide_False.
Qed.

Lemma HashMap_erase_cases s css key :
  Inv s css →
  ∃ s' css', HashMap_erase key s = Some (tt, s') ∧ Inv s' css' ∧
             oob_reads s' = oob_reads s.
Proof.
  intros HI.
  destruct (Inv_view s css _ HI (bucket_index_range key)) as (b & l & Hview).
  destruct (find_cell key l) as [c|] eqn:Hfind.
  - destruct (find_cell_Some _ _ _ Hfind) as (l1 & l2 & -> & Hkey & Hno).
    destruct (erase_old_facts s css b l1 c l2 key HI Hview Hfind) as (He & HI' & _).
    by eexists _, _.
  - exists s, css. split_and!; [|done..].
    unfold HashMap_erase. by apply (Bucket_erase_none s css _ b l).
Qed.

Lemma erase_found_cases s css key :
  Inv s css →
  ∃ s' css', apply_op (OpEraseFound key) s = Some (tt, s') ∧ Inv s' css'.
Proof.
  intros HI. simpl.
  destruct (Inv_view s css _ HI (bucket_index_range key)) as (b & l & Hview).
  rewrite (bind_eq _ _ _ _ _ (HashMap_find_eq _ _ _ _ _ Hview)).
  rewrite (bind_eq _ _ _ _ _ (HashMap_end_eq s (inv_count _ _ HI))).
  fold end_cursor.
  set (s1 := with_oob (BUCKET_COUNT :: oob_reads s) s).
  assert (HI1 : Inv s1 css) by (by apply Inv_with_oob).
  unfold find_cursor. destruct (find_cell key l) as [c|] eqn:Hfind.
  - destruct (find_cursor_position _ _ _ _ _ _ HI Hview Hfind) as (rest & Hpos).
    rewrite (IteratorHelper_eq_end _ _ _ _ HI Hpos). simpl.
    destruct (HashMap_erase_at_eq s1 css _ c rest HI1 Hpos)
      as (next & s' & css' & front & _ & _ & _ & He & HI' & _).
    rewrite (bind_eq _ _ _ _ _ He). by eexists _, _.
  - unfold IteratorHelper_eq, end_cursor. simpl. rewrite Z.eqb_refl.
    by eexists _, _.
Qed.

Lemma HashMap_subscript_cases s css key p :
  Inv s css →
  (∃ r s' css', HashMap_subscript key p s = Some (r, s') ∧ Inv s' css') ∨
  (¬ usable s p ∧ HashMap_subscript key p s = None).
Proof.
  intros HI.
  destruct (Inv_view s css _ HI (bucket_index_range key)) as (b & l & Hview).
  set (s1 := with_oob (BUCKET_COUNT :: oob_reads s) s).
  assert (HI1 : Inv s1 css) by (by apply Inv_with_oob).
  destruct (find_cell key l) as [c|] eqn:Hfind.
  - left. eexists _, _, _. split; [|exact HI1].
    by apply (HashMap_subscript_old s css key p b l).
  - rewrite (HashMap_subscript_new s css key p b l HI Hview Hfind). fold s1.
    unfold HashMap_insert.
    destruct (HashMap_insert_pair_cases s1 css (make_pair key default_mapped) p HI1)
      as [[r Hr]|[(_ & r & s' & css' & Hr & HI' & _)|[Hn Hr]]].
    + left. rewrite (bind_eq _ _ _ _ _ Hr). by eexists _, _, _.
    + left. rewrite (bind_eq _ _ _ _ _ Hr). by eexists _, _, _.
    + right. split; [done|]. unfold bind. by rewrite Hr.
Qed.

(** An operation keeps the invariant, and completes when the address it
    may need is usable. *)
Lemma apply_op_Inv s css op s' :
  Inv s css → apply_op op s = Some (tt, s') → ∃ css', Inv s' css'.
Proof.
  intros HI H. destruct op as [key value p|key value p|key|key|key p|].
  - simpl in H. unfold HashMap_insert in H.
    destruct (HashMap_insert_pair_cases s css (make_pair key value) p HI)
      as [[r Hr]|[(_ & r & s1 & css' & Hr & HI' & _)|[_ Hr]]];
      unfold bind in H; rewrite Hr in H; unfold ret in H; simplify_eq; eauto.
  - simpl in H. unfold HashMap_insert_or_assign in H.
    destruct (HashMap_insert_or_assign_pair_cases s css (make_pair key value) p HI)
      as [(r & s1 & css' & Hr & HI' & _)|[_ Hr]];
      unfold bind in H; rewrite Hr in H; unfold ret in H; simplify_eq; eauto.
  - destruct (HashMap_erase_cases s css key HI) as (s1 & css' & Hr & HI' & _).
    simpl in H. rewrite Hr in H. simplify_eq. eauto.
  - destruct (erase_found_cases s css key HI) as (s1 & css' & Hr & HI').
    rewrite Hr in H. simplify_eq. eauto.
  - simpl in H.
    destruct (HashMap_subscript_cases s css key p HI)
      as [(r & s1 & css' & Hr & HI')|[_ Hr]];
      unfold bind in H; rewrite Hr in H; unfold ret in H; simplify_eq; eauto.
  - destruct (HashMap_clear_Inv s css HI) as (s1 & Hr & HI' & _).
    simpl in H. rewrite Hr in H. simplify_eq. eauto.
Qed.

Lemma apply_op_total s css op :
  Inv s css → (∀ p, op_fresh op = Some p → usable s p) →
  ∃ s', apply_op op s = Some (tt, s').
Proof.
  intros HI Hp. destruct op as [key value p|key value p|key|key|key p|]; simpl in *.
  - unfold HashMap_insert.
    destruct (HashMap_insert_pair_cases s css (make_pair key value) p HI)
      as [[r Hr]|[(_ & r & s1 & css' & Hr & HI' & _)|[Hn Hr]]];
      [| |destruct Hn; auto]; rewrite (bind_eq _ _ _ _ _ Hr); by eexists.
  - unfold HashMap_insert_or_assign.
    destruct (HashMap_insert_or_assign_pair_cases s css (make_pair key value) p HI)
      as [(r & s1 & css' & Hr & HI' & _)|[Hn Hr]];
      [|destruct Hn; auto]; rewrite (bind_eq _ _ _ _ _ Hr); by eexists.
  - destruct (HashMap_erase_cases s css key HI) as (s1 & css' & Hr & _). eauto.
  - destruct (erase_found_cases s css key HI) as (s1 & css' & Hr & _). eauto.
  - destruct (HashMap_subscript_cases s css key p HI)
      as [(r & s1 & css' & Hr & HI')|[Hn Hr]];
      [|destruct Hn; auto]; rewrite (bind_eq _ _ _ _ _ Hr); by eexists.
  - destruct (HashMap_clear_Inv s css HI) as (s1 & Hr & _). eauto.
Qed.

Lemma run_ops_Inv ops :
  ∀ s css s', Inv s css → run_ops ops s = Some (tt, s') → ∃ css', Inv s' css'.
Proof.
  induction ops as [|op ops IH]; intros s css s' HI H; simpl in H.
  - unfold ret in H. simplify_eq. eauto.
  - unfold bind in H. destruct (apply_op op s) as [[[] s1]|] eqn:Hop; [|done].
    destruct (apply_op_Inv s css op s1 HI Hop) as (css1 & HI1). eauto.
Qed.

Lemma concat_length_sum {A} (ls : list (list A)) :
  length (concat ls) = sum_list (length <$> ls).
Proof. induction ls as [|l ls IH]; [done|]. simpl. by rewrite length_app, IH. Qed.

Lemma live_key_once s css key c :
  Inv s css → find_cell key (bucket_of css key) = Some c →
  ∃ front back,
    concat css = front ++ c :: back ∧
    Forall (λ d, m_key_equal (first d.2) key = false) (front ++ back).
Proof.
  intros HI Hfind. rewrite <- (find_cell_concat s css key HI) in Hfind.
  destruct (find_cell_Some _ _ _ Hfind) as (front & back & E & Hkey & Hno).
  exists front, back. split; [done|].
  apply (uniq_keys_others front c back); [|done].
  rewrite <- E. eapply placed_from_uniq; [by eapply Inv_placed|]. by destruct HI.
Qed.

(** ** Reads outside the bucket array *)

(** [end()] builds its cursor by [IteratorHelper(m_buckets, BUCKET_COUNT,
    nullptr)], and the constructor evaluates [m_buckets[m_index].end()]:
    the array is read one past its last element.  The cursor does not
    depend on what the read yields. *)
Lemma HashMap_end_reads_past_the_array s :
  Z.of_nat (length (m_buckets s)) = BUCKET_COUNT →
  bucket_at (m_buckets s) BUCKET_COUNT = None ∧
  ∃ s', HashMap_end s = Some (end_cursor, s') ∧
        oob_reads s' = BUCKET_COUNT :: oob_reads s.
Proof.
  intros H. split; [by apply bucket_at_past|].
  eexists. split; [by apply HashMap_end_eq|done].
Qed.

(** * The claims *)

(** C1.  [insert(k, v)] on a map without [k] returns a cursor on a new
    node that holds [(k, v)] and the flag [true], and [size()] grows by
    one; on a map that holds [k] with [v1] it returns the cursor on the
    existing node, still holding [v1], and the flag [false], and the
    state of the map, so its size and the stored value, is unchanged. *)
Theorem insert_spec s css key value fresh :
  Inv s css →
  ∃ n, eval HashMap_size s = Some n ∧
    (eval (stored_value key) s = Some None →
     valid_address fresh → heap s !! fresh = None →
     ∃ it s' css',
       HashMap_insert key value fresh s = Some ((it, true), s') ∧
       Inv s' css' ∧
       (∃ rest, position css' it ((m_node (m_ref it), make_pair key value) :: rest)) ∧
       eval (Reference_get (IteratorHelper_deref it)) s' = Some value ∧
       eval HashMap_size s' = Some (n + 1) ∧
       eval (stored_value key) s' = Some (Some value)) ∧
    (∀ v1, eval (stored_value key) s = Some (Some v1) →
     ∃ it,
       HashMap_insert key value fresh s = Some ((it, false), s) ∧
       eval (HashMap_find key) s = Some it ∧
       eval (Reference_get (IteratorHelper_deref it)) s = Some v1).
Proof.
  intros HI. eexists. split; [by eapply eval_eq, HashMap_size_eq|].
  destruct (Inv_view s css _ HI (bucket_index_range key)) as (b & l & Hview).
  pose proof (bucket_of_view _ _ _ _ _ Hview) as Hbk.
  split.
  - intros Hst Hv Hf. apply (stored_value_model _ _ _ _ HI) in Hst.
    apply model_lookup_None in Hst. rewrite Hbk in Hst.
    destruct (insert_new_facts s css b l fresh (make_pair key value) HI Hview Hv Hf Hst)
      as (HI' & Hpos & Hval & Hlk & Hlen).
    cbn [first second] in HI', Hpos, Hval, Hlk, Hlen.
    exists (mkIterator (bucket_index_of key) (mkReference fresh)),
           (pushed_back (bucket_index_of key) b l fresh (make_pair key value) s),
           (<[Z.to_nat (bucket_index_of key) := l ++ [(fresh, make_pair key value)]]> css).
    split_and!.
    + exact (HashMap_insert_pair_new s css b l fresh (make_pair key value) Hview Hv Hf Hst).
    + exact HI'.
    + eexists. exact Hpos.
    + eapply eval_eq. apply (Reference_get_eq _ _ (make_pair key value)). exact Hval.
    + eapply (size_after s css _ _ _ HI HI'); [by eapply eval_eq, HashMap_size_eq|].
      rewrite Hlen. lia.
    + eapply eval_eq. rewrite (stored_value_eq _ _ key HI'). by rewrite Hlk.
  - intros v1 Hst. apply (stored_value_model _ _ _ _ HI) in Hst.
    apply model_lookup_Some in Hst as (c & Hfind & <-). rewrite Hbk in Hfind.
    eexists. split_and!.
    + unfold HashMap_insert. by apply (HashMap_insert_pair_old s css b l).
    + eapply eval_eq. rewrite (HashMap_find_eq _ _ _ _ _ Hview).
      unfold find_cursor. by rewrite Hfind.
    + eapply eval_eq. apply (Reference_get_eq _ _ c.2). simpl.
      eapply view_value; [done|]. by eapply find_cell_elem.
Qed.

(** C2.  [erase(k)] on a map without [k] leaves the state as it is; on a
    map that holds [k] it takes exactly that entry out of what a
    traversal sees, [size()] shrinks by one, and [find(k)] then compares
    equal to [end()]. *)
Theorem erase_spec s css key :
  Inv s css →
  ∃ n pairs,
    eval HashMap_size s = Some n ∧ eval traverse s = Some pairs ∧
    (eval (stored_value key) s = Some None → HashMap_erase key s = Some (tt, s)) ∧
    (∀ v, eval (stored_value key) s = Some (Some v) →
     ∃ s' css' before k after it e,
       HashMap_erase key s = Some (tt, s') ∧ Inv s' css' ∧
       eval HashMap_size s' = Some (n - 1) ∧
       pairs = before ++ make_pair k v :: after ∧ m_key_equal k key = true ∧
       eval traverse s' = Some (before ++ after) ∧
       eval (HashMap_find key) s' = Some it ∧ eval HashMap_end s' = Some e ∧
       IteratorHelper_eq it e = true ∧
       eval (stored_value key) s' = Some None).
Proof.
  intros HI.
  destruct (traverse_eq s css HI) as (st & Htr & _).
  eexists _, _. split_and!;
    [by eapply eval_eq, HashMap_size_eq|by eapply eval_eq, Htr|..].
  - intros Hst. apply (stored_value_model _ _ _ _ HI) in Hst.
    apply model_lookup_None in Hst.
    destruct (Inv_view s css _ HI (bucket_index_range key)) as (b & l & Hview).
    rewrite (bucket_of_view _ _ _ _ _ Hview) in Hst.
    unfold HashMap_erase. by apply (Bucket_erase_none s css _ b l).
  - intros v Hst. apply (stored_value_model _ _ _ _ HI) in Hst.
    apply model_lookup_Some in Hst as (c & Hfind & <-).
    destruct (Inv_view s css _ HI (bucket_index_range key)) as (b & l & Hview).
    rewrite (bucket_of_view _ _ _ _ _ Hview) in Hfind.
    destruct (find_cell_Some _ _ _ Hfind) as (l1 & l2 & -> & Hkey & Hno).
    destruct (erase_old_facts s css b l1 c l2 key HI Hview Hfind)
      as (Her & HI' & Hlk & _ & Hlen).
    pose proof Hview as [_ _ Hl _ _ _ _ _ _].
    pose proof (bucket_index_lt s css key HI) as Hlt.
    destruct (traverse_eq _ _ HI') as (st' & Htr' & _).
    destruct (Inv_view _ _ _ HI' (bucket_index_range key)) as (b' & l' & Hview').
    assert (l' = l1 ++ l2) as ->.
    { eapply view_unique; [done|]. by apply list_lookup_insert_eq. }
    assert (Hfind' : find_cell key (l1 ++ l2) = None).
    { apply model_lookup_None in Hlk. by rewrite bucket_of_insert in Hlk. }
    set (A := concat (take (Z.to_nat (bucket_index_of key)) css)).
    set (B := concat (drop (S (Z.to_nat (bucket_index_of key))) css)).
    eexists _, _, ((A ++ l1).*2), (first c.2), ((l2 ++ B).*2), _, _.
    split_and!.
    + exact Her.
    + exact HI'.
    + eapply (size_after s css _ _ _ HI HI'); [by eapply eval_eq, HashMap_size_eq|lia].
    + rewrite (concat_lookup_middle css _ _ Hl). fold A B.
      rewrite !fmap_app. simpl. rewrite <- !app_assoc. by destruct c as [a [k w]].
    + done.
    + eapply eval_eq. rewrite Htr'. do 2 f_equal.
      rewrite concat_insert_explicit by done. fold A B.
      by rewrite !fmap_app, <- !app_assoc.
    + eapply eval_eq. by apply (HashMap_find_eq _ _ _ _ _ Hview').
    + eapply eval_eq. apply HashMap_end_eq. by destruct HI'.
    + unfold find_cursor. rewrite Hfind'. unfold IteratorHelper_eq. simpl.
      by rewrite Z.eqb_refl.
    + eapply eval_eq. rewrite (stored_value_eq _ _ key HI'). by rewrite Hlk.
Qed.

(** C3.  [insert_or_assign(k, v2)] on a map that holds [k] stores the
    pair [(k, v2)] in the node of [k] by one store of the whole pair,
    returns the cursor on that node and leaves [size()] as it is; on a
    map without [k] it inserts [(k, v2)] and [size()] grows by one. *)
Theorem insert_or_assign_spec s css key v2 fresh :
  Inv s css →
  ∃ n, eval HashMap_size s = Some n ∧
    (∀ v1, eval (stored_value key) s = Some (Some v1) →
     ∃ it s' css',
       HashMap_insert_or_assign key v2 fresh s = Some (it, s') ∧ Inv s' css' ∧
       eval (HashMap_find key) s = Some it ∧
       exec (Reference_set_pair (IteratorHelper_deref it) (make_pair key v2)) s = Some s' ∧
       eval (Reference_get_pair (IteratorHelper_deref it)) s' = Some (make_pair key v2) ∧
       eval (stored_value key) s' = Some (Some v2) ∧
       eval HashMap_size s' = Some n) ∧
    (eval (stored_value key) s = Some None →
     valid_address fresh → heap s !! fresh = None →
     ∃ it s' css',
       HashMap_insert_or_assign key v2 fresh s = Some (it, s') ∧ Inv s' css' ∧
       eval (Reference_get_pair (IteratorHelper_deref it)) s' = Some (make_pair key v2) ∧
       eval (stored_value key) s' = Some (Some v2) ∧
       eval HashMap_size s' = Some (n + 1)).
Proof.
  intros HI. eexists. split; [by eapply eval_eq, HashMap_size_eq|].
  destruct (Inv_view s css _ HI (bucket_index_range key)) as (b & l & Hview).
  pose proof (bucket_of_view _ _ _ _ _ Hview) as Hbk.
  split.
  - intros v1 Hst. apply (stored_value_model _ _ _ _ HI) in Hst.
    apply model_lookup_Some in Hst as (c & Hfind & <-). rewrite Hbk in Hfind.
    destruct (find_cell_Some _ _ _ Hfind) as (l1 & l2 & -> & Hkey & Hno).
    destruct (assign_old_facts s css b l1 c l2 (make_pair key v2) HI Hview Hfind Hno)
      as (HI' & Hlk & Hval & Hlen).
    cbn [first second] in HI', Hlk, Hval, Hlen.
    exists (mkIterator (bucket_index_of key) (mkReference c.1)),
           (with_heap (set_value c.1 (make_pair key v2) (heap s)) s),
           (<[Z.to_nat (bucket_index_of key) := l1 ++ (c.1, make_pair key v2) :: l2]> css).
    split_and!.
    + exact (HashMap_insert_or_assign_pair_old s css b _ fresh (make_pair key v2) c
               Hview Hfind).
    + exact HI'.
    + eapply eval_eq. rewrite (HashMap_find_eq _ _ _ _ _ Hview).
      unfold find_cursor. by rewrite Hfind.
    + eapply exec_eq. unfold Reference_set_pair. simpl. apply store_value_eq.
      eapply bucket_repr_allocated; [by destruct Hview|].
      right. rewrite fmap_app. apply elem_of_app. right. by left.
    + eapply eval_eq. apply Reference_get_pair_eq. exact Hval.
    + eapply eval_eq. rewrite (stored_value_eq _ _ key HI'). by rewrite Hlk.
    + eapply eval_eq. rewrite (HashMap_size_eq _ _ HI'). by rewrite Hlen.
  - intros Hst Hv Hf. apply (stored_value_model _ _ _ _ HI) in Hst.
    apply model_lookup_None in Hst. rewrite Hbk in Hst.
    destruct (insert_new_facts s css b l fresh (make_pair key v2) HI Hview Hv Hf Hst)
      as (HI' & Hpos & Hval & Hlk & Hlen).
    cbn [first second] in HI', Hpos, Hval, Hlk, Hlen.
    exists (mkIterator (bucket_index_of key) (mkReference fresh)),
           (pushed_back (bucket_index_of key) b l fresh (make_pair key v2) s),
           (<[Z.to_nat (bucket_index_of key) := l ++ [(fresh, make_pair key v2)]]> css).
    split_and!.
    + exact (HashMap_insert_or_assign_pair_new s css b l fresh (make_pair key v2)
               Hview Hv Hf Hst).
    + exact HI'.
    + eapply eval_eq. apply Reference_get_pair_eq. exact Hval.
    + eapply eval_eq. rewrite (stored_value_eq _ _ key HI'). by rewrite Hlk.
    + eapply (size_after s css _ _ _ HI HI'); [by eapply eval_eq, HashMap_size_eq|].
      rewrite Hlen. lia.
Qed.

(** C4.  [operator[](k)] on a map that holds [k] returns an accessor
    whose [get()] is the stored value and leaves nodes and buckets as
    they are; on a map without [k] it first inserts [(k, MappedT())],
    so that [size()] grows by one, and returns an accessor to the new
    entry. *)
Theorem subscript_spec s css key fresh :
  Inv s css →
  ∃ n, eval HashMap_size s = Some n ∧
    (∀ v, eval (stored_value key) s = Some (Some v) →
     ∃ r s',
       HashMap_subscript key fresh s = Some (r, s') ∧ same_memory s s' ∧
       eval (Reference_get r) s' = Some v ∧
       eval HashMap_size s' = Some n) ∧
    (eval (stored_value key) s = Some None →
     valid_address fresh → heap s !! fresh = None →
     ∃ r s' css',
       HashMap_subscript key fresh s = Some (r, s') ∧ Inv s' css' ∧
       eval (Reference_get_pair r) s' = Some (make_pair key default_mapped) ∧
       eval (Reference_get r) s' = Some default_mapped ∧
       eval HashMap_size s' = Some (n + 1) ∧
       eval (stored_value key) s' = Some (Some default_mapped)).
Proof.
  intros HI. eexists. split; [by eapply eval_eq, HashMap_size_eq|].
  destruct (Inv_view s css _ HI (bucket_index_range key)) as (b & l & Hview).
  pose proof (bucket_of_view _ _ _ _ _ Hview) as Hbk.
  set (s1 := with_oob (BUCKET_COUNT :: oob_reads s) s).
  assert (HI1 : Inv s1 css) by (by apply Inv_with_oob).
  split.
  - intros v Hst. apply (stored_value_model _ _ _ _ HI) in Hst.
    apply model_lookup_Some in Hst as (c & Hfind & <-). rewrite Hbk in Hfind.
    exists (mkReference c.1), s1. split_and!.
    + by apply (HashMap_subscript_old s css key fresh b l).
    + apply same_memory_oob.
    + eapply eval_eq. apply (Reference_get_eq _ _ c.2). simpl.
      eapply view_value; [done|]. by eapply find_cell_elem.
    + by eapply eval_eq, HashMap_size_eq.
  - intros Hst Hv Hf. apply (stored_value_model _ _ _ _ HI) in Hst.
    apply model_lookup_None in Hst. rewrite Hbk in Hst.
    pose proof (view_with_oob _ _ _ _ _ (BUCKET_COUNT :: oob_reads s) Hview) as Hview1.
    fold s1 in Hview1.
    destruct (insert_new_facts s1 css b l fresh (make_pair key default_mapped)
                HI1 Hview1 Hv Hf Hst) as (HI' & Hpos & Hval & Hlk & Hlen).
    cbn [first second] in HI', Hpos, Hval, Hlk, Hlen.
    exists (mkReference fresh),
           (pushed_back (bucket_index_of key) b l fresh
              (make_pair key default_mapped) s1),
           (<[Z.to_nat (bucket_index_of key) :=
                l ++ [(fresh, make_pair key default_mapped)]]> css).
    split_and!.
    + rewrite (HashMap_subscript_new s css key fresh b l HI Hview Hst). fold s1.
      unfold HashMap_insert.
      by rewrite (bind_eq _ _ _ _ _
                    (HashMap_insert_pair_new s1 css b l fresh
                       (make_pair key default_mapped) Hview1 Hv Hf Hst)).
    + exact HI'.
    + eapply eval_eq. apply Reference_get_pair_eq. exact Hval.
    + eapply eval_eq. apply (Reference_get_eq _ _ (make_pair key default_mapped)).
      exact Hval.
    + eapply (size_after s css _ _ _ HI HI'); [by eapply eval_eq, HashMap_size_eq|].
      rewrite Hlen. lia.
    + eapply eval_eq. rewrite (stored_value_eq _ _ key HI'). by rewrite Hlk.
Qed.

(** C5.  A state reached from the constructor by [insert],
    [insert_or_assign], [erase] by key or by cursor, [operator[]] and
    [clear] has contents, one list of nodes for each of the
    [BUCKET_COUNT] buckets, such that: a node with the key [k] is in the
    bucket with the index [m_hasher k mod BUCKET_COUNT]; a key that
    [find] finds is the key of exactly one node, which is in the bucket
    with the index [m_hasher key mod BUCKET_COUNT], and a key that
    [find] misses is the key of no node; [size()] is the sum of the node
    counts of the buckets.  From such a state every operation completes
    when the address it may hand to [new] is usable. *)
Theorem reachable_invariants sentinels ops s0 s :
  HashMap_ctor sentinels = Some s0 → run_ops ops s0 = Some (tt, s) →
  ∃ css,
    Inv s css ∧
    Z.of_nat (length css) = BUCKET_COUNT ∧
    (∀ i l c, css !! i = Some l → c ∈ l →
              m_hasher (first c.2) mod BUCKET_COUNT = Z.of_nat i) ∧
    (∀ key v, eval (stored_value key) s = Some (Some v) →
       ∃ front c back l,
         concat css = front ++ c :: back ∧
         m_key_equal (first c.2) key = true ∧ second c.2 = v ∧
         css !! Z.to_nat (m_hasher key mod BUCKET_COUNT) = Some l ∧ c ∈ l ∧
         Forall (λ d, m_key_equal (first d.2) key = false) (front ++ back)) ∧
    (∀ key, eval (stored_value key) s = Some None →
       Forall (λ d, m_key_equal (first d.2) key = false) (concat css)) ∧
    eval HashMap_size s = Some (Z.of_nat (sum_list (length <$> css))) ∧
    (∀ op, (∀ p, op_fresh op = Some p → usable s p) →
           ∃ s', apply_op op s = Some (tt, s')).
Proof.
  intros Hctor Hrun.
  destruct (HashMap_ctor_Inv _ _ Hctor) as [HI0 _].
  destruct (run_ops_Inv ops s0 _ s HI0 Hrun) as (css & HI).
  exists css. split_and!.
  - done.
  - by destruct (Inv_total s css HI).
  - intros i l c Hl Hc. pose proof (inv_place _ _ HI i l Hl) as H.
    rewrite Forall_forall in H. exact (H c Hc).
  - intros key v Hst. apply (stored_value_model _ _ _ _ HI) in Hst.
    apply model_lookup_Some in Hst as (c & Hfind & <-).
    destruct (live_key_once s css key c HI Hfind) as (front & back & E & Hno).
    destruct (Inv_view s css _ HI (bucket_index_range key)) as (b & l & Hview).
    rewrite (bucket_of_view _ _ _ _ _ Hview) in Hfind.
    exists front, c, back, l. split_and!; [done| |done| | |done].
    + by destruct (find_cell_Some _ _ _ Hfind) as (? & ? & _ & ? & _).
    + exact (view_cells _ _ _ _ _ Hview).
    + by eapply find_cell_elem.
  - intros key Hst. apply (stored_value_model _ _ _ _ HI) in Hst.
    apply model_lookup_None in Hst. rewrite <- (find_cell_concat s css key HI) in Hst.
    by apply find_cell_None.
  - eapply eval_eq. rewrite (HashMap_size_eq _ _ HI). by rewrite concat_length_sum.
  - intros op Hop. by eapply apply_op_total.
Qed.

(** C6.  A traversal from [begin()] to [end()] by [++] returns the pairs
    of the contents, bucket after bucket and each bucket in list order:
    no key comes twice, [find] sees for each key the pair the traversal
    saw for it and none for any other key, and the bucket indices of the
    visited keys ascend.  An inserted key comes at the end of its
    bucket: after all pairs of this and of earlier buckets, before those
    of later buckets. *)
Theorem traverse_spec s css :
  Inv s css →
  ∃ pairs,
    eval traverse s = Some pairs ∧ pairs = (concat css).*2 ∧
    distinct_keys pairs ∧
    (∀ key, eval (stored_value key) s = Some (second <$> find_pair key pairs)) ∧
    ascending ((λ v, bucket_index_of (first v)) <$> pairs) ∧
    (∀ key value fresh,
       eval (stored_value key) s = Some None →
       valid_address fresh → heap s !! fresh = None →
       ∃ s1 before after,
         exec (HashMap_insert key value fresh) s = Some s1 ∧
         pairs = before ++ after ∧
         eval traverse s1 = Some (before ++ make_pair key value :: after) ∧
         Forall (λ v, bucket_index_of (first v) ≤ bucket_index_of key) before ∧
         Forall (λ v, bucket_index_of key < bucket_index_of (first v)) after).
Proof.
  intros HI. destruct (traverse_eq s css HI) as (st & Htr & _).
  exists ((concat css).*2). split_and!.
  - by eapply eval_eq.
  - done.
  - apply distinct_keys_cells. eapply placed_from_uniq; [by eapply Inv_placed|].
    by destruct HI.
  - intros key. eapply eval_eq. rewrite (stored_value_eq _ _ key HI).
    do 2 f_equal. unfold model_lookup.
    rewrite find_pair_cells, (find_cell_concat s css key HI).
    by destruct (find_cell key (bucket_of css key)).
  - rewrite <- list_fmap_compose.
    exact (placed_from_ascending 0 css (Inv_placed _ _ HI)).
  - intros key value fresh Hst Hv Hf.
    apply (stored_value_model _ _ _ _ HI) in Hst. apply model_lookup_None in Hst.
    destruct (Inv_view s css _ HI (bucket_index_range key)) as (b & l & Hview).
    rewrite (bucket_of_view _ _ _ _ _ Hview) in Hst.
    pose proof Hview as [_ _ Hl _ _ _ _ Hpl _].
    pose proof (bucket_index_lt s css key HI) as Hlt.
    pose proof (bucket_index_range key) as Hr.
    destruct (insert_new_facts s css b l fresh (make_pair key value) HI Hview Hv Hf Hst)
      as (HI' & _ & _ & _ & _).
    cbn [first second] in HI'.
    destruct (traverse_eq _ _ HI') as (st' & Htr' & _).
    set (i := Z.to_nat (bucket_index_of key)) in *.
    exists (pushed_back (bucket_index_of key) b l fresh (make_pair key value) s),
           ((concat (take i css) ++ l).*2), ((concat (drop (S i) css)).*2).
    split_and!.
    + eapply exec_eq.
      exact (HashMap_insert_pair_new s css b l fresh (make_pair key value) Hview Hv Hf Hst).
    + rewrite (concat_lookup_middle css i l Hl). by rewrite !fmap_app, <- app_assoc.
    + eapply eval_eq. rewrite Htr'. do 2 f_equal.
      rewrite concat_insert_explicit by done.
      rewrite !fmap_app. simpl. by rewrite <- !app_assoc.
    + apply Forall_fmap, Forall_app. split.
      * eapply Forall_impl; [exact (Inv_before s css i HI Hlt)|].
        unfold cell_index. simpl. lia.
      * eapply Forall_impl; [exact Hpl|]. simpl. lia.
    + apply Forall_fmap.
      eapply Forall_impl; [exact (Inv_after s css i HI)|].
      unfold cell_index. simpl. lia.
Qed.

(** C7.  [begin() == end()] holds exactly when the map is empty: it is
    the value of [empty()], which is [true] exactly when [size()] is 0
    and exactly when a traversal sees no element. *)
Theorem begin_end_empty s css :
  Inv s css →
  ∃ b e em n pairs,
    eval HashMap_begin s = Some b ∧ eval HashMap_end s = Some e ∧
    eval HashMap_empty s = Some em ∧ eval HashMap_size s = Some n ∧
    eval traverse s = Some pairs ∧
    IteratorHelper_eq b e = em ∧ (em = true ↔ n = 0) ∧ (em = true ↔ pairs = []).
Proof.
  intros HI.
  destruct (HashMap_begin_eq s css HI) as (b & s1 & Hb & _ & Hpos).
  destruct (traverse_eq s css HI) as (s2 & Htr & _).
  exists b, end_cursor, (bool_decide (concat css = [])),
         (Z.of_nat (length (concat css))), ((concat css).*2).
  split_and!.
  - by eapply eval_eq.
  - eapply eval_eq. apply HashMap_end_eq. by destruct HI.
  - by eapply eval_eq, HashMap_empty_eq.
  - by eapply eval_eq, HashMap_size_eq.
  - by eapply eval_eq.
  - by apply (IteratorHelper_eq_end s css).
  - rewrite bool_decide_eq_true. destruct (concat css); simpl; split; (done || lia).
  - rewrite bool_decide_eq_true. by destruct (concat css).
Qed.

(** C8.  [erase(c)] on a cursor that stands on a cell: the successor is
    the cursor [++] yields in the state before the removal; the entry
    with the key under [c] is erased, by the call [erase(key)]; the
    successor is what the call returns, and it stands, before and after
    the removal, in front of the cells that followed [c], so that the
    walk goes on over exactly those. *)
Theorem erase_at_spec s css c cell rest :
  Inv s css → position css c (cell :: rest) →
  ∃ next s' css' front,
    IteratorHelper_incr c s = Some (next, s) ∧
    Reference_get_pair (m_ref c) s = Some (cell.2, s) ∧
    HashMap_erase (first cell.2) s = Some (tt, s') ∧
    HashMap_erase_at c s = Some (next, s') ∧
    Inv s' css' ∧
    concat css = front ++ cell :: rest ∧ concat css' = front ++ rest ∧
    position css next rest ∧ position css' next rest ∧
    traverse_loop (S (size (heap s'))) next end_cursor s' = Some (rest.*2, s').
Proof. apply HashMap_erase_at_eq. Qed.

(** C9.  On a node that holds [(k, v1)]: [get()] and [get_pair()] return
    [v1] and [(k, v1)] and change nothing; [set(v2)] is the one store
    [set_pair((k, v2))], after which the node holds [(k, v2)];
    [set_pair(p)] makes the node hold [p]; neither touches a link or the
    pair of another node. *)
Theorem reference_spec s r k v1 :
  value_of (heap s) (m_node r) = Some (make_pair k v1) →
  Reference_get r s = Some (v1, s) ∧
  Reference_get_pair r s = Some (make_pair k v1, s) ∧
  (∀ v2, Reference_set r v2 s = Reference_set_pair r (make_pair k v2) s) ∧
  (∀ v2, ∃ s',
     Reference_set r v2 s = Some (tt, s') ∧
     Reference_get_pair r s' = Some (make_pair k v2, s')) ∧
  (∀ p, ∃ s',
     Reference_set_pair r p s = Some (tt, s') ∧
     Reference_get_pair r s' = Some (p, s') ∧
     Reference_get r s' = Some (second p, s') ∧
     m_buckets s' = m_buckets s ∧
     (∀ x, next_of (heap s') x = next_of (heap s) x ∧
           prev_of (heap s') x = prev_of (heap s) x ∧
           (x ≠ m_node r → value_of (heap s') x = value_of (heap s) x))).
Proof.
  intros Hval.
  assert (Ha : allocated (heap s) (m_node r)) by (apply allocated_value; by eexists).
  split_and!.
  - by apply (Reference_get_eq _ _ (make_pair k v1)).
  - by apply Reference_get_pair_eq.
  - intros v2. unfold Reference_set.
    by rewrite (bind_eq _ _ _ _ _ (load_value_eq _ _ _ Hval)).
  - intros v2. exists (with_heap (set_value (m_node r) (make_pair k v2) (heap s)) s).
    split.
    + unfold Reference_set.
      rewrite (bind_eq _ _ _ _ _ (load_value_eq _ _ _ Hval)). by apply store_value_eq.
    + apply Reference_get_pair_eq. by apply value_set_value_eq.
  - intros p. exists (with_heap (set_value (m_node r) p (heap s)) s).
    assert (Hp : value_of (set_value (m_node r) p (heap s)) (m_node r) = Some p)
      by (by apply value_set_value_eq).
    split_and!.
    + by apply store_value_eq.
    + by apply Reference_get_pair_eq.
    + by apply Reference_get_eq.
    + done.
    + intros x. st_simpl. split_and!; [by heap_simpl..|].
      intros Hx. by heap_simpl.
Qed.

(** * Further properties of the code *)

(** ** The steps of a change *)

Lemma lookup_set_next_ne h p q x : x ≠ p → set_next p q h !! x = h !! x.
Proof. intros. unfold set_next. by rewrite lookup_alter_ne. Qed.

Lemma lookup_set_prev_ne h p q x : x ≠ p → set_prev p q h !! x = h !! x.
Proof. intros. unfold set_prev. by rewrite lookup_alter_ne. Qed.

Lemma lookup_set_value_ne h p v x : x ≠ p → set_value p v h !! x = h !! x.
Proof. intros. unfold set_value. by rewrite lookup_alter_ne. Qed.

Lemma elem_of_concat_insert {A} (ls : list (list A)) i a a' x :
  ls !! i = Some a → x ∈ concat (<[i := a']> ls) → x ∈ a' ∨ x ∈ concat ls.
Proof.
  intros Hi. destruct (concat_insert_middle ls i a a' Hi) as (pre & post & -> & ->).
  rewrite !elem_of_app. tauto.
Qed.

Lemma elem_of_concat_insert_keep {A} (ls : list (list A)) i a a' x :
  ls !! i = Some a → x ∈ concat ls → x ∈ a ∨ x ∈ concat (<[i := a']> ls).
Proof.
  intros Hi. destruct (concat_insert_middle ls i a a' Hi) as (pre & post & -> & ->).
  rewrite !elem_of_app. tauto.
Qed.

Lemma elem_of_concat_insert_new {A} (ls : list (list A)) i a a' x :
  ls !! i = Some a → x ∈ a' → x ∈ concat (<[i := a']> ls).
Proof.
  intros Hi. destruct (concat_insert_middle ls i a a' Hi) as (pre & post & _ & ->).
  rewrite !elem_of_app. tauto.
Qed.

Lemma last_of_elem e (l : list (ptr * Pair)) : last_of e l ∈ e :: l.*1.
Proof.
  pose proof (last_cells e l) as H. apply last_Some in H as [l' E]. rewrite E.
  apply elem_of_app. right. by left.
Qed.

Lemma first_of_elem e (l : list (ptr * Pair)) : first_of e l ∈ e :: l.*1.
Proof. destruct l as [|c l]; simpl; [by left|]. right. by left. Qed.

(** What a step does to one bucket, and to nothing else. *)
Lemma change_shape s css s' css' :
  change s css s' css' →
  (same_memory s s' ∧ css' = css) ∨
  ∃ i b l b' l',
    bucket_view s css i b l ∧
    m_buckets s' = <[Z.to_nat i := b']> (m_buckets s) ∧
    css' = <[Z.to_nat i := l']> css ∧ m_end b' = m_end b ∧
    (∀ x, x ∈ cells b' l' → x ∈ cells b l ∨ ¬ allocated (heap s) x) ∧
    (∀ x, allocated (heap s') x →
          x ∈ cells b' l' ∨ (allocated (heap s) x ∧ x ∉ cells b l)) ∧
    (∀ x, x ∉ cells b l → allocated (heap s) x → heap s' !! x = heap s !! x) ∧
    value_of (heap s') (m_end b) = value_of (heap s) (m_end b).
Proof.
  intros [s0 css0 s0' Hm|s0 css0 i b l p value Hview Hp Hf Hi Hfind
         |s0 css0 i b l1 c l2 value Hview Hk Hi|s0 css0 i b l1 c l2 Hview].
  - by left.
  - right. exists i, b, l, (mkBucket (size_add (m_size b) 1) (m_end b)), (l ++ [(p, value)]).
    pose proof Hview as [Hat Hb Hl Hall Hr Hnd Hv Hpl Hu].
    assert (Hnp : ¬ allocated (heap s0) p) by (unfold allocated; rewrite Hf; by intros []).
    assert (Hal : ∀ x, x ∈ cells b l → allocated (heap s0) x).
    { intros x Hx. by eapply bucket_repr_allocated. }
    assert (Hpc : p ∉ cells b l) by (intros Hx; by apply Hnp, Hal).
    pose proof (last_of_elem (m_end b) l) as Ht. fold (cells b l) in Ht.
    assert (Hein : m_end b ∈ cells b l) by (by left).
    split_and!; [done|done|done|done|..].
    + intros x. unfold cells. cbn [m_end]. rewrite fmap_app. cbn [fmap list_fmap fst].
      rewrite app_comm_cons, elem_of_app, list_elem_of_singleton.
      intros [?| ->]; [by left|by right].
    + intros x. unfold pushed_back, linked_back. st_simpl.
      rewrite allocated_set_value, allocated_set_next, allocated_set_prev,
        allocated_set_prev, allocated_set_next, allocated_insert.
      unfold cells at 1. cbn [m_end]. rewrite fmap_app. cbn [fmap list_fmap fst].
      rewrite app_comm_cons, elem_of_app, list_elem_of_singleton.
      fold (cells b l).
      intros [->|Hx]; [by left; right|].
      destruct (decide (x ∈ cells b l)); [by left; left|by right].
    + intros x Hx Hxa. unfold pushed_back, linked_back. st_simpl.
      assert (x ≠ p) by (by intros ->).
      assert (x ≠ last_of (m_end b) l) by (by intros ->).
      assert (x ≠ m_end b) by (by intros ->).
      rewrite lookup_set_value_ne, lookup_set_next_ne, lookup_set_prev_ne,
        lookup_set_prev_ne, lookup_set_next_ne, lookup_insert_ne by done. done.
    + unfold pushed_back, linked_back. st_simpl.
      assert (m_end b ≠ p) by (by intros <-).
      by heap_simpl.
  - right. exists i, b, (l1 ++ c :: l2), b, (l1 ++ (c.1, value) :: l2).
    pose proof Hview as [Hat Hb Hl Hall Hr Hnd Hv Hpl Hu].
    assert (Hcells : cells b (l1 ++ (c.1, value) :: l2) = cells b (l1 ++ c :: l2)).
    { unfold cells. by rewrite !fmap_app. }
    assert (Hcin : c.1 ∈ cells b (l1 ++ c :: l2)).
    { right. rewrite fmap_app. apply elem_of_app. right. by left. }
    split_and!; [done| |done|done|..].
    + st_simpl. by rewrite list_insert_id.
    + intros x. rewrite Hcells. by left.
    + intros x. st_simpl. rewrite allocated_set_value, Hcells. intros Hx.
      destruct (decide (x ∈ cells b (l1 ++ c :: l2))); [by left|by right].
    + intros x Hx Hxa. st_simpl. assert (x ≠ c.1) by (by intros ->).
      by rewrite lookup_set_value_ne.
    + st_simpl. assert (m_end b ≠ c.1).
      { intros E. unfold cells in Hnd. apply NoDup_cons in Hnd as [Hn _]. apply Hn.
        rewrite E, fmap_app. apply elem_of_app. right. by left. }
      by heap_simpl.
  - right.
    exists i, b, (l1 ++ c :: l2), (mkBucket (size_sub (m_size b) 1) (m_end b)), (l1 ++ l2).
    pose proof Hview as [Hat Hb Hl Hall Hr Hnd Hv Hpl Hu].
    assert (Hcin : c.1 ∈ cells b (l1 ++ c :: l2)).
    { right. rewrite fmap_app. apply elem_of_app. right. by left. }
    assert (Hxin : last_of (m_end b) l1 ∈ cells b (l1 ++ c :: l2)).
    { pose proof (last_of_elem (m_end b) l1) as H. unfold cells.
      rewrite fmap_app, app_comm_cons. apply elem_of_app. by left. }
    assert (Hyin : first_of (m_end b) l2 ∈ cells b (l1 ++ c :: l2)).
    { pose proof (first_of_elem (m_end b) l2) as H. unfold cells.
      apply elem_of_cons in H as [->|H]; [by left|].
      right. rewrite fmap_app. apply elem_of_app. right. by right. }
    assert (Hsub : ∀ x, x ∈ cells b (l1 ++ c :: l2) → x ≠ c.1 →
                        x ∈ cells (mkBucket (size_sub (m_size b) 1) (m_end b)) (l1 ++ l2)).
    { intros x. unfold cells. cbn [m_end]. rewrite !fmap_app. cbn [fmap list_fmap].
      rewrite !elem_of_cons, !elem_of_app, elem_of_cons. tauto. }
    split_and!; [done|done|done|done|..].
    + intros x Hx. left. revert Hx. unfold cells. cbn [m_end].
      rewrite !fmap_app. cbn [fmap list_fmap].
      rewrite !elem_of_cons, !elem_of_app, elem_of_cons. tauto.
    + intros x. unfold unlinked. st_simpl.
      rewrite allocated_delete, allocated_set_next, allocated_set_prev.
      intros [Hne Hx].
      destruct (decide (x ∈ cells b (l1 ++ c :: l2))); [left; by apply Hsub|by right].
    + intros x Hx Hxa. unfold unlinked. st_simpl.
      assert (x ≠ c.1) by (by intros ->).
      assert (x ≠ last_of (m_end b) l1) by (by intros ->).
      assert (x ≠ first_of (m_end b) l2) by (by intros ->).
      by rewrite lookup_delete_ne, lookup_set_next_ne, lookup_set_prev_ne.
    + unfold unlinked. st_simpl.
      assert (m_end b ≠ c.1).
      { intros E. unfold cells in Hnd. apply NoDup_cons in Hnd as [Hn _]. apply Hn.
        rewrite E, fmap_app. apply elem_of_app. right. by left. }
      by heap_simpl.
Qed.

Lemma change_Inv s css s' css' : Inv s css → change s css s' css' → Inv s' css'.
Proof.
  intros HI H. revert HI.
  destruct H as [s0 css0 s0' Hm|s0 css0 i b l p value Hview Hp Hf Hi Hfind
                |s0 css0 i b l1 c l2 value Hview Hk Hi|s0 css0 i b l1 c l2 Hview];
    intros HI.
  - by eapply Inv_same_memory.
  - by apply pushed_back_Inv.
  - by eapply assigned_Inv.
  - by eapply unlinked_Inv.
Qed.

Lemma changes_Inv s css s' css' : Inv s css → changes s css s' css' → Inv s' css'.
Proof. intros HI H. induction H; [done|]. eauto using change_Inv. Qed.

Lemma changes_one s css s' css' : change s css s' css' → changes s css s' css'.
Proof. intros. eapply changes_cons; [done|constructor]. Qed.

Lemma changes_trans s css s1 css1 s2 css2 :
  changes s css s1 css1 → changes s1 css1 s2 css2 → changes s css s2 css2.
Proof. intros H. induction H; [done|]. intros. eapply changes_cons; eauto. Qed.

Lemma nodes_update s css i b l s' b' l' :
  bucket_view s css i b l →
  m_buckets s' = <[Z.to_nat i := b']> (m_buckets s) →
  nodes s' (<[Z.to_nat i := l']> css)
  = concat (<[Z.to_nat i := cells b' l']> (all_cells (m_buckets s) css)).
Proof. intros _ Hb. unfold nodes, all_cells. by rewrite Hb, insert_zip_with. Qed.

(** A step takes the nodes it adds from the free addresses. *)
Lemma change_nodes s css s' css' x :
  change s css s' css' → x ∈ nodes s' css' → x ∈ nodes s css ∨ ¬ allocated (heap s) x.
Proof.
  intros [[[Hh Hb] ->]|(i & b & l & b' & l' & Hview & Hbs & -> & He & Hin & Hal & Hfr & Hsv)]
    %change_shape.
  - unfold nodes. rewrite Hb. by left.
  - rewrite (nodes_update s css i b l s' b' l' Hview Hbs).
    pose proof Hview as [_ _ _ Hall _ _ _ _ _].
    intros [Hx|Hx]%(elem_of_concat_insert _ _ _ _ _ Hall); [|by left].
    destruct (Hin x Hx) as [Hx'|?]; [left|by right].
    by eapply elem_of_concat_lookup.
Qed.

(** A step leaves the nodes outside the map as they are. *)
Lemma change_frame s css s' css' x :
  change s css s' css' → x ∉ nodes s css → allocated (heap s) x →
  heap s' !! x = heap s !! x.
Proof.
  intros [[[Hh Hb] ->]|(i & b & l & b' & l' & Hview & Hbs & -> & He & Hin & Hal & Hfr & Hsv)]
    %change_shape Hx Hxa.
  - by rewrite Hh.
  - apply Hfr; [|done]. intros Hx'. apply Hx.
    pose proof Hview as [_ _ _ Hall _ _ _ _ _]. by eapply elem_of_concat_lookup.
Qed.

Lemma change_tight s css s' css' :
  change s css s' css' → tight s css → tight s' css'.
Proof.
  intros [[[Hh Hb] ->]|(i & b & l & b' & l' & Hview & Hbs & -> & He & Hin & Hal & Hfr & Hsv)]
    %change_shape Ht x Hx.
  - unfold nodes. rewrite Hb. apply Ht. by rewrite <- Hh.
  - rewrite (nodes_update s css i b l s' b' l' Hview Hbs).
    pose proof Hview as [_ _ _ Hall _ _ _ _ _].
    destruct (Hal x Hx) as [Hx'|[Hxa Hxn]].
    + by eapply elem_of_concat_insert_new.
    + destruct (elem_of_concat_insert_keep _ _ _ (cells b' l') x Hall (Ht x Hxa)); done.
Qed.

Lemma changes_tight s css s' css' :
  changes s css s' css' → tight s css → tight s' css'.
Proof. intros H. induction H; [done|]. eauto using change_tight. Qed.

Lemma change_sentinels s css s' css' :
  change s css s' css' → m_end <$> m_buckets s' = m_end <$> m_buckets s.
Proof.
  intros [[[Hh Hb] ->]|(i & b & l & b' & l' & Hview & Hbs & -> & He & Hin & Hal & Hfr & Hsv)]
    %change_shape.
  - by rewrite Hb.
  - pose proof Hview as [_ Hb _ _ _ _ _ _ _].
    rewrite Hbs, list_fmap_insert, He. apply list_insert_id.
    by rewrite list_lookup_fmap, Hb.
Qed.

Lemma changes_sentinels s css s' css' :
  changes s css s' css' → m_end <$> m_buckets s' = m_end <$> m_buckets s.
Proof.
  intros H. induction H as [|s css s1 css1 s2 css2 H1 _ IH]; [done|].
  rewrite IH. by eapply change_sentinels.
Qed.

Lemma change_sentinels_default s css s' css' :
  Inv s css → change s css s' css' → sentinels_default s → sentinels_default s'.
Proof.
  intros HI
    [[[Hh Hb] ->]|(i & b & l & b' & l' & Hview & Hbs & -> & He & Hin & Hal & Hfr & Hsv)]
    %change_shape Hd.
  - unfold sentinels_default. by rewrite Hb, Hh.
  - unfold sentinels_default in *. rewrite Hbs. rewrite Forall_lookup in Hd.
    pose proof Hview as [_ Hb Hl Hall _ _ _ _ _].
    apply Forall_lookup. intros j bj Hj.
    destruct (decide (j = Z.to_nat i)) as [->|Hne].
    + rewrite list_lookup_insert_eq in Hj by (by eapply lookup_lt_Some). simplify_eq.
      rewrite He, Hsv. by eapply Hd.
    + rewrite list_lookup_insert_ne in Hj by done.
      pose proof (Hd j bj Hj) as Hdj.
      destruct (lookup_lt_is_Some_2 css j) as [lj Hlj].
      { pose proof (Inv_total _ _ HI) as [Hlen _]. pose proof (inv_count _ _ HI).
        apply lookup_lt_Some in Hj. lia. }
      assert (Hallj : all_cells (m_buckets s) css !! j = Some (cells bj lj)).
      { unfold all_cells. rewrite lookup_zip_with, Hj. simpl. by rewrite Hlj. }
      unfold value_of in *. rewrite Hfr; [done| |].
      * intros Hx. eapply (NoDup_concat_disjoint _ j (Z.to_nat i));
          [apply (inv_nodup _ _ HI)|done|done|done| |done]. by left.
      * destruct (heap s !! m_end bj) eqn:E; [by eexists|done].
Qed.

Lemma changes_sentinels_default s css s' css' :
  Inv s css → changes s css s' css' → sentinels_default s → sentinels_default s'.
Proof.
  intros HI H. induction H; [done|].
  intros. eauto using change_Inv, change_sentinels_default.
Qed.

(** ** The member functions, step by step *)

Lemma HashMap_insert_pair_change s css value p r s' :
  Inv s css → HashMap_insert_pair value p s = Some (r, s') →
  ∃ css', change s css s' css'.
Proof.
  intros HI H.
  destruct (Inv_view s css _ HI (bucket_index_range (first value))) as (b & l & Hview).
  destruct (find_cell (first value) l) as [c|] eqn:Hfind.
  - rewrite (HashMap_insert_pair_old s css b l p value c Hview Hfind) in H. simplify_eq.
    exists css. apply change_none, same_memory_refl.
  - destruct (decide (usable s p)) as [[Hv Hf]|Hn].
    + rewrite (HashMap_insert_pair_new s css b l p value Hview Hv Hf Hfind) in H.
      simplify_eq. eexists. by apply change_push.
    + by rewrite (HashMap_insert_pair_fail s css b l value p Hview Hfind Hn) in H.
Qed.

Lemma HashMap_insert_or_assign_pair_change s css value p r s' :
  Inv s css → HashMap_insert_or_assign_pair value p s = Some (r, s') →
  ∃ css', change s css s' css'.
Proof.
  intros HI H.
  destruct (Inv_view s css _ HI (bucket_index_range (first value))) as (b & l & Hview).
  destruct (find_cell (first value) l) as [c|] eqn:Hfind.
  - rewrite (HashMap_insert_or_assign_pair_old s css b l p value c Hview Hfind) in H.
    simplify_eq.
    destruct (find_cell_Some _ _ _ Hfind) as (l1 & l2 & -> & Hkey & Hno).
    eexists. by eapply change_assign.
  - destruct (decide (usable s p)) as [[Hv Hf]|Hn].
    + rewrite (HashMap_insert_or_assign_pair_new s css b l p value Hview Hv Hf Hfind) in H.
      simplify_eq. eexists. by apply change_push.
    + destruct (HashMap_insert_or_assign_pair_cases s css value p HI)
        as [(r' & s1 & css' & Hr & _)|[_ Hr]]; [|congruence].
      exfalso. revert Hr.
      pose proof Hview as [Hat _ _ _ Hr Hnd _ _ _].
      unfold HashMap_insert_or_assign_pair, Bucket_insert_or_assign.
      unfold bind at 1. unfold bind at 1.
      rewrite (Bucket_find_eq _ _ _ _ (first value) Hat Hr Hnd).
      rewrite (bind_eq _ _ _ _ _ (Bucket_end_eq _ _ _ Hat)).
      unfold found. rewrite Hfind. simpl. rewrite Z.eqb_refl.
      unfold bind at 1. unfold bind at 1. unfold new_Node. by rewrite decide_False.
Qed.

Lemma HashMap_erase_change s css key :
  Inv s css → ∃ s' css', HashMap_erase key s = Some (tt, s') ∧ change s css s' css'.
Proof.
  intros HI.
  destruct (Inv_view s css _ HI (bucket_index_range key)) as (b & l & Hview).
  destruct (find_cell key l) as [c|] eqn:Hfind.
  - destruct (find_cell_Some _ _ _ Hfind) as (l1 & l2 & -> & Hkey & Hno).
    destruct (erase_old_facts s css b l1 c l2 key HI Hview Hfind) as (He & _).
    eexists _, _. split; [exact He|]. by eapply change_unlink.
  - exists s, css. split; [|apply change_none, same_memory_refl].
    unfold HashMap_erase. by apply (Bucket_erase_none s css _ b l).
Qed.

Lemma HashMap_subscript_changes s css key p r s' :
  Inv s css → HashMap_subscript key p s = Some (r, s') →
  ∃ css', changes s css s' css'.
Proof.
  intros HI H.
  destruct (Inv_view s css _ HI (bucket_index_range key)) as (b & l & Hview).
  set (s1 := with_oob (BUCKET_COUNT :: oob_reads s) s).
  assert (HI1 : Inv s1 css) by (by apply Inv_with_oob).
  assert (H1 : change s css s1 css) by apply change_none, same_memory_oob.
  destruct (find_cell key l) as [c|] eqn:Hfind.
  - rewrite (HashMap_subscript_old s css key p b l c HI Hview Hfind) in H. simplify_eq.
    exists css. by apply changes_one.
  - rewrite (HashMap_subscript_new s css key p b l HI Hview Hfind) in H. fold s1 in H.
    unfold bind, HashMap_insert in H.
    destruct (HashMap_insert_pair (make_pair key default_mapped) p s1)
      as [[r1 s2]|] eqn:Hins; [|done].
    unfold ret in H. simplify_eq.
    destruct (HashMap_insert_pair_change s1 css _ p r1 s' HI1 Hins) as (css' & H2).
    exists css'. eapply changes_cons; [exact H1|]. by apply changes_one.
Qed.

Lemma erase_found_changes s css key :
  Inv s css →
  ∃ s' css', apply_op (OpEraseFound key) s = Some (tt, s') ∧ changes s css s' css'.
Proof.
  intros HI. simpl.
  destruct (Inv_view s css _ HI (bucket_index_range key)) as (b & l & Hview).
  rewrite (bind_eq _ _ _ _ _ (HashMap_find_eq _ _ _ _ _ Hview)).
  rewrite (bind_eq _ _ _ _ _ (HashMap_end_eq s (inv_count _ _ HI))).
  fold end_cursor.
  set (s1 := with_oob (BUCKET_COUNT :: oob_reads s) s).
  assert (HI1 : Inv s1 css) by (by apply Inv_with_oob).
  assert (H1 : change s css s1 css) by apply change_none, same_memory_oob.
  unfold find_cursor. destruct (find_cell key l) as [c|] eqn:Hfind.
  - destruct (find_cursor_position _ _ _ _ _ _ HI Hview Hfind) as (rest & Hpos).
    rewrite (IteratorHelper_eq_end _ _ _ _ HI Hpos). simpl.
    destruct (HashMap_erase_at_eq s1 css _ c rest HI1 Hpos)
      as (next & s' & css' & front & _ & _ & Her & He & _).
    rewrite (bind_eq _ _ _ _ _ He).
    destruct (HashMap_erase_change s1 css (first c.2) HI1) as (s2 & css2 & Her2 & H2).
    assert (s2 = s') as -> by congruence.
    eexists _, css2. split; [done|].
    eapply changes_cons; [exact H1|]. by apply changes_one.
  - unfold IteratorHelper_eq, end_cursor. simpl. rewrite Z.eqb_refl.
    eexists _, _. split; [done|]. by apply changes_one.
Qed.

Lemma Bucket_clear_loop_changes i :
  0 ≤ i < BUCKET_COUNT →
  ∀ l s css b fuel,
    Inv s css → bucket_view s css i b l → (length l < fuel)%nat →
    ∃ s', Bucket_clear_loop fuel i s = Some (tt, s') ∧
          changes s css s' (<[Z.to_nat i := []]> css).
Proof.
  intros Hi. induction l as [|c l IH]; intros s css b fuel HI Hview Hf;
    (destruct fuel as [|fuel]; [simpl in Hf; lia|]); simpl;
    pose proof Hview as [Hat Hb Hl Hall Hr Hnd Hv Hpl Hu];
    rewrite (bind_eq _ _ _ _ _ (Bucket_begin_eq _ _ _ _ Hat Hr));
    rewrite (bind_eq _ _ _ _ _ (Bucket_end_eq _ _ _ Hat)); cbn [first_of].
  - rewrite Z.eqb_refl. exists s. split; [done|].
    rewrite list_insert_id by done. constructor.
  - rewrite Z.eqb_sym, (cell_not_end b (c :: l) c Hnd) by (by left).
    rewrite (bind_eq _ _ _ _ _ (Bucket_erase_node_cell s css i b [] c l Hview)).
    pose proof (unlinked_Inv s css i b [] c l HI Hview) as HI1.
    pose proof (change_unlink s css i b [] c l Hview) as H1.
    cbn [app] in HI1, H1.
    set (s1 := unlinked i b c.1 (last_of (m_end b) []) (first_of (m_end b) l) s) in *.
    destruct (Inv_view s1 _ i HI1 Hi) as (b1 & l1 & Hview1).
    assert (l1 = l) as ->.
    { eapply view_unique; [done|]. apply list_lookup_insert_eq. by eapply lookup_lt_Some. }
    destruct (IH s1 _ b1 fuel HI1 Hview1) as (s' & Hs' & H2); [simpl in Hf; lia|].
    exists s'. split; [done|].
    rewrite list_insert_insert_eq in H2. by eapply changes_cons.
Qed.

Lemma Bucket_clear_changes s css i :
  Inv s css → 0 ≤ i < BUCKET_COUNT →
  ∃ s', Bucket_clear i s = Some (tt, s') ∧ changes s css s' (<[Z.to_nat i := []]> css).
Proof.
  intros HI Hi. destruct (Inv_view s css i HI Hi) as (b & l & Hview).
  unfold Bucket_clear. eapply Bucket_clear_loop_changes; [done..|].
  pose proof (Inv_heap_size _ _ HI) as Hsz.
  pose proof Hview as [_ _ Hl _ _ _ _ _ _].
  destruct (concat_insert_middle css _ l l Hl) as (pre & post & E & _).
  rewrite E, !length_app in Hsz. lia.
Qed.

Lemma HashMap_clear_loop_changes :
  ∀ trips i s css,
    Inv s css → (i + trips = length css)%nat →
    ∃ s', HashMap_clear_loop trips (Z.of_nat i) s = Some (tt, s') ∧
          changes s css s' (take i css ++ replicate trips []).
Proof.
  induction trips as [|trips IH]; intros i s css HI Hi; simpl.
  - exists s. split; [done|]. rewrite app_nil_r, take_ge by lia. constructor.
  - pose proof (Inv_total _ _ HI) as [Hlen Htot].
    destruct (Bucket_clear_changes s css (Z.of_nat i) HI) as (s1 & Hs1 & H1); [lia|].
    rewrite (bind_eq _ _ _ _ _ Hs1). rewrite size_add_1 by lia.
    replace (Z.of_nat i + 1) with (Z.of_nat (S i)) by lia.
    rewrite Nat2Z.id in H1.
    pose proof (changes_Inv _ _ _ _ HI H1) as HI1.
    destruct (IH (S i) s1 _ HI1) as (s' & Hs' & H2); [rewrite length_insert; lia|].
    exists s'. split; [done|].
    assert (E : take (S i) (<[i := []]> css) ++ replicate trips []
                = take i css ++ replicate (S trips) []).
    { assert (Hlt : (i < length css)%nat) by lia.
      destruct (lookup_lt_is_Some_2 css i Hlt) as [l Hl].
      rewrite (take_S_r (<[i := []]> css) i []).
      - rewrite take_insert_ge by lia. by rewrite <- app_assoc.
      - by apply list_lookup_insert_eq. }
    rewrite E in H2. by eapply changes_trans.
Qed.

Lemma HashMap_clear_changes s css :
  Inv s css →
  ∃ s', HashMap_clear s = Some (tt, s') ∧ changes s css s' (replicate (length css) []).
Proof.
  intros HI. pose proof (Inv_total _ _ HI) as [Hlen Htot].
  destruct (HashMap_clear_loop_changes (Z.to_nat BUCKET_COUNT) 0 s css HI)
    as (s' & Hs' & H'); [lia|].
  exists s'. split; [done|].
  simpl in H'. by replace (length css) with (Z.to_nat BUCKET_COUNT) by lia.
Qed.

Lemma apply_op_changes s css op s' :
  Inv s css → apply_op op s = Some (tt, s') → ∃ css', changes s css s' css'.
Proof.
  intros HI H. destruct op as [key value p|key value p|key|key|key p|].
  - simpl in H. unfold HashMap_insert, bind in H.
    destruct (HashMap_insert_pair (make_pair key value) p s) as [[r s1]|] eqn:Hr; [|done].
    unfold ret in H. simplify_eq.
    destruct (HashMap_insert_pair_change _ _ _ _ _ _ HI Hr) as (css' & H').
    exists css'. by apply changes_one.
  - simpl in H. unfold HashMap_insert_or_assign, bind in H.
    destruct (HashMap_insert_or_assign_pair (make_pair key value) p s)
      as [[r s1]|] eqn:Hr; [|done].
    unfold ret in H. simplify_eq.
    destruct (HashMap_insert_or_assign_pair_change _ _ _ _ _ _ HI Hr) as (css' & H').
    exists css'. by apply changes_one.
  - destruct (HashMap_erase_change s css key HI) as (s1 & css' & Hr & H').
    simpl in H. rewrite Hr in H. simplify_eq. exists css'. by apply changes_one.
  - destruct (erase_found_changes s css key HI) as (s1 & css' & Hr & H').
    rewrite Hr in H. simplify_eq. eauto.
  - simpl in H. unfold bind in H.
    destruct (HashMap_subscript key p s) as [[r s1]|] eqn:Hr; [|done].
    unfold ret in H. simplify_eq. by eapply HashMap_subscript_changes.
  - destruct (HashMap_clear_changes s css HI) as (s1 & Hr & H').
    simpl in H. rewrite Hr in H. simplify_eq. eauto.
Qed.

Lemma run_ops_changes ops :
  ∀ s css s', Inv s css → run_ops ops s = Some (tt, s') → ∃ css', changes s css s' css'.
Proof.
  induction ops as [|op ops IH]; intros s css s' HI H; simpl in H.
  - unfold ret in H. simplify_eq. exists css. constructor.
  - unfold bind in H. destruct (apply_op op s) as [[[] s1]|] eqn:Hop; [|done].
    destruct (apply_op_changes s css op s1 HI Hop) as (css1 & H1).
    destruct (IH s1 css1 s' (changes_Inv _ _ _ _ HI H1) H) as (css' & H2).
    exists css'. by eapply changes_trans.
Qed.

(** ** Allocation along a sequence of steps *)

(** A node of the heap after a step is a node of the map, or it was
    there before and outside the map. *)
Lemma change_alloc s css s' css' x :
  change s css s' css' → allocated (heap s') x →
  x ∈ nodes s' css' ∨ (allocated (heap s) x ∧ x ∉ nodes s css).
Proof.
  intros [[[Hh Hb] ->]|(i & b & l & b' & l' & Hview & Hbs & -> & He & Hin & Hal & Hfr & Hsv)]
    %change_shape Hx.
  - unfold nodes. rewrite Hb. rewrite Hh in Hx.
    destruct (decide (x ∈ concat (all_cells (m_buckets s) css))); [by left|by right].
  - rewrite (nodes_update s css i b l s' b' l' Hview Hbs).
    pose proof Hview as [_ _ _ Hall _ _ _ _ _].
    destruct (Hal x Hx) as [Hx'|[Hxa Hxn]].
    + left. by eapply elem_of_concat_insert_new.
    + destruct (decide (x ∈ nodes s css)) as [Hn|Hn]; [|by right].
      left. by destruct (elem_of_concat_insert_keep _ _ _ (cells b' l') x Hall Hn).
Qed.

Lemma changes_alloc s css s' css' x :
  changes s css s' css' → allocated (heap s') x →
  x ∈ nodes s' css' ∨ (allocated (heap s) x ∧ x ∉ nodes s css).
Proof.
  intros H. induction H as [s css|s css s1 css1 s2 css2 H1 _ IH]; intros Hx.
  - destruct (decide (x ∈ nodes s css)); [by left|by right].
  - destruct (IH Hx) as [?|[Hx1 Hn1]]; [by left|].
    destruct (change_alloc _ _ _ _ x H1 Hx1) as [?|?]; [done|by right].
Qed.

Lemma changes_frame s css s' css' x :
  changes s css s' css' → x ∉ nodes s css → allocated (heap s) x →
  heap s' !! x = heap s !! x.
Proof.
  intros H. induction H as [s css|s css s1 css1 s2 css2 H1 _ IH]; intros Hn Hx; [done|].
  pose proof (change_frame _ _ _ _ x H1 Hn Hx) as E.
  rewrite IH, E; [done| |].
  - intros Hn1. by destruct (change_nodes _ _ _ _ x H1 Hn1).
  - unfold allocated. by rewrite E.
Qed.

Lemma changes_nodes s css s' css' x :
  changes s css s' css' → x ∈ nodes s' css' → allocated (heap s) x → x ∈ nodes s css.
Proof.
  intros H. induction H as [s css|s css s1 css1 s2 css2 H1 _ IH]; intros Hn Hx; [done|].
  destruct (decide (x ∈ nodes s css)) as [|Hno]; [done|].
  pose proof (change_frame _ _ _ _ x H1 Hno Hx) as E.
  assert (Hx1 : allocated (heap s1) x) by (unfold allocated; by rewrite E).
  by destruct (change_nodes _ _ _ _ x H1 (IH Hn Hx1)).
Qed.

(** The nodes of the map are its sentinels and its data nodes. *)
Lemma nodes_split (bs : list Bucket) (css : list (list (ptr * Pair))) :
  length bs = length css →
  concat (all_cells bs css) ≡ₚ (m_end <$> bs) ++ (concat css).*1.
Proof.
  revert css. induction bs as [|b bs IH]; intros [|l css] Hlen; simplify_eq/=; [done|].
  constructor. rewrite (IH css) by done. rewrite fmap_app.
  rewrite !app_assoc. apply Permutation_app_tail, Permutation_app_comm.
Qed.

Lemma Inv_nodes s css :
  Inv s css → nodes s css ≡ₚ (m_end <$> m_buckets s) ++ (concat css).*1.
Proof.
  intros HI. apply nodes_split. pose proof (Inv_total _ _ HI) as [? _].
  pose proof (inv_count _ _ HI). lia.
Qed.

Lemma heap_size_nodes (h : gmap Z Node) (L : list ptr) :
  NoDup L → (∀ x, allocated h x ↔ x ∈ L) → size h = length L.
Proof.
  intros Hnd H.
  assert (E : dom h = (list_to_set L : gset Z)).
  { apply set_eq. intros x. rewrite elem_of_dom, elem_of_list_to_set. apply H. }
  by rewrite <- (size_dom (D := gset Z)), E, size_list_to_set.
Qed.

Lemma HashMap_ctor_tight sentinels s :
  HashMap_ctor sentinels = Some s →
  tight s (replicate (length sentinels) []) ∧ m_end <$> m_buckets s = sentinels ∧
  sentinels_default s.
Proof.
  unfold HashMap_ctor. case_decide as Hlen; [|done].
  destruct (new_Bucket_array sentinels _) as [[bs s1]|] eqn:H; [|done].
  intros [= <-].
  apply new_Bucket_array_inv in H as (-> & Hnd & Hvs & _ & Hss & Hfr & _ & Hoob).
  assert (Hcells : ∀ ps : list ptr,
             concat (all_cells (mkBucket 0 <$> ps) (replicate (length ps) [])) = ps).
  { induction ps as [|p ps IHp]; [done|]. simpl. f_equal. exact IHp. }
  split_and!.
  - intros x Hx. unfold nodes. st_simpl. rewrite Hcells. st_simpl in Hx.
    destruct (decide (x ∈ sentinels)) as [|Hn]; [done|].
    unfold allocated in Hx. rewrite (Hfr x Hn) in Hx. st_simpl in Hx.
    rewrite lookup_empty in Hx. by destruct Hx.
  - st_simpl. rewrite <- list_fmap_compose. apply list_fmap_id.
  - unfold sentinels_default. st_simpl. apply Forall_fmap.
    eapply Forall_impl; [exact Hss|]. simpl. intros p Hp. unfold value_of.
    by rewrite Hp.
Qed.

(** ** The value of a key after a change of one bucket *)

Lemma model_lookup_insert s css i b l l' key :
  bucket_view s css i b l →
  (bucket_index_of key = i → find_cell key l' = find_cell key l) →
  model_lookup (<[Z.to_nat i := l']> css) key = model_lookup css key.
Proof.
  intros [Hat _ Hl _ _ _ _ _ _] H. unfold model_lookup, bucket_of.
  apply bucket_at_lookup in Hat as [Hi _].
  destruct (decide (bucket_index_of key = i)) as [E|E].
  - rewrite E, list_lookup_insert_eq by (by eapply lookup_lt_Some).
    rewrite Hl. simpl. by rewrite H.
  - rewrite list_lookup_insert_ne; [done|]. intros E'. apply E.
    pose proof (bucket_index_range key). apply Z2Nat.inj in E'; lia.
Qed.

Lemma key_equal_other a k k' :
  m_key_equal a k = true → m_key_equal k k' = false → m_key_equal a k' = false.
Proof.
  intros Ha Hk. destruct (m_key_equal a k') eqn:E; [|done].
  rewrite <- Hk. symmetry. eapply key_equal_trans; [|exact E]. by apply key_equal_sym.
Qed.

Lemma model_lookup_push s css i b l p value key :
  bucket_view s css i b l → m_key_equal (first value) key = false →
  model_lookup (<[Z.to_nat i := l ++ [(p, value)]]> css) key = model_lookup css key.
Proof.
  intros Hview Hk. eapply model_lookup_insert; [done|]. intros _.
  rewrite find_cell_app. destruct (find_cell key l); [done|]. simpl. by rewrite Hk.
Qed.

Lemma model_lookup_assign s css i b l1 c l2 value key :
  bucket_view s css i b (l1 ++ c :: l2) →
  m_key_equal (first c.2) (first value) = true →
  m_key_equal (first value) key = false →
  model_lookup (<[Z.to_nat i := l1 ++ (c.1, value) :: l2]> css) key = model_lookup css key.
Proof.
  intros Hview Hc Hk. eapply model_lookup_insert; [done|]. intros _.
  rewrite !find_cell_app. destruct (find_cell key l1); [done|]. simpl.
  by rewrite Hk, (key_equal_other _ _ _ Hc Hk).
Qed.

Lemma model_lookup_unlink s css i b l1 c l2 key :
  bucket_view s css i b (l1 ++ c :: l2) → m_key_equal (first c.2) key = false →
  model_lookup (<[Z.to_nat i := l1 ++ l2]> css) key = model_lookup css key.
Proof.
  intros Hview Hk. eapply model_lookup_insert; [done|]. intros _.
  rewrite !find_cell_app. destruct (find_cell key l1); [done|]. simpl. by rewrite Hk.
Qed.

Lemma stored_value_eval s css key :
  Inv s css → eval (stored_value key) s = Some (model_lookup css key).
Proof. intros HI. unfold eval. by rewrite (stored_value_eq s css key HI). Qed.

(** ** [find] *)

(** X1.  [find(k)] leaves the map as it is.  Where a traversal meets a
    pair whose key equals [k], the cursor stands on the first such pair:
    it differs from [end()], [get_pair()] through it returns that pair,
    and it is a position of the traversal.  Where a traversal meets no
    such pair, the cursor compares equal to [end()]. *)
Theorem find_spec s css key :
  Inv s css →
  ∃ it e pairs,
    HashMap_find key s = Some (it, s) ∧ eval HashMap_end s = Some e ∧
    eval traverse s = Some pairs ∧
    match find_pair key pairs with
    | Some v =>
        IteratorHelper_eq it e = false ∧ m_key_equal (first v) key = true ∧
        Reference_get_pair (IteratorHelper_deref it) s = Some (v, s) ∧
        ∃ a rest, position css it ((a, v) :: rest)
    | None => IteratorHelper_eq it e = true
    end.
Proof.
  intros HI.
  destruct (Inv_view s css _ HI (bucket_index_range key)) as (b & l & Hview).
  destruct (traverse_eq s css HI) as (st & Htr & _).
  exists (find_cursor (bucket_index_of key) b l key), end_cursor, ((concat css).*2).
  split_and!.
  - by apply (HashMap_find_eq s css).
  - eapply eval_eq. apply HashMap_end_eq. by destruct HI.
  - by eapply eval_eq.
  - rewrite find_pair_cells, (find_cell_concat s css key HI),
      (bucket_of_view _ _ _ _ _ Hview).
    unfold find_cursor. destruct (find_cell key l) as [c|] eqn:Hfind; simpl.
    + destruct (find_cursor_position _ _ _ _ _ _ HI Hview Hfind) as (rest & Hpos).
      split_and!.
      * by rewrite (IteratorHelper_eq_end _ _ _ _ HI Hpos).
      * by destruct (find_cell_Some _ _ _ Hfind) as (? & ? & _ & ? & _).
      * apply Reference_get_pair_eq.
        exact (position_value _ _ _ _ _ HI Hpos).
      * exists c.1, rest. by destruct c.
    + unfold IteratorHelper_eq, end_cursor. simpl. by rewrite Z.eqb_refl.
Qed.

(** ** Other keys *)

(** X2.  [insert], [insert_or_assign], [erase] and [operator[]] for a
    key [k] complete and leave what [find] and [get()] show for every
    key that does not equal [k] as it was. *)
Theorem other_keys_untouched s css key key' value fresh :
  Inv s css → usable s fresh → m_key_equal key key' = false →
  ∃ o, eval (stored_value key') s = Some o ∧
    (∃ r s', HashMap_insert key value fresh s = Some (r, s') ∧
             eval (stored_value key') s' = Some o) ∧
    (∃ r s', HashMap_insert_or_assign key value fresh s = Some (r, s') ∧
             eval (stored_value key') s' = Some o) ∧
    (∃ s', HashMap_erase key s = Some (tt, s') ∧
           eval (stored_value key') s' = Some o) ∧
    (∃ r s', HashMap_subscript key fresh s = Some (r, s') ∧
             eval (stored_value key') s' = Some o).
Proof.
  intros HI [Hv Hf] Hk.
  destruct (Inv_view s css _ HI (bucket_index_range key)) as (b & l & Hview).
  exists (model_lookup css key'). split; [by apply stored_value_eval|].
  set (s1 := with_oob (BUCKET_COUNT :: oob_reads s) s).
  assert (HI1 : Inv s1 css) by (by apply Inv_with_oob).
  pose proof (view_with_oob _ _ _ _ _ (BUCKET_COUNT :: oob_reads s) Hview) as Hview1.
  fold s1 in Hview1.
  destruct (find_cell key l) as [c|] eqn:Hfind.
  - destruct (find_cell_Some _ _ _ Hfind) as (l1 & l2 & -> & Hkey & Hno).
    split_and!.
    + eexists _, _. split.
      * unfold HashMap_insert.
        exact (HashMap_insert_pair_old s css b _ fresh (make_pair key value) c Hview Hfind).
      * by apply stored_value_eval.
    + eexists _, _. split.
      * unfold HashMap_insert_or_assign.
        exact (HashMap_insert_or_assign_pair_old s css b _ fresh (make_pair key value) c
                 Hview Hfind).
      * rewrite (stored_value_eval _ _ key'
                   (assigned_Inv s css _ b l1 c l2 (make_pair key value) HI Hview Hkey
                      eq_refl)).
        f_equal. by eapply model_lookup_assign.
    + destruct (erase_old_facts s css b l1 c l2 key HI Hview Hfind) as (He & HI' & _).
      eexists. split; [exact He|].
      rewrite (stored_value_eval _ _ key' HI'). f_equal.
      eapply model_lookup_unlink; [done|]. by eapply key_equal_other.
    + eexists _, _. split.
      * by apply (HashMap_subscript_old s css key fresh b (l1 ++ c :: l2) c).
      * by apply stored_value_eval.
  - pose proof (pushed_back_Inv s css _ b l fresh (make_pair key value) HI Hview Hv Hf
                  eq_refl Hfind) as HI'.
    pose proof (pushed_back_Inv s1 css _ b l fresh (make_pair key default_mapped) HI1
                  Hview1 Hv Hf eq_refl Hfind) as HI1'.
    cbn [first second] in HI', HI1'.
    split_and!.
    + eexists _, _. split.
      * unfold HashMap_insert.
        exact (HashMap_insert_pair_new s css b l fresh (make_pair key value) Hview Hv Hf
                 Hfind).
      * cbn [first second]. rewrite (stored_value_eval _ _ key' HI'). f_equal.
        by eapply model_lookup_push.
    + eexists _, _. split.
      * unfold HashMap_insert_or_assign.
        exact (HashMap_insert_or_assign_pair_new s css b l fresh (make_pair key value)
                 Hview Hv Hf Hfind).
      * cbn [first second]. rewrite (stored_value_eval _ _ key' HI'). f_equal.
        by eapply model_lookup_push.
    + exists s. split.
      * unfold HashMap_erase. by apply (Bucket_erase_none s css _ b l).
      * by apply stored_value_eval.
    + eexists _, _. split.
      * rewrite (HashMap_subscript_new s css key fresh b l HI Hview Hfind). fold s1.
        unfold HashMap_insert.
        by rewrite (bind_eq _ _ _ _ _
                      (HashMap_insert_pair_new s1 css b l fresh
                         (make_pair key default_mapped) Hview1 Hv Hf Hfind)).
      * cbn [first second]. rewrite (stored_value_eval _ _ key' HI1'). f_equal.
        by eapply model_lookup_push.
Qed.

(** ** Round trips *)

Lemma heap_fields_eq (h h' : gmap Z Node) :
  (∀ x, next_of h' x = next_of h x ∧ prev_of h' x = prev_of h x ∧
        value_of h' x = value_of h x) →
  h' = h.
Proof.
  intros H. apply map_eq. intros x. destruct (H x) as (Hn & Hp & Hv).
  unfold next_of, prev_of, value_of in *.
  destruct (h' !! x) as [[]|], (h !! x) as [[]|]; simplify_eq/=; done.
Qed.

Lemma state_eq (s s' : State) :
  heap s' = heap s → m_buckets s' = m_buckets s → oob_reads s' = oob_reads s → s' = s.
Proof. destruct s, s'. simpl. by intros -> -> ->. Qed.

Lemma ring_last_next h e ks t :
  links h (e :: ks ++ [e]) → last (e :: ks) = Some t → next_of h t = Some e.
Proof.
  intros Hl Ht. change (links h ((e :: ks) ++ [e])) in Hl.
  by apply (links_join h _ [e] t e) in Hl as (_ & [? _] & _).
Qed.

(** The bucket and the cells a view shows after a change of its bucket. *)
Lemma view_after s css i b l s' b' l' b1 l1 :
  bucket_view s css i b l →
  m_buckets s' = <[Z.to_nat i := b']> (m_buckets s) →
  bucket_view s' (<[Z.to_nat i := l']> css) i b1 l1 → b1 = b' ∧ l1 = l'.
Proof.
  intros [_ Hb Hl _ _ _ _ _ _] Hbs [_ Hb1 Hl1 _ _ _ _ _ _].
  rewrite Hbs, list_lookup_insert_eq in Hb1 by (by eapply lookup_lt_Some).
  rewrite list_lookup_insert_eq in Hl1 by (by eapply lookup_lt_Some).
  by simplify_eq.
Qed.

(** X3.  On a map without the key [k], [insert(k, v)] followed by
    [erase(k)] gives back the state the map was in: the same nodes at
    the same addresses with the same links and pairs, the same bucket
    sizes. *)
Theorem insert_erase_round_trip s css key value fresh :
  Inv s css → usable s fresh → eval (stored_value key) s = Some None →
  ∃ it s1,
    HashMap_insert key value fresh s = Some ((it, true), s1) ∧
    HashMap_erase key s1 = Some (tt, s).
Proof.
  intros HI [Hv Hf] Hst.
  destruct (Inv_view s css _ HI (bucket_index_range key)) as (b & l & Hview).
  apply (stored_value_model _ _ _ _ HI) in Hst. apply model_lookup_None in Hst.
  rewrite (bucket_of_view _ _ _ _ _ Hview) in Hst.
  set (i := bucket_index_of key) in *.
  set (c := (fresh, make_pair key value)).
  pose proof (HashMap_insert_pair_new s css b l fresh (make_pair key value) Hview Hv Hf Hst)
    as Hins.
  pose proof (pushed_back_Inv s css i b l fresh (make_pair key value) HI Hview Hv Hf
                eq_refl Hst) as HI1.
  cbn [first second] in Hins, HI1. fold i in Hins.
  set (s1 := pushed_back i b l fresh (make_pair key value) s) in *.
  destruct (Inv_view s1 _ i HI1 (bucket_index_range key)) as (b1 & lx & Hview1).
  destruct (view_after s css i b l s1 _ _ b1 lx Hview eq_refl Hview1) as [-> ->].
  assert (Hfind1 : find_cell key (l ++ [c]) = Some c).
  { apply find_cell_snoc_new; [done|]. simpl. apply key_equal_refl. }
  destruct (erase_old_facts s1 _ _ l c [] key HI1 Hview1 Hfind1) as (Her & _).
  fold i in Her.
  eexists _, s1. split; [exact Hins|]. rewrite Her. do 2 f_equal.
  pose proof Hview as [Hat Hb Hl Hall Hr Hnd Hvd Hpl Hu].
  destruct Hr as (Hlk & Hvals & Hsz).
  destruct b as [n e]. unfold cells in Hlk, Hnd, Hvd. cbn [m_end m_size] in *.
  pose proof (last_cells e l) as Hlast.
  pose proof (ring_last _ _ _ _ Hlk Hlast) as Hpe.
  pose proof (ring_last_next _ _ _ _ Hlk Hlast) as Hnt.
  assert (Hea : allocated (heap s) e).
  { apply allocated_prev. by eexists. }
  assert (Hta : allocated (heap s) (last_of e l)).
  { apply allocated_next. by eexists. }
  assert (Hnp : ¬ allocated (heap s) fresh) by (unfold allocated; rewrite Hf; by intros []).
  assert (Hpe' : fresh ≠ e) by (by intros ->).
  assert (Hpt : fresh ≠ last_of e l) by (intros E; by rewrite E in Hnp).
  remember (last_of e l) as t eqn:Et.
  pose proof (cells_bound (mkBucket n e) l Hnd Hvd) as Hbd.
  apply state_eq; unfold s1, unlinked, pushed_back, linked_back, c; st_simpl;
    cbn [first_of]; rewrite <- ?Et; clear Et; [| |done].
  - apply heap_fields_eq. intros x.
    destruct (decide (x = fresh)) as [->|Hxp].
    { unfold next_of, prev_of, value_of. by rewrite lookup_delete_eq, Hf. }
    destruct (decide (x = t)) as [Ext|Hxt]; destruct (decide (x = e)) as [Exe|Hxe];
      subst; split_and!; heap_simpl; congruence.
  - rewrite list_insert_insert_eq. apply list_insert_id. rewrite Hb. do 2 f_equal.
    unfold size_sub, size_add. rewrite (Z.mod_small (n + 1)) by lia.
    rewrite Z.mod_small; lia.
Qed.

(** ** [operator[]] and [set] *)

Lemma Reference_set_eq s r k v1 v2 :
  value_of (heap s) (m_node r) = Some (make_pair k v1) →
  Reference_set r v2 s
  = Some (tt, with_heap (set_value (m_node r) (make_pair k v2) (heap s)) s).
Proof.
  intros Hval. unfold Reference_set.
  rewrite (bind_eq _ _ _ _ _ (load_value_eq _ _ _ Hval)). apply store_value_eq.
  apply allocated_value. by eexists.
Qed.

Lemma concat_insert_same_length {A} (ls : list (list A)) i a a' :
  ls !! i = Some a → length a' = length a →
  length (concat (<[i := a']> ls)) = length (concat ls).
Proof. intros Hi E. pose proof (concat_insert_length ls i a a' Hi). lia. Qed.

(** X4.  [map[k].set(v)], the assignment [map[k] = v]: afterwards
    [find(k)] shows [v]; [size()] has grown by one if [k] was missing
    and is unchanged otherwise; every key that does not equal [k] shows
    what it showed before. *)
Theorem subscript_set_spec s css key v fresh :
  Inv s css → usable s fresh →
  ∃ n o r s1 s2 css2,
    eval HashMap_size s = Some n ∧ eval (stored_value key) s = Some o ∧
    HashMap_subscript key fresh s = Some (r, s1) ∧
    Reference_set r v s1 = Some (tt, s2) ∧ Inv s2 css2 ∧
    eval (stored_value key) s2 = Some (Some v) ∧
    eval HashMap_size s2 = Some (match o with Some _ => n | None => n + 1 end) ∧
    (∀ key', m_key_equal key key' = false →
             eval (stored_value key') s2 = eval (stored_value key') s).
Proof.
  intros HI [Hv Hf].
  destruct (Inv_view s css _ HI (bucket_index_range key)) as (b & l & Hview).
  pose proof (bucket_index_lt s css key HI) as Hlt.
  set (s1 := with_oob (BUCKET_COUNT :: oob_reads s) s).
  assert (HI1 : Inv s1 css) by (by apply Inv_with_oob).
  pose proof (view_with_oob _ _ _ _ _ (BUCKET_COUNT :: oob_reads s) Hview) as Hview1.
  fold s1 in Hview1.
  pose proof Hview as [_ _ Hl _ _ _ _ Hpl _].
  exists (Z.of_nat (length (concat css))), (model_lookup css key).
  unfold model_lookup. rewrite (bucket_of_view _ _ _ _ _ Hview).
  destruct (find_cell key l) as [c|] eqn:Hfind.
  - destruct (find_cell_Some _ _ _ Hfind) as (l1 & l2 & -> & Hkey & Hno).
    assert (Hval : value_of (heap s1) c.1 = Some (make_pair (first c.2) (second c.2))).
    { rewrite (view_value _ _ _ _ _ _ Hview1 (find_cell_elem _ _ _ Hfind)).
      by destruct c as [a [k w]]. }
    assert (Hidx : bucket_index_of (first (make_pair (first c.2) v)) = (bucket_index_of key)).
    { rewrite Forall_app, Forall_cons in Hpl. by destruct Hpl as (_ & ? & _). }
    pose proof (assigned_Inv s1 css (bucket_index_of key) b l1 c l2 (make_pair (first c.2) v) HI1 Hview1
                  (key_equal_refl _) Hidx) as HI2.
    exists (mkReference c.1), s1,
      (with_heap (set_value c.1 (make_pair (first c.2) v) (heap s1)) s1),
      (<[Z.to_nat (bucket_index_of key) := l1 ++ (c.1, make_pair (first c.2) v) :: l2]> css).
    split_and!.
    + by eapply eval_eq, HashMap_size_eq.
    + rewrite (stored_value_eval _ _ key HI). unfold model_lookup.
      by rewrite (bucket_of_view _ _ _ _ _ Hview), Hfind.
    + by apply (HashMap_subscript_old s css key fresh b (l1 ++ c :: l2) c).
    + exact (Reference_set_eq s1 (mkReference c.1) _ _ v Hval).
    + exact HI2.
    + rewrite (stored_value_eval _ _ key HI2). unfold model_lookup.
      rewrite bucket_of_insert by done.
      by rewrite (find_cell_middle key l1 (c.1, make_pair (first c.2) v) l2 Hno Hkey).
    + rewrite (eval_eq _ _ _ _ (HashMap_size_eq _ _ HI2)). do 2 f_equal.
      apply (concat_insert_same_length css _ (l1 ++ c :: l2)); [done|].
      by rewrite !length_app.
    + intros key' Hk'.
      rewrite (stored_value_eval _ _ key' HI2), (stored_value_eval _ _ key' HI).
      f_equal. eapply model_lookup_assign; [exact Hview1|apply key_equal_refl|].
      simpl. by eapply key_equal_other.
  - set (c := (fresh, make_pair key default_mapped)).
    pose proof (pushed_back_Inv s1 css (bucket_index_of key) b l fresh (make_pair key default_mapped) HI1
                  Hview1 Hv Hf eq_refl Hfind) as HI1'.
    set (s2 := pushed_back (bucket_index_of key) b l fresh (make_pair key default_mapped) s1) in *.
    destruct (Inv_view s2 _ (bucket_index_of key) HI1' (bucket_index_range key)) as (b2 & lx & Hview2).
    destruct (view_after s1 css (bucket_index_of key) b l s2 _ _ b2 lx Hview1 eq_refl Hview2) as [-> ->].
    assert (Hval : value_of (heap s2) fresh = Some (make_pair key default_mapped)).
    { exact (view_value _ _ _ _ _ c Hview2 ltac:(apply elem_of_app; right; by left)). }
    pose proof (assigned_Inv s2 _ (bucket_index_of key) _ l c [] (make_pair key v) HI1' Hview2
                  (key_equal_refl _) eq_refl) as HI2.
    rewrite list_insert_insert_eq in HI2. cbn [fst c] in HI2.
    exists (mkReference fresh), s2,
      (with_heap (set_value fresh (make_pair key v) (heap s2)) s2),
      (<[Z.to_nat (bucket_index_of key) := l ++ [(fresh, make_pair key v)]]> css).
    split_and!.
    + by eapply eval_eq, HashMap_size_eq.
    + rewrite (stored_value_eval _ _ key HI). unfold model_lookup.
      by rewrite (bucket_of_view _ _ _ _ _ Hview), Hfind.
    + rewrite (HashMap_subscript_new s css key fresh b l HI Hview Hfind). fold s1.
      unfold HashMap_insert.
      by rewrite (bind_eq _ _ _ _ _
                    (HashMap_insert_pair_new s1 css b l fresh
                       (make_pair key default_mapped) Hview1 Hv Hf Hfind)).
    + exact (Reference_set_eq s2 (mkReference fresh) _ _ v Hval).
    + exact HI2.
    + rewrite (stored_value_eval _ _ key HI2). unfold model_lookup.
      rewrite bucket_of_insert by done.
      rewrite (find_cell_snoc_new key l (fresh, make_pair key v) Hfind (key_equal_refl _)).
      done.
    + rewrite (eval_eq _ _ _ _ (HashMap_size_eq _ _ HI2)). f_equal.
      pose proof (concat_insert_length css _ l (l ++ [(fresh, make_pair key v)]) Hl) as E.
      rewrite length_app in E. simpl in E |- *. lia.
    + intros key' Hk'.
      rewrite (stored_value_eval _ _ key' HI2), (stored_value_eval _ _ key' HI).
      f_equal. by eapply model_lookup_push.
Qed.

(** ** [clear], the destructor and the heap *)

Lemma nodes_empty (bs : list Bucket) n :
  concat (all_cells bs (replicate n [])) = m_end <$> take n bs.
Proof.
  revert n. induction bs as [|b bs IH]; intros [|n]; simpl; try done.
  f_equal. apply IH.
Qed.

Lemma data_node s css c : Inv s css → c ∈ concat css → c.1 ∈ nodes s css.
Proof.
  intros HI Hc. rewrite (Inv_nodes _ _ HI). apply elem_of_app. right.
  apply list_elem_of_fmap. by exists c.
Qed.

Lemma data_node_not_sentinel s css c :
  Inv s css → c ∈ concat css → c.1 ∉ m_end <$> m_buckets s.
Proof.
  intros HI Hc Hs. pose proof (inv_nodup _ _ HI) as Hnd.
  fold (nodes s css) in Hnd. rewrite (Inv_nodes _ _ HI) in Hnd.
  apply NoDup_app in Hnd as (_ & Hd & _). apply (Hd _ Hs).
  apply list_elem_of_fmap. by exists c.
Qed.

Lemma sentinel_node_of s css b : Inv s css → b ∈ m_buckets s → m_end b ∈ nodes s css.
Proof.
  intros HI Hb. rewrite (Inv_nodes _ _ HI). apply elem_of_app. left.
  apply list_elem_of_fmap. by exists b.
Qed.

Lemma traverse_eval s css : Inv s css → eval traverse s = Some (concat css).*2.
Proof. intros HI. destruct (traverse_eq s css HI) as (s' & H & _). by eapply eval_eq. Qed.

Lemma concat_replicate_nil {A} n : concat (replicate n ([] : list A)) = [].
Proof. induction n; [done|]. done. Qed.

Lemma model_lookup_empty n key : model_lookup (replicate n []) key = None.
Proof.
  unfold model_lookup, bucket_of.
  destruct (replicate n [] !! _) as [l|] eqn:E; [|done].
  by apply lookup_replicate in E as [-> _].
Qed.

(** What [clear] leaves in the heap. *)
Lemma HashMap_clear_heap s css :
  Inv s css →
  ∃ s', HashMap_clear s = Some (tt, s') ∧ Inv s' (replicate (length css) []) ∧
    m_end <$> m_buckets s' = m_end <$> m_buckets s ∧
    (∀ c, c ∈ concat css → heap s' !! c.1 = None) ∧
    (∀ b, b ∈ m_buckets s → allocated (heap s') (m_end b)) ∧
    (∀ x, x ∉ nodes s css → heap s' !! x = heap s !! x) ∧
    (tight s css → tight s' (replicate (length css) [])).
Proof.
  intros HI. destruct (HashMap_clear_changes s css HI) as (s' & Hs' & Hch).
  pose proof (changes_Inv _ _ _ _ HI Hch) as HI'.
  pose proof (changes_sentinels _ _ _ _ Hch) as Hse.
  assert (Hnodes : nodes s' (replicate (length css) []) = m_end <$> m_buckets s).
  { unfold nodes. rewrite nodes_empty, take_ge, Hse; [done|].
    pose proof (inv_count _ _ HI'). pose proof (Inv_total _ _ HI) as [? _]. lia. }
  exists s'. split_and!; [done..| | | |].
  - intros c Hc. destruct (heap s' !! c.1) as [nd|] eqn:E; [|done]. exfalso.
    destruct (changes_alloc _ _ _ _ c.1 Hch) as [Hn|[_ Hn]]; [by eexists| |].
    + rewrite Hnodes in Hn. exact (data_node_not_sentinel s css c HI Hc Hn).
    + by apply Hn, data_node.
  - intros b Hb. eapply Inv_allocated; [exact HI'|]. fold (nodes s' (replicate (length css) [])).
    rewrite Hnodes. apply list_elem_of_fmap. by exists b.
  - intros x Hx. destruct (heap s !! x) as [nd|] eqn:E.
    + rewrite <- E. eapply changes_frame; [done..|]. by eexists.
    + destruct (heap s' !! x) as [nd|] eqn:E'; [|done]. exfalso.
      destruct (changes_alloc _ _ _ _ x Hch) as [Hn|[[? Hx'] _]]; [by eexists| |congruence].
      apply Hx. rewrite Hnodes in Hn. apply list_elem_of_fmap in Hn as (b & -> & Hb).
      by eapply sentinel_node_of.
  - intros Ht. by eapply changes_tight.
Qed.

(** X5.  [clear()] completes and leaves a map that works: [size()] is
    0, [empty()] holds, a traversal and every [find] see nothing.  Every
    data node is freed; every sentinel stays where it was; nothing
    outside the map is touched. *)
Theorem clear_spec s css :
  Inv s css →
  ∃ s' css',
    HashMap_clear s = Some (tt, s') ∧ Inv s' css' ∧
    eval HashMap_size s' = Some 0 ∧ eval HashMap_empty s' = Some true ∧
    eval traverse s' = Some [] ∧
    (∀ key, eval (stored_value key) s' = Some None) ∧
    (∀ c, c ∈ concat css → heap s' !! c.1 = None) ∧
    m_end <$> m_buckets s' = m_end <$> m_buckets s ∧
    (∀ b, b ∈ m_buckets s → allocated (heap s') (m_end b)) ∧
    (∀ x, x ∉ nodes s css → heap s' !! x = heap s !! x).
Proof.
  intros HI.
  destruct (HashMap_clear_heap s css HI) as (s' & Hs' & HI' & Hse & Hfree & Hsen & Hfr & _).
  exists s', (replicate (length css) []). split_and!; try done.
  - rewrite (eval_eq _ _ _ _ (HashMap_size_eq _ _ HI')). by rewrite concat_replicate_nil.
  - rewrite (eval_eq _ _ _ _ (HashMap_empty_eq _ _ HI')). by rewrite concat_replicate_nil.
  - rewrite (traverse_eval _ _ HI'). by rewrite concat_replicate_nil.
  - intros key. rewrite (stored_value_eval _ _ key HI'). by rewrite model_lookup_empty.
Qed.

(** ** No node is lost while the map lives *)

Lemma reachable_state sentinels ops s0 s :
  HashMap_ctor sentinels = Some s0 → run_ops ops s0 = Some (tt, s) →
  ∃ css, Inv s css ∧ tight s css ∧ m_end <$> m_buckets s = sentinels ∧
         sentinels_default s.
Proof.
  intros Hctor Hrun.
  destruct (HashMap_ctor_Inv _ _ Hctor) as [HI0 _].
  destruct (HashMap_ctor_tight _ _ Hctor) as (Ht0 & Hs0 & Hd0).
  destruct (run_ops_changes ops s0 _ s HI0 Hrun) as (css & Hch).
  exists css. split_and!.
  - by eapply changes_Inv.
  - by eapply changes_tight.
  - by rewrite (changes_sentinels _ _ _ _ Hch).
  - by eapply changes_sentinels_default.
Qed.

Lemma tight_heap s css :
  Inv s css → tight s css →
  (∀ x, allocated (heap s) x ↔ x ∈ (m_end <$> m_buckets s) ∨ x ∈ (concat css).*1) ∧
  NoDup ((m_end <$> m_buckets s) ++ (concat css).*1) ∧
  Z.of_nat (size (heap s)) = BUCKET_COUNT + Z.of_nat (length (concat css)) ∧
  heap s !! nullptr = None.
Proof.
  intros HI Ht. pose proof (Inv_nodes _ _ HI) as Hperm.
  pose proof (inv_nodup _ _ HI) as Hnd. fold (nodes s css) in Hnd.
  assert (Hal : ∀ x, allocated (heap s) x ↔ x ∈ nodes s css).
  { intros x. split; [apply Ht|]. by apply Inv_allocated. }
  split_and!.
  - intros x. by rewrite Hal, Hperm, elem_of_app.
  - by rewrite <- Hperm.
  - rewrite (heap_size_nodes _ _ Hnd Hal), Hperm, length_app, !length_fmap.
    pose proof (inv_count _ _ HI). lia.
  - destruct (heap s !! nullptr) as [nd|] eqn:E; [|done]. exfalso.
    assert (Hn : nullptr ∈ nodes s css) by (apply Ht; by eexists).
    pose proof (inv_valid _ _ HI) as Hv. rewrite Forall_forall in Hv.
    specialize (Hv _ Hn). unfold valid_address, nullptr in Hv. lia.
Qed.

(** X8.  In a state reached from the constructor by [insert],
    [insert_or_assign], [erase], [operator[]] and [clear], the heap
    holds the sentinels the constructor made, one node for each element,
    and nothing else: [BUCKET_COUNT + size()] nodes. *)
Theorem reachable_no_leak sentinels ops s0 s :
  HashMap_ctor sentinels = Some s0 → run_ops ops s0 = Some (tt, s) →
  ∃ css n,
    Inv s css ∧ eval HashMap_size s = Some n ∧
    m_end <$> m_buckets s = sentinels ∧
    (∀ x, allocated (heap s) x ↔ x ∈ sentinels ∨ x ∈ (concat css).*1) ∧
    NoDup (sentinels ++ (concat css).*1) ∧
    Z.of_nat (size (heap s)) = BUCKET_COUNT + n.
Proof.
  intros Hctor Hrun.
  destruct (reachable_state _ _ _ _ Hctor Hrun) as (css & HI & Ht & Hs & _).
  destruct (tight_heap s css HI Ht) as (Hal & Hnd & Hsz & _). rewrite Hs in Hal, Hnd.
  exists css, (Z.of_nat (length (concat css))). split_and!; try done.
  by eapply eval_eq, HashMap_size_eq.
Qed.

(** ** The destructor *)

Lemma Bucket_clear_empty s css i b :
  bucket_view s css i b [] → Bucket_clear i s = Some (tt, s).
Proof.
  intros [Hat Hb Hl Hall Hr Hnd Hv Hpl Hu]. unfold Bucket_clear. simpl.
  rewrite (bind_eq _ _ _ _ _ (Bucket_begin_eq _ _ _ _ Hat Hr)).
  rewrite (bind_eq _ _ _ _ _ (Bucket_end_eq _ _ _ Hat)). cbn [first_of].
  by rewrite Z.eqb_refl.
Qed.

Lemma delete_Bucket_array_empty s m :
  Inv s (replicate m []) →
  ∀ n, (n ≤ m)%nat → delete_Bucket_array n s = Some (tt, with_buckets [] s).
Proof.
  intros HI. induction n as [|n IH]; intros Hn; simpl; [done|].
  pose proof (Inv_total _ _ HI) as [Hlen _]. rewrite length_replicate in Hlen.
  destruct (Inv_view s _ (Z.of_nat n) HI) as (b & l & Hview); [lia|].
  assert (l = []) as ->.
  { pose proof Hview as [_ _ Hl _ _ _ _ _ _]. by apply lookup_replicate in Hl as [-> _]. }
  unfold Bucket_dtor. rewrite (bind_eq _ _ _ _ _ (Bucket_clear_empty _ _ _ _ Hview)).
  apply IH. lia.
Qed.

(** X9.  The destructor of a map that the constructor made and that was
    then used frees every data node and no sentinel: when it is done
    the [BUCKET_COUNT] sentinel nodes, and only they, are still
    allocated.  [~Bucket()] calls [clear()] and never deletes [m_end]. *)
Theorem destructor_leaves_sentinels sentinels ops s0 s :
  HashMap_ctor sentinels = Some s0 → run_ops ops s0 = Some (tt, s) →
  ∃ s', HashMap_dtor s = Some (tt, s') ∧ m_buckets s' = [] ∧
    (∀ x, allocated (heap s') x ↔ x ∈ sentinels) ∧
    Z.of_nat (size (heap s')) = BUCKET_COUNT.
Proof.
  intros Hctor Hrun.
  destruct (reachable_state _ _ _ _ Hctor Hrun) as (css & HI & Ht & Hs & _).
  destruct (HashMap_clear_heap s css HI) as (s1 & Hs1 & HI1 & Hse & _ & _ & _ & Ht1).
  specialize (Ht1 Ht).
  destruct (tight_heap s1 _ HI1 Ht1) as (Hal & _ & Hsz & _).
  rewrite concat_replicate_nil in Hal, Hsz. rewrite Hse, Hs in Hal.
  exists (with_buckets [] s1). split_and!.
  - unfold HashMap_dtor. rewrite (bind_eq _ _ _ _ _ Hs1).
    apply (delete_Bucket_array_empty s1 (length css) HI1).
    pose proof (Inv_total _ _ HI) as [? _]. lia.
  - done.
  - intros x. st_simpl. rewrite Hal. simpl. rewrite elem_of_nil. tauto.
  - st_simpl. simpl in Hsz. lia.
Qed.

(** ** Cursors past the end *)



(** ** The contents are determined by the state *)

Lemma links_unique h e :
  ∀ k1 k2 a, links h (a :: k1 ++ [e]) → links h (a :: k2 ++ [e]) →
             e ∉ k1 → e ∉ k2 → k1 = k2.
Proof.
  induction k1 as [|b k1 IH]; intros [|b' k2] a H1 H2 N1 N2; simpl in H1, H2.
  - done.
  - destruct H1 as (Hn1 & _), H2 as (Hn2 & _). exfalso. apply N2.
    assert (b' = e) as -> by congruence. by left.
  - destruct H1 as (Hn1 & _), H2 as (Hn2 & _). exfalso. apply N1.
    assert (b = e) as -> by congruence. by left.
  - destruct H1 as (Hn1 & _ & H1), H2 as (Hn2 & _ & H2).
    assert (b = b') as -> by congruence. f_equal.
    apply not_elem_of_cons in N1 as [_ N1]. apply not_elem_of_cons in N2 as [_ N2].
    by apply (IH k2 b').
Qed.

Lemma cells_unique h (l l' : list (ptr * Pair)) :
  l.*1 = l'.*1 →
  Forall (λ c, value_of h c.1 = Some c.2) l →
  Forall (λ c, value_of h c.1 = Some c.2) l' → l = l'.
Proof.
  revert l'. induction l as [|[a v] l IH]; intros [|[a' v'] l'] E H H'; simplify_eq/=;
    [done|].
  apply Forall_cons in H as [Hv H]. apply Forall_cons in H' as [Hv' H'].
  simpl in Hv, Hv'. f_equal; [|by apply IH]. congruence.
Qed.

Lemma bucket_repr_unique h b l l' :
  bucket_repr h b l → bucket_repr h b l' →
  NoDup (cells b l) → NoDup (cells b l') → l = l'.
Proof.
  intros (Hl & Hv & _) (Hl' & Hv' & _) [N _]%NoDup_cons [N' _]%NoDup_cons.
  eapply cells_unique; [|done..].
  exact (links_unique h (m_end b) l.*1 l'.*1 (m_end b) Hl Hl' N N').
Qed.

Lemma Inv_unique s css css' : Inv s css → Inv s css' → css = css'.
Proof.
  intros HI HI'. apply list_eq. intros i.
  pose proof (Inv_total _ _ HI) as [Hlen _]. pose proof (Inv_total _ _ HI') as [Hlen' _].
  destruct (decide (i < length css)%nat) as [Hi|Hi].
  - destruct (Inv_view_nat s css i HI Hi) as (b & l & [_ Hb Hl _ Hr Hnd _ _ _]).
    destruct (Inv_view_nat s css' i HI') as (b' & l' & [_ Hb' Hl' _ Hr' Hnd' _ _ _]); [lia|].
    rewrite Nat2Z.id in Hb, Hl, Hb', Hl'. rewrite Hl, Hl'. f_equal.
    assert (b' = b) as -> by congruence. by eapply bucket_repr_unique.
  - rewrite !lookup_ge_None_2; [done|lia..].
Qed.

(** ** Erasing while walking *)

Lemma erase_all_loop_eq :
  ∀ n s css it fuel,
    Inv s css → length (concat css) = n → position css it (concat css) →
    (n < fuel)%nat →
    ∃ s' css', erase_all_loop fuel it s = Some (tt, s') ∧
               changes s css s' css' ∧ concat css' = [].
Proof.
  induction n as [|n IH]; intros s css it fuel HI Hn Hpos Hf;
    (destruct fuel as [|fuel]; [lia|]); simpl;
    rewrite (bind_eq _ _ _ _ _ (HashMap_end_eq s (inv_count _ _ HI)));
    fold end_cursor; unfold IteratorHelper_ne;
    rewrite (IteratorHelper_eq_end _ _ _ _ HI Hpos);
    set (s1 := with_oob (BUCKET_COUNT :: oob_reads s) s);
    assert (HI1 : Inv s1 css) by (by apply Inv_with_oob);
    assert (H1 : change s css s1 css) by apply change_none, same_memory_oob.
  - apply length_zero_iff_nil in Hn. rewrite bool_decide_eq_true_2 by done. simpl.
    exists s1, css. split_and!; [done|by apply changes_one|done].
  - destruct (concat css) as [|cell rest] eqn:Ec; [done|].
    rewrite bool_decide_eq_false_2 by done. simpl.
    destruct (HashMap_erase_at_eq s1 css it cell rest HI1 Hpos)
      as (next & s2 & css2 & front & _ & _ & Her & He & HI2 & E1 & E2 & _ & Hpos2 & _).
    rewrite (bind_eq _ _ _ _ _ He).
    assert (front = []) as ->.
    { rewrite Ec in E1. apply (f_equal length) in E1. rewrite length_app in E1.
      simpl in E1. destruct front; [done|simpl in E1; lia]. }
    simpl in E2.
    destruct (HashMap_erase_change s1 css (first cell.2) HI1) as (s3 & css3 & Her3 & H2).
    assert (s3 = s2) as -> by congruence.
    assert (css3 = css2) as ->.
    { apply (Inv_unique s2); [|exact HI2]. exact (change_Inv _ _ _ _ HI1 H2). }
    destruct (IH s2 css2 next fuel HI2) as (s' & css' & Hs' & Hch & Hemp).
    + rewrite E2. simpl in Hn. lia.
    + by rewrite E2.
    + lia.
    + exists s', css'. split_and!; [done| |done].
      eapply changes_cons; [exact H1|]. by eapply changes_cons.
Qed.

(** A sequence of steps that ends with no element has freed every data
    node and kept every sentinel. *)
Lemma changes_to_empty s css s' css' :
  Inv s css → changes s css s' css' → concat css' = [] →
  (∀ c, c ∈ concat css → heap s' !! c.1 = None) ∧
  (∀ b, b ∈ m_buckets s → allocated (heap s') (m_end b)).
Proof.
  intros HI Hch Hemp.
  pose proof (changes_Inv _ _ _ _ HI Hch) as HI'.
  pose proof (changes_sentinels _ _ _ _ Hch) as Hse.
  assert (Hnodes : ∀ x, x ∈ nodes s' css' ↔ x ∈ m_end <$> m_buckets s).
  { intros x. rewrite (Inv_nodes _ _ HI'), Hemp, Hse. simpl. by rewrite app_nil_r. }
  split.
  - intros c Hc. destruct (heap s' !! c.1) as [nd|] eqn:E; [|done]. exfalso.
    destruct (changes_alloc _ _ _ _ c.1 Hch) as [Hn|[_ Hn]]; [by eexists| |].
    + apply Hnodes in Hn. exact (data_node_not_sentinel s css c HI Hc Hn).
    + by apply Hn, data_node.
  - intros b Hb. eapply Inv_allocated; [exact HI'|]. apply Hnodes.
    apply list_elem_of_fmap. by exists b.
Qed.

(** X7.  The loop [for (it = begin(); it != end(); ) it = erase(it);]
    ends, after as many erasures as the map has elements, with an empty
    map: every data node is freed, every sentinel is kept, [size()] is
    0 and [empty()] holds. *)
Theorem erase_all_spec s css :
  Inv s css →
  ∃ s' css',
    erase_all s = Some (tt, s') ∧ Inv s' css' ∧
    eval HashMap_size s' = Some 0 ∧ eval HashMap_empty s' = Some true ∧
    eval traverse s' = Some [] ∧
    (∀ c, c ∈ concat css → heap s' !! c.1 = None) ∧
    (∀ b, b ∈ m_buckets s → allocated (heap s') (m_end b)).
Proof.
  intros HI.
  destruct (HashMap_begin_eq s css HI) as (b & s1 & Hb & Hm & Hpos).
  pose proof (Inv_same_memory _ _ _ Hm HI) as HI1.
  destruct (erase_all_loop_eq (length (concat css)) s1 css b (S (size (heap s1))) HI1
              eq_refl Hpos) as (s' & css' & Hs' & Hch & Hemp).
  { pose proof (Inv_heap_size _ _ HI1). lia. }
  pose proof (changes_Inv _ _ _ _ HI1 Hch) as HI'.
  destruct (changes_to_empty s1 css s' css' HI1 Hch Hemp) as (Hfree & Hsen).
  destruct Hm as [Hh Hbs].
  exists s', css'. split_and!.
  - unfold erase_all. by rewrite (bind_eq _ _ _ _ _ Hb).
  - done.
  - rewrite (eval_eq _ _ _ _ (HashMap_size_eq _ _ HI')). by rewrite Hemp.
  - rewrite (eval_eq _ _ _ _ (HashMap_empty_eq _ _ HI')). by rewrite Hemp.
  - rewrite (traverse_eval _ _ HI'). by rewrite Hemp.
  - done.
  - intros b' Hb'. apply Hsen. by rewrite Hbs.
Qed.

(** ** The constructors from a range and from a list *)

Lemma Bucket_ctor_eq p s :
  valid_address p → heap s !! p = None →
  Bucket_ctor p s
  = Some (mkBucket 0 p, with_heap (<[p := sentinel_node p]> (heap s)) s).
Proof.
  intros Hv Hf.
  assert (∃ r, Bucket_ctor p s = Some r) as [[b s'] H].
  { unfold Bucket_ctor, bind at 1, new_Node. rewrite decide_True by done.
    erewrite bind_eq by (apply store_next_eq; st_simpl; apply allocated_insert; by left).
    erewrite bind_eq
      by (apply store_prev_eq; st_simpl; apply allocated_set_next, allocated_insert;
          by left).
    by eexists. }
  rewrite H. by apply Bucket_ctor_inv in H as (_ & _ & -> & ->).
Qed.

Lemma new_Bucket_array_total ps :
  ∀ s, NoDup ps → Forall valid_address ps → Forall (λ p, heap s !! p = None) ps →
       ∃ r, new_Bucket_array ps s = Some r.
Proof.
  induction ps as [|p ps IH]; intros s Hnd Hv Hf; simpl; [by eexists|].
  apply NoDup_cons in Hnd as [Hp Hnd]. apply Forall_cons in Hv as [Hvp Hv].
  apply Forall_cons in Hf as [Hfp Hf].
  rewrite (bind_eq _ _ _ _ _ (Bucket_ctor_eq p s Hvp Hfp)).
  destruct (IH (with_heap (<[p := sentinel_node p]> (heap s)) s) Hnd Hv) as [[bs s'] H].
  { rewrite Forall_forall in Hf |- *. intros x Hx. st_simpl.
    rewrite lookup_insert_ne; [by apply Hf|]. by intros ->. }
  rewrite (bind_eq _ _ _ _ _ H). by eexists.
Qed.

Lemma HashMap_ctor_total sentinels :
  Z.of_nat (length sentinels) = BUCKET_COUNT → NoDup sentinels →
  Forall valid_address sentinels → ∃ s, HashMap_ctor sentinels = Some s.
Proof.
  intros Hlen Hnd Hv. unfold HashMap_ctor. rewrite decide_True by done.
  destruct (new_Bucket_array_total sentinels (mkState ∅ [] []) Hnd Hv) as [[bs s] H].
  { apply Forall_forall. intros x _. apply lookup_empty. }
  rewrite H. by eexists.
Qed.

Lemma pushed_back_alloc i b l p value s x :
  allocated (heap (pushed_back i b l p value s)) x ↔ x = p ∨ allocated (heap s) x.
Proof.
  unfold pushed_back, linked_back. st_simpl.
  by rewrite allocated_set_value, allocated_set_next, allocated_set_prev,
    allocated_set_prev, allocated_set_next, allocated_insert.
Qed.

Lemma find_pair_None key (l : list Pair) :
  find_pair key l = None ↔ Forall (λ v, m_key_equal (first v) key = false) l.
Proof.
  induction l as [|v l IH]; simpl; [by split; [constructor|]|].
  rewrite Forall_cons, <- IH. destruct (m_key_equal (first v) key); naive_solver.
Qed.

Lemma key_equal_same a k k' :
  m_key_equal k k' = true → m_key_equal a k = m_key_equal a k'.
Proof.
  intros Hk. destruct (m_key_equal a k) eqn:E1, (m_key_equal a k') eqn:E2; try done.
  - rewrite <- E2. symmetry. by eapply key_equal_trans.
  - rewrite <- E1. eapply key_equal_trans; [exact E2|]. by apply key_equal_sym.
Qed.

Lemma find_cell_same_key k k' (l : list (ptr * Pair)) :
  m_key_equal k k' = true → find_cell k l = find_cell k' l.
Proof.
  intros Hk. induction l as [|c l IH]; simpl; [done|].
  by rewrite (key_equal_same _ _ _ Hk), IH.
Qed.

Lemma model_lookup_same_key css k k' :
  m_key_equal k k' = true → model_lookup css k = model_lookup css k'.
Proof.
  intros Hk. unfold model_lookup, bucket_of.
  by rewrite (key_equal_bucket _ _ Hk), (find_cell_same_key _ _ _ Hk).
Qed.

Lemma model_lookup_pairs s css key :
  Inv s css → model_lookup css key = second <$> find_pair key (concat css).*2.
Proof.
  intros HI. unfold model_lookup.
  rewrite find_pair_cells, (find_cell_concat s css key HI).
  by destruct (find_cell key (bucket_of css key)).
Qed.

Lemma pairs_after_push (css : list (list (ptr * Pair))) i l c :
  css !! i = Some l →
  (concat (<[i := l ++ [c]]> css)).*2 ≡ₚ (concat css).*2 ++ [c.2].
Proof.
  intros Hl. rewrite concat_insert_explicit by (by eapply lookup_lt_Some).
  rewrite (concat_lookup_middle css i l Hl), !fmap_app. simpl.
  rewrite <- !app_assoc. do 2 f_equiv. apply Permutation_app_comm.
Qed.

(** The loop of insertions, on the contents. *)
Lemma HashMap_insert_range_spec items :
  ∀ s css,
    Inv s css → NoDup items.*2 → Forall (usable s) items.*2 →
    ∃ s' css',
      HashMap_insert_range items s = Some (tt, s') ∧ changes s css s' css' ∧
      (∀ key, model_lookup css' key
              = match model_lookup css key with
                | Some v => Some v
                | None => second <$> find_pair key items.*1
                end) ∧
      (concat css').*2
      ≡ₚ (concat css).*2
         ++ filter (λ w, find_pair (first w) (concat css).*2 = None)
                   (first_of_each_key items.*1).
Proof.
  induction items as [|[v p] items IH]; intros s css HI Hnd Hus.
  - exists s, css. split_and!; [done|constructor| |].
    + intros key. by destruct (model_lookup css key).
    + simpl. by rewrite app_nil_r.
  - cbn [fmap list_fmap fst snd] in Hnd, Hus.
    apply NoDup_cons in Hnd as [Hp Hnd]. apply Forall_cons in Hus as [[Hv Hf] Hus].
    destruct v as [k m]. cbn [HashMap_insert_range first second].
    destruct (Inv_view s css _ HI (bucket_index_range k)) as (b & l & Hview).
    pose proof Hview as [_ _ Hl _ _ _ _ _ _].
    pose proof (model_lookup_pairs s css k HI) as Hmk.
    unfold model_lookup in Hmk. rewrite (bucket_of_view _ _ _ _ _ Hview) in Hmk.
    destruct (find_cell k l) as [c|] eqn:Hfind.
    + rewrite (bind_eq _ _ _ _ _
                 (HashMap_insert_pair_old s css b l p (make_pair k m) c Hview Hfind)).
      destruct (IH s css HI Hnd Hus) as (s' & css' & Hs' & Hch & Hlk & Hperm).
      exists s', css'. split_and!; [done|done| |].
      * intros key. rewrite Hlk.
        destruct (model_lookup css key) as [w|] eqn:Ew; [done|].
        cbn [fmap list_fmap fst find_pair first].
        destruct (m_key_equal k key) eqn:Ek; [|done].
        rewrite <- (model_lookup_same_key css k key Ek) in Ew.
        unfold model_lookup in Ew.
        by rewrite (bucket_of_view _ _ _ _ _ Hview), Hfind in Ew.
      * rewrite Hperm. f_equiv. cbn [fmap list_fmap fst first_of_each_key].
        assert (Hin : find_pair k (concat css).*2 ≠ None).
        { intros E. by rewrite E in Hmk. }
        rewrite filter_cons_False by done.
        symmetry. apply reflexive_eq, list_filter_filter_l.
        intros w Hw. cbn [first].
        destruct (m_key_equal k (first w)) eqn:Ek; [|done]. exfalso. apply Hin.
        apply find_pair_None. apply find_pair_None in Hw.
        eapply Forall_impl; [exact Hw|]. simpl. intros u Hu.
        by rewrite (key_equal_same _ _ _ Ek).
    + rewrite (bind_eq _ _ _ _ _
                 (HashMap_insert_pair_new s css b l p (make_pair k m) Hview Hv Hf Hfind)).
      pose proof (change_push s css _ b l p (make_pair k m) Hview Hv Hf eq_refl Hfind)
        as H1.
      cbn [first second] in H1 |- *.
      set (s1 := pushed_back (bucket_index_of k) b l p (make_pair k m) s) in *.
      set (css1 := <[Z.to_nat (bucket_index_of k) := l ++ [(p, make_pair k m)]]> css) in *.
      pose proof (change_Inv _ _ _ _ HI H1) as HI1.
      destruct (IH s1 css1 HI1 Hnd) as (s' & css' & Hs' & Hch & Hlk & Hperm).
      { rewrite Forall_forall in Hus |- *. intros q Hq. destruct (Hus q Hq) as [Hqv Hqf].
        split; [done|]. destruct (heap s1 !! q) as [nd|] eqn:E; [|done]. exfalso.
        assert (Hqa : allocated (heap s1) q) by (by eexists).
        apply pushed_back_alloc in Hqa as [->|[? Hqa]]; [done|congruence]. }
      assert (Hnew : ∀ key, m_key_equal k key = true →
                            model_lookup css1 key = Some m).
      { intros key Ek. rewrite <- (model_lookup_same_key css1 k key Ek).
        unfold model_lookup, css1.
        rewrite bucket_of_insert by (by eapply bucket_index_lt).
        by rewrite (find_cell_snoc_new k l (p, make_pair k m) Hfind (key_equal_refl _)). }
      assert (Hold : ∀ key, m_key_equal k key = true → model_lookup css key = None).
      { intros key Ek. rewrite <- (model_lookup_same_key css k key Ek).
        unfold model_lookup. by rewrite (bucket_of_view _ _ _ _ _ Hview), Hfind. }
      assert (Habs : find_pair k (concat css).*2 = None).
      { by destruct (find_pair k (concat css).*2). }
      pose proof (pairs_after_push css _ l (p, make_pair k m) Hl) as Hp1.
      fold css1 in Hp1. cbn [snd] in Hp1.
      exists s', css'. split_and!; [done|by eapply changes_cons| |].
      * intros key. rewrite Hlk. cbn [fmap list_fmap fst find_pair first].
        destruct (m_key_equal k key) eqn:Ek.
        -- by rewrite (Hnew key Ek), (Hold key Ek).
        -- unfold css1. by rewrite (model_lookup_push s css _ b l p (make_pair k m) key Hview Ek).
      * rewrite Hperm, Hp1. cbn [fmap list_fmap fst first_of_each_key].
        rewrite filter_cons_True by done. rewrite <- app_assoc. f_equiv. simpl. f_equiv.
        rewrite list_filter_filter. apply reflexive_eq, list_filter_iff.
        intros w. cbn [first]. rewrite !find_pair_None.
        split.
        -- intros H. rewrite Forall_forall in H. split.
           ++ apply Forall_forall. intros x Hx. apply H. rewrite Hp1.
              apply elem_of_app. by left.
           ++ apply (H (make_pair k m)). rewrite Hp1. apply elem_of_app. right. by left.
        -- intros [H Hk]. apply Forall_forall. intros x Hx. rewrite Hp1 in Hx.
           apply elem_of_app in Hx as [Hx|Hx%list_elem_of_singleton].
           ++ rewrite Forall_forall in H. by apply H.
           ++ by subst.
Qed.

Lemma filter_all {A} (P : A → Prop) `{!∀ x, Decision (P x)} (l : list A) :
  (∀ x, P x) → filter P l = l.
Proof.
  intros HP. induction l as [|x l IH]; [done|]. by rewrite filter_cons_True, IH.
Qed.

(** X6.  The constructors from a range and from an initializer list
    build a map in which the first pair of the input with a given key
    wins: [find] shows for every key the value of the first input pair
    with that key, a traversal returns exactly the input pairs whose key
    no earlier input pair has, and [size()] is their number. *)
Theorem range_ctor_spec sentinels items :
  Z.of_nat (length sentinels) = BUCKET_COUNT →
  NoDup (sentinels ++ items.*2) → Forall valid_address (sentinels ++ items.*2) →
  ∃ s css pairs,
    HashMap_ctor_range sentinels items = Some s ∧ Inv s css ∧
    eval traverse s = Some pairs ∧ pairs ≡ₚ first_of_each_key items.*1 ∧
    eval HashMap_size s = Some (Z.of_nat (length (first_of_each_key items.*1))) ∧
    (∀ key, eval (stored_value key) s = Some (second <$> find_pair key items.*1)).
Proof.
  intros Hlen Hnd Hv.
  apply NoDup_app in Hnd as (Hnd1 & Hdis & Hnd2). apply Forall_app in Hv as [Hv1 Hv2].
  destruct (HashMap_ctor_total sentinels Hlen Hnd1 Hv1) as [s0 Hctor].
  destruct (HashMap_ctor_Inv _ _ Hctor) as [HI0 _].
  destruct (HashMap_ctor_tight _ _ Hctor) as (Ht0 & Hs0 & _).
  set (css0 := replicate (length sentinels) ([] : list (ptr * Pair))) in *.
  assert (Hus : Forall (usable s0) items.*2).
  { rewrite Forall_forall in Hv2 |- *. intros p Hp. split; [by apply Hv2|].
    destruct (heap s0 !! p) as [nd|] eqn:E; [|done]. exfalso.
    assert (Hn : p ∈ nodes s0 css0) by (apply Ht0; by eexists).
    unfold nodes, css0 in Hn. rewrite nodes_empty, take_ge, Hs0 in Hn.
    - by apply (Hdis p).
    - rewrite <- Hs0, length_fmap. lia. }
  destruct (HashMap_insert_range_spec items s0 css0 HI0 Hnd2 Hus)
    as (s & css & Hs & Hch & Hlk & Hperm).
  pose proof (changes_Inv _ _ _ _ HI0 Hch) as HI.
  assert (E0 : concat css0 = []) by apply concat_replicate_nil.
  rewrite E0 in Hperm. simpl in Hperm.
  rewrite filter_all in Hperm by done.
  exists s, css, ((concat css).*2). split_and!.
  - unfold HashMap_ctor_range. rewrite Hctor. unfold exec. by rewrite Hs.
  - done.
  - by apply traverse_eval.
  - done.
  - rewrite (eval_eq _ _ _ _ (HashMap_size_eq _ _ HI)). do 2 f_equal.
    by rewrite <- (length_fmap snd), Hperm.
  - intros key. rewrite (stored_value_eval _ _ key HI), Hlk.
    unfold css0. by rewrite model_lookup_empty.
Qed.

(** ** Equality of cursors *)

Lemma cell_by_address (l : list (ptr * Pair)) c1 c2 :
  NoDup l.*1 → c1 ∈ l → c2 ∈ l → c1.1 = c2.1 → c1 = c2.
Proof.
  induction l as [|c l IH]; intros Hnd H1 H2 E; [by apply elem_of_nil in H1|].
  simpl in Hnd. apply NoDup_cons in Hnd as [Hc Hnd].
  apply elem_of_cons in H1 as [->|H1]; apply elem_of_cons in H2 as [->|H2].
  - done.
  - exfalso. apply Hc. rewrite E. apply list_elem_of_fmap. by exists c2.
  - exfalso. apply Hc. rewrite <- E. apply list_elem_of_fmap. by exists c1.
  - by apply IH.
Qed.

(** X12.  Two cursors that [find] returns compare equal exactly when
    both keys are missing, or both are present and equal: with the
    key-equality of the map, [find(k1) == find(k2)] says whether the two
    keys name the same element. *)
Theorem find_cursors_equal s css k1 k2 :
  Inv s css →
  ∃ it1 it2 o1 o2,
    HashMap_find k1 s = Some (it1, s) ∧ HashMap_find k2 s = Some (it2, s) ∧
    eval (stored_value k1) s = Some o1 ∧ eval (stored_value k2) s = Some o2 ∧
    (IteratorHelper_eq it1 it2 = true ↔
     (o1 = None ∧ o2 = None) ∨ (is_Some o1 ∧ m_key_equal k1 k2 = true)).
Proof.
  intros HI.
  destruct (Inv_view s css _ HI (bucket_index_range k1)) as (b1 & l1 & Hview1).
  destruct (Inv_view s css _ HI (bucket_index_range k2)) as (b2 & l2 & Hview2).
  exists (find_cursor (bucket_index_of k1) b1 l1 k1),
         (find_cursor (bucket_index_of k2) b2 l2 k2),
         (model_lookup css k1), (model_lookup css k2).
  split_and!; [by apply (HashMap_find_eq s css)|by apply (HashMap_find_eq s css)
              |by apply stored_value_eval|by apply stored_value_eval|].
  unfold model_lookup. rewrite (bucket_of_view _ _ _ _ _ Hview1),
    (bucket_of_view _ _ _ _ _ Hview2).
  pose proof (bucket_index_range k1) as Hr1. pose proof (bucket_index_range k2) as Hr2.
  pose proof Hview1 as [_ Hb1 Hl1 _ _ Hnd1 _ _ _].
  pose proof Hview2 as [_ Hb2 Hl2 _ _ Hnd2 _ _ _].
  assert (Hsame : m_key_equal k1 k2 = true → l2 = l1 ∧ find_cell k2 l2 = find_cell k1 l1).
  { intros Ek. pose proof (key_equal_bucket _ _ Ek) as Eb. rewrite <- Eb in Hl2.
    assert (l2 = l1) as -> by congruence. split; [done|].
    symmetry. by apply find_cell_same_key. }
  unfold find_cursor, IteratorHelper_eq.
  destruct (find_cell k1 l1) as [c1|] eqn:Hf1; destruct (find_cell k2 l2) as [c2|] eqn:Hf2;
    cbn [m_index m_ref m_node fmap option_fmap option_map].
  - replace (bucket_index_of k1 =? BUCKET_COUNT) with false by (symmetry; lia).
    cbn [andb].
    pose proof (find_cell_elem _ _ _ Hf1) as Hc1. pose proof (find_cell_elem _ _ _ Hf2) as Hc2.
    destruct (find_cell_Some _ _ _ Hf1) as (_ & _ & _ & Hk1 & _).
    destruct (find_cell_Some _ _ _ Hf2) as (_ & _ & _ & Hk2 & _).
    split.
    + intros E. right. split; [by eexists|].
      destruct (c1.1 =? c2.1) eqn:Ea; [|done]. apply Z.eqb_eq in Ea.
      assert (Z.to_nat (bucket_index_of k1) = Z.to_nat (bucket_index_of k2)) as Ei.
      { destruct (decide (Z.to_nat (bucket_index_of k1) = Z.to_nat (bucket_index_of k2)))
          as [|Hne]; [done|]. exfalso.
        pose proof Hview1 as [_ _ _ Ha1 _ _ _ _ _].
        pose proof Hview2 as [_ _ _ Ha2 _ _ _ _ _].
        eapply (NoDup_concat_disjoint _ _ _ _ _ c1.1 (inv_nodup _ _ HI) Ha1 Ha2 Hne).
        - right. apply list_elem_of_fmap. by exists c1.
        - right. rewrite Ea. apply list_elem_of_fmap. by exists c2. }
      rewrite <- Ei in Hl2. assert (l2 = l1) as -> by congruence.
      assert (c1 = c2) as ->.
      { eapply cell_by_address; [|done..]. unfold cells in Hnd1.
        by apply NoDup_cons in Hnd1 as [_ ?]. }
      eapply key_equal_trans; [|exact Hk2]. by apply key_equal_sym.
    + intros [[? _]|[_ Ek]]; [done|].
      destruct (Hsame Ek) as [_ E]. simplify_eq. by rewrite Z.eqb_refl.
  - replace (bucket_index_of k1 =? BUCKET_COUNT) with false by (symmetry; lia).
    cbn [andb].
    pose proof (find_cell_elem _ _ _ Hf1) as Hc1.
    assert (c1.1 =? m_end b2 = false) as ->.
    { apply Z.eqb_neq. intros E.
      apply (data_node_not_sentinel s css c1 HI).
      - exact (elem_of_concat_lookup _ _ _ _ Hl1 Hc1).
      - rewrite E. apply list_elem_of_fmap. exists b2. split; [done|].
        by eapply list_elem_of_lookup_2. }
    split; [done|]. intros [[? _]|[_ Ek]]; [done|].
    by destruct (Hsame Ek) as [_ E].
  - rewrite Z.eqb_refl.
    replace (bucket_index_of k2 =? BUCKET_COUNT) with false by (symmetry; lia).
    cbn [andb].
    pose proof (find_cell_elem _ _ _ Hf2) as Hc2.
    assert (m_end b1 =? c2.1 = false) as ->.
    { apply Z.eqb_neq. intros E.
      apply (data_node_not_sentinel s css c2 HI).
      - exact (elem_of_concat_lookup _ _ _ _ Hl2 Hc2).
      - rewrite <- E. apply list_elem_of_fmap. exists b1. split; [done|].
        by eapply list_elem_of_lookup_2. }
    split; [done|]. intros [[_ ?]|[[? ?] _]]; done.
  - rewrite Z.eqb_refl. cbn [andb]. split; [by left|done].
Qed.

(** ** Two maps in one heap *)

(** The invariant looks at the heap only where the nodes of the map are. *)
Lemma Inv_heap_frame s s' css :
  Inv s css → m_buckets s' = m_buckets s →
  (∀ x, x ∈ nodes s css → heap s' !! x = heap s !! x) → Inv s' css.
Proof.
  intros [Hc Hr Hnd Hv Hp Hu] Hb Hfr. split; rewrite ?Hb; try done.
  apply Forall2_lookup. intros j. rewrite Forall2_lookup in Hr. specialize (Hr j).
  destruct (m_buckets s !! j) as [bj|] eqn:Ebj; destruct (css !! j) as [lj|] eqn:Elj;
    inversion Hr as [? ? Hbj|]; subst; constructor.
  eapply bucket_repr_ext; [|exact Hbj]. intros x Hx.
  assert (Hn : x ∈ nodes s css).
  { eapply elem_of_concat_lookup; [|exact Hx].
    unfold all_cells. rewrite lookup_zip_with, Ebj. simpl. by rewrite Elj. }
  unfold next_of, prev_of, value_of. by rewrite (Hfr x Hn).
Qed.

Lemma apart_sym s css that tss :
  Inv s css → apart s css that tss →
  apart (with_buckets that s) tss (m_buckets s) css.
Proof.
  intros HI [HIt Hdis]. split.
  - destruct s. exact HI.
  - intros x Hx Hx'. by apply (Hdis x).
Qed.

Lemma change_apart s css s' css' that tss :
  Inv s css → change s css s' css' → apart s css that tss →
  apart s' css' that tss ∧
  (∀ x, x ∈ concat (all_cells that tss) → heap s' !! x = heap s !! x).
Proof.
  intros HI Hch [HIt Hdis].
  assert (Hfr : ∀ x, x ∈ concat (all_cells that tss) → heap s' !! x = heap s !! x).
  { intros x Hx. eapply change_frame; [done| |].
    - intros Hx'. by apply (Hdis x).
    - by apply (Inv_allocated _ _ _ HIt). }
  split; [split|done].
  - eapply (Inv_heap_frame (with_buckets that s)); [done|done|]. exact Hfr.
  - intros x Hx Hx'. destruct (change_nodes _ _ _ _ x Hch Hx) as [Hn|Hn].
    + by apply (Hdis x).
    + apply Hn. by apply (Inv_allocated _ _ _ HIt).
Qed.

Lemma changes_apart s css s' css' that tss :
  Inv s css → changes s css s' css' → apart s css that tss →
  apart s' css' that tss ∧
  (∀ x, x ∈ concat (all_cells that tss) → heap s' !! x = heap s !! x).
Proof.
  intros HI H. revert HI.
  induction H as [s css|s css s1 css1 s2 css2 H1 _ IH]; intros HI Ha; [done|].
  destruct (change_apart _ _ _ _ _ _ HI H1 Ha) as [Ha1 Hf1].
  destruct (IH (change_Inv _ _ _ _ HI H1) Ha1) as [Ha2 Hf2].
  split; [done|]. intros x Hx. by rewrite Hf2, Hf1.
Qed.

(** X15.  Two maps that share no node stay independent: whatever
    sequence of [insert], [insert_or_assign], [erase], [operator[]] and
    [clear] runs on one of them, no node of the other is written or
    freed, the two still share no node, and a traversal, [size()] and
    every [find] on the other return what they returned before. *)
Theorem maps_stay_independent s css that tss ops s' :
  Inv s css → apart s css that tss → run_ops ops s = Some (tt, s') →
  ∃ css',
    Inv s' css' ∧ apart s' css' that tss ∧
    (∀ x, x ∈ concat (all_cells that tss) → heap s' !! x = heap s !! x) ∧
    eval traverse (with_buckets that s') = eval traverse (with_buckets that s) ∧
    eval HashMap_size (with_buckets that s') = eval HashMap_size (with_buckets that s) ∧
    (∀ key, eval (stored_value key) (with_buckets that s')
            = eval (stored_value key) (with_buckets that s)).
Proof.
  intros HI Ha Hrun.
  destruct (run_ops_changes ops s css s' HI Hrun) as (css' & Hch).
  destruct (changes_apart _ _ _ _ _ _ HI Hch Ha) as [Ha' Hfr].
  pose proof (apart_inv _ _ _ _ Ha) as HIt. pose proof (apart_inv _ _ _ _ Ha') as HIt'.
  exists css'. split_and!; [exact (changes_Inv _ _ _ _ HI Hch)|done|done|..].
  - by rewrite (traverse_eval _ _ HIt'), (traverse_eval _ _ HIt).
  - by rewrite (eval_eq _ _ _ _ (HashMap_size_eq _ _ HIt')),
      (eval_eq _ _ _ _ (HashMap_size_eq _ _ HIt)).
  - intros key. by rewrite (stored_value_eval _ _ key HIt'), (stored_value_eval _ _ key HIt).
Qed.

(** ** Copies *)

(** One round of the loop of [Bucket::operator=]. *)
Lemma Bucket_copy_round s i b p node v t nx :
  bucket_at (m_buckets s) i = Some b →
  valid_address p → heap s !! p = None →
  value_of (heap s) node = Some v → next_of (heap s) node = Some nx →
  prev_of (heap s) (m_end b) = Some t → allocated (heap s) t →
  node ≠ t →
  Bucket_copy_node i node p s
  = Some (nx, with_heap (copied_node (m_end b) t p v (heap s)) s).
Proof.
  intros Hb Hp Hf Hv Hn Hpe Hta Hnt. unfold Bucket_copy_node.
  assert (Hnp : ¬ allocated (heap s) p) by (unfold allocated; rewrite Hf; by intros []).
  assert (Hea : allocated (heap s) (m_end b)) by (apply allocated_prev; by eexists).
  assert (Hna : allocated (heap s) node) by (apply allocated_value; by eexists).
  assert (p ≠ m_end b) by (by intros ->).
  assert (p ≠ t) by (by intros ->).
  assert (node ≠ p) by (by intros ->).
  rewrite (bind_eq _ _ _ _ _ (new_Node_eq _ _ Hp Hf)).
  erewrite bind_eq by (apply load_value_eq; st_simpl; by heap_simpl).
  erewrite bind_eq by (apply store_value_eq; st_simpl; alloc_solve).
  erewrite bind_eq by (by apply Bucket_end_eq).
  erewrite bind_eq by (apply store_next_eq; st_simpl; alloc_solve).
  erewrite bind_eq by (by apply Bucket_end_eq).
  erewrite bind_eq by (apply load_prev_eq; st_simpl; by heap_simpl).
  erewrite bind_eq by (apply store_prev_eq; st_simpl; alloc_solve).
  erewrite bind_eq by (apply load_next_eq; st_simpl; by heap_simpl).
  erewrite bind_eq by (apply store_prev_eq; st_simpl; alloc_solve).
  erewrite bind_eq by (apply load_prev_eq; st_simpl; by heap_simpl).
  erewrite bind_eq by (apply store_next_eq; st_simpl; alloc_solve).
  unfold copied_node. apply load_next_eq. st_simpl. by heap_simpl.
Qed.

Lemma copied_node_alloc e t p v h x :
  allocated (copied_node e t p v h) x ↔ x = p ∨ allocated h x.
Proof.
  unfold copied_node.
  by rewrite allocated_set_next, allocated_set_prev, allocated_set_prev,
    allocated_set_next, allocated_set_value, allocated_insert.
Qed.

Lemma copied_node_frame e t p v h x :
  x ≠ p → x ≠ t → x ≠ e → copied_node e t p v h !! x = h !! x.
Proof.
  intros. unfold copied_node.
  by rewrite lookup_set_next_ne, lookup_set_prev_ne, lookup_set_prev_ne,
    lookup_set_next_ne, lookup_set_value_ne, lookup_insert_ne.
Qed.

Lemma ring_repr_frame h h' e l :
  (∀ x, x ∈ e :: l.*1 → h' !! x = h !! x) → ring_repr h e l → ring_repr h' e l.
Proof.
  intros Hfr [Hl Hv]. split.
  - eapply links_ext; [|exact Hl]. intros x Hx.
    assert (Hx' : x ∈ e :: l.*1).
    { rewrite app_comm_cons in Hx. apply elem_of_app in Hx as [?|Hx]; [done|].
      apply list_elem_of_singleton in Hx as ->. by left. }
    unfold next_of, prev_of. by rewrite (Hfr x Hx').
  - rewrite Forall_forall in Hv |- *. intros c Hc. unfold value_of.
    rewrite Hfr; [by apply Hv|]. right. apply list_elem_of_fmap. by exists c.
Qed.

Lemma ring_repr_allocated h e l x : ring_repr h e l → x ∈ e :: l.*1 → allocated h x.
Proof.
  intros [Hl _] Hx. eapply links_allocated; [exact Hl| |].
  - simpl. rewrite length_app. simpl. lia.
  - rewrite app_comm_cons. apply elem_of_app. by left.
Qed.

(** The heap after a node was copied to the back of the ring. *)
Lemma ring_repr_copied h e l p v :
  ring_repr h e l → NoDup (e :: l.*1) → h !! p = None →
  ring_repr (copied_node e (last_of e l) p v h) e (l ++ [(p, v)]).
Proof.
  intros Hr Hnd Hf. pose proof Hr as [Hl Hv].
  assert (Hnp : ¬ allocated h p) by (unfold allocated; rewrite Hf; by intros []).
  assert (Hal : ∀ x, x ∈ e :: l.*1 → allocated h x)
    by (intros; by eapply ring_repr_allocated).
  assert (Hpc : p ∉ e :: l.*1) by (intros Hx; by apply Hnp, Hal).
  pose proof (last_cells e l) as Hlast.
  pose proof (last_of_elem e l) as Htin.
  remember (last_of e l) as t eqn:Et. clear Et.
  assert (Hpt : p ≠ t) by (by intros ->).
  assert (Hpe : p ≠ e) by (intros ->; apply Hpc; by left).
  pose proof (Hal _ Htin) as Hta.
  assert (Hea : allocated h e) by (apply Hal; by left).
  split.
  - rewrite fmap_app. cbn [fmap list_fmap fst].
    apply (ring_push_back h _ e (l.*1) p t); [exact Hl|exact Hnd|exact Hpc|exact Hlast|..];
      unfold copied_node.
    + intros x ? ?. by heap_simpl.
    + by heap_simpl.
    + by heap_simpl.
    + intros x ? ?. by heap_simpl.
    + by heap_simpl.
    + by heap_simpl.
  - apply Forall_app. split.
    + rewrite Forall_forall in Hv |- *. intros c Hc.
      assert (c.1 ≠ p).
      { intros E. apply Hpc. right. apply list_elem_of_fmap. by exists c. }
      unfold copied_node. heap_simpl. by apply Hv.
    + apply Forall_singleton. unfold copied_node. simpl. by heap_simpl.
Qed.

Lemma Bucket_copy_loop_eq i b tb :
  ∀ trem tdone done s fresh fuel,
    bucket_at (m_buckets s) i = Some b →
    ring_repr (heap s) (m_end b) done → NoDup (m_end b :: done.*1) →
    ring_repr (heap s) (m_end tb) (tdone ++ trem) →
    NoDup (m_end tb :: (tdone ++ trem).*1) →
    (∀ x, x ∈ m_end b :: done.*1 → x ∉ m_end tb :: (tdone ++ trem).*1) →
    NoDup fresh → Forall (usable s) fresh →
    (length trem ≤ length fresh)%nat → (length trem < fuel)%nat →
    ∃ s',
      Bucket_copy_loop fuel i tb (first_of (m_end tb) trem) fresh s
      = Some (drop (length trem) fresh, s') ∧
      m_buckets s' = m_buckets s ∧ oob_reads s' = oob_reads s ∧
      ring_repr (heap s') (m_end b) (done ++ zip (take (length trem) fresh) trem.*2) ∧
      (∀ x, x ∉ m_end b :: done.*1 → x ∉ take (length trem) fresh →
            heap s' !! x = heap s !! x) ∧
      (∀ x, allocated (heap s') x ↔ allocated (heap s) x ∨ x ∈ take (length trem) fresh).
Proof.
  induction trem as [|c trem IH];
    intros tdone done s fresh fuel Hb Hr Hnd Htr Htnd Hdis Hfnd Hus Hlen Hfuel;
    (destruct fuel as [|fuel]; [simpl in Hfuel; lia|]);
    cbn [Bucket_copy_loop first_of length].
  - rewrite Z.eqb_refl. exists s. cbn [drop take zip zip_with].
    rewrite app_nil_r. split_and!; try done.
    intros x. rewrite elem_of_nil. tauto.
  - destruct fresh as [|p fresh]; [simpl in Hlen; lia|].
    apply NoDup_cons in Hfnd as [Hpf Hfnd]. apply Forall_cons in Hus as [[Hpv Hpu] Hus].
    set (e := m_end b) in *. set (te := m_end tb) in *.
    assert (Hsrc : ∀ x, x ∈ te :: (tdone ++ c :: trem).*1 → allocated (heap s) x)
      by (intros x Hx; exact (ring_repr_allocated _ _ _ _ Htr Hx)).
    assert (Hthis : ∀ x, x ∈ e :: done.*1 → allocated (heap s) x)
      by (intros x Hx; exact (ring_repr_allocated _ _ _ _ Hr Hx)).
    assert (Hcin : c.1 ∈ te :: (tdone ++ c :: trem).*1).
    { right. rewrite fmap_app. apply elem_of_app. right. by left. }
    assert (Hcte : (c.1 =? te) = false).
    { apply Z.eqb_neq. intros E. apply NoDup_cons in Htnd as [Hn _]. apply Hn.
      rewrite <- E. rewrite fmap_app. apply elem_of_app. right. by left. }
    rewrite Hcte.
    pose proof (last_of_elem e done) as Htin.
    pose proof Hr as [Hl Hv]. pose proof Htr as [Htl Htv].
    assert (Hval : value_of (heap s) c.1 = Some c.2).
    { rewrite Forall_app, Forall_cons in Htv. by destruct Htv as (_ & ? & _). }
    assert (Hnx : next_of (heap s) c.1 = Some (first_of te trem)).
    { rewrite fmap_app in Htl. cbn [fmap list_fmap] in Htl.
      eapply ring_succ; [exact Htl|]. apply head_cells. }
    assert (Hpe : prev_of (heap s) e = Some (last_of e done)).
    { eapply ring_last; [exact Hl|]. apply last_cells. }
    assert (Hct : c.1 ≠ last_of e done).
    { intros E. apply (Hdis _ Htin). by rewrite <- E. }
    assert (Hnp : ¬ allocated (heap s) p) by (unfold allocated; rewrite Hpu; by intros []).
    rewrite (bind_eq _ _ _ _ _
               (Bucket_copy_round s i b p c.1 c.2 (last_of e done) _ Hb Hpv Hpu Hval Hnx
                  Hpe (Hthis _ Htin) Hct)).
    fold e.
    set (s1 := with_heap (copied_node e (last_of e done) p c.2 (heap s)) s).
    destruct (IH (tdone ++ [c]) (done ++ [(p, c.2)]) s1 fresh fuel)
      as (s' & Hs' & Hbs & Hoob & Hr' & Hfr & Hal).
    + done.
    + by apply ring_repr_copied.
    + rewrite fmap_app. cbn [fmap list_fmap fst]. rewrite app_comm_cons.
      apply NoDup_app. split_and!; [done| |apply NoDup_singleton].
      intros x Hx ->%list_elem_of_singleton. by apply Hnp, Hthis.
    + rewrite <- app_assoc. cbn [app].
      eapply ring_repr_frame; [|exact Htr]. intros x Hx. unfold s1. st_simpl.
      apply copied_node_frame.
      * intros ->. by apply Hnp, Hsrc.
      * intros ->. by apply (Hdis _ Htin).
      * intros ->. apply (Hdis e); [by left|done].
    + by rewrite <- app_assoc.
    + rewrite <- app_assoc. cbn [app]. intros x Hx.
      rewrite fmap_app in Hx. cbn [fmap list_fmap fst] in Hx.
      rewrite app_comm_cons in Hx. apply elem_of_app in Hx as [Hx|Hx]; [by apply Hdis|].
      apply list_elem_of_singleton in Hx as ->. intros Hx. by apply Hnp, Hsrc.
    + done.
    + rewrite Forall_forall in Hus |- *. intros q Hq. destruct (Hus q Hq) as [Hqv Hqf].
      split; [done|]. unfold s1. st_simpl.
      destruct (copied_node _ _ _ _ _ !! q) as [nd|] eqn:E; [|done]. exfalso.
      assert (Hqa : allocated (copied_node e (last_of e done) p c.2 (heap s)) q)
        by (by eexists).
      apply copied_node_alloc in Hqa as [->|[? Hqa]]; [done|congruence].
    + simpl in Hlen. lia.
    + simpl in Hfuel. lia.
    + exists s'. cbn [drop take fmap list_fmap zip zip_with snd].
      split_and!; [done|done|done| | |].
      * by rewrite <- app_assoc in Hr'.
      * intros x Hx Hxf. apply not_elem_of_cons in Hxf as [Hxp Hxf].
        assert (Hx' : x ∉ e :: (done ++ [(p, c.2)]).*1).
        { rewrite fmap_app. cbn [fmap list_fmap fst]. rewrite app_comm_cons.
          intros [?|?%list_elem_of_singleton]%elem_of_app; done. }
        rewrite (Hfr x Hx' Hxf). unfold s1. st_simpl. apply copied_node_frame; [done| |].
        -- intros ->. by apply Hx.
        -- intros ->. apply Hx. by left.
      * intros x. rewrite Hal. unfold s1. st_simpl.
        rewrite copied_node_alloc, elem_of_cons. tauto.
Qed.

Lemma uniq_keys_distinct (l : list (ptr * Pair)) : uniq_keys l ↔ distinct_keys l.*2.
Proof. induction l as [|c l IH]; [done|]. simpl. by rewrite IH, Forall_fmap. Qed.

Lemma uniq_keys_pairs (l l' : list (ptr * Pair)) :
  l.*2 = l'.*2 → uniq_keys l → uniq_keys l'.
Proof. intros E. rewrite !uniq_keys_distinct. by rewrite E. Qed.

Lemma elem_of_take_full {A} n (l : list A) x : x ∈ take n l → x ∈ l.
Proof. intros Hx. rewrite <- (take_drop n l). apply elem_of_app. by left. Qed.

Lemma elem_of_drop_full {A} n (l : list A) x : x ∈ drop n l → x ∈ l.
Proof. intros Hx. rewrite <- (take_drop n l). apply elem_of_app. by right. Qed.

Lemma NoDup_take_drop {A} n (l : list A) :
  NoDup l → NoDup (take n l) ∧ NoDup (drop n l) ∧ (∀ x, x ∈ take n l → x ∉ drop n l).
Proof. intros H. rewrite <- (take_drop n l) in H. by apply NoDup_app in H as (? & ? & ?). Qed.

Lemma placed_pairs (P : Pair → Prop) (l l' : list (ptr * Pair)) :
  l.*2 = l'.*2 → Forall (λ c, P c.2) l → Forall (λ c, P c.2) l'.
Proof.
  intros E H. apply (Forall_fmap snd P). rewrite <- E. by apply (Forall_fmap snd P).
Qed.

(** [Bucket::operator=] into an empty bucket, from a bucket of another
    map. *)
Lemma Bucket_copy_assign_eq s css i b tb tl fresh :
  Inv s css → bucket_view s css i b [] →
  ring_repr (heap s) (m_end tb) tl → NoDup (m_end tb :: tl.*1) →
  m_size tb = Z.of_nat (length tl) →
  (∀ x, x ∈ m_end tb :: tl.*1 → x ∉ nodes s css) →
  Forall (λ c, bucket_index_of (first c.2) = i) tl → uniq_keys tl →
  NoDup fresh → Forall (usable s) fresh → (length tl ≤ length fresh)%nat →
  ∃ s' l',
    Bucket_copy_assign i tb fresh s = Some (drop (length tl) fresh, s') ∧
    l'.*1 = take (length tl) fresh ∧ l'.*2 = tl.*2 ∧
    Inv s' (<[Z.to_nat i := l']> css) ∧ oob_reads s' = oob_reads s ∧
    m_end <$> m_buckets s' = m_end <$> m_buckets s ∧
    (∀ x, x ≠ m_end b → x ∉ take (length tl) fresh → heap s' !! x = heap s !! x) ∧
    (∀ x, allocated (heap s') x ↔ allocated (heap s) x ∨ x ∈ take (length tl) fresh).
Proof.
  intros HI Hview Htr Htnd Hsz Hdis Hpl Hu Hfnd Hus Hlen.
  pose proof Hview as [Hat Hb Hl Hall Hr Hnd Hv _ _].
  pose proof Htr as [Htl Htv].
  set (n := length tl) in *.
  set (l' := zip (take n fresh) tl.*2).
  assert (Hlt : length (take n fresh) = n) by (rewrite length_take; lia).
  assert (Hl'1 : l'.*1 = take n fresh).
  { apply fst_zip. rewrite Hlt, length_fmap. done. }
  assert (Hl'2 : l'.*2 = tl.*2).
  { apply snd_zip. rewrite Hlt, length_fmap. done. }
  assert (Hein : m_end b ∈ nodes s css).
  { eapply elem_of_concat_lookup; [exact Hall|]. by left. }
  assert (Hr0 : ring_repr (heap s) (m_end b) []).
  { destruct Hr as (Hlk & _ & _). split; [exact Hlk|constructor]. }
  assert (Hsrc : ∀ x, x ∈ m_end tb :: tl.*1 → allocated (heap s) x)
    by (intros x Hx; exact (ring_repr_allocated _ _ _ _ Htr Hx)).
  destruct (Bucket_copy_loop_eq i b tb tl [] [] s fresh (S (size (heap s))))
    as (s2 & Hs2 & Hbs & Hoob & Hr2 & Hfr & Hal); try done.
  { intros x Hx%list_elem_of_singleton Hx'. subst. by apply (Hdis (m_end b)). }
  { pose proof (heap_size_cells (heap s) _ Htnd Hsrc) as H. simpl in H.
    rewrite length_fmap in H. fold n in H. lia. }
  fold n in Hs2, Hr2, Hfr, Hal. cbn [app] in Hr2. fold l' in Hr2.
  exists (with_buckets (<[Z.to_nat i := mkBucket (m_size tb) (m_end b)]> (m_buckets s2)) s2), l'.
  assert (Hunalloc : ∀ x, x ∈ take n fresh → ¬ allocated (heap s) x).
  { intros x Hx [nd Hnd']. rewrite Forall_forall in Hus.
    destruct (Hus x) as [_ Hf]; [by eapply elem_of_take_full|]. congruence. }
  split_and!; [|done|done| |done| | |done].
  - unfold Bucket_copy_assign.
    rewrite (bind_eq _ _ _ _ _ (Bucket_clear_empty _ _ _ _ Hview)).
    erewrite bind_eq
      by (apply load_next_eq; eapply ring_first; [exact Htl|apply head_cells]).
    unfold bind at 1. cbv beta. rewrite Hs2.
    assert (Hat2 : bucket_at (m_buckets s2) i = Some b) by (by rewrite Hbs).
    rewrite (bind_eq _ _ _ _ _ (read_bucket_eq _ _ _ Hat2)).
    by rewrite (bind_eq _ _ _ _ _ (write_bucket_eq _ _ _ (mkBucket (m_size tb) (m_end b)) Hat2)).
  - eapply (Inv_update s css i b [] _ (mkBucket (m_size tb) (m_end b)) l');
      [exact HI|exact Hview|st_simpl; by rewrite Hbs| | | | | | |].
    + destruct Hr2 as [Hl2 Hv2]. split_and!; st_simpl; [exact Hl2|exact Hv2|].
      rewrite Hsz. f_equal. by rewrite <- (length_fmap fst l'), Hl'1.
    + unfold cells. st_simpl. rewrite Hl'1. apply NoDup_cons. split.
      * intros Hx. apply (Hunalloc _ Hx). by eapply Inv_allocated.
      * by apply NoDup_take_drop.
    + unfold cells. st_simpl. rewrite Hl'1. apply Forall_cons. split.
      * apply Forall_cons in Hv as [? _]. done.
      * apply Forall_take. eapply Forall_impl; [exact Hus|]. by intros x [? _].
    + intros x. unfold cells. st_simpl. rewrite Hl'1.
      intros [->|Hx]%elem_of_cons; [left; by left|right; by apply Hunalloc].
    + intros x Hx Hxc. st_simpl. unfold cells in Hxc. simpl in Hxc.
      unfold next_of, prev_of, value_of. rewrite Hfr; [done|done|].
      intros Hx'. by apply (Hunalloc x).
    + apply (placed_pairs (λ v, bucket_index_of (first v) = i) tl l'); done.
    + by apply (uniq_keys_pairs tl l').
  - st_simpl. rewrite Hbs, list_fmap_insert. st_simpl. apply list_insert_id.
    by rewrite list_lookup_fmap, Hb.
  - intros x Hx Hxf. st_simpl. apply Hfr; [|done].
    intros Hx'%list_elem_of_singleton. done.
Qed.

Lemma take_add_drop {A} n m (l : list A) :
  take (n + m) l = take n l ++ take m (drop n l).
Proof.
  revert l. induction n as [|n IH]; intros [|x l]; simpl; try done.
  - by rewrite take_nil.
  - by rewrite IH.
Qed.

Lemma bucket_repr_ring h b l : bucket_repr h b l → ring_repr h (m_end b) l.
Proof. intros (Hl & Hv & _). by split. Qed.

(** [std::copy] over the bucket arrays: the buckets before [length cs]
    are done, the others are still empty. *)
Lemma HashMap_copy_buckets_eq that tss :
  ∀ trips cs s fresh,
    Inv s (cs ++ replicate trips []) → apart s (cs ++ replicate trips []) that tss →
    (length cs + trips = length tss)%nat →
    pairs_of cs = pairs_of (take (length cs) tss) →
    NoDup fresh → Forall (usable s) fresh →
    (length (concat (drop (length cs) tss)) ≤ length fresh)%nat →
    ∃ s' css',
      HashMap_copy_buckets trips (Z.of_nat (length cs)) that fresh s
      = Some (drop (length (concat (drop (length cs) tss))) fresh, s') ∧
      Inv s' css' ∧ apart s' css' that tss ∧ pairs_of css' = pairs_of tss ∧
      oob_reads s' = oob_reads s ∧
      m_end <$> m_buckets s' = m_end <$> m_buckets s ∧
      (∀ x, x ∉ m_end <$> m_buckets s →
            x ∉ take (length (concat (drop (length cs) tss))) fresh →
            heap s' !! x = heap s !! x) ∧
      (∀ x, allocated (heap s') x ↔
            allocated (heap s) x ∨
            x ∈ take (length (concat (drop (length cs) tss))) fresh).
Proof.
  induction trips as [|trips IH]; intros cs s fresh HI Ha Hlen Hpairs Hfnd Hus Hfl.
  - simpl in HI, Ha. rewrite app_nil_r in HI, Ha.
    rewrite (drop_ge tss) by lia. simpl. exists s, cs. split_and!; try done.
    + by rewrite Hpairs, (take_ge tss) by lia.
    + intros x. rewrite elem_of_nil. tauto.
  - set (css := cs ++ replicate (S trips) []) in *.
    set (i := length cs) in *.
    pose proof (apart_inv _ _ _ _ Ha) as HIt.
    pose proof (Inv_total _ _ HI) as [Hcl _]. pose proof (Inv_total _ _ HIt) as [Htl _].
    assert (Hi : (i < length css)%nat).
    { unfold css. rewrite length_app, length_replicate. lia. }
    destruct (Inv_view_nat s css i HI Hi) as (b & l & Hview).
    destruct (Inv_view_nat _ tss i HIt) as (tb & tl & Hviewt); [lia|].
    pose proof Hview as [Hat Hb Hl Hall Hr Hnd Hv _ _].
    pose proof Hviewt as [Hatt Hbt Hlt Hallt Hrt Hndt Hvt Hplt Hut].
    st_simpl in Hatt. st_simpl in Hbt. st_simpl in Hallt. st_simpl in Hrt.
    rewrite Nat2Z.id in Hl, Hlt, Hb, Hall, Hallt.
    assert (l = []) as ->.
    { unfold css, i in Hl. rewrite lookup_app_r, Nat.sub_diag in Hl by lia.
      simpl in Hl. by simplify_eq. }
    assert (Hdrop : drop i tss = tl :: drop (S i) tss) by (by apply drop_S).
    rewrite Hdrop in Hfl |- *. cbn [concat] in Hfl |- *. rewrite length_app in Hfl |- *.
    set (n := length tl) in *. set (m := length (concat (drop (S i) tss))) in *.
    assert (Hsrc : ∀ x, x ∈ m_end tb :: tl.*1 → x ∈ concat (all_cells that tss)).
    { intros x Hx. by eapply elem_of_concat_lookup. }
    assert (Hsal : ∀ x, x ∈ concat (all_cells that tss) → allocated (heap s) x).
    { intros x Hx. by apply (Inv_allocated _ _ _ HIt). }
    destruct (Bucket_copy_assign_eq s css (Z.of_nat i) b tb tl fresh HI Hview
                (bucket_repr_ring _ _ _ Hrt) Hndt)
      as (s1 & l1 & Hs1 & Hl11 & Hl12 & HI1 & Hoob1 & Hse1 & Hfr1 & Hal1);
      [by destruct Hrt as (_ & _ & ?)| |done|done|done|done|fold n; lia|].
    { intros x Hx Hx'. apply (apart_nodes _ _ _ _ Ha x Hx'). by apply Hsrc. }
    fold n in Hs1, Hl11, Hfr1, Hal1. rewrite Nat2Z.id in HI1.
    assert (Hcss1 : <[i := l1]> css = (cs ++ [l1]) ++ replicate trips []).
    { unfold css, i. rewrite insert_app_r_alt, Nat.sub_diag by lia.
      simpl. by rewrite <- app_assoc. }
    rewrite Hcss1 in HI1.
    destruct (NoDup_take_drop n fresh Hfnd) as (Hnt & Hndr & Hsep).
    assert (Hunalloc : ∀ x, x ∈ fresh → ¬ allocated (heap s) x).
    { intros x Hx [nd Hnd']. rewrite Forall_forall in Hus.
      destruct (Hus x Hx) as [_ Hf]. congruence. }
    assert (Hbin : m_end b ∈ nodes s css).
    { eapply elem_of_concat_lookup; [exact Hall|]. by left. }
    assert (Hframe_that : ∀ x, x ∈ concat (all_cells that tss) →
                               heap s1 !! x = heap s !! x).
    { intros x Hx. apply Hfr1.
      - intros ->. by apply (apart_nodes _ _ _ _ Ha _ Hbin).
      - intros Hx'. apply (Hunalloc x); [by eapply elem_of_take_full|by apply Hsal]. }
    assert (Ha1 : apart s1 ((cs ++ [l1]) ++ replicate trips []) that tss).
    { split.
      - eapply (Inv_heap_frame (with_buckets that s)); [done|done|]. exact Hframe_that.
      - intros x Hx Hx'. unfold nodes in Hx. fold (nodes s1 ((cs ++ [l1]) ++ replicate trips [])) in Hx.
        rewrite (Inv_nodes _ _ HI1), Hse1 in Hx. apply elem_of_app in Hx as [Hx|Hx].
        + apply (apart_nodes _ _ _ _ Ha x); [|done].
          rewrite (Inv_nodes _ _ HI). apply elem_of_app. by left.
        + rewrite <- Hcss1 in Hx. apply list_elem_of_fmap in Hx as (c & -> & Hc).
          apply (elem_of_concat_insert css i [] l1 c Hl) in Hc as [Hc|Hc].
          * apply (Hunalloc c.1); [|by apply Hsal].
            eapply (elem_of_take_full n). rewrite <- Hl11.
            apply list_elem_of_fmap. by exists c.
          * apply (apart_nodes _ _ _ _ Ha c.1); [|done]. by apply (data_node s css c). }
    destruct (IH (cs ++ [l1]) s1 (drop n fresh) HI1 Ha1)
      as (s' & css' & Hs' & HI' & Ha' & Hp' & Hoob' & Hse' & Hfr' & Hal').
    + rewrite length_app. simpl. fold i. lia.
    + rewrite length_app. simpl. fold i. replace (i + 1)%nat with (S i) by lia.
      rewrite (take_S_r tss i tl Hlt). unfold pairs_of in *.
      rewrite !fmap_app. simpl. by rewrite Hpairs, Hl12.
    + done.
    + rewrite Forall_forall in Hus |- *. intros q Hq.
      destruct (Hus q) as [Hqv Hqf]; [by eapply elem_of_drop_full|].
      split; [done|]. destruct (heap s1 !! q) as [nd|] eqn:E; [|done]. exfalso.
      assert (Hqa : allocated (heap s1) q) by (by eexists).
      apply Hal1 in Hqa as [[? Hqa]|Hqa]; [congruence|]. by apply (Hsep q).
    + rewrite length_app. simpl. fold i. replace (i + 1)%nat with (S i) by lia.
      fold m. rewrite length_drop. lia.
    + rewrite length_app in Hs', Hfr', Hal'. simpl in Hs', Hfr', Hal'. fold i in Hs', Hfr', Hal'.
      replace (i + 1)%nat with (S i) in Hs', Hfr', Hal' by lia.
      fold m in Hs', Hfr', Hal'.
      exists s', css'. split_and!; try done.
      * cbn [HashMap_copy_buckets]. rewrite Hatt.
        rewrite (bind_eq _ _ _ _ _ Hs1).
        pose proof (inv_count _ _ HI) as Hc. rewrite size_add_1 by lia.
        replace (Z.of_nat i + 1) with (Z.of_nat (S i)) by lia.
        rewrite Hs'. by rewrite drop_drop.
      * congruence.
      * congruence.
      * intros x Hx Hxf. rewrite take_add_drop in Hxf.
        apply not_elem_of_app in Hxf as [Hx1 Hx2].
        rewrite Hfr'; [|by rewrite Hse1|done]. apply Hfr1; [|done].
        intros ->. apply Hx. apply list_elem_of_fmap. exists b. split; [done|].
        by eapply list_elem_of_lookup_2.
      * intros x. rewrite Hal', Hal1, take_add_drop, elem_of_app. tauto.
Qed.

Lemma new_Bucket_array_Inv ps s bs s' :
  Z.of_nat (length ps) = BUCKET_COUNT → new_Bucket_array ps s = Some (bs, s') →
  Inv (with_buckets bs s') (replicate (length ps) []) ∧ m_end <$> bs = ps.
Proof.
  intros Hlen H.
  apply new_Bucket_array_inv in H as (-> & Hnd & Hvs & _ & Hss & _ & _ & _).
  assert (Hcells : ∀ qs : list ptr,
             concat (all_cells (mkBucket 0 <$> qs) (replicate (length qs) [])) = qs).
  { induction qs as [|q qs IHq]; [done|]. simpl. f_equal. exact IHq. }
  split; [|rewrite <- list_fmap_compose; apply list_fmap_id].
  split; st_simpl.
  - by rewrite length_fmap.
  - clear -Hss. induction Hss as [|p ps Hp _ IHs]; simpl; constructor; [|done].
    split_and!; [|done..]. unfold cells, links, next_of, prev_of. simpl.
    by rewrite Hp.
  - by rewrite Hcells.
  - by rewrite Hcells.
  - intros i l [-> _]%lookup_replicate. constructor.
  - apply Forall_replicate. done.
Qed.

Lemma concat_pairs (css : list (list (ptr * Pair))) :
  (concat css).*2 = concat (pairs_of css).
Proof.
  induction css as [|l css IH]; [done|]. simpl. by rewrite fmap_app, IH.
Qed.

Lemma model_lookup_pairs_of css css' key :
  pairs_of css = pairs_of css' → model_lookup css key = model_lookup css' key.
Proof.
  intros E. unfold model_lookup, bucket_of.
  assert (El : (λ l : list (ptr * Pair), l.*2) <$> css !! Z.to_nat (bucket_index_of key)
               = (λ l : list (ptr * Pair), l.*2) <$> css' !! Z.to_nat (bucket_index_of key)).
  { rewrite <- !list_lookup_fmap. unfold pairs_of in E. by rewrite E. }
  assert (Ef : ∀ l l' : list (ptr * Pair), l.*2 = l'.*2 →
               (λ c, second c.2) <$> find_cell key l = (λ c, second c.2) <$> find_cell key l').
  { intros l l' El'. pose proof (find_pair_cells key l) as H1.
    pose proof (find_pair_cells key l') as H2. rewrite El' in H1. rewrite H1 in H2.
    destruct (find_cell key l), (find_cell key l'); simplify_eq/=; congruence. }
  destruct (css !! _) as [l|], (css' !! _) as [l'|]; simplify_eq/=; [by apply Ef|done].
Qed.

(** What two maps with the same pairs in the same buckets show. *)
Lemma same_pairs_same_views s css t tss :
  Inv s css → Inv t tss → pairs_of css = pairs_of tss →
  eval traverse s = eval traverse t ∧ eval HashMap_size s = eval HashMap_size t ∧
  (∀ key, eval (stored_value key) s = eval (stored_value key) t).
Proof.
  intros HI HIt E.
  assert (Ec : (concat css).*2 = (concat tss).*2) by (by rewrite !concat_pairs, E).
  split_and!.
  - by rewrite (traverse_eval _ _ HI), (traverse_eval _ _ HIt), Ec.
  - rewrite (eval_eq _ _ _ _ (HashMap_size_eq _ _ HI)),
      (eval_eq _ _ _ _ (HashMap_size_eq _ _ HIt)).
    by rewrite <- (length_fmap snd (concat css)), Ec, length_fmap.
  - intros key. rewrite (stored_value_eval _ _ key HI), (stored_value_eval _ _ key HIt).
    by rewrite (model_lookup_pairs_of css tss key E).
Qed.

Lemma HashMap_copy_ctor_eq s tss sentinels fresh :
  Inv s tss →
  Z.of_nat (length sentinels) = BUCKET_COUNT →
  NoDup (sentinels ++ fresh) → Forall (usable s) (sentinels ++ fresh) →
  (length (concat tss) ≤ length fresh)%nat →
  ∃ s' css,
    HashMap_copy_ctor (m_buckets s) sentinels fresh s
    = Some (drop (length (concat tss)) fresh, s') ∧
    Inv s' css ∧ pairs_of css = pairs_of tss ∧
    eval traverse s' = eval traverse s ∧
    eval HashMap_size s' = eval HashMap_size s ∧
    (∀ key, eval (stored_value key) s' = eval (stored_value key) s) ∧
    (∀ x, allocated (heap s) x → heap s' !! x = heap s !! x) ∧
    apart s' css (m_buckets s) tss.
Proof.
  intros HIt Hlen Hnd Hus Hfl.
  apply NoDup_app in Hnd as (Hnd1 & Hdis & Hnd2). apply Forall_app in Hus as [Hus1 Hus2].
  destruct (new_Bucket_array_total sentinels s Hnd1) as [[bs s1] Hnew].
  { eapply Forall_impl; [exact Hus1|]. by intros x [? _]. }
  { eapply Forall_impl; [exact Hus1|]. by intros x [_ ?]. }
  destruct (new_Bucket_array_Inv _ _ _ _ Hlen Hnew) as [HI2 Hse2].
  pose proof (new_Bucket_array_inv _ _ _ _ Hnew) as (_ & _ & _ & _ & Hss & Hfr1 & Hb1 & Hoob1).
  set (s2 := with_buckets bs s1) in *.
  assert (Hunalloc : ∀ x, x ∈ sentinels → ¬ allocated (heap s) x).
  { intros x Hx [nd Hnd']. rewrite Forall_forall in Hus1.
    destruct (Hus1 x Hx) as [_ Hf]. congruence. }
  assert (Hkeep : ∀ x, allocated (heap s) x → heap s2 !! x = heap s !! x).
  { intros x Hx. unfold s2. st_simpl. apply Hfr1. intros Hx'. by apply (Hunalloc x). }
  assert (Hn2 : nodes s2 (replicate (length sentinels) []) = sentinels).
  { unfold nodes, s2. st_simpl. rewrite nodes_empty, take_ge, Hse2; [done|].
    apply (f_equal length) in Hse2. rewrite length_fmap in Hse2. lia. }
  assert (HIt_s : Inv (with_buckets (m_buckets s) s) tss) by (by destruct s).
  assert (Ha2 : apart s2 (replicate (length sentinels) []) (m_buckets s) tss).
  { split.
    - eapply (Inv_heap_frame (with_buckets (m_buckets s) s)); [exact HIt_s|done|].
      intros x Hx. st_simpl. apply Hkeep. by apply (Inv_allocated _ _ _ HIt_s).
    - intros x Hx Hx'. rewrite Hn2 in Hx. apply (Hunalloc x Hx).
      by apply (Inv_allocated _ _ _ HIt). }
  assert (Hus' : Forall (usable s2) fresh).
  { rewrite Forall_forall in Hus2 |- *. intros q Hq. destruct (Hus2 q Hq) as [Hqv Hqf].
    split; [done|]. unfold s2. st_simpl. rewrite Hfr1; [done|].
    intros Hq'. by apply (Hdis q). }
  pose proof (Inv_total _ _ HIt) as [Htl _].
  assert (Hrep : replicate (length sentinels) ([] : list (ptr * Pair))
                 = [] ++ replicate (Z.to_nat BUCKET_COUNT) []).
  { simpl. f_equal. lia. }
  rewrite Hrep in HI2, Ha2.
  destruct (HashMap_copy_buckets_eq (m_buckets s) tss (Z.to_nat BUCKET_COUNT) [] s2 fresh
              HI2 Ha2) as (s' & css & Hs' & HI' & Ha' & Hp' & _ & Hse' & Hfr' & Hal');
    [simpl; lia|done|done|done|done|].
  cbn [length drop] in Hs', Hfr', Hal'.
  assert (Hsrc : Inv (with_buckets (m_buckets s) s') tss) by apply Ha'.
  destruct (same_pairs_same_views s' css s tss HI' HIt Hp') as (Htr & Hsz & Hst).
  exists s', css. split_and!; try done.
  - unfold HashMap_copy_ctor. rewrite decide_True by done.
    rewrite (bind_eq _ _ _ _ _ Hnew). unfold bind at 1. exact Hs'.
  - intros x Hx. rewrite Hfr'; [by apply Hkeep| |].
    + unfold s2. st_simpl. rewrite Hse2. intros Hx'. by apply (Hunalloc x).
    + intros Hx'%elem_of_take_full. rewrite Forall_forall in Hus2.
      destruct (Hus2 x Hx') as [_ Hf]. destruct Hx as [nd Hnd']. congruence.
Qed.

(** X13.  The copy constructor builds a deep copy: the new map holds in
    every bucket the pairs of the source in the same order, so that a
    traversal, [size()] and every [find] agree with the source; no node
    allocated before is written or freed; the two maps share no node. *)
Theorem copy_ctor_spec s tss sentinels fresh :
  Inv s tss →
  Z.of_nat (length sentinels) = BUCKET_COUNT →
  NoDup (sentinels ++ fresh) → Forall (usable s) (sentinels ++ fresh) →
  (length (concat tss) ≤ length fresh)%nat →
  ∃ s' css,
    HashMap_copy_ctor (m_buckets s) sentinels fresh s
    = Some (drop (length (concat tss)) fresh, s') ∧
    Inv s' css ∧ pairs_of css = pairs_of tss ∧
    eval traverse s' = eval traverse s ∧
    eval HashMap_size s' = eval HashMap_size s ∧
    (∀ key, eval (stored_value key) s' = eval (stored_value key) s) ∧
    (∀ x, allocated (heap s) x → heap s' !! x = heap s !! x) ∧
    apart s' css (m_buckets s) tss.
Proof. apply HashMap_copy_ctor_eq. Qed.

(** X14.  Copy assignment from another map: the old elements are freed
    (their addresses may be handed out again), then the map is filled
    as by the copy constructor.  Afterwards it shows what the source
    shows, the source is untouched, and the two share no node. *)
Theorem copy_assign_spec s css that tss fresh :
  Inv s css → apart s css that tss → NoDup fresh →
  Forall (λ q, valid_address q ∧ (heap s !! q = None ∨ q ∈ (concat css).*1)) fresh →
  (length (concat tss) ≤ length fresh)%nat →
  ∃ s' css',
    HashMap_copy_assign that fresh s = Some (drop (length (concat tss)) fresh, s') ∧
    Inv s' css' ∧ pairs_of css' = pairs_of tss ∧ apart s' css' that tss ∧
    m_end <$> m_buckets s' = m_end <$> m_buckets s ∧
    eval traverse s' = eval traverse (with_buckets that s) ∧
    eval HashMap_size s' = eval HashMap_size (with_buckets that s) ∧
    (∀ key, eval (stored_value key) s'
            = eval (stored_value key) (with_buckets that s)) ∧
    (∀ x, x ∈ concat (all_cells that tss) → heap s' !! x = heap s !! x) ∧
    (∀ c, c ∈ concat css → c.1 ∉ fresh → heap s' !! c.1 = None).
Proof.
  intros HI Ha Hfnd Hus Hfl.
  destruct (HashMap_clear_changes s css HI) as (s1 & Hs1 & Hch).
  pose proof (changes_Inv _ _ _ _ HI Hch) as HI1.
  destruct (changes_apart _ _ _ _ _ _ HI Hch Ha) as [Ha1 Hfr1].
  pose proof (changes_sentinels _ _ _ _ Hch) as Hse1.
  destruct (changes_to_empty s css s1 _ HI Hch (concat_replicate_nil _)) as (Hfree & _).
  pose proof (Inv_total _ _ HI) as [Hcl _].
  pose proof (apart_inv _ _ _ _ Ha) as HIt. pose proof (Inv_total _ _ HIt) as [Htl _].
  assert (Hn1 : ∀ x, x ∈ nodes s1 (replicate (length css) []) → x ∈ nodes s css).
  { intros x Hx. rewrite (Inv_nodes _ _ HI1), concat_replicate_nil, Hse1 in Hx.
    simpl in Hx. rewrite app_nil_r in Hx.
    rewrite (Inv_nodes _ _ HI). apply elem_of_app. by left. }
  assert (Hus1 : Forall (usable s1) fresh).
  { rewrite Forall_forall in Hus |- *. intros q Hq. destruct (Hus q Hq) as [Hqv Hqf].
    split; [done|]. destruct Hqf as [Hqf|Hqf].
    - destruct (heap s1 !! q) as [nd|] eqn:E; [|done]. exfalso.
      destruct (changes_alloc _ _ _ _ q Hch) as [Hn|[[? Hq'] _]]; [by eexists| |congruence].
      apply Hn1 in Hn. apply (Inv_allocated _ _ _ HI) in Hn as [? Hn]. congruence.
    - apply list_elem_of_fmap in Hqf as (c & -> & Hc). by apply Hfree. }
  assert (Hrep : replicate (length css) ([] : list (ptr * Pair))
                 = [] ++ replicate (Z.to_nat BUCKET_COUNT) []).
  { simpl. f_equal. lia. }
  rewrite Hrep in HI1, Ha1.
  destruct (HashMap_copy_buckets_eq that tss (Z.to_nat BUCKET_COUNT) [] s1 fresh HI1 Ha1)
    as (s' & css' & Hs' & HI' & Ha' & Hp' & _ & Hse' & Hfr' & Hal');
    [simpl; lia|done|done|done|done|].
  cbn [length drop] in Hs', Hfr', Hal'.
  pose proof (apart_inv _ _ _ _ Ha') as HIt'.
  destruct (same_pairs_same_views s' css' _ tss HI' HIt Hp') as (Htr & Hsz & Hst).
  destruct (changes_apart _ _ _ _ _ _ HI Hch Ha) as [_ Hkeep1].
  exists s', css'. split_and!; try done.
  - unfold HashMap_copy_assign. by rewrite (bind_eq _ _ _ _ _ Hs1).
  - congruence.
  - intros x Hx. rewrite <- (Hkeep1 x Hx).
    assert (Hxa : allocated (heap s1) x).
    { unfold allocated. rewrite (Hkeep1 x Hx). by apply (Inv_allocated _ _ _ HIt). }
    apply Hfr'.
    + rewrite Hse1. intros Hx'. apply (apart_nodes _ _ _ _ Ha x); [|done].
      rewrite (Inv_nodes _ _ HI). apply elem_of_app. by left.
    + intros Hx'%elem_of_take_full. rewrite Forall_forall in Hus1.
      destruct (Hus1 x Hx') as [_ Hf]. destruct Hxa as [nd Hnd']. congruence.
  - intros c Hc Hcf. destruct (heap s' !! c.1) as [nd|] eqn:E; [|done]. exfalso.
    assert (Hca : allocated (heap s') c.1) by (by eexists).
    apply Hal' in Hca as [[? Hca]|Hca%elem_of_take_full]; [|done].
    rewrite (Hfree c Hc) in Hca. done.
Qed.

(** ** Writing a pair through a reference *)

Lemma Reference_set_pair_eq s r v :
  allocated (heap s) (m_node r) →
  Reference_set_pair r v s
  = Some (tt, with_heap (set_value (m_node r) v (heap s)) s).
Proof. intros Ha. unfold Reference_set_pair. by apply store_value_eq. Qed.

(** A store of a pair into a data node keeps the invariant when the key of
    the pair belongs to the bucket of the node and matches no other key
    of the bucket. *)
Lemma set_value_Inv s css i b l1 c l2 value :
  Inv s css → bucket_view s css i b (l1 ++ c :: l2) →
  bucket_index_of (first value) = i →
  uniq_keys (l1 ++ (c.1, value) :: l2) →
  Inv (with_heap (set_value c.1 value (heap s)) s)
      (<[Z.to_nat i := l1 ++ (c.1, value) :: l2]> css).
Proof.
  intros HI Hview Hidx Huniq.
  pose proof Hview as [Hat Hb Hl Hall Hr Hnd Hv Hpl Hu].
  assert (Hcells : cells b (l1 ++ (c.1, value) :: l2) = cells b (l1 ++ c :: l2)).
  { unfold cells. by rewrite !fmap_app. }
  assert (Ha : allocated (heap s) c.1).
  { eapply bucket_repr_allocated; [done|]. right. rewrite fmap_app.
    apply elem_of_app. right. by left. }
  assert (Hother : ∀ d, d ∈ l1 ++ l2 → d.1 ≠ c.1).
  { intros d Hd E. unfold cells in Hnd. apply NoDup_cons in Hnd as [_ Hnd].
    rewrite fmap_app in Hnd. simpl in Hnd.
    apply NoDup_app in Hnd as (_ & Hd1 & [Hd2 _]%NoDup_cons).
    apply elem_of_app in Hd as [Hd|Hd].
    - apply (Hd1 d.1); [apply list_elem_of_fmap; by exists d|]. rewrite E. by left.
    - apply Hd2. rewrite <- E. apply list_elem_of_fmap. by exists d. }
  eapply (Inv_update s css i b _ _ b (l1 ++ (c.1, value) :: l2));
    [exact HI|exact Hview| | | | | | | |exact Huniq].
  - st_simpl. by rewrite list_insert_id.
  - destruct Hr as (Hlk & Hvals & Hsz). split_and!.
    + rewrite Hcells. eapply links_ext; [|exact Hlk]. intros x _. st_simpl.
      by heap_simpl.
    + apply Forall_app in Hvals as [Hv1 [_ Hv2]%Forall_cons].
      apply Forall_app. split; [|apply Forall_cons; split].
      * rewrite Forall_forall in Hv1 |- *. intros d Hd. st_simpl.
        assert (d.1 ≠ c.1) by (apply Hother, elem_of_app; auto).
        heap_simpl. by apply Hv1.
      * st_simpl. by heap_simpl.
      * rewrite Forall_forall in Hv2 |- *. intros d Hd. st_simpl.
        assert (d.1 ≠ c.1) by (apply Hother, elem_of_app; auto).
        heap_simpl. by apply Hv2.
    + rewrite Hsz, !length_app. done.
  - by rewrite Hcells.
  - by rewrite Hcells.
  - intros x Hx. left. by rewrite <- Hcells.
  - intros x Hx Hxc. st_simpl.
    assert (x ≠ c.1).
    { intros ->. apply Hxc. right. rewrite fmap_app. apply elem_of_app. right. by left. }
    by heap_simpl.
  - apply Forall_app in Hpl as [Hp1 [_ Hp2]%Forall_cons].
    apply Forall_app. split; [done|]. by apply Forall_cons.
Qed.

(** A key that [find] misses matches the key of no element, in any
    bucket. *)
Lemma absent_everywhere s css key i l d :
  Inv s css → model_lookup css key = None →
  css !! i = Some l → d ∈ l → m_key_equal (first d.2) key = false.
Proof.
  intros HI Hnone Hl Hd.
  destruct (m_key_equal (first d.2) key) eqn:E; [exfalso|done].
  pose proof (inv_place _ _ HI i l Hl) as Hp.
  rewrite Forall_forall in Hp. specialize (Hp d Hd). simpl in Hp.
  assert (Hb : bucket_of css key = l).
  { unfold bucket_of, bucket_index_of in *.
    rewrite <- (hasher_key_equal _ _ E), Hp, Nat2Z.id, Hl. done. }
  unfold model_lookup in Hnone. rewrite Hb in Hnone.
  apply fmap_None, find_cell_None in Hnone.
  rewrite Forall_forall in Hnone. specialize (Hnone d Hd). congruence.
Qed.

(** [find] on a key that no element of its bucket matches: this needs the
    bucket of the key only. *)
Lemma stored_value_miss s css key b l :
  Z.of_nat (length (m_buckets s)) = BUCKET_COUNT →
  bucket_view s css (bucket_index_of key) b l → find_cell key l = None →
  stored_value key s = Some (None, with_oob (BUCKET_COUNT :: oob_reads s) s).
Proof.
  intros Hc Hview Hfind. unfold stored_value.
  rewrite (bind_eq _ _ _ _ _ (HashMap_find_eq _ _ _ _ _ Hview)).
  rewrite (bind_eq _ _ _ _ _ (HashMap_end_eq s Hc)).
  unfold find_cursor. rewrite Hfind.
  unfold IteratorHelper_eq. simpl. by rewrite Z.eqb_refl.
Qed.

Lemma HashMap_erase_miss s css key b l :
  bucket_view s css (bucket_index_of key) b l → find_cell key l = None →
  HashMap_erase key s = Some (tt, s).
Proof. intros Hview Hfind. unfold HashMap_erase. by eapply Bucket_erase_none. Qed.

Lemma different_bucket_different_key k1 k2 :
  bucket_index_of k1 ≠ bucket_index_of k2 → m_key_equal k1 k2 = false.
Proof.
  intros Hne. destruct (m_key_equal k1 k2) eqn:E; [|done].
  exfalso. apply Hne. unfold bucket_index_of. by rewrite (hasher_key_equal _ _ E).
Qed.

End HashMapModel.

(** * A pair with another key written through a cursor

    [Reference::set_pair], and with it [operator=(const ValueT&)], stores
    a whole pair, key included.  The element then sits in the bucket of
    its old key.  The state still satisfies the invariant of a map whose
    hasher sends the new key to that bucket, which is what the proofs
    below use: member functions that do not hash see a sound map,
    [find] and [erase] look in another bucket. *)

Section Rekey.

Context {KeyT MappedT : Type}.
Variable m_hasher : KeyT → Z.
Variable m_key_equal : KeyT → KeyT → bool.
Variable BUCKET_COUNT : Z.
Variable past_the_end : Bucket.

Hypothesis BUCKET_COUNT_range : 0 < BUCKET_COUNT < SIZE_MAX1.
Hypothesis key_equal_refl : ∀ k, m_key_equal k k = true.
Hypothesis key_equal_sym : ∀ a b, m_key_equal a b = true → m_key_equal b a = true.
Hypothesis key_equal_trans :
  ∀ a b c, m_key_equal a b = true → m_key_equal b c = true → m_key_equal a c = true.
Hypothesis hasher_key_equal : ∀ a b, m_key_equal a b = true → m_hasher a = m_hasher b.

Implicit Types (s : State (KeyT:=KeyT) (MappedT:=MappedT)).
Implicit Types (v : Pair (KeyT:=KeyT) (MappedT:=MappedT)).

Lemma rerouted_other key to k :
  m_key_equal k key = false → rerouted m_hasher m_key_equal key to k = m_hasher k.
Proof. unfold rerouted. by intros ->. Qed.

Lemma rerouted_key key to : rerouted m_hasher m_key_equal key to key = m_hasher to.
Proof. unfold rerouted. by rewrite key_equal_refl. Qed.

Lemma key_equal_false_sym a b : m_key_equal a b = false → m_key_equal b a = false.
Proof.
  intros E. destruct (m_key_equal b a) eqn:E'; [|done].
  apply key_equal_sym in E'. congruence.
Qed.

Lemma Inv_rerouted s css key to :
  Inv m_hasher m_key_equal BUCKET_COUNT s css →
  model_lookup m_hasher m_key_equal BUCKET_COUNT css key = None →
  Inv (rerouted m_hasher m_key_equal key to) m_key_equal BUCKET_COUNT s css.
Proof.
  intros HI Hnone. pose proof HI as [Hc Hr Hnd Hv Hp Hu].
  split; try done. intros i l Hl. specialize (Hp i l Hl).
  rewrite Forall_forall in Hp |- *. intros d Hd. unfold bucket_index_of.
  rewrite rerouted_other; [by apply Hp|].
  by eapply absent_everywhere.
Qed.

Lemma stored_value_rerouted key to k :
  m_key_equal k key = false →
  stored_value (MappedT:=MappedT) (rerouted m_hasher m_key_equal key to) m_key_equal
    BUCKET_COUNT past_the_end k
  = stored_value m_hasher m_key_equal BUCKET_COUNT past_the_end k.
Proof.
  intros E. unfold stored_value, HashMap_find, bucket_index_of.
  by rewrite rerouted_other.
Qed.

(** X16.  A pair [v] written with [set_pair] through a cursor on an
    element, where the key of [v] is not in the map and belongs to
    another bucket than the element: a traversal shows [v] in the place
    of the old pair and [size()] is unchanged, but [find] misses the new
    key as well as the old one, and [erase] of the new key does nothing. *)
Theorem set_pair_new_key s css it c rest v :
  Inv m_hasher m_key_equal BUCKET_COUNT s css →
  position BUCKET_COUNT css it (c :: rest) →
  bucket_index_of m_hasher BUCKET_COUNT (first v)
  ≠ bucket_index_of m_hasher BUCKET_COUNT (first c.2) →
  eval (stored_value m_hasher m_key_equal BUCKET_COUNT past_the_end (first v)) s
  = Some None →
  ∃ s' front,
    Reference_set_pair (IteratorHelper_deref it) v s = Some (tt, s') ∧
    eval (traverse BUCKET_COUNT past_the_end) s = Some (front ++ c.2 :: rest.*2) ∧
    eval (traverse BUCKET_COUNT past_the_end) s' = Some (front ++ v :: rest.*2) ∧
    eval (HashMap_size BUCKET_COUNT past_the_end) s'
    = eval (HashMap_size BUCKET_COUNT past_the_end) s ∧
    eval (stored_value m_hasher m_key_equal BUCKET_COUNT past_the_end (first v)) s'
    = Some None ∧
    eval (stored_value m_hasher m_key_equal BUCKET_COUNT past_the_end (first c.2)) s'
    = Some None ∧
    HashMap_erase m_hasher m_key_equal BUCKET_COUNT past_the_end (first v) s'
    = Some (tt, s').
Proof.
  intros HI Hpos Hne Habs.
  erewrite stored_value_eval in Habs by eauto.
  injection Habs as Hnone.
  assert (Hval : value_of (heap s) (m_node (m_ref it)) = Some c.2)
    by (eapply position_value; eauto).
  inversion Hpos as [|it' i l1 c' l2 Hidx Hl Hnode]; subst.
  set (k := first c.2) in *. set (k' := first v) in *.
  assert (Hlt : (i < length css)%nat) by (by eapply lookup_lt_Some).
  assert (Hplace : bucket_index_of m_hasher BUCKET_COUNT k = Z.of_nat i).
  { pose proof (inv_place _ _ _ _ _ HI i _ Hl) as Hp.
    rewrite Forall_forall in Hp. apply (Hp c). apply elem_of_app. right. by left. }
  assert (Ek'k : m_key_equal k' k = false)
    by (by eapply different_bucket_different_key).
  assert (Ekk' : m_key_equal k k' = false) by (by apply key_equal_false_sym).
  assert (Hno : ∀ d, d ∈ l1 ++ c :: l2 → m_key_equal (first d.2) k' = false).
  { intros d Hd. eapply absent_everywhere; eauto. }
  pose proof (Inv_rerouted s css k' k HI Hnone) as HI1.
  set (h' := rerouted m_hasher m_key_equal k' k) in *.
  destruct (Inv_view_nat h' m_key_equal BUCKET_COUNT BUCKET_COUNT_range s css i HI1 Hlt)
    as (b & l & Hview1).
  assert (l = l1 ++ c :: l2) as ->.
  { pose proof (view_cells _ _ _ _ _ _ _ _ Hview1) as E.
    rewrite Nat2Z.id, Hl in E. by injection E. }
  assert (Hidx' : bucket_index_of h' BUCKET_COUNT (first v) = Z.of_nat i).
  { unfold bucket_index_of, h'. fold k'. rewrite rerouted_key. exact Hplace. }
  assert (Huniq2 : uniq_keys m_key_equal (l1 ++ (c.1, v) :: l2)).
  { pose proof (view_uniq _ _ _ _ _ _ _ _ Hview1) as Hu.
    apply (uniq_keys_app m_key_equal BUCKET_COUNT BUCKET_COUNT_range) in Hu
      as (Hu1 & [Hc2 Hu2] & Hx).
    apply (uniq_keys_app m_key_equal BUCKET_COUNT BUCKET_COUNT_range). split_and!; [done|split; [|done]|].
    - rewrite Forall_forall. intros d Hd. simpl. fold k'.
      apply key_equal_false_sym, Hno. apply elem_of_app. right. by right.
    - rewrite Forall_forall in Hx |- *. intros e He. specialize (Hx e He).
      apply Forall_cons in Hx as [_ Hx]. apply Forall_cons. split; [|done].
      simpl. fold k'. apply Hno. apply elem_of_app. by left. }
  pose proof (set_value_Inv h' m_key_equal BUCKET_COUNT BUCKET_COUNT_range
                s css _ b l1 c l2 v
                HI1 Hview1 Hidx' Huniq2) as HI2.
  rewrite Nat2Z.id in HI2.
  set (s' := with_heap (set_value c.1 v (heap s)) s) in *.
  set (css2 := <[i := l1 ++ (c.1, v) :: l2]> css) in *.
  assert (Hcat : concat css = concat (take i css) ++ (l1 ++ c :: l2)
                              ++ concat (drop (S i) css)).
  { rewrite <- (list_insert_id css i _ Hl) at 1. by apply concat_insert_explicit. }
  assert (Hcat2 : concat css2 = concat (take i css) ++ (l1 ++ (c.1, v) :: l2)
                                ++ concat (drop (S i) css))
    by (by apply concat_insert_explicit).
  exists s', ((concat (take i css)).*2 ++ l1.*2).
  set (j := bucket_index_of m_hasher BUCKET_COUNT k') in *.
  assert (Hj : 0 ≤ j < BUCKET_COUNT) by (by apply bucket_index_range).
  destruct (Inv_view h' m_key_equal BUCKET_COUNT BUCKET_COUNT_range s' css2 j HI2 Hj)
    as (bj & lj & Vj).
  assert (Hji : i ≠ Z.to_nat j) by (intros E; apply Hne; rewrite Hplace; lia).
  assert (Hlj : css !! Z.to_nat j = Some lj).
  { pose proof (view_cells _ _ _ _ _ _ _ _ Vj) as E. unfold css2 in E.
    by rewrite list_lookup_insert_ne in E. }
  assert (Vj' : bucket_view m_hasher m_key_equal BUCKET_COUNT s' css j bj lj).
  { destruct Vj as [Hat Hb Hc Hall Hr Hnd Hv Hpl Hu]. split; try done.
    - unfold all_cells. rewrite lookup_zip_with, Hb. simpl. by rewrite Hlj.
    - pose proof (inv_place _ _ _ _ _ HI (Z.to_nat j) lj Hlj) as Hp.
      rewrite Z2Nat.id in Hp by lia. exact Hp. }
  assert (Hfj : find_cell m_key_equal k' lj = None).
  { unfold model_lookup, bucket_of in Hnone. fold j in Hnone.
    rewrite Hlj in Hnone. simpl in Hnone. by apply fmap_None in Hnone. }
  split_and!.
  - unfold IteratorHelper_deref. rewrite Reference_set_pair_eq; [by rewrite Hnode|].
    unfold allocated. unfold value_of in Hval.
    destruct (heap s !! m_node (m_ref it)); [by eexists|done].
  - assert (Ht : eval (traverse BUCKET_COUNT past_the_end) s = Some (concat css).*2)
      by (eapply traverse_eval; eauto).
    rewrite Ht, Hcat. f_equal. rewrite !fmap_app. simpl. by rewrite <- !app_assoc.
  - assert (Ht : eval (traverse BUCKET_COUNT past_the_end) s' = Some (concat css2).*2)
      by (eapply traverse_eval; eauto).
    rewrite Ht, Hcat2. f_equal. rewrite !fmap_app. simpl. by rewrite <- !app_assoc.
  - assert (Hn : ∀ (t : State (KeyT:=KeyT) (MappedT:=MappedT)) tss,
                Inv h' m_key_equal BUCKET_COUNT t tss →
                eval (HashMap_size BUCKET_COUNT past_the_end) t
                = Some (Z.of_nat (length (concat tss)))).
    { intros t tss Ht. eapply eval_eq, HashMap_size_eq; eauto. }
    rewrite (Hn _ _ HI2), (Hn _ _ HI1). do 2 f_equal. rewrite Hcat, Hcat2, !length_app. done.
  - eapply eval_eq, stored_value_miss; [exact BUCKET_COUNT_range| |exact Vj'|exact Hfj].
    exact (inv_count _ _ _ _ _ HI2).
  - rewrite <- (stored_value_rerouted k' k k Ekk').
    erewrite stored_value_eval by eauto. f_equal.
    unfold model_lookup, bucket_of, bucket_index_of, h'.
    rewrite rerouted_other by done.
    fold (bucket_index_of m_hasher BUCKET_COUNT k). rewrite Hplace, Nat2Z.id.
    unfold css2. rewrite list_lookup_insert_eq by done. simpl.
    apply fmap_None.
    apply (find_cell_None m_key_equal BUCKET_COUNT BUCKET_COUNT_range).
    pose proof (view_uniq _ _ _ _ _ _ _ _ Hview1) as Hu.
    pose proof (uniq_keys_others m_key_equal BUCKET_COUNT BUCKET_COUNT_range
                  key_equal_sym key_equal_trans l1 c l2 k Hu (key_equal_refl _)) as Ho.
    apply Forall_app in Ho as [Ho1 Ho2].
    rewrite Forall_app, Forall_cons. split_and!; [done|exact Ek'k|done].
  - eapply HashMap_erase_miss; [exact BUCKET_COUNT_range|exact Vj'|exact Hfj].
Qed.

End Rekey.

(** * An instance: [HashMap<int, char, 10>] *)

Module IntChar.

(** [std::hash<int>]: the value converted to [size_t]; [std::equal_to<int>];
    [int()] and [char()] are 0; characters are their codes. *)
Definition hash (k : Z) : Z := k mod SIZE_MAX1.
Definition key_equal (a b : Z) : bool := a =? b.
Definition BUCKET_COUNT : Z := 10.
Definition past_the_end : Bucket := mkBucket 0 0.

Definition state : Type := State (KeyT:=Z) (MappedT:=Z).

Definition insert (key value fresh : Z) :=
  HashMap_insert hash key_equal 0 0 BUCKET_COUNT past_the_end key value fresh.
Definition size_of := HashMap_size (KeyT:=Z) (MappedT:=Z) BUCKET_COUNT past_the_end.
Definition stored (key : Z) :=
  stored_value (MappedT:=Z) hash key_equal BUCKET_COUNT past_the_end key.

(** The map of the unit test: [{1,'A'}, {2,'B'}, {3,'D'}, {13,'E'}], with
    sentinels at addresses 1 to 10 and the nodes at 11 to 14. *)
Definition sentinels : list Z := [1; 2; 3; 4; 5; 6; 7; 8; 9; 10].
Definition demo_ops : list (Op (KeyT:=Z) (MappedT:=Z)) :=
  [OpInsert 1 65 11; OpInsert 2 66 12; OpInsert 3 68 13; OpInsert 13 69 14].

Definition empty_map : state :=
  default (mkState ∅ [] []) (HashMap_ctor 0 0 BUCKET_COUNT sentinels).

Definition demo : state :=
  default empty_map
    (exec (run_ops hash key_equal 0 0 BUCKET_COUNT past_the_end demo_ops) empty_map).

Definition demo_css : list (list (Z * Pair (KeyT:=Z) (MappedT:=Z))) :=
  [ []; [(11, make_pair 1 65)]; [(12, make_pair 2 66)];
    [(13, make_pair 3 68); (14, make_pair 13 69)]; []; []; []; []; []; [] ].

Definition insert_or_assign (key value fresh : Z) :=
  HashMap_insert_or_assign hash key_equal 0 0 BUCKET_COUNT past_the_end key value fresh.

Definition erase (key : Z) :=
  HashMap_erase (MappedT:=Z) hash key_equal BUCKET_COUNT past_the_end key.

Definition erase_at (position : IteratorHelper) :=
  HashMap_erase_at (MappedT:=Z) hash key_equal BUCKET_COUNT past_the_end position.

Definition subscript (key fresh : Z) :=
  HashMap_subscript hash key_equal 0 0 BUCKET_COUNT past_the_end key fresh.

Definition find (key : Z) :=
  HashMap_find (MappedT:=Z) hash key_equal BUCKET_COUNT past_the_end key.

Definition begin := HashMap_begin (KeyT:=Z) (MappedT:=Z) BUCKET_COUNT past_the_end.

Definition end_ := HashMap_end (KeyT:=Z) (MappedT:=Z) BUCKET_COUNT past_the_end.

Definition empty := HashMap_empty (KeyT:=Z) (MappedT:=Z) BUCKET_COUNT past_the_end.

Definition walk := traverse (KeyT:=Z) (MappedT:=Z) BUCKET_COUNT past_the_end.

Definition clear := HashMap_clear (KeyT:=Z) (MappedT:=Z) BUCKET_COUNT past_the_end.

Definition destroy := HashMap_dtor (KeyT:=Z) (MappedT:=Z) BUCKET_COUNT past_the_end.

Definition erase_each := erase_all (MappedT:=Z) hash key_equal BUCKET_COUNT past_the_end.

Definition from_range :=
  HashMap_ctor_range hash key_equal 0 0 BUCKET_COUNT past_the_end.

Definition copy_ctor :=
  HashMap_copy_ctor (KeyT:=Z) (MappedT:=Z) 0 0 BUCKET_COUNT past_the_end.

Definition copy_assign :=
  HashMap_copy_assign (KeyT:=Z) (MappedT:=Z) 0 0 BUCKET_COUNT past_the_end.

Definition run := run_ops hash key_equal 0 0 BUCKET_COUNT past_the_end.

(** The initializer list of the unit test with a second pair for the key 3,
    and the addresses [new] returns for it. *)
Definition demo_items : list (Pair (KeyT:=Z) (MappedT:=Z) * Z) :=
  [ (make_pair 1 65, 11); (make_pair 2 66, 12); (make_pair 3 68, 13);
    (make_pair 3 65, 14); (make_pair 13 69, 15) ].

(** A copy of [demo] constructed beside it, with sentinels at 21 to 30 and
    nodes at 31 to 34; the state keeps the bucket array of the copy, the
    array of [demo] is [m_buckets demo]. *)
Definition copy_sentinels : list Z := [21; 22; 23; 24; 25; 26; 27; 28; 29; 30].
Definition copy_nodes : list Z := [31; 32; 33; 34].

Definition both : state :=
  default demo (exec (copy_ctor (m_buckets demo) copy_sentinels copy_nodes) demo).

Definition copy_ops : list (Op (KeyT:=Z) (MappedT:=Z)) :=
  [OpErase 3; OpInsert 5 70 45; OpSubscript 1 46].

Definition both_after : state := default both (exec (run copy_ops) both).

Lemma bucket_count_range : 0 < BUCKET_COUNT < SIZE_MAX1.
Proof. done. Qed.
Lemma int_equal_refl k : key_equal k k = true.
Proof. apply Z.eqb_refl. Qed.
Lemma int_equal_sym a b : key_equal a b = true → key_equal b a = true.
Proof. unfold key_equal. by rewrite Z.eqb_sym. Qed.
Lemma int_equal_trans a b c :
  key_equal a b = true → key_equal b c = true → key_equal a c = true.
Proof. unfold key_equal. rewrite !Z.eqb_eq. congruence. Qed.
Lemma hash_int_equal a b : key_equal a b = true → hash a = hash b.
Proof. unfold key_equal. rewrite Z.eqb_eq. congruence. Qed.

Lemma empty_map_ctor : HashMap_ctor 0 0 BUCKET_COUNT sentinels = Some empty_map.
Proof. vm_compute. reflexivity. Qed.

Lemma demo_run :
  run_ops hash key_equal 0 0 BUCKET_COUNT past_the_end demo_ops empty_map = Some (tt, demo).
Proof. vm_compute. reflexivity. Qed.

Lemma empty_map_Inv : Inv hash key_equal BUCKET_COUNT empty_map (replicate 10 []).
Proof.
  exact (proj1 (HashMap_ctor_Inv hash key_equal 0 0 BUCKET_COUNT bucket_count_range
                  sentinels empty_map empty_map_ctor)).
Qed.

Lemma demo_Inv : Inv hash key_equal BUCKET_COUNT demo demo_css.
Proof.
  pose proof empty_map_Inv as H0.
  assert (H1 : ∃ s1, insert 1 65 11 empty_map = Some s1) by (vm_compute; eauto).
  destruct H1 as [[r1 s1] H1].
  pose proof (HashMap_insert_model hash key_equal 0 0 BUCKET_COUNT past_the_end
                bucket_count_range _ _ 1 65 11 r1 s1 H0 eq_refl H1) as HI1.
  assert (H2 : ∃ s2, insert 2 66 12 s1 = Some s2).
  { vm_compute in H1. injection H1 as <- <-. vm_compute. eauto. }
  destruct H2 as [[r2 s2] H2].
  pose proof (HashMap_insert_model hash key_equal 0 0 BUCKET_COUNT past_the_end
                bucket_count_range _ _ 2 66 12 r2 s2 HI1 eq_refl H2) as HI2.
  assert (H3 : ∃ s3, insert 3 68 13 s2 = Some s3).
  { vm_compute in H1. injection H1 as <- <-.
    vm_compute in H2. injection H2 as <- <-. vm_compute. eauto. }
  destruct H3 as [[r3 s3] H3].
  pose proof (HashMap_insert_model hash key_equal 0 0 BUCKET_COUNT past_the_end
                bucket_count_range _ _ 3 68 13 r3 s3 HI2 eq_refl H3) as HI3.
  assert (H4 : ∃ s4, insert 13 69 14 s3 = Some s4).
  { vm_compute in H1. injection H1 as <- <-.
    vm_compute in H2. injection H2 as <- <-.
    vm_compute in H3. injection H3 as <- <-. vm_compute. eauto. }
  destruct H4 as [[r4 s4] H4].
  pose proof (HashMap_insert_model hash key_equal 0 0 BUCKET_COUNT past_the_end
                bucket_count_range _ _ 13 69 14 r4 s4 HI3 eq_refl H4) as HI4.
  vm_compute in H1. injection H1 as <- <-.
  vm_compute in H2. injection H2 as <- <-.
  vm_compute in H3. injection H3 as <- <-.
  vm_compute in H4. injection H4 as <- <-.
  exact HI4.
Qed.

Lemma usable_15 : valid_address 15 ∧ heap demo !! 15 = None.
Proof. split; [unfold valid_address, SIZE_MAX1; lia|]. vm_compute. reflexivity. Qed.

Lemma insert_spec_witness :
  (∃ it s', insert 5 70 15 demo = Some ((it, true), s') ∧
            eval size_of s' = Some 5 ∧ eval (stored 5) s' = Some (Some 70)) ∧
  (∃ it, insert 3 65 15 demo = Some ((it, false), demo) ∧
         eval (Reference_get (IteratorHelper_deref it)) demo = Some 68).
Proof.
  destruct (insert_spec hash key_equal 0 0 BUCKET_COUNT past_the_end
              bucket_count_range int_equal_refl demo demo_css 5 70 15 demo_Inv)
    as (n & Hn & Habsent & _).
  destruct (insert_spec hash key_equal 0 0 BUCKET_COUNT past_the_end
              bucket_count_range int_equal_refl demo demo_css 3 65 15 demo_Inv)
    as (_ & _ & _ & Hpresent).
  vm_compute in Hn. injection Hn as <-.
  split.
  - destruct Habsent as (it & s' & css' & H1 & _ & _ & _ & H5 & H6);
      [vm_compute; reflexivity|apply usable_15..|].
    exists it, s'. auto.
  - destruct (Hpresent 68) as (it & H1 & _ & H3); [vm_compute; reflexivity|].
    exists it. auto.
Defined.

Lemma erase_spec_witness :
  erase 7 demo = Some (tt, demo) ∧
  (∃ s', erase 3 demo = Some (tt, s') ∧ eval size_of s' = Some 3 ∧
         eval walk s' = Some [make_pair 1 65; make_pair 2 66; make_pair 13 69] ∧
         eval (stored 3) s' = Some None).
Proof.
  destruct (erase_spec hash key_equal BUCKET_COUNT past_the_end bucket_count_range
              int_equal_sym int_equal_trans demo demo_css 7 demo_Inv)
    as (_ & _ & _ & _ & Habsent & _).
  destruct (erase_spec hash key_equal BUCKET_COUNT past_the_end bucket_count_range
              int_equal_sym int_equal_trans demo demo_css 3 demo_Inv)
    as (n & pairs & Hn & Hp & _ & Hpresent).
  vm_compute in Hn. injection Hn as <-.
  split.
  - apply Habsent. vm_compute. reflexivity.
  - destruct (Hpresent 68)
      as (s' & css' & before & k & after & it & e & H1 & _ & H3 & _ & _ & _ & _ & _ & _ & H10);
      [vm_compute; reflexivity|].
    exists s'. split_and!; [exact H1|exact H3| |exact H10].
    vm_compute in H1. injection H1 as <-. vm_compute. reflexivity.
Defined.

Lemma insert_or_assign_spec_witness :
  (∃ it s', insert_or_assign 1 66 15 demo = Some (it, s') ∧
            eval (stored 1) s' = Some (Some 66) ∧ eval size_of s' = Some 4) ∧
  (∃ it s', insert_or_assign 5 70 15 demo = Some (it, s') ∧
            eval (stored 5) s' = Some (Some 70) ∧ eval size_of s' = Some 5).
Proof.
  destruct (insert_or_assign_spec hash key_equal 0 0 BUCKET_COUNT past_the_end
              bucket_count_range int_equal_refl int_equal_sym int_equal_trans
              demo demo_css 1 66 15 demo_Inv)
    as (n & Hn & Hpresent & _).
  destruct (insert_or_assign_spec hash key_equal 0 0 BUCKET_COUNT past_the_end
              bucket_count_range int_equal_refl int_equal_sym int_equal_trans
              demo demo_css 5 70 15 demo_Inv)
    as (n' & Hn' & _ & Habsent).
  vm_compute in Hn. injection Hn as <-. vm_compute in Hn'. injection Hn' as <-.
  split.
  - destruct (Hpresent 65) as (it & s' & css' & H1 & _ & _ & _ & _ & H6 & H7);
      [vm_compute; reflexivity|].
    exists it, s'. auto.
  - destruct Habsent as (it & s' & css' & H1 & _ & _ & H4 & H5);
      [vm_compute; reflexivity|apply usable_15..|].
    exists it, s'. auto.
Defined.

Lemma subscript_spec_witness :
  (∃ r s', subscript 2 15 demo = Some (r, s') ∧ eval (Reference_get r) s' = Some 66 ∧
           eval size_of s' = Some 4) ∧
  (∃ r s', subscript 5 15 demo = Some (r, s') ∧ eval (Reference_get r) s' = Some 0 ∧
           eval size_of s' = Some 5).
Proof.
  destruct (subscript_spec hash key_equal 0 0 BUCKET_COUNT past_the_end
              bucket_count_range int_equal_refl demo demo_css 2 15 demo_Inv)
    as (n & Hn & Hpresent & _).
  destruct (subscript_spec hash key_equal 0 0 BUCKET_COUNT past_the_end
              bucket_count_range int_equal_refl demo demo_css 5 15 demo_Inv)
    as (n' & Hn' & _ & Habsent).
  vm_compute in Hn. injection Hn as <-. vm_compute in Hn'. injection Hn' as <-.
  split.
  - destruct (Hpresent 66) as (r & s' & H1 & _ & H3 & H4); [vm_compute; reflexivity|].
    exists r, s'. auto.
  - destruct Habsent as (r & s' & css' & H1 & _ & _ & H4 & H5 & _);
      [vm_compute; reflexivity|apply usable_15..|].
    exists r, s'. auto.
Defined.

Lemma reachable_invariants_witness :
  Inv hash key_equal BUCKET_COUNT demo demo_css ∧
  (∀ i l c, demo_css !! i = Some l → c ∈ l →
            hash (first c.2) mod BUCKET_COUNT = Z.of_nat i) ∧
  hash 13 mod BUCKET_COUNT = 3 ∧
  demo_css !! 3%nat = Some [(13, make_pair 3 68); (14, make_pair 13 69)] ∧
  (∃ front c back l,
     concat demo_css = front ++ c :: back ∧ first c.2 = 13 ∧ second c.2 = 69 ∧
     demo_css !! Z.to_nat (hash 13 mod BUCKET_COUNT) = Some l ∧ c ∈ l ∧
     Forall (λ d, key_equal (first d.2) 13 = false) (front ++ back)) ∧
  eval size_of demo = Some 4.
Proof.
  destruct (reachable_invariants hash key_equal 0 0 BUCKET_COUNT past_the_end
              bucket_count_range int_equal_refl int_equal_sym int_equal_trans
              hash_int_equal sentinels demo_ops empty_map demo
              empty_map_ctor demo_run)
    as (css & HI & _ & Hplace & Hlive & _ & Hsize & _).
  assert (E : css = demo_css).
  { exact (Inv_unique hash key_equal BUCKET_COUNT bucket_count_range
             demo css demo_css HI demo_Inv). }
  subst css.
  split_and!; [exact HI|exact Hplace|reflexivity|reflexivity| |].
  - destruct (Hlive 13 69) as (front & c & back & l & H1 & H2 & H3 & H4 & H5 & H6);
      [vm_compute; reflexivity|].
    exists front, c, back, l.
    split_and!; [exact H1| |exact H3|exact H4|exact H5|exact H6].
    unfold key_equal in H2. apply Z.eqb_eq in H2. exact H2.
  - etrans; [exact Hsize|vm_compute; reflexivity].
Defined.

Lemma traverse_spec_witness :
  eval walk demo
  = Some [make_pair 1 65; make_pair 2 66; make_pair 3 68; make_pair 13 69].
Proof.
  destruct (traverse_spec hash key_equal 0 0 BUCKET_COUNT past_the_end
              bucket_count_range int_equal_refl hash_int_equal demo demo_css demo_Inv)
    as (pairs & H & -> & _).
  exact H.
Defined.

Lemma begin_end_empty_witness :
  (∃ b e, eval begin demo = Some b ∧ eval end_ demo = Some e ∧
          IteratorHelper_eq BUCKET_COUNT b e = false) ∧
  (∃ b e, eval begin empty_map = Some b ∧ eval end_ empty_map = Some e ∧
          IteratorHelper_eq BUCKET_COUNT b e = true).
Proof.
  destruct (begin_end_empty hash key_equal BUCKET_COUNT past_the_end bucket_count_range
              demo demo_css demo_Inv)
    as (b & e & em & n & pairs & Hb & He & Hem & _ & _ & Heq & _).
  destruct (begin_end_empty hash key_equal BUCKET_COUNT past_the_end bucket_count_range
              empty_map (replicate 10 []) empty_map_Inv)
    as (b' & e' & em' & n' & pairs' & Hb' & He' & Hem' & _ & _ & Heq' & _).
  vm_compute in Hem. injection Hem as <-. vm_compute in Hem'. injection Hem' as <-.
  split; [exists b, e|exists b', e']; auto.
Defined.

Lemma erase_at_spec_witness :
  ∃ next s',
    erase_at (mkIterator 3 (mkReference 13)) demo = Some (next, s') ∧
    next = mkIterator 3 (mkReference 14) ∧
    traverse_loop BUCKET_COUNT past_the_end (S (size (heap s'))) next
      (end_cursor BUCKET_COUNT) s' = Some ([make_pair 13 69], s').
Proof.
  destruct (erase_at_spec hash key_equal BUCKET_COUNT past_the_end bucket_count_range
              int_equal_refl int_equal_sym int_equal_trans demo demo_css
              (mkIterator 3 (mkReference 13)) (13, make_pair 3 68)
              ([(14, make_pair 13 69)] ++ concat (drop 4 demo_css)))
    as (next & s' & css' & front & Hnext & _ & _ & He & _ & _ & _ & _ & _ & Hwalk).
  - exact demo_Inv.
  - apply (position_on BUCKET_COUNT demo_css _ 3 [] (13, make_pair 3 68)
             [(14, make_pair 13 69)]); reflexivity.
  - exists next, s'. split_and!; [exact He| |exact Hwalk].
    vm_compute in Hnext. by injection Hnext as <-.
Defined.

Lemma reference_spec_witness :
  Reference_get (mkReference 11) demo = Some (65, demo) ∧
  (∃ s', Reference_set_pair (mkReference 11) (make_pair 1 90) demo = Some (tt, s') ∧
         Reference_get (mkReference 11) s' = Some (90, s')) ∧
  Reference_set (mkReference 11) 90 demo
  = Reference_set_pair (mkReference 11) (make_pair 1 90) demo.
Proof.
  destruct (reference_spec demo (mkReference 11) 1 65) as (H1 & _ & H3 & _ & H4).
  - vm_compute. reflexivity.
  - split_and!; [exact H1| |exact (H3 90)].
    destruct (H4 (make_pair 1 90)) as (s' & Hs & _ & Hg & _). exists s'. auto.
Defined.

(** C10.  [end()] on the default-constructed map reads [m_buckets[10]],
    one past the last bucket; so does [begin()], the map being empty;
    [find] on a miss stays inside the array. *)
Theorem end_reads_past_the_array :
  bucket_at (m_buckets empty_map) BUCKET_COUNT = None ∧
  (oob_reads <$> exec end_ empty_map) = Some [10] ∧
  (oob_reads <$> exec begin empty_map) = Some [10] ∧
  (oob_reads <$> exec (find 7) empty_map) = Some [].
Proof. vm_compute. auto. Qed.

Ltac usable_list :=
  repeat (apply List.Forall_cons;
          [split; [unfold valid_address, SIZE_MAX1; lia|vm_compute; reflexivity]|]);
  apply List.Forall_nil.

Lemma nodup_copy : NoDup (copy_sentinels ++ copy_nodes).
Proof. apply (bool_decide_unpack _). vm_compute. exact I. Qed.

Lemma usable_copy : Forall (usable demo) (copy_sentinels ++ copy_nodes).
Proof. unfold copy_sentinels, copy_nodes. simpl. usable_list. Qed.

(** The copy and [demo] are two maps of one heap. *)
Lemma both_apart :
  ∃ css, Inv hash key_equal BUCKET_COUNT both css ∧
         apart hash key_equal BUCKET_COUNT both css (m_buckets demo) demo_css.
Proof.
  destruct (HashMap_copy_ctor_eq hash key_equal 0 0 BUCKET_COUNT past_the_end
              bucket_count_range demo demo_css copy_sentinels copy_nodes
              demo_Inv eq_refl nodup_copy usable_copy)
    as (s' & css & Hc & HI & _ & _ & _ & _ & _ & Ha); [simpl; lia|].
  exists css. unfold both, copy_ctor, exec. rewrite Hc. simpl. auto.
Qed.

Lemma find_spec_witness :
  (∃ it, find 3 demo = Some (it, demo) ∧
         Reference_get_pair (IteratorHelper_deref it) demo
         = Some (make_pair 3 68, demo)) ∧
  (∃ it e, find 7 demo = Some (it, demo) ∧ eval end_ demo = Some e ∧
           IteratorHelper_eq BUCKET_COUNT it e = true).
Proof.
  destruct (find_spec hash key_equal BUCKET_COUNT past_the_end bucket_count_range
              hash_int_equal demo demo_css 3 demo_Inv)
    as (it & e & pairs & Hf & He & Hp & Hm).
  destruct (find_spec hash key_equal BUCKET_COUNT past_the_end bucket_count_range
              hash_int_equal demo demo_css 7 demo_Inv)
    as (it' & e' & pairs' & Hf' & He' & Hp' & Hm').
  vm_compute in Hp. injection Hp as <-. vm_compute in Hp'. injection Hp' as <-.
  simpl in Hm, Hm'. destruct Hm as (_ & _ & Hg & _).
  split; [exists it|exists it', e']; auto.
Defined.

Lemma other_keys_untouched_witness :
  (∃ s', erase 3 demo = Some (tt, s') ∧ eval (stored 13) s' = Some (Some 69)) ∧
  (∃ r s', insert_or_assign 3 90 15 demo = Some (r, s') ∧
           eval (stored 13) s' = Some (Some 69)).
Proof.
  destruct (other_keys_untouched hash key_equal 0 0 BUCKET_COUNT past_the_end
              bucket_count_range int_equal_sym int_equal_trans
              demo demo_css 3 13 90 15 demo_Inv usable_15 eq_refl)
    as (o & Ho & _ & Hassign & Herase & _).
  vm_compute in Ho. injection Ho as <-. auto.
Defined.

Lemma insert_erase_round_trip_witness :
  ∃ it s1, insert 5 70 15 demo = Some ((it, true), s1) ∧
           erase 5 s1 = Some (tt, demo).
Proof.
  apply (insert_erase_round_trip hash key_equal 0 0 BUCKET_COUNT past_the_end
           bucket_count_range int_equal_refl int_equal_sym int_equal_trans
           demo demo_css 5 70 15 demo_Inv usable_15).
  vm_compute. reflexivity.
Defined.

Lemma subscript_set_spec_witness :
  (∃ r s1 s2, subscript 2 15 demo = Some (r, s1) ∧
              Reference_set r 90 s1 = Some (tt, s2) ∧
              eval (stored 2) s2 = Some (Some 90) ∧ eval size_of s2 = Some 4) ∧
  (∃ r s1 s2, subscript 5 15 demo = Some (r, s1) ∧
              Reference_set r 90 s1 = Some (tt, s2) ∧
              eval (stored 5) s2 = Some (Some 90) ∧ eval size_of s2 = Some 5).
Proof.
  destruct (subscript_set_spec hash key_equal 0 0 BUCKET_COUNT past_the_end
              bucket_count_range int_equal_refl int_equal_sym int_equal_trans
              demo demo_css 2 90 15 demo_Inv usable_15)
    as (n & o & r & s1 & s2 & css2 & Hn & Ho & H1 & H2 & _ & H3 & H4 & _).
  destruct (subscript_set_spec hash key_equal 0 0 BUCKET_COUNT past_the_end
              bucket_count_range int_equal_refl int_equal_sym int_equal_trans
              demo demo_css 5 90 15 demo_Inv usable_15)
    as (n' & o' & r' & s1' & s2' & css2' & Hn' & Ho' & H1' & H2' & _ & H3' & H4' & _).
  vm_compute in Hn. injection Hn as <-. vm_compute in Ho. injection Ho as <-.
  vm_compute in Hn'. injection Hn' as <-. vm_compute in Ho'. injection Ho' as <-.
  split; [exists r, s1, s2|exists r', s1', s2']; auto.
Defined.

Lemma clear_spec_witness :
  ∃ s', clear demo = Some (tt, s') ∧ eval size_of s' = Some 0 ∧
        eval walk s' = Some [] ∧ heap s' !! 13 = None ∧ allocated (heap s') 4.
Proof.
  destruct (clear_spec hash key_equal 0 0 BUCKET_COUNT past_the_end
              bucket_count_range int_equal_sym int_equal_trans
              demo demo_css demo_Inv)
    as (s' & css' & H1 & _ & H2 & _ & H3 & _ & H4 & _ & H5 & _).
  exists s'. split_and!; [exact H1|exact H2|exact H3| |].
  - apply (H4 (13, make_pair 3 68)). apply list_elem_of_In. simpl. tauto.
  - apply (H5 (mkBucket 2 4)). apply list_elem_of_In. vm_compute. tauto.
Defined.

Lemma range_ctor_spec_witness :
  ∃ s, from_range sentinels demo_items = Some s ∧ eval size_of s = Some 4 ∧
       eval (stored 3) s = Some (Some 68) ∧ eval (stored 7) s = Some None.
Proof.
  destruct (range_ctor_spec hash key_equal 0 0 BUCKET_COUNT past_the_end
              bucket_count_range int_equal_refl int_equal_sym int_equal_trans
              hash_int_equal sentinels demo_items)
    as (s & css & pairs & H1 & _ & _ & _ & H2 & H3).
  - reflexivity.
  - apply (bool_decide_unpack _). vm_compute. exact I.
  - unfold sentinels, demo_items. simpl.
    repeat (apply List.Forall_cons; [unfold valid_address, SIZE_MAX1; lia|]).
    apply List.Forall_nil.
  - exists s. split_and!; [exact H1|exact H2|exact (H3 3)|exact (H3 7)].
Defined.

Lemma erase_all_spec_witness :
  ∃ s', erase_each demo = Some (tt, s') ∧ eval size_of s' = Some 0 ∧
        eval walk s' = Some [] ∧ heap s' !! 11 = None.
Proof.
  destruct (erase_all_spec hash key_equal 0 0 BUCKET_COUNT past_the_end
              bucket_count_range int_equal_refl int_equal_sym int_equal_trans
              demo demo_css demo_Inv)
    as (s' & css' & H1 & _ & H2 & _ & H3 & H4 & _).
  exists s'. split_and!; [exact H1|exact H2|exact H3|].
  apply (H4 (11, make_pair 1 65)). apply list_elem_of_In. simpl. tauto.
Defined.

Lemma reachable_no_leak_witness :
  Z.of_nat (size (heap demo)) = 14 ∧ m_end <$> m_buckets demo = sentinels.
Proof.
  destruct (reachable_no_leak hash key_equal 0 0 BUCKET_COUNT past_the_end
              bucket_count_range int_equal_refl int_equal_sym int_equal_trans
              sentinels demo_ops empty_map demo empty_map_ctor demo_run)
    as (css & n & _ & Hn & He & _ & _ & Hs).
  vm_compute in Hn. injection Hn as <-. auto.
Defined.

Lemma destructor_leaves_sentinels_witness :
  ∃ s', destroy demo = Some (tt, s') ∧ m_buckets s' = [] ∧
        Z.of_nat (size (heap s')) = 10 ∧ allocated (heap s') 1.
Proof.
  destruct (destructor_leaves_sentinels hash key_equal 0 0 BUCKET_COUNT past_the_end
              bucket_count_range int_equal_refl int_equal_sym int_equal_trans
              sentinels demo_ops empty_map demo empty_map_ctor demo_run)
    as (s' & H1 & H2 & H3 & H4).
  exists s'. split_and!; [exact H1|exact H2|exact H4|].
  apply H3. apply list_elem_of_In. simpl. tauto.
Defined.



Lemma find_cursors_equal_witness :
  (∃ it1 it2, find 7 demo = Some (it1, demo) ∧ find 17 demo = Some (it2, demo) ∧
              IteratorHelper_eq BUCKET_COUNT it1 it2 = true) ∧
  (∃ it1 it2, find 3 demo = Some (it1, demo) ∧ find 3 demo = Some (it2, demo) ∧
              IteratorHelper_eq BUCKET_COUNT it1 it2 = true).
Proof.
  destruct (find_cursors_equal hash key_equal BUCKET_COUNT past_the_end
              bucket_count_range int_equal_sym int_equal_trans hash_int_equal
              demo demo_css 7 17 demo_Inv)
    as (it1 & it2 & o1 & o2 & H1 & H2 & Ho1 & Ho2 & Heq).
  destruct (find_cursors_equal hash key_equal BUCKET_COUNT past_the_end
              bucket_count_range int_equal_sym int_equal_trans hash_int_equal
              demo demo_css 3 3 demo_Inv)
    as (it1' & it2' & o1' & o2' & H1' & H2' & Ho1' & Ho2' & Heq').
  vm_compute in Ho1. injection Ho1 as <-. vm_compute in Ho2. injection Ho2 as <-.
  vm_compute in Ho1'. injection Ho1' as <-.
  split; [exists it1, it2|exists it1', it2']; split_and!; auto.
  - apply Heq. left. split; reflexivity.
  - apply Heq'. right. split; [exists 68; reflexivity|reflexivity].
Defined.

Lemma copy_ctor_spec_witness :
  ∃ s', copy_ctor (m_buckets demo) copy_sentinels copy_nodes demo = Some ([], s') ∧
        eval walk s'
        = Some [make_pair 1 65; make_pair 2 66; make_pair 3 68; make_pair 13 69] ∧
        eval size_of s' = Some 4 ∧ heap s' !! 13 = heap demo !! 13.
Proof.
  destruct (copy_ctor_spec hash key_equal 0 0 BUCKET_COUNT past_the_end
              bucket_count_range demo demo_css copy_sentinels copy_nodes
              demo_Inv eq_refl nodup_copy usable_copy)
    as (s' & css & H1 & _ & _ & H2 & H3 & _ & H4 & _); [simpl; lia|].
  exists s'. split_and!; [exact H1|etrans; [exact H2|vm_compute; reflexivity]
                         |etrans; [exact H3|vm_compute; reflexivity]|].
  apply H4. exists (mkNode 4 14 (make_pair 3 68)). vm_compute. reflexivity.
Defined.

Lemma copy_assign_spec_witness :
  ∃ s', copy_assign (m_buckets demo) [41; 42; 43; 44] both = Some ([], s') ∧
        eval walk s'
        = Some [make_pair 1 65; make_pair 2 66; make_pair 3 68; make_pair 13 69] ∧
        m_end <$> m_buckets s' = copy_sentinels.
Proof.
  destruct both_apart as (css & HI & Ha).
  destruct (copy_assign_spec hash key_equal 0 0 BUCKET_COUNT past_the_end
              bucket_count_range int_equal_sym int_equal_trans
              both css (m_buckets demo) demo_css [41; 42; 43; 44] HI Ha)
    as (s' & css' & H1 & _ & _ & _ & H2 & H3 & _).
  - apply (bool_decide_unpack _). vm_compute. exact I.
  - repeat (apply List.Forall_cons;
            [split; [unfold valid_address, SIZE_MAX1; lia|left; vm_compute; reflexivity]|]).
    apply List.Forall_nil.
  - simpl. lia.
  - exists s'. split_and!; [exact H1|etrans; [exact H3|vm_compute; reflexivity]
                           |etrans; [exact H2|vm_compute; reflexivity]].
Defined.

Lemma both_run : run copy_ops both = Some (tt, both_after).
Proof. vm_compute. reflexivity. Qed.

Lemma maps_stay_independent_witness :
  eval walk both_after
  = Some [make_pair 1 65; make_pair 2 66; make_pair 13 69; make_pair 5 70] ∧
  eval walk (with_buckets (m_buckets demo) both_after)
  = Some [make_pair 1 65; make_pair 2 66; make_pair 3 68; make_pair 13 69].
Proof.
  destruct both_apart as (css & HI & Ha).
  destruct (maps_stay_independent hash key_equal 0 0 BUCKET_COUNT past_the_end
              bucket_count_range int_equal_refl int_equal_sym int_equal_trans
              both css (m_buckets demo) demo_css copy_ops both_after HI Ha both_run)
    as (css' & _ & _ & _ & H1 & _).
  split; [vm_compute; reflexivity|].
  etrans; [exact H1|vm_compute; reflexivity].
Defined.

Lemma set_pair_new_key_witness :
  ∃ s', Reference_set_pair (mkReference 12) (make_pair 7 90) demo = Some (tt, s') ∧
        eval walk s'
        = Some [make_pair 1 65; make_pair 7 90; make_pair 3 68; make_pair 13 69] ∧
        eval size_of s' = Some 4 ∧
        eval (stored 7) s' = Some None ∧ eval (stored 2) s' = Some None ∧
        erase 7 s' = Some (tt, s').
Proof.
  destruct (set_pair_new_key hash key_equal BUCKET_COUNT past_the_end
              bucket_count_range int_equal_refl int_equal_sym int_equal_trans
              hash_int_equal demo demo_css (mkIterator 2 (mkReference 12))
              (12, make_pair 2 66) ([] ++ concat (drop 3 demo_css)) (make_pair 7 90))
    as (s' & front & H1 & H2 & H3 & H4 & H5 & H6 & H7).
  - exact demo_Inv.
  - apply (position_on BUCKET_COUNT demo_css _ 2 [] (12, make_pair 2 66) []);
      reflexivity.
  - vm_compute. discriminate.
  - vm_compute. reflexivity.
  - exists s'. split_and!; [exact H1| |etrans; [exact H4|vm_compute; reflexivity]
                           |exact H5|exact H6|exact H7].
    assert (H0 : eval walk demo
                 = Some ([make_pair 1 65]
                         ++ [make_pair 2 66; make_pair 3 68; make_pair 13 69]))
      by (vm_compute; reflexivity).
    unfold walk in H0. rewrite H0 in H2. injection H2 as H2.
    destruct (app_inj_2 [make_pair 1 65] front
                [make_pair 2 66; make_pair 3 68; make_pair 13 69] _ eq_refl H2)
      as [<- _].
    exact H3.
Defined.

End IntChar.
